(** * OSKAR sweep driver ([main.py]): configuration compiler, flattener,
      process runners and sweep orchestrator.

    The Python program is embedded shallowly:
    - YAML documents and settings trees are values of [value] (atoms,
      lists, insertion-ordered dictionaries with string keys);
    - the dictionaries that [generate_beam_ini_data] and
      [generate_interf_ini_data] build and mutate in place live in an
      explicit object store ([heap]), so that object identity and
      aliasing are visible;
    - the process runners and [main] run in a state-and-exception monad
      over a [world] (files, console, created directories, launched
      processes, and the environment's answers).

    The theorems marked C1, C2, ... settle the statements of the
    specification; those marked X1, X2, ... are further properties of the
    code. *)

From Stdlib Require Import ZArith String Ascii List Bool Lia.
From stdpp Require Import base tactics option list strings pretty.

Import ListNotations.
Local Open Scope string_scope.
Local Open Scope list_scope.

(** ** Python values *)

(** Immutable scalars.  A float is carried by the text [str()] prints for
    it: the program never computes with floats, it only prints them. *)
Inductive atom : Type :=
| ANone
| ABool (b : bool)
| AInt (n : Z)
| AFloat (repr : string)
| AStr (s : string).

(** A parsed YAML document or a settings tree. *)
#[local] Unset Elimination Schemes.
Inductive value : Type :=
| VAtom (a : atom)
| VList (xs : list value)
| VDict (items : list (string * value)).

#[local] Set Elimination Schemes.

Definition VNone : value := VAtom ANone.
Definition VBool (b : bool) : value := VAtom (ABool b).
Definition VInt (n : Z) : value := VAtom (AInt n).
Definition VStr (s : string) : value := VAtom (AStr s).

(** ** Strings *)

Definition dquote : ascii := ascii_of_nat 34.
Definition squote : ascii := ascii_of_nat 39.
Definition backslash : ascii := ascii_of_nat 92.

Definition str1 (c : ascii) : string := String c EmptyString.

Definition lower_ascii (c : ascii) : ascii :=
  let n := nat_of_ascii c in
  if (65 <=? n)%nat && (n <=? 90)%nat then ascii_of_nat (n + 32) else c.

(** [str.lower()] on ASCII text. *)
Fixpoint lower (s : string) : string :=
  match s with
  | EmptyString => EmptyString
  | String c rest => String (lower_ascii c) (lower rest)
  end.

Fixpoint str_mem (c : ascii) (s : string) : bool :=
  match s with
  | EmptyString => false
  | String c' rest => if Ascii.eqb c c' then true else str_mem c rest
  end.

Fixpoint all_chars (f : ascii -> bool) (s : string) : bool :=
  match s with
  | EmptyString => true
  | String c rest => f c && all_chars f rest
  end.

(** [needle in haystack] for strings. *)
Fixpoint str_contains (needle haystack : string) : bool :=
  if String.prefix needle haystack then true
  else match haystack with
       | EmptyString => false
       | String _ rest => str_contains needle rest
       end.

Definition hex_digit (n : nat) : ascii :=
  if (n <? 10)%nat then ascii_of_nat (48 + n) else ascii_of_nat (87 + n).

(** One character of [repr(str)], for the quote character [q]. *)
Definition repr_char (q c : ascii) : string :=
  let n := nat_of_ascii c in
  if Ascii.eqb c backslash then String backslash (str1 backslash)
  else if Ascii.eqb c q then String backslash (str1 q)
  else if (n =? 9)%nat then String backslash "t"
  else if (n =? 10)%nat then String backslash "n"
  else if (n =? 13)%nat then String backslash "r"
  else if (n <? 32)%nat || (n =? 127)%nat
       then String backslash (String "x" (String (hex_digit (n / 16)) (str1 (hex_digit (n mod 16)))))
  else str1 c.

Fixpoint repr_chars (q : ascii) (s : string) : string :=
  match s with
  | EmptyString => EmptyString
  | String c rest => repr_char q c +:+ repr_chars q rest
  end.

(** [repr(s)] for a string: single quotes unless the text has a single
    quote and no double quote. *)
Definition repr_str (s : string) : string :=
  let q := if str_mem squote s && negb (str_mem dquote s) then dquote else squote in
  str1 q +:+ repr_chars q s +:+ str1 q.

(** [str(a)] for a scalar. *)
Definition str_atom (a : atom) : string :=
  match a with
  | ANone => "None"
  | ABool true => "True"
  | ABool false => "False"
  | AInt n => pretty n
  | AFloat r => r
  | AStr s => s
  end.

Definition repr_atom (a : atom) : string :=
  match a with
  | AStr s => repr_str s
  | _ => str_atom a
  end.

Fixpoint join (sep : string) (parts : list string) : string :=
  match parts with
  | [] => ""
  | [p] => p
  | p :: rest => p +:+ sep +:+ join sep rest
  end.

(** [repr(v)]: containers print their elements with [repr]. *)
Fixpoint py_repr (v : value) : string :=
  match v with
  | VAtom a => repr_atom a
  | VList xs => "[" +:+ join ", " (map py_repr xs) +:+ "]"
  | VDict items =>
      "{" +:+ join ", " (map (fun kv => repr_str (fst kv) +:+ ": " +:+ py_repr (snd kv)) items) +:+ "}"
  end.

(** [str(v)]. *)
Definition py_str (v : value) : string :=
  match v with
  | VAtom a => str_atom a
  | _ => py_repr v
  end.

(** ** Dictionaries: insertion-ordered association lists *)

Section Dict.
Context {V : Type}.

(** [d.get(k)] as an option. *)
Fixpoint dict_lookup (k : string) (d : list (string * V)) : option V :=
  match d with
  | [] => None
  | (k', v) :: rest => if String.eqb k k' then Some v else dict_lookup k rest
  end.

(** [d[k] = v]: an existing key keeps its position, a new key goes last. *)
Fixpoint dict_store (k : string) (v : V) (d : list (string * V)) : list (string * V) :=
  match d with
  | [] => [(k, v)]
  | (k', v') :: rest =>
      if String.eqb k k' then (k', v) :: rest else (k', v') :: dict_store k v rest
  end.

(** [d.update(other)]. *)
Definition dict_update (d other : list (string * V)) : list (string * V) :=
  fold_left (fun acc kv => dict_store (fst kv) (snd kv) acc) other d.

End Dict.

(** ** The flattener *)

(** The body of the loop of [_flatten_settings_for_configparser] for one
    item [(key, value)], threading [flat_dict]. *)
Fixpoint flatten_item (flat_dict : list (string * string)) (prefix key : string)
    (v : value) {struct v} : list (string * string) :=
  match v with
  | VAtom ANone => flat_dict
  | VDict sub =>
      dict_update flat_dict
        (fold_left (fun acc kv => flatten_item acc (prefix +:+ key +:+ "/") (fst kv) (snd kv))
                   sub [])
  | VAtom (ABool _) => dict_store (prefix +:+ key) (lower (py_str v)) flat_dict
  | _ => dict_store (prefix +:+ key) (py_str v) flat_dict
  end.

Definition _flatten_settings_for_configparser
    (settings_dict : list (string * value)) (prefix : string) : list (string * string) :=
  fold_left (fun flat_dict kv => flatten_item flat_dict prefix (fst kv) (snd kv))
            settings_dict [].

(** ** Exceptions and the state-and-exception monad *)

Inductive exn_kind : Type :=
| FileNotFoundError
| KeyError
| TypeError
| AttributeError
| ValueError
| IndexError
| RecursionError
| YAMLError
| OSError.

(** A raised exception: its class and the text [str(e)] prints. *)
Inductive exn : Type := Exn (kind : exn_kind) (msg : string).

Inductive outcome (A : Type) : Type :=
| Ret (a : A)
| Raise (e : exn).
Arguments Ret {A} a.
Arguments Raise {A} e.

(** A computation over a state [S]: it ends with a result or a raised
    exception, and the effects made before a raise stay in the state. *)
Definition M (S A : Type) : Type := S -> outcome A * S.

Definition ret {S A} (a : A) : M S A := fun s => (Ret a, s).
Definition raise {S A} (e : exn) : M S A := fun s => (Raise e, s).
Definition bind {S A B} (m : M S A) (f : A -> M S B) : M S B :=
  fun s => match m s with
           | (Ret a, s') => f a s'
           | (Raise e, s') => (Raise e, s')
           end.

Declare Scope monad_scope.
Delimit Scope monad_scope with M.
Notation "x <- m ;; k" := (bind m (fun x => k))
  (at level 100, m at next level, right associativity) : monad_scope.
Notation "m ;; k" := (bind m (fun _ => k))
  (at level 100, right associativity) : monad_scope.
Local Open Scope monad_scope.

(** [for x in xs: body(x)]. *)
Fixpoint for_each {S A} (xs : list A) (body : A -> M S unit) : M S unit :=
  match xs with
  | [] => ret tt
  | x :: rest => body x ;; for_each rest body
  end.

(** [try: m  except Exception as e: handler(e)]. *)
Definition try_except {S A} (m : M S A) (handler : exn -> M S A) : M S A :=
  fun s => match m s with
           | (Ret a, s') => (Ret a, s')
           | (Raise e, s') => handler e s'
           end.

(** [try: m  finally: fin].  The [finally] block runs on every exit; when
    it ends normally the outcome of [m] (result or exception) stands. *)
Definition try_finally {S A} (m : M S A) (fin : M S unit) : M S A :=
  fun s => match m s with
           | (r, s') => match fin s' with
                        | (Ret _, s'') => (r, s'')
                        | (Raise e, s'') => (Raise e, s'')
                        end
           end.

(** ** The object store *)

Abbreviation loc := nat (only parsing).

(** What a variable or a container slot holds: a scalar, or a reference
    to a mutable object. *)
Inductive hval : Type :=
| HAtom (a : atom)
| HRef (l : loc).

Definition HNone : hval := HAtom ANone.
Definition HStr (s : string) : hval := HAtom (AStr s).
Definition HBool (b : bool) : hval := HAtom (ABool b).

Inductive obj : Type :=
| ODict (items : list (string * hval))
| OList (xs : list hval).

Abbreviation heap := (list obj) (only parsing).

(** The dictionary a value refers to, if it refers to one. *)
Definition as_dict (h : heap) (v : hval) : option (loc * list (string * hval)) :=
  match v with
  | HRef l => match h !! l with
              | Some (ODict items) => Some (l, items)
              | _ => None
              end
  | HAtom _ => None
  end.

Definition type_name (h : heap) (v : hval) : string :=
  match v with
  | HAtom ANone => "NoneType"
  | HAtom (ABool _) => "bool"
  | HAtom (AInt _) => "int"
  | HAtom (AFloat _) => "float"
  | HAtom (AStr _) => "str"
  | HRef l => match h !! l with
              | Some (ODict _) => "dict"
              | _ => "list"
              end
  end.

Definition no_attribute (h : heap) (v : hval) (attr : string) : exn :=
  Exn AttributeError
      (str1 squote +:+ type_name h v +:+ str1 squote +:+ " object has no attribute "
       +:+ str1 squote +:+ attr +:+ str1 squote).

(** [{}]: a new empty dictionary. *)
Definition new_dict : M heap hval :=
  fun h => (Ret (HRef (length h)), h ++ [ODict []]).

(** [k in d]. *)
Definition dict_contains (d : hval) (k : string) : M heap bool :=
  fun h => match d with
           | HAtom (AStr s) => (Ret (str_contains k s), h)
           | HAtom _ => (Raise (Exn TypeError ("argument of type " +:+ type_name h d +:+ " is not iterable")), h)
           | HRef l =>
               match h !! l with
               | Some (ODict items) => (Ret (bool_decide (is_Some (dict_lookup k items))), h)
               | Some (OList xs) => (Ret (existsb (fun x => match x with
                                                           | HAtom (AStr s) => String.eqb s k
                                                           | _ => false
                                                           end) xs), h)
               | None => (Raise (Exn TypeError "dangling reference"), h)
               end
           end.

(** [d[k]]. *)
Definition dict_getitem (d : hval) (k : string) : M heap hval :=
  fun h => match as_dict h d with
           | Some (_, items) =>
               match dict_lookup k items with
               | Some v => (Ret v, h)
               | None => (Raise (Exn KeyError (repr_str k)), h)
               end
           | None => (Raise (Exn TypeError (type_name h d +:+ " indices must be integers")), h)
           end.

(** [d.get(k, default)]. *)
Definition dict_get (d : hval) (k : string) (default : hval) : M heap hval :=
  fun h => match as_dict h d with
           | Some (_, items) => (Ret (from_option id default (dict_lookup k items)), h)
           | None => (Raise (no_attribute h d "get"), h)
           end.

(** The store after [d[k] = v] for the dictionary at [l]. *)
Definition heap_store (l : loc) (k : string) (v : hval) (h : heap) : heap :=
  match h !! l with
  | Some (ODict items) => <[l := ODict (dict_store k v items)]> h
  | _ => h
  end.

(** The store after [xs.append(v)] for the list at [l]. *)
Definition heap_append (l : loc) (v : hval) (h : heap) : heap :=
  match h !! l with
  | Some (OList xs) => <[l := OList (xs ++ [v])]> h
  | _ => h
  end.

(** [d[k] = v]. *)
Definition dict_setitem (d : hval) (k : string) (v : hval) : M heap unit :=
  fun h => match as_dict h d with
           | Some (l, _) => (Ret tt, heap_store l k v h)
           | None => (Raise (Exn TypeError
                        (str1 squote +:+ type_name h d +:+ str1 squote
                         +:+ " object does not support item assignment")), h)
           end.

(** [d.setdefault(k, default)]. *)
Definition dict_setdefault (d : hval) (k : string) (default : hval) : M heap hval :=
  fun h => match as_dict h d with
           | Some (l, items) =>
               match dict_lookup k items with
               | Some v => (Ret v, h)
               | None => (Ret default, heap_store l k default h)
               end
           | None => (Raise (no_attribute h d "setdefault"), h)
           end.

(** [list(d.items())]: the items at the time the loop starts. *)
Definition dict_items (d : hval) : M heap (list (string * hval)) :=
  fun h => match as_dict h d with
           | Some (_, items) => (Ret items, h)
           | None => (Raise (no_attribute h d "items"), h)
           end.

(** [d.get(k, {})] and [d.setdefault(k, {})]: the empty dictionary is
    built before the call, whether it is used or not. *)
Definition get_or_empty (d : hval) (k : string) : M heap hval :=
  e <- new_dict ;; dict_get d k e.
Definition setdefault_empty (d : hval) (k : string) : M heap hval :=
  e <- new_dict ;; dict_setdefault d k e.

(** Truth value of an object in a condition. *)
Definition truthy_atom (a : atom) : bool :=
  match a with
  | ANone => false
  | ABool b => b
  | AInt n => negb (n =? 0)%Z
  | AFloat r => negb (String.eqb r "0.0" || String.eqb r "-0.0")
  | AStr s => negb (String.eqb s "")
  end.

Definition truthy (h : heap) (v : hval) : bool :=
  match v with
  | HAtom a => truthy_atom a
  | HRef l => match h !! l with
              | Some (ODict items) => negb (bool_decide (items = []))
              | Some (OList xs) => negb (bool_decide (xs = []))
              | None => true
              end
  end.

(** *** [copy.deepcopy] *)

Fixpoint memo_lookup (l : loc) (memo : list (loc * loc)) : option loc :=
  match memo with
  | [] => None
  | (x, y) :: rest => if Nat.eqb l x then Some y else memo_lookup l rest
  end.

Definition copy_state : Type := (list (loc * loc) * heap)%type.

(** Copy the items of a dictionary into the new dictionary at [y]. *)
Fixpoint copy_items (rec : hval -> copy_state -> option (hval * copy_state))
    (y : loc) (items : list (string * hval)) (st : copy_state) : option copy_state :=
  match items with
  | [] => Some st
  | (k, v) :: rest =>
      match rec v st with
      | Some (v', (memo, h)) => copy_items rec y rest (memo, heap_store y k v' h)
      | None => None
      end
  end.

(** Copy the elements of a list into the new list at [y]. *)
Fixpoint copy_elems (rec : hval -> copy_state -> option (hval * copy_state))
    (y : loc) (xs : list hval) (st : copy_state) : option copy_state :=
  match xs with
  | [] => Some st
  | v :: rest =>
      match rec v st with
      | Some (v', (memo, h)) => copy_elems rec y rest (memo, heap_append y v' h)
      | None => None
      end
  end.

(** [deepcopy(x, memo)]: scalars are returned as they are; a container
    already copied is found in [memo]; otherwise the empty copy is
    created and entered in [memo] before its contents are copied.
    [fuel] bounds the nesting depth. *)
Fixpoint deepcopy_rec (fuel : nat) (x : hval) (st : copy_state) : option (hval * copy_state) :=
  match x with
  | HAtom _ => Some (x, st)
  | HRef l =>
      match memo_lookup l (fst st) with
      | Some y => Some (HRef y, st)
      | None =>
          match fuel with
          | 0 => None
          | S fuel' =>
              let y := length (snd st) in
              match snd st !! l with
              | Some (ODict items) =>
                  option_map (fun st' => (HRef y, st'))
                    (copy_items (deepcopy_rec fuel') y items
                                ((l, y) :: fst st, snd st ++ [ODict []]))
              | Some (OList xs) =>
                  option_map (fun st' => (HRef y, st'))
                    (copy_elems (deepcopy_rec fuel') y xs
                                ((l, y) :: fst st, snd st ++ [OList []]))
              | None => None
              end
          end
      end
  end.

(** [copy.deepcopy(x)].  Every nested call copies a container not yet in
    the memo, so the depth is at most the number of objects
    ([deepcopy_returns] below). *)
Definition deepcopy (x : hval) : M heap hval :=
  fun h => match deepcopy_rec (S (length h)) x ([], h) with
           | Some (y, (_, h')) => (Ret y, h')
           | None => (Raise (Exn RecursionError "maximum recursion depth exceeded"), h)
           end.

(** ** Paths *)

(** A [pathlib] path: whether it starts at the root, and its components.
    Empty and ["."] components are dropped when a path is built; a leading
    ["//"] is identified with ["/"], as Linux does. *)
Record Path : Type := mkPath { absolute : bool; parts : list string }.

Fixpoint split_on (sep : ascii) (s : string) : list string :=
  match s with
  | EmptyString => [""]
  | String c rest =>
      if Ascii.eqb c sep then "" :: split_on sep rest
      else match split_on sep rest with
           | [] => [str1 c]
           | w :: ws => String c w :: ws
           end
  end.

Definition is_dot_or_empty (p : string) : bool := String.eqb p "" || String.eqb p ".".

(** [Path(s)]. *)
Definition path_of_string (s : string) : Path :=
  {| absolute := String.prefix "/" s;
     parts := List.filter (fun p => negb (is_dot_or_empty p)) (split_on "/" s) |}.

(** [str(p)]. *)
Definition path_str (p : Path) : string :=
  if absolute p then "/" +:+ join "/" (parts p)
  else match parts p with
       | [] => "."
       | _ => join "/" (parts p)
       end.

(** [p / s]: an absolute right operand replaces the left one. *)
Definition path_join (p : Path) (s : string) : Path :=
  let q := path_of_string s in
  if absolute q then q
  else {| absolute := absolute p; parts := parts p ++ parts q |}.

(** The loop of [os.path.normpath], with the components kept so far in
    reverse order. *)
Fixpoint norm_parts (is_abs : bool) (kept : list string) (comps : list string) : list string :=
  match comps with
  | [] => rev kept
  | c :: rest =>
      if is_dot_or_empty c then norm_parts is_abs kept rest
      else if String.eqb c ".." then
        match kept with
        | top :: kept' =>
            if String.eqb top ".." then norm_parts is_abs (c :: kept) rest
            else norm_parts is_abs kept' rest
        | [] => if is_abs then norm_parts is_abs [] rest
                else norm_parts is_abs [c] rest
        end
      else norm_parts is_abs (c :: kept) rest
  end.

(** What the platform answers, whatever the program does: the working
    directory of the process ([os.getcwd()], as components), the canonical
    path of a path ([Path.resolve()], which follows symbolic links), and
    the document a YAML text parses to ([yaml.safe_load], [None] for a
    text it rejects), and what [str.format] makes of a replacement field
    that is not a plain keyword: [format_field kwargs s] is the result of
    [s.format] with the keyword arguments [kwargs] for a text [s] that
    starts with a replacement
    field with a conversion, a format specification, an attribute, an
    index, a number too long for an index or a name outside ASCII (the
    model of [str.format] below hands these over, and formats the rest
    itself). *)
Record env : Type := mkEnv {
  getcwd : list string;
  realpath : Path -> Path;
  yaml_safe_load : string -> option value;
  format_field : list (string * value) -> string -> exn + string
}.

(** [os.path.abspath(p)], as components: join with the working directory
    when relative, then normalize. *)
Definition abspath (E : env) (p : Path) : list string :=
  norm_parts true [] (if absolute p then parts p else getcwd E ++ parts p).

Fixpoint common_prefix_len (xs ys : list string) : nat :=
  match xs, ys with
  | x :: xs', y :: ys' => if String.eqb x y then S (common_prefix_len xs' ys') else 0
  | _, _ => 0
  end.

(** [os.path.relpath(path, start)]. *)
Definition relpath (E : env) (path start : Path) : string :=
  let start_list := abspath E start in
  let path_list := abspath E path in
  let i := common_prefix_len start_list path_list in
  let rel_list := repeat ".." (length start_list - i) ++ drop i path_list in
  match rel_list with
  | [] => "."
  | _ => join "/" rel_list
  end.

(** The right operand of [path / x] must be a string. *)
Definition path_operand (x : hval) : M heap string :=
  fun h => match x with
           | HAtom (AStr s) => (Ret s, h)
           | _ => (Raise (Exn TypeError
                     ("unsupported operand type(s) for /: 'PosixPath' and "
                      +:+ str1 squote +:+ type_name h x +:+ str1 squote)), h)
           end.

(** ** The configuration compiler *)

(** Step 1 of both compilers (lines 482-490 and 647-654): seed the shared
    sections with deep copies of the defaults, or with empty sections. *)
Definition copy_common_sections (oskar_ini_defaults ini_data : hval) : M heap unit :=
  for_each ["General"; "simulator"; "observation"; "telescope"] (fun common_sec_name =>
    present <- dict_contains oskar_ini_defaults common_sec_name ;;
    if (present : bool) then
      section <- dict_getitem oskar_ini_defaults common_sec_name ;;
      copied <- deepcopy section ;;
      dict_setitem ini_data common_sec_name copied
    else
      empty <- new_dict ;;
      dict_setitem ini_data common_sec_name empty).

(** Step 2 (lines 492-501 and 656-665): deep-copy the module's defaults and
    make each of its sections a top-level section. *)
Definition merge_module_sections (oskar_ini_defaults : hval) (module_name : string)
    (ini_data : hval) : M heap unit :=
  module <- get_or_empty oskar_ini_defaults module_name ;;
  module_from_defaults <- deepcopy module ;;
  sections <- dict_items module_from_defaults ;;
  for_each sections (fun kv => dict_setitem ini_data (fst kv) (snd kv)).

(** [General] (lines 505-510 and 669-673). *)
Definition populate_general (oskar_ini_defaults ini_data : hval) (app : string) : M heap unit :=
  general <- setdefault_empty ini_data "General" ;;
  dict_setitem general "app" (HStr app) ;;
  general_defaults <- get_or_empty oskar_ini_defaults "General" ;;
  version <- dict_get general_defaults "version" (HStr "unknown") ;;
  general' <- dict_getitem ini_data "General" ;;
  dict_setitem general' "version" version.

(** [cfg[k] = defaults.get(k)]. *)
Definition copy_field (defaults cfg : hval) (k : string) : M heap unit :=
  v <- dict_get defaults k HNone ;;
  dict_setitem cfg k v.

(** [simulator] (lines 512-516 and 675-679). *)
Definition populate_simulator (oskar_ini_defaults ini_data : hval) : M heap unit :=
  sim_defaults <- get_or_empty oskar_ini_defaults "simulator" ;;
  sim_cfg <- setdefault_empty ini_data "simulator" ;;
  copy_field sim_defaults sim_cfg "use_gpus" ;;
  copy_field sim_defaults sim_cfg "double_precision".

(** [observation] (lines 518-530 and 681-691). *)
Definition populate_observation (oskar_ini_defaults current_pc_config ini_data : hval)
    : M heap unit :=
  obs_cfg <- setdefault_empty ini_data "observation" ;;
  obs_defaults <- get_or_empty oskar_ini_defaults "observation" ;;
  ra_deg <- dict_getitem current_pc_config "ra_deg" ;;
  dict_setitem obs_cfg "phase_centre_ra_deg" ra_deg ;;
  dec_deg <- dict_getitem current_pc_config "dec_deg" ;;
  dict_setitem obs_cfg "phase_centre_dec_deg" dec_deg ;;
  start_time_utc <- dict_getitem current_pc_config "start_time_utc" ;;
  dict_setitem obs_cfg "start_time_utc" start_time_utc ;;
  copy_field obs_defaults obs_cfg "start_frequency_hz" ;;
  copy_field obs_defaults obs_cfg "frequency_inc_hz" ;;
  copy_field obs_defaults obs_cfg "num_channels" ;;
  copy_field obs_defaults obs_cfg "length" ;;
  copy_field obs_defaults obs_cfg "num_time_steps".

(** Effective errors (lines 577-588 and 732-742). *)
Definition populate_element_errors (current_pc_config global_run_settings
    arr_pattern_el_cfg : hval) : M heap unit :=
  is_errors_globally_on <- dict_get global_run_settings "include_telescope_errors" (HBool false) ;;
  on <- (fun h => (Ret (truthy h is_errors_globally_on), h)) ;;
  effective <-
    (if (on : bool) then
       eff_gain_std <- dict_get current_pc_config "gain_error_std" (HStr "0.0") ;;
       eff_phase_std <- dict_get current_pc_config "phase_error_std" (HStr "0.0") ;;
       ret (eff_gain_std, eff_phase_std)
     else ret (HStr "0.0", HStr "0.0")) ;;
  dict_setitem arr_pattern_el_cfg "x_gain_error_time" (fst effective) ;;
  dict_setitem arr_pattern_el_cfg "y_gain_error_time" (fst effective) ;;
  dict_setitem arr_pattern_el_cfg "x_phase_error_time_deg" (snd effective) ;;
  dict_setitem arr_pattern_el_cfg "y_phase_error_time_deg" (snd effective).

(** [telescope] (lines 532-588 and 693-742). *)
Definition populate_telescope (E : env)
    (oskar_ini_defaults current_tel_config current_pc_config global_run_settings
     ini_data : hval)
    (current_run_specific_output_dir project_root_path : Path) : M heap unit :=
  tel_cfg_sec <- setdefault_empty ini_data "telescope" ;;
  tel_defaults <- get_or_empty oskar_ini_defaults "telescope" ;;
  oskar_input_directory <- dict_getitem current_tel_config "oskar_input_directory" ;;
  input_dir <- path_operand oskar_input_directory ;;
  let tel_input_dir_abs := realpath E (path_join project_root_path input_dir) in
  dict_setitem tel_cfg_sec "input_directory"
    (HStr (relpath E tel_input_dir_abs current_run_specific_output_dir)) ;;
  ap_array_cfg <- setdefault_empty tel_cfg_sec "aperture_array" ;;
  el_pattern_cfg <- setdefault_empty ap_array_cfg "element_pattern" ;;
  arr_pattern <- setdefault_empty ap_array_cfg "array_pattern" ;;
  arr_pattern_el_cfg <- setdefault_empty arr_pattern "element" ;;
  ap_defaults <- get_or_empty tel_defaults "aperture_array" ;;
  el_pattern_defaults <- get_or_empty ap_defaults "element_pattern" ;;
  ap_defaults' <- get_or_empty tel_defaults "aperture_array" ;;
  arr_pattern_defaults <- get_or_empty ap_defaults' "array_pattern" ;;
  arr_el_defaults <- get_or_empty arr_pattern_defaults "element" ;;
  enable_numerical <- dict_get el_pattern_defaults "enable_numerical" (HBool false) ;;
  dict_setitem el_pattern_cfg "enable_numerical" enable_numerical ;;
  copy_field arr_el_defaults arr_pattern_el_cfg "x_gain" ;;
  copy_field arr_el_defaults arr_pattern_el_cfg "y_gain" ;;
  copy_field arr_el_defaults arr_pattern_el_cfg "x_phase_error_fixed_deg" ;;
  copy_field arr_el_defaults arr_pattern_el_cfg "y_phase_error_fixed_deg" ;;
  populate_element_errors current_pc_config global_run_settings arr_pattern_el_cfg.

(** [beam_pattern] (lines 590-612). *)
Definition populate_beam_pattern (oskar_ini_defaults global_output_config beam_ini_data : hval)
    : M heap unit :=
  beam_pattern_cfg_sec <- setdefault_empty beam_ini_data "beam_pattern" ;;
  beam_module <- get_or_empty oskar_ini_defaults "beam_pattern_module" ;;
  beam_pattern_module_defaults <- get_or_empty beam_module "beam_pattern" ;;
  beam_image_cfg <- setdefault_empty beam_pattern_cfg_sec "beam_image" ;;
  beam_image_defaults <- get_or_empty beam_pattern_module_defaults "beam_image" ;;
  copy_field beam_image_defaults beam_image_cfg "fov_deg" ;;
  root_path <- dict_get global_output_config "beam_root_path_base" (HStr "beam_output_default") ;;
  dict_setitem beam_pattern_cfg_sec "root_path" root_path ;;
  station_outputs <- setdefault_empty beam_pattern_cfg_sec "station_outputs" ;;
  station_outputs_cfg <- setdefault_empty station_outputs "fits_image" ;;
  station_outputs_module <- get_or_empty beam_pattern_module_defaults "station_outputs" ;;
  station_outputs_defaults <- get_or_empty station_outputs_module "fits_image" ;;
  amp <- dict_get station_outputs_defaults "amp" (HBool true) ;;
  dict_setitem station_outputs_cfg "amp" amp.

Definition generate_beam_ini_data (E : env)
    (oskar_ini_defaults current_tel_config current_pc_config global_run_settings
     global_output_config : hval)
    (current_run_specific_output_dir project_root_path : Path) : M heap hval :=
  beam_ini_data <- new_dict ;;
  copy_common_sections oskar_ini_defaults beam_ini_data ;;
  merge_module_sections oskar_ini_defaults "beam_pattern_module" beam_ini_data ;;
  populate_general oskar_ini_defaults beam_ini_data "oskar_sim_beam_pattern" ;;
  populate_simulator oskar_ini_defaults beam_ini_data ;;
  populate_observation oskar_ini_defaults current_pc_config beam_ini_data ;;
  populate_telescope E oskar_ini_defaults current_tel_config current_pc_config
    global_run_settings beam_ini_data current_run_specific_output_dir project_root_path ;;
  populate_beam_pattern oskar_ini_defaults global_output_config beam_ini_data ;;
  ret beam_ini_data.

(** [interferometer] (lines 744-756). *)
Definition populate_interferometer (oskar_ini_defaults global_output_config
    interf_ini_data : hval) : M heap unit :=
  interf_sec_cfg <- setdefault_empty interf_ini_data "interferometer" ;;
  interf_module <- get_or_empty oskar_ini_defaults "interferometer_module" ;;
  interf_module_defaults <- get_or_empty interf_module "interferometer" ;;
  ms_filename <- dict_get global_output_config "interf_ms_base_filename" (HStr "vis_default.ms") ;;
  dict_setitem interf_sec_cfg "ms_filename" ms_filename ;;
  copy_field interf_module_defaults interf_sec_cfg "channel_bandwidth_hz" ;;
  copy_field interf_module_defaults interf_sec_cfg "time_average_sec".

(** [sky] (lines 758-776). *)
Definition populate_sky (E : env) (oskar_ini_defaults current_sky_config
    interf_ini_data : hval) (sky_models_base_dir : hval)
    (current_run_specific_output_dir project_root_path : Path) : M heap unit :=
  sky <- setdefault_empty interf_ini_data "sky" ;;
  sky_sec_cfg <- setdefault_empty sky "oskar_sky_model" ;;
  interf_module <- get_or_empty oskar_ini_defaults "interferometer_module" ;;
  sky_module <- get_or_empty interf_module "sky" ;;
  sky_module_defaults <- get_or_empty sky_module "oskar_sky_model" ;;
  base_dir <- path_operand sky_models_base_dir ;;
  filename <- dict_getitem current_sky_config "filename" ;;
  filename_str <- path_operand filename ;;
  let sky_model_file_abs :=
    realpath E (path_join (path_join project_root_path base_dir) filename_str) in
  dict_setitem sky_sec_cfg "file"
    (HStr (relpath E sky_model_file_abs current_run_specific_output_dir)) ;;
  filter_defaults <- get_or_empty sky_module_defaults "filter" ;;
  radius_outer_deg <- dict_get filter_defaults "radius_outer_deg" HNone ;;
  filter_cfg <- setdefault_empty sky_sec_cfg "filter" ;;
  dict_setitem filter_cfg "radius_outer_deg" radius_outer_deg.

Definition generate_interf_ini_data (E : env)
    (oskar_ini_defaults current_tel_config current_sky_config current_pc_config
     global_run_settings global_output_config : hval)
    (sky_models_base_dir : hval)
    (current_run_specific_output_dir project_root_path : Path) : M heap hval :=
  interf_ini_data <- new_dict ;;
  copy_common_sections oskar_ini_defaults interf_ini_data ;;
  merge_module_sections oskar_ini_defaults "interferometer_module" interf_ini_data ;;
  populate_general oskar_ini_defaults interf_ini_data "oskar_sim_interferometer" ;;
  populate_simulator oskar_ini_defaults interf_ini_data ;;
  populate_observation oskar_ini_defaults current_pc_config interf_ini_data ;;
  populate_telescope E oskar_ini_defaults current_tel_config current_pc_config
    global_run_settings interf_ini_data current_run_specific_output_dir project_root_path ;;
  populate_interferometer oskar_ini_defaults global_output_config interf_ini_data ;;
  populate_sky E oskar_ini_defaults current_sky_config interf_ini_data sky_models_base_dir
    current_run_specific_output_dir project_root_path ;;
  ret interf_ini_data.

(** ** Between documents and the store *)

(** Build the objects of a parsed document in the store, as the YAML
    loader does. *)
Fixpoint load (v : value) (h : heap) : hval * heap :=
  match v with
  | VAtom a => (HAtom a, h)
  | VList xs =>
      let '(ys, h') :=
        fold_left (fun acc x => let '(y, h1) := load x (snd acc) in (fst acc ++ [y], h1))
                  xs ([], h) in
      (HRef (length h'), h' ++ [OList ys])
  | VDict items =>
      let '(items', h') :=
        fold_left (fun acc kv => let '(y, h1) := load (snd kv) (snd acc) in
                                 (fst acc ++ [(fst kv, y)], h1))
                  items ([], h) in
      (HRef (length h'), h' ++ [ODict items'])
  end.

(** Read the tree below a value back from the store; [fuel] bounds the
    depth. *)
Fixpoint reify (fuel : nat) (h : heap) (v : hval) : option value :=
  match v with
  | HAtom a => Some (VAtom a)
  | HRef l =>
      match fuel with
      | 0 => None
      | S fuel' =>
          match h !! l with
          | Some (ODict items) =>
              option_map VDict
                (mapM (fun kv => option_map (pair (fst kv)) (reify fuel' h (snd kv))) items)
          | Some (OList xs) => option_map VList (mapM (reify fuel' h) xs)
          | None => None
          end
      end
  end.

(** Load documents one after the other. *)
Definition load_all (args : list value) (h : heap) : list hval * heap :=
  fold_left (fun acc x => let '(y, h1) := load x (snd acc) in (fst acc ++ [y], h1))
            args ([], h).

(** Run a compiler on documents: load the arguments, compile, and read the
    tree back.  The compilers leave the objects of their arguments as they
    were ([compile_frame] below), so the callers, which only read their
    documents, can work with the documents themselves. *)
Definition run_compiler (args : list value) (compiler : list hval -> M heap hval)
    : exn + value :=
  let '(hargs, h) := load_all args [] in
  match compiler hargs h with
  | (Ret root, h') =>
      match reify (S (length h')) h' root with
      | Some tree => inr tree
      | None => inl (Exn RecursionError "maximum recursion depth exceeded")
      end
  | (Raise e, _) => inl e
  end.

Definition compile_beam (E : env)
    (oskar_ini_defaults current_tel_config current_pc_config global_run_settings
     global_output_config : value)
    (current_run_specific_output_dir project_root_path : Path) : exn + value :=
  run_compiler
    [oskar_ini_defaults; current_tel_config; current_pc_config; global_run_settings;
     global_output_config]
    (fun hargs =>
       match hargs with
       | [d; t; p; r; o] =>
           generate_beam_ini_data E d t p r o current_run_specific_output_dir project_root_path
       | _ => ret HNone
       end).

Definition compile_interf (E : env)
    (oskar_ini_defaults current_tel_config current_sky_config current_pc_config
     global_run_settings global_output_config sky_models_base_dir : value)
    (current_run_specific_output_dir project_root_path : Path) : exn + value :=
  run_compiler
    [oskar_ini_defaults; current_tel_config; current_sky_config; current_pc_config;
     global_run_settings; global_output_config; sky_models_base_dir]
    (fun hargs =>
       match hargs with
       | [d; t; s; p; r; o; b] =>
           generate_interf_ini_data E d t s p r o b
             current_run_specific_output_dir project_root_path
       | _ => ret HNone
       end).

(** ** Reading documents *)

Definition value_type_name (v : value) : string :=
  match v with
  | VAtom ANone => "NoneType"
  | VAtom (ABool _) => "bool"
  | VAtom (AInt _) => "int"
  | VAtom (AFloat _) => "float"
  | VAtom (AStr _) => "str"
  | VList _ => "list"
  | VDict _ => "dict"
  end.

Definition value_no_attribute (v : value) (attr : string) : exn :=
  Exn AttributeError
      (str1 squote +:+ value_type_name v +:+ str1 squote +:+ " object has no attribute "
       +:+ str1 squote +:+ attr +:+ str1 squote).

(** [d.get(k, default)] on a document. *)
Definition vget {S} (d : value) (k : string) (default : value) : M S value :=
  match d with
  | VDict items => ret (from_option id default (dict_lookup k items))
  | _ => raise (value_no_attribute d "get")
  end.

Definition truthy_value (v : value) : bool :=
  match v with
  | VAtom a => truthy_atom a
  | VList xs => negb (bool_decide (xs = []))
  | VDict items => negb (bool_decide (items = []))
  end.

(** A value where the code needs a string ([Path(x)], [path / x],
    [shlex.quote(x)]). *)
Definition require_str {S} (v : value) : M S string :=
  match v with
  | VAtom (AStr s) => ret s
  | _ => raise (Exn TypeError ("expected str, not " +:+ value_type_name v))
  end.

Fixpoint chars (s : string) : list string :=
  match s with
  | EmptyString => []
  | String c rest => str1 c :: chars rest
  end.

(** The elements a [for] loop visits. *)
Definition iterate {S} (v : value) : M S (list value) :=
  match v with
  | VList xs => ret xs
  | VDict items => ret (map (fun kv => VStr (fst kv)) items)
  | VAtom (AStr s) => ret (map VStr (chars s))
  | _ => raise (Exn TypeError
                  (str1 squote +:+ value_type_name v +:+ str1 squote +:+ " object is not iterable"))
  end.

(** [for x in xs: acc = body(x, acc)], for a loop that updates a local
    variable. *)
Fixpoint fold_each {S A B} (xs : list A) (acc : B) (body : A -> B -> M S B) : M S B :=
  match xs with
  | [] => ret acc
  | x :: rest => acc' <- body x acc ;; fold_each rest acc' body
  end.

(** ** [str.format] with keyword arguments *)

(** The characters that end the plain part of a field name: the start of
    a conversion, of a format specification, of an attribute or of an
    index; and the bytes of a character outside ASCII. *)
Definition ends_keyword (c : ascii) : bool :=
  str_mem c "!:.[" || (128 <=? nat_of_ascii c)%nat.

Definition is_digit (c : ascii) : bool :=
  let n := nat_of_ascii c in (48 <=? n)%nat && (n <=? 57)%nat.

(** The number a string of decimal digits writes. *)
Definition decimal_value (s : string) : Z :=
  fold_left (fun acc c => (10 * acc + (Z.of_nat (nat_of_ascii c) - 48))%Z) (list_ascii_of_string s) 0%Z.

(** A field named by a number (or by nothing, which numbers the fields
    automatically) asks for a positional argument, and [format] is called
    with none. *)
Definition no_positional_argument (index : Z) : exn :=
  Exn IndexError ("Replacement index " +:+ pretty index
                  +:+ " out of range for positional args tuple").

(** The formatter goes through the pattern from left to right.
    [field = None]: in literal text.  [field = Some (name, whole)]: inside
    a replacement field of which [name] has been read, [whole] being the
    pattern from the opening brace of that field on.  A field that is a
    keyword is replaced by [str] of its argument; an empty or numeric
    field finds no positional argument; any other field is the
    environment's ([format_field]), with the rest of the pattern. *)
Fixpoint format_go (E : env) (kwargs : list (string * value))
    (field : option (string * string)) (s : string) : exn + string :=
  match field, s with
  | None, EmptyString => inr ""
  | None, String "{" (String "{" rest) =>
      match format_go E kwargs None rest with
      | inr t => inr ("{" +:+ t)
      | inl e => inl e
      end
  | None, String "}" (String "}" rest) =>
      match format_go E kwargs None rest with
      | inr t => inr ("}" +:+ t)
      | inl e => inl e
      end
  | None, String "}" _ => inl (Exn ValueError "Single '}' encountered in format string")
  | None, String "{" EmptyString =>
      inl (Exn ValueError "Single '{' encountered in format string")
  | None, String "{" rest => format_go E kwargs (Some ("", s)) rest
  | None, String c rest =>
      match format_go E kwargs None rest with
      | inr t => inr (String c t)
      | inl e => inl e
      end
  | Some _, EmptyString => inl (Exn ValueError "expected '}' before end of string")
  | Some (name, whole), String "}" rest =>
      if String.eqb name "" then inl (no_positional_argument 0)
      else if all_chars is_digit name then
        if (decimal_value name <=? 2147483647)%Z
        then inl (no_positional_argument (decimal_value name))
        else format_field E kwargs whole
      else
        match dict_lookup name kwargs with
        | None => inl (Exn KeyError (repr_str name))
        | Some v =>
            match format_go E kwargs None rest with
            | inr t => inr (py_str v +:+ t)
            | inl e => inl e
            end
        end
  | Some _, String "{" _ => inl (Exn ValueError "unexpected '{' in field name")
  | Some (name, whole), String c rest =>
      if ends_keyword c then format_field E kwargs whole
      else format_go E kwargs (Some (name +:+ str1 c, whole)) rest
  end.

(** [pattern.format] called with the keyword arguments [kwargs]. *)
Definition str_format {S} (E : env) (pattern : value) (kwargs : list (string * value))
    : M S string :=
  match pattern with
  | VAtom (AStr s) =>
      match format_go E kwargs None s with
      | inr t => ret t
      | inl e => raise e
      end
  | _ => raise (value_no_attribute pattern "format")
  end.

(** ** [get_sky_model_name_no_ext] *)

(** [s.rsplit(".", 1)[0]] when [s] has a dot: the text before the last
    dot; [None] when it has none. *)
Fixpoint before_last_dot (s : string) : option string :=
  match s with
  | EmptyString => None
  | String c rest =>
      match before_last_dot rest with
      | Some r => Some (String c r)
      | None => if Ascii.eqb c "." then Some "" else None
      end
  end.

Definition get_sky_model_name_no_ext {S} (sky_model_filename_basename : value) : M S value :=
  match sky_model_filename_basename with
  | VAtom (AStr s) =>
      match before_last_dot s with
      | Some stem => ret (VStr stem)
      | None => ret sky_model_filename_basename
      end
  | VList xs =>
      if existsb (fun x => match x with VAtom (AStr s) => String.eqb s "." | _ => false end) xs
      then raise (value_no_attribute sky_model_filename_basename "rsplit")
      else ret sky_model_filename_basename
  | VDict items =>
      if bool_decide (is_Some (dict_lookup "." items))
      then raise (value_no_attribute sky_model_filename_basename "rsplit")
      else ret sky_model_filename_basename
  | VAtom _ =>
      raise (Exn TypeError ("argument of type " +:+ value_type_name sky_model_filename_basename
                            +:+ " is not iterable"))
  end.

(** ** The world of the process runners and of [main] *)

(** What [subprocess.run] reports for a process that ran. *)
Record proc_result : Type := mkProc {
  returncode : Z;
  proc_stdout : string;
  proc_stderr : string
}.

(** The file system and the console as the program changes them, and the
    environment's script: for each system call to come, whether it fails
    and how; the time at each reading of the clock; the result of each
    process to come. *)
Record world : Type := mkWorld {
  files : list (string * string);
  mkdirs : list string;
  console : list string;
  launches : list (list string * string);
  faults : list (option exn);
  clock : list string;
  procs : list proc_result
}.

Definition set_files (f : list (string * string)) (w : world) : world :=
  mkWorld f (mkdirs w) (console w) (launches w) (faults w) (clock w) (procs w).
Definition set_mkdirs (d : list string) (w : world) : world :=
  mkWorld (files w) d (console w) (launches w) (faults w) (clock w) (procs w).
Definition set_console (c : list string) (w : world) : world :=
  mkWorld (files w) (mkdirs w) c (launches w) (faults w) (clock w) (procs w).
Definition set_launches (l : list (list string * string)) (w : world) : world :=
  mkWorld (files w) (mkdirs w) (console w) l (faults w) (clock w) (procs w).
Definition set_faults (f : list (option exn)) (w : world) : world :=
  mkWorld (files w) (mkdirs w) (console w) (launches w) f (clock w) (procs w).
Definition set_clock (c : list string) (w : world) : world :=
  mkWorld (files w) (mkdirs w) (console w) (launches w) (faults w) c (procs w).
Definition set_procs (p : list proc_result) (w : world) : world :=
  mkWorld (files w) (mkdirs w) (console w) (launches w) (faults w) (clock w) p.

(** The content of a file; a missing file reads as empty. *)
Definition file_content (path : string) (w : world) : string :=
  from_option id "" (dict_lookup path (files w)).

(** Every system call that can fail asks the environment first. *)
Definition syscall : M world unit :=
  fun w => match faults w with
           | [] => (Ret tt, w)
           | None :: rest => (Ret tt, set_faults rest w)
           | Some e :: rest => (Raise e, set_faults rest w)
           end.

(** [print(s)]. *)
Definition print (s : string) : M world unit :=
  fun w => (Ret tt, set_console (console w ++ [s]) w).

(** [datetime.datetime.now().strftime("%Y-%m-%d %H:%M:%S")]. *)
Definition now : M world string :=
  fun w => match clock w with
           | [] => (Ret "1970-01-01 00:00:00", w)
           | t :: rest => (Ret t, set_clock rest w)
           end.

(** [open(path, "a")]: the file is created when missing and keeps its
    content; the handle is the path. *)
Definition open_append (path : string) : M world string :=
  syscall ;;
  fun w => (Ret path, set_files (dict_store path (file_content path w) (files w)) w).

(** [f.write(s)] on a file opened for appending. *)
Definition write (f : string) (s : string) : M world unit :=
  syscall ;;
  fun w => (Ret tt, set_files (dict_store f (file_content f w +:+ s) (files w)) w).

(** [open(path, "w")] followed by one [write] of the whole text. *)
Definition write_file (path : string) (text : string) : M world unit :=
  syscall ;;
  fun w => (Ret tt, set_files (dict_store path text (files w)) w).

(** [open(path, "r").read()]. *)
Definition read_file (path : string) : M world string :=
  syscall ;;
  fun w => match dict_lookup path (files w) with
           | Some text => (Ret text, w)
           | None => (Raise (Exn FileNotFoundError ("No such file or directory: " +:+ repr_str path)), w)
           end.

(** [path.exists()]. *)
Definition path_exists (p : Path) : M world bool :=
  fun w => (Ret (bool_decide (is_Some (dict_lookup (path_str p) (files w)))
                 || bool_decide (path_str p ∈ mkdirs w)), w).

(** [path.resolve()]. *)
Definition resolve (E : env) (p : Path) : M world Path :=
  syscall ;; ret (realpath E p).

(** [path.mkdir(parents=True, exist_ok=True)]. *)
Definition mkdir (p : Path) : M world unit :=
  syscall ;;
  fun w => (Ret tt, set_mkdirs (mkdirs w ++ [path_str p]) w).

(** [subprocess.run(command, cwd=cwd, check=False, capture_output=True,
    text=True)]: the call is recorded, then the environment says whether
    the executable could be started and what the process reported. *)
Definition subprocess_run (command : list string) (cwd : string) : M world proc_result :=
  (fun w => (Ret tt, set_launches (launches w ++ [(command, cwd)]) w)) ;;
  syscall ;;
  fun w => match procs w with
           | [] => (Ret (mkProc 0 "" ""), w)
           | p :: rest => (Ret p, set_procs rest w)
           end.

(** ** Text helpers of the runners *)

Definition nl : string := str1 (ascii_of_nat 10).

Definition is_space_char (c : ascii) : bool :=
  let n := nat_of_ascii c in
  ((9 <=? n)%nat && (n <=? 13)%nat) || ((28 <=? n)%nat && (n <=? 32)%nat).

(** [not s.strip()]. *)
Fixpoint is_blank (s : string) : bool :=
  match s with
  | EmptyString => true
  | String c rest => is_space_char c && is_blank rest
  end.

Definition shell_safe_char (c : ascii) : bool :=
  let n := nat_of_ascii c in
  ((48 <=? n)%nat && (n <=? 57)%nat) || ((65 <=? n)%nat && (n <=? 90)%nat)
  || ((97 <=? n)%nat && (n <=? 122)%nat) || str_mem c "_@%+=:,./-".

Fixpoint quote_inner (s : string) : string :=
  match s with
  | EmptyString => EmptyString
  | String c rest =>
      if Ascii.eqb c squote
      then String squote (String dquote (String squote (String dquote (String squote (quote_inner rest)))))
      else String c (quote_inner rest)
  end.

(** [shlex.quote(s)]. *)
Definition shlex_quote (s : string) : string :=
  match s with
  | EmptyString => String squote (str1 squote)
  | _ => if all_chars shell_safe_char s then s
         else str1 squote +:+ quote_inner s +:+ str1 squote
  end.

(** [shlex.quote(x)] for whatever the caller passes: a false value is
    answered with two quotes, a string is quoted, anything else is
    refused by the regular-expression search. *)
Definition shlex_quote_value {S} (x : value) : M S string :=
  if negb (truthy_value x) then ret (String squote (str1 squote))
  else match x with
       | VAtom (AStr s) => ret (shlex_quote s)
       | _ => raise (Exn TypeError "expected string or bytes-like object")
       end.

(** [subprocess.run([program, *arguments], cwd=cwd, ...)]: a program that
    is not a string is refused before anything is started. *)
Definition subprocess_run_command (program : value) (arguments : list string) (cwd : string)
    : M world proc_result :=
  match program with
  | VAtom (AStr executable) => subprocess_run (executable :: arguments) cwd
  | _ => raise (Exn TypeError ("expected str, bytes or os.PathLike object, not "
                               +:+ value_type_name program))
  end.

(** [p / q] for two paths. *)
Definition path_join_path (p q : Path) : Path :=
  if absolute q then q
  else {| absolute := absolute p; parts := parts p ++ parts q |}.

(** ** The process runners *)

(** The lines that report a finished process (lines 88-93, 229-234,
    339-344). *)
Definition log_process_output (log_f : string) (process : proc_result) : M world unit :=
  write log_f ("Exit Code: " +:+ pretty (returncode process) +:+ nl +:+ nl) ;;
  write log_f ("--- Stdout ---" +:+ nl) ;;
  write log_f (if is_blank (proc_stdout process) then "<No stdout>" +:+ nl
               else proc_stdout process) ;;
  write log_f (nl +:+ "--- Stderr ---" +:+ nl) ;;
  write log_f (if is_blank (proc_stderr process) then "<No stderr>" +:+ nl
               else proc_stderr process).

(** Lines 102-105, 240-243, 350-353. *)
Definition print_logged_notice (log_file_path : string) (process : proc_result) : M world unit :=
  (if is_blank (proc_stdout process) then ret tt
   else print ("      (stdout logged to " +:+ log_file_path +:+ ")")) ;;
  (if is_blank (proc_stderr process) then ret tt
   else print ("      (stderr logged to " +:+ log_file_path +:+ ")")).

(** Lines 114-119, 251-256, 363-368. *)
Definition print_process_output (process : proc_result) : M world unit :=
  (if is_blank (proc_stdout process) then ret tt
   else print "    Stdout from error:" ;; print (proc_stdout process)) ;;
  (if is_blank (proc_stderr process) then ret tt
   else print "    Stderr from error:" ;; print (proc_stderr process)).

(** The [except] clauses (lines 122-144, 259-280, 371-392): both report on
    the console, try to log, swallow a failure of that logging, and return
    [False]. *)
Definition handle_runner_exception (log_file_path executable_path unexpected_prefix : string)
    (e : exn) : M world bool :=
  match e with
  | Exn FileNotFoundError _ =>
      let error_msg := "    ERROR: Executable '" +:+ executable_path
                       +:+ "' not found. Please check your PATH or configuration." in
      print error_msg ;;
      try_except
        (log_f_err <- open_append log_file_path ;;
         write log_f_err ("!!! FATAL ERROR: " +:+ error_msg +:+ " !!!" +:+ nl) ;;
         write log_f_err ("--- Simulation Not Started ---" +:+ nl +:+ nl))
        (fun _ => ret tt) ;;
      ret false
  | Exn _ msg =>
      let error_msg := unexpected_prefix +:+ msg in
      print error_msg ;;
      try_except
        (log_f_err <- open_append log_file_path ;;
         write log_f_err ("!!! UNEXPECTED FATAL ERROR: " +:+ error_msg +:+ " !!!" +:+ nl) ;;
         write log_f_err ("--- Simulation State Unknown ---" +:+ nl +:+ nl))
        (fun _ => ret tt) ;;
      ret false
  end.

(** The text of the closing log entry. *)
Definition conclusion_entry (what final_time : string) : string :=
  "--- Logging for this " +:+ what +:+ " concluded at " +:+ final_time +:+ " ---" +:+ nl +:+ nl.

(** The [finally] clauses (lines 145-159, 281-289, 393-401). *)
Definition log_conclusion (log_file_path what : string) : M world unit :=
  try_except
    (log_f_final <- open_append log_file_path ;;
     final_time <- now ;;
     write log_f_final (conclusion_entry what final_time))
    (fun _ => ret tt).

Definition run_oskar_sim_interf (E : env) (executable_path : value)
    (ini_file_path cwd_path : Path) (is_dry_run : value) : M world bool :=
  let log_file_path := path_str (path_join cwd_path "run.log") in
  quoted_executable <- shlex_quote_value executable_path ;;
  let shell_like_command_display :=
    quoted_executable +:+ " " +:+ shlex_quote (path_str ini_file_path) in
  try_finally
    (try_except
       (log_f <- open_append log_file_path ;;
        current_time <- now ;;
        write log_f ("--- Attempting OSKAR Interferometer simulation at " +:+ current_time
                     +:+ " ---" +:+ nl) ;;
        cwd_resolved <- resolve E cwd_path ;;
        write log_f ("Run Directory (CWD): " +:+ path_str cwd_resolved +:+ nl) ;;
        ini_shown <- (if absolute ini_file_path then resolve E ini_file_path
                      else ret (path_join_path cwd_path ini_file_path)) ;;
        write log_f ("INI File: " +:+ path_str ini_shown +:+ nl) ;;
        write log_f ("Command to be executed in CWD: " +:+ shell_like_command_display
                     +:+ nl +:+ nl) ;;
        ini_exists <- path_exists ini_file_path ;;
        if negb ini_exists then
          let error_msg := "    ERROR: Interferometer INI file not found at "
                           +:+ path_str ini_file_path in
          print error_msg ;;
          write log_f ("ERROR: " +:+ error_msg +:+ nl) ;;
          write log_f ("--- Simulation Not Started ---" +:+ nl +:+ nl) ;;
          ret false
        else if truthy_value is_dry_run then
          print ("    [DRY RUN] Would execute: " +:+ shell_like_command_display
                 +:+ " (from CWD: " +:+ path_str cwd_path +:+ ")") ;;
          write log_f ("[DRY RUN] Command not executed." +:+ nl) ;;
          write log_f ("--- Dry Run Concluded ---" +:+ nl +:+ nl) ;;
          ret true
        else
          print "    Executing OSKAR Interferometer simulation..." ;;
          process <- subprocess_run_command executable_path [path_str ini_file_path]
                       (path_str cwd_path) ;;
          log_process_output log_f process ;;
          if (returncode process =? 0)%Z then
            print "    OSKAR Interferometer simulation finished successfully." ;;
            write log_f (nl +:+ "--- Simulation Successful ---" +:+ nl) ;;
            print_logged_notice log_file_path process ;;
            ret true
          else
            print ("    ERROR: OSKAR Interferometer simulation failed with exit code "
                   +:+ pretty (returncode process) +:+ ".") ;;
            write log_f (nl +:+ "!!! ERROR: Simulation Failed (Exit Code: "
                         +:+ pretty (returncode process) +:+ ") !!!" +:+ nl) ;;
            print_process_output process ;;
            ret false)
       (handle_runner_exception log_file_path (py_str executable_path)
          "    ERROR: An unexpected error occurred: "))
    (log_conclusion log_file_path "attempt").

Definition run_oskar_sim_beam (E : env) (executable_path : value)
    (ini_file_path cwd_path : Path) (is_dry_run : value) : M world bool :=
  let log_file_path := path_str (path_join cwd_path "run.log") in
  quoted_executable <- shlex_quote_value executable_path ;;
  let shell_like_command_display :=
    quoted_executable +:+ " " +:+ shlex_quote (path_str ini_file_path) in
  try_finally
    (try_except
       (log_f <- open_append log_file_path ;;
        current_time <- now ;;
        write log_f ("--- Attempting OSKAR Beam Pattern simulation at " +:+ current_time
                     +:+ " ---" +:+ nl) ;;
        cwd_resolved <- resolve E cwd_path ;;
        write log_f ("Run Directory (CWD): " +:+ path_str cwd_resolved +:+ nl) ;;
        ini_shown <- (if absolute ini_file_path then resolve E ini_file_path
                      else ret (path_join_path cwd_path ini_file_path)) ;;
        write log_f ("INI File: " +:+ path_str ini_shown +:+ nl) ;;
        write log_f ("Command to be executed in CWD: " +:+ shell_like_command_display
                     +:+ nl +:+ nl) ;;
        ini_exists <- path_exists ini_file_path ;;
        if negb ini_exists then
          let error_msg := "    ERROR: Beam Pattern INI file not found at "
                           +:+ path_str ini_file_path in
          print error_msg ;;
          write log_f ("ERROR: " +:+ error_msg +:+ nl) ;;
          write log_f ("--- Simulation Not Started ---" +:+ nl +:+ nl) ;;
          ret false
        else if truthy_value is_dry_run then
          print ("    [DRY RUN] Would execute: " +:+ shell_like_command_display
                 +:+ " (from CWD: " +:+ path_str cwd_path +:+ ")") ;;
          write log_f ("[DRY RUN] Command not executed." +:+ nl) ;;
          write log_f ("--- Dry Run Concluded ---" +:+ nl +:+ nl) ;;
          ret true
        else
          print "    Executing OSKAR Beam Pattern simulation..." ;;
          process <- subprocess_run_command executable_path [path_str ini_file_path]
                       (path_str cwd_path) ;;
          log_process_output log_f process ;;
          if (returncode process =? 0)%Z then
            print "    OSKAR Beam Pattern simulation finished successfully." ;;
            write log_f (nl +:+ "--- Simulation Successful ---" +:+ nl) ;;
            print_logged_notice log_file_path process ;;
            ret true
          else
            print ("    ERROR: OSKAR Beam Pattern simulation failed with exit code "
                   +:+ pretty (returncode process) +:+ ".") ;;
            write log_f (nl +:+ "!!! ERROR: Simulation Failed (Exit Code: "
                         +:+ pretty (returncode process) +:+ ") !!!" +:+ nl) ;;
            print_process_output process ;;
            ret false)
       (handle_runner_exception log_file_path (py_str executable_path)
          "    ERROR: An unexpected error occurred while running OSKAR Beam Pattern: "))
    (log_conclusion log_file_path "OSKAR Beam attempt").

(** The argument list of [run_calibrate] (lines 306-312), built before the
    [try] statement. *)
Definition calibrate_arguments {S} (hyperdrive_cfg global_output_cfg : value)
    : M S (list string) :=
  ms <- vget global_output_cfg "interf_ms_base_filename" (VStr "sim.ms") ;;
  srclist <- vget hyperdrive_cfg "srclist" VNone ;;
  sol_output <- vget hyperdrive_cfg "sol_output" (VStr "hyperdrive_solutions.fits") ;;
  ret ["-d " +:+ py_str ms; "--source-list " +:+ py_str srclist; "-o " +:+ py_str sol_output].

Definition run_calibrate (E : env) (executable_path : value)
    (hyperdrive_cfg global_output_cfg : value) (cwd_path : Path) (is_dry_run : value)
    : M world bool :=
  let log_file_path := path_str (path_join cwd_path "run.log") in
  arguments <- calibrate_arguments hyperdrive_cfg global_output_cfg ;;
  quoted_executable <- shlex_quote_value executable_path ;;
  arguments' <- calibrate_arguments hyperdrive_cfg global_output_cfg ;;
  let shell_like_command_display := quoted_executable +:+ " " +:+ join " " arguments' in
  try_finally
    (try_except
       (log_f <- open_append log_file_path ;;
        current_time <- now ;;
        write log_f ("--- Attempting Hyperdrive at " +:+ current_time +:+ " ---" +:+ nl) ;;
        cwd_resolved <- resolve E cwd_path ;;
        write log_f ("Run Directory (CWD): " +:+ path_str cwd_resolved +:+ nl) ;;
        write log_f ("Command to be executed in CWD: " +:+ shell_like_command_display
                     +:+ nl +:+ nl) ;;
        if truthy_value is_dry_run then
          print ("    [DRY RUN] Would execute: " +:+ shell_like_command_display
                 +:+ " (from CWD: " +:+ path_str cwd_path +:+ ")") ;;
          write log_f ("[DRY RUN] Command not executed." +:+ nl) ;;
          write log_f ("--- Dry Run Concluded ---" +:+ nl +:+ nl) ;;
          ret true
        else
          print "    Executing Hyperdrive calibration..." ;;
          process <- subprocess_run_command executable_path arguments (path_str cwd_path) ;;
          log_process_output log_f process ;;
          if (returncode process =? 0)%Z then
            print "    Hyperdrive finished successfully." ;;
            write log_f (nl +:+ "--- Hyperdrive Successful ---" +:+ nl) ;;
            print_logged_notice log_file_path process ;;
            ret true
          else
            print ("    ERROR: Hyperdrive failed with exit code "
                   +:+ pretty (returncode process) +:+ ".") ;;
            write log_f (nl +:+ "!!! ERROR: Hyperdrive Failed (Exit Code: "
                         +:+ pretty (returncode process) +:+ ") !!!" +:+ nl) ;;
            print_process_output process ;;
            ret false)
       (handle_runner_exception log_file_path (py_str executable_path)
          "    ERROR: An unexpected error occurred while running OSKAR Beam Pattern: "))
    (log_conclusion log_file_path "Hyperdrive attempt").

(** ** [write_ini_file_with_configparser] *)

Fixpoint remove_double_percent (s : string) : string :=
  match s with
  | String "%" (String "%" rest) => remove_double_percent rest
  | String c rest => String c (remove_double_percent rest)
  | EmptyString => EmptyString
  end.

Inductive interp_state : Type :=
| InText
| AfterPercent
| InName (nonempty : bool)
| AfterName.

(** After the doubled percent signs are removed, every remaining percent
    sign has to start a reference [%(name)s]. *)
Fixpoint only_key_references (st : interp_state) (s : string) : bool :=
  match s with
  | EmptyString => match st with InText => true | _ => false end
  | String c rest =>
      match st with
      | InText => if Ascii.eqb c "%" then only_key_references AfterPercent rest
                  else only_key_references InText rest
      | AfterPercent => if Ascii.eqb c "(" then only_key_references (InName false) rest
                        else false
      | InName nonempty =>
          if Ascii.eqb c ")" then (if nonempty then only_key_references AfterName rest else false)
          else only_key_references (InName true) rest
      | AfterName => if Ascii.eqb c "s" then only_key_references InText rest else false
      end
  end.

(** The check [configparser] makes on a value it is given. *)
Definition valid_interpolation (v : string) : bool :=
  only_key_references InText (remove_double_percent v).

Fixpoint indent_continuation_lines (s : string) : string :=
  match s with
  | EmptyString => EmptyString
  | String c rest =>
      if Ascii.eqb c (ascii_of_nat 10)
      then String c (String (ascii_of_nat 9) (indent_continuation_lines rest))
      else String c (indent_continuation_lines rest)
  end.

Definition render_section (name : string) (entries : list (string * string)) : string :=
  "[" +:+ name +:+ "]" +:+ nl
  +:+ String.concat "" (map (fun kv => fst kv +:+ " = " +:+ indent_continuation_lines (snd kv) +:+ nl)
                            entries)
  +:+ nl.

(** [config.write(configfile)]: a non-empty [DEFAULT] section first, then
    the other sections in the order they were set. *)
Definition render_config (config : list (string * list (string * string))) : string :=
  (match dict_lookup "DEFAULT" config with
   | Some (e :: entries) => render_section "DEFAULT" (e :: entries)
   | _ => ""
   end)
  +:+ String.concat ""
        (map (fun sec => render_section (fst sec) (snd sec))
             (List.filter (fun sec => negb (String.eqb (fst sec) "DEFAULT")) config)).

Definition write_ini_file_with_configparser (ini_data_dict : value) (output_path : Path)
    : M world unit :=
  sections <- match ini_data_dict with
              | VDict items => ret items
              | _ => raise (value_no_attribute ini_data_dict "items")
              end ;;
  config <- fold_each sections [] (fun kv config =>
    match snd kv with
    | VDict settings_dict =>
        let flat := _flatten_settings_for_configparser settings_dict "" in
        if forallb (fun e => valid_interpolation (snd e)) flat
        then ret (dict_store (fst kv) flat config)
        else raise (Exn ValueError "invalid interpolation syntax")
    | _ =>
        print ("# WARNING: Skipping section '" +:+ fst kv
               +:+ "' as its value is not a dictionary.") ;;
        ret config
    end) ;;
  write_file (path_str output_path) (render_config config).

(** ** The sweep orchestrator *)

(** Lift the result of a compiler into the monad. *)
Definition compiled {S} (r : exn + value) : M S value :=
  match r with
  | inr tree => ret tree
  | inl e => raise e
  end.

(** The beam stage of one combination (lines 875-903). *)
Definition beam_stage (E : env) (run_settings output_cfg oskar_defaults executables_cfg
    tel_cfg pc_cfg beam_ini_filename_template : value)
    (current_run_output_dir project_root : Path) : M world unit :=
  print "  Preparing Beam Simulation INI..." ;;
  beam_ini_filename <- require_str beam_ini_filename_template ;;
  let beam_ini_path := path_join current_run_output_dir beam_ini_filename in
  beam_init_data <- compiled (compile_beam E oskar_defaults tel_cfg pc_cfg run_settings
                                output_cfg current_run_output_dir project_root) ;;
  write_ini_file_with_configparser beam_init_data beam_ini_path ;;
  resolved <- resolve E beam_ini_path ;;
  print ("    Generated beam INI: " +:+ path_str resolved) ;;
  print "    Now running simulation" ;;
  executable <- vget executables_cfg "oskar_sim_beam_patter" (VStr "oskar_sim_beam_pattern") ;;
  dry_run <- vget run_settings "dry_run" (VBool false) ;;
  success <- run_oskar_sim_beam E executable beam_ini_path current_run_output_dir dry_run ;;
  if (success : bool) then
    dry_run' <- vget run_settings "dry_run" (VBool false) ;;
    if truthy_value dry_run' then ret tt
    else print "    Successfully finished OSKAR beam sim"
  else ret tt.

(** The interferometer stage of one combination (lines 905-941). *)
Definition interf_stage (E : env) (run_settings output_cfg oskar_defaults executables_cfg
    tel_cfg sky_cfg pc_cfg sky_models_base_dir_str : value)
    (current_run_output_dir project_root : Path) : M world unit :=
  print "  Preparing Interferometer Simulation INI..." ;;
  interf_ini_data <- compiled (compile_interf E oskar_defaults tel_cfg sky_cfg pc_cfg
                                 run_settings output_cfg sky_models_base_dir_str
                                 current_run_output_dir project_root) ;;
  interf_ini_filename_v <- vget output_cfg "interf_ini_filename" (VStr "interf.ini") ;;
  interf_ini_filename <- require_str interf_ini_filename_v ;;
  let interf_ini_path := path_join current_run_output_dir interf_ini_filename in
  write_ini_file_with_configparser interf_ini_data interf_ini_path ;;
  resolved <- resolve E interf_ini_path ;;
  print ("    Generated Interferometer INI: " +:+ path_str resolved) ;;
  print "    Now running simulation" ;;
  executable <- vget executables_cfg "oskar_sim_interferometer" (VStr "oskar_sim_interferometer") ;;
  dry_run <- vget run_settings "dry_run" (VBool false) ;;
  success <- run_oskar_sim_interf E executable interf_ini_path current_run_output_dir dry_run ;;
  if (success : bool) then
    dry_run' <- vget run_settings "dry_run" (VBool false) ;;
    if truthy_value dry_run' then ret tt
    else print "    Successfully finished OSKAR sim"
  else ret tt.

(** The calibration stage of one combination (lines 943-950). *)
Definition calibration_stage (E : env) (run_settings output_cfg executables_cfg
    hyperdrive_cfg : value) (current_run_output_dir : Path) : M world unit :=
  executable <- vget executables_cfg "hyperdrive" (VStr "hyperdrive") ;;
  dry_run <- vget run_settings "dry_run" (VBool false) ;;
  run_calibrate E executable hyperdrive_cfg output_cfg current_run_output_dir dry_run ;;
  ret tt.

(** The output directory of one combination (lines 854-869). *)
Definition run_directory {S} (E : env) (run_settings images_folder_pattern : value)
    (base_output_dir : Path) (tel_name sky_filename pc_id : value) : M S Path :=
  sky_name_no_ext <- get_sky_model_name_no_ext sky_filename ;;
  is_errors_globally_on <- vget run_settings "include_telescope_errors" (VBool false) ;;
  let error_suffix := if truthy_value is_errors_globally_on then "_errors_on" else "_errors_off" in
  current_run_images_folder_name <-
    str_format E images_folder_pattern
      [("sky_name_no_ext", sky_name_no_ext); ("tel_name", tel_name);
       ("error_suffix", VStr error_suffix); ("pc_id", pc_id)] ;;
  ret (path_join base_output_dir current_run_images_folder_name).

(** The body of the innermost loop (lines 843-950), with the run counter
    it increments. *)
Definition process_combination (E : env) (run_settings output_cfg oskar_defaults
    executables_cfg hyperdrive_cfg images_folder_pattern beam_ini_filename_template
    sky_models_base_dir_str : value) (base_output_dir : Path)
    (tel_cfg sky_cfg pc_cfg : value) (run_counter : nat) : M world nat :=
  let run_counter := S run_counter in
  tel_name <- vget tel_cfg "name" (VStr "unknown_tel") ;;
  sky_filename <- vget sky_cfg "filename" (VStr "unknown_sky.osm") ;;
  pc_id <- vget pc_cfg "id" (VStr "unknown_pc") ;;
  print (nl +:+ "--- Preparing Config for Run " +:+ pretty run_counter +:+ " ---") ;;
  print ("  Telescope: " +:+ py_str tel_name +:+ ", Sky: " +:+ py_str sky_filename
         +:+ ", Phase Centre: " +:+ py_str pc_id) ;;
  current_run_output_dir <- run_directory E run_settings images_folder_pattern
                              base_output_dir tel_name sky_filename pc_id ;;
  mkdir current_run_output_dir ;;
  resolved <- resolve E current_run_output_dir ;;
  print ("  Output Directory: " +:+ path_str resolved) ;;
  project_root <- resolve E (path_of_string ".") ;;
  run_beam_sim <- vget run_settings "run_beam_sim" VNone ;;
  (if truthy_value run_beam_sim
   then beam_stage E run_settings output_cfg oskar_defaults executables_cfg tel_cfg pc_cfg
          beam_ini_filename_template current_run_output_dir project_root
   else ret tt) ;;
  run_interf_sim <- vget run_settings "run_interf_sim" VNone ;;
  (if truthy_value run_interf_sim
   then interf_stage E run_settings output_cfg oskar_defaults executables_cfg tel_cfg sky_cfg
          pc_cfg sky_models_base_dir_str current_run_output_dir project_root
   else ret tt) ;;
  run_hyperdrive <- vget run_settings "run_hyperdrive" VNone ;;
  (if truthy_value run_hyperdrive
   then calibration_stage E run_settings output_cfg executables_cfg hyperdrive_cfg
          current_run_output_dir
   else ret tt) ;;
  ret run_counter.

(** [main] after the configuration is loaded (lines 805-953). *)
Definition sweep (E : env) (master_config : value) : M world unit :=
  run_settings <- vget master_config "run_settings" (VDict []) ;;
  output_cfg <- vget master_config "output_config" (VDict []) ;;
  iter_params <- vget master_config "iteration_parameters" (VDict []) ;;
  oskar_defaults <- vget master_config "oskar_ini_defaults" (VDict []) ;;
  executables_cfg <- vget master_config "executables" (VDict []) ;;
  hyperdrive_cfg <- vget master_config "hyperdrive_settings" VNone ;;
  base_output_directory <- vget output_cfg "base_output_directory"
                             (VStr "simulation_outputs_generated") ;;
  base_output_dir_str <- require_str base_output_directory ;;
  let base_output_dir := path_of_string base_output_dir_str in
  images_folder_pattern <- vget output_cfg "images_folder_pattern"
      (VStr "images_{sky_name_no_ext}_{tel_name}{error_suffix}_{pc_id}") ;;
  beam_ini_filename_template <- vget output_cfg "beam_ini_filename" (VStr "beam.ini") ;;
  interf_ini_filename_template <- vget output_cfg "interf_ini_filename" (VStr "interf.ini") ;;
  beam_root_path_base <- vget output_cfg "beam_root_path_base" (VStr "beam_output") ;;
  interf_ms_base_filename <- vget output_cfg "interf_ms_base_filename" (VStr "vis.ms") ;;
  telescope_configs <- vget iter_params "telescope_configs" (VList []) ;;
  sky_model_configs <- vget iter_params "sky_model_configs" (VList []) ;;
  sky_models_base_dir_str <- vget iter_params "sky_models_base_dir" (VStr "sky_models") ;;
  phase_centre_configs <- vget iter_params "phase_centre_configs" (VList []) ;;
  if negb (forallb truthy_value [telescope_configs; sky_model_configs; phase_centre_configs])
  then
    print "Warning: One or more iteration parameter lists (telescopes, skies, phase_centres) are empty. No INI files will be generated."
  else
    tels <- iterate telescope_configs ;;
    run_counter <- fold_each tels 0 (fun tel_cfg run_counter =>
      skies <- iterate sky_model_configs ;;
      fold_each skies run_counter (fun sky_cfg run_counter =>
        pcs <- iterate phase_centre_configs ;;
        fold_each pcs run_counter (fun pc_cfg run_counter =>
          process_combination E run_settings output_cfg oskar_defaults executables_cfg
            hyperdrive_cfg images_folder_pattern beam_ini_filename_template
            sky_models_base_dir_str base_output_dir tel_cfg sky_cfg pc_cfg run_counter))) ;;
    resolved <- resolve E base_output_dir ;;
    print (nl +:+ "Generated configuration for " +:+ pretty run_counter
           +:+ " runs in base directory: " +:+ path_str resolved).

Definition main (E : env) (config_file_path : string) : M world unit :=
  loaded <- try_except
              (text <- read_file config_file_path ;;
               match yaml_safe_load E text with
               | Some master_config => ret (Some master_config)
               | None => raise (Exn YAMLError "could not parse the document")
               end)
              (fun e => match e with
                        | Exn FileNotFoundError _ =>
                            print ("ERROR: Configuration file not found at " +:+ config_file_path) ;;
                            ret None
                        | Exn YAMLError msg =>
                            print ("ERROR: Could not parse YAML configuration file: " +:+ msg) ;;
                            ret None
                        | _ => raise e
                        end) ;;
  match loaded with
  | Some master_config => sweep E master_config
  | None => ret tt
  end.

(** * The vocabulary of the specifications *)

(** ** The entries the flattener owes *)

(** The scalars reachable in a value, each with the keys on the way to it. *)
Fixpoint scalar_paths (v : value) : list (list string * value) :=
  match v with
  | VAtom ANone => []
  | VDict items =>
      flat_map (fun kv => map (fun pv => (fst kv :: fst pv, snd pv)) (scalar_paths (snd kv))) items
  | _ => [([], v)]
  end.

Definition serialize (v : value) : string :=
  match v with
  | VAtom (ABool true) => "true"
  | VAtom (ABool false) => "false"
  | _ => py_str v
  end.

Definition flat_entries (settings_dict : list (string * value)) (prefix : string)
    : list (string * string) :=
  map (fun pv => (prefix +:+ join "/" (fst pv), serialize (snd pv)))
      (scalar_paths (VDict settings_dict)).

(** The keys of a list, each once, in the order in which they are first
    met; [seen] are the keys met before. *)
Fixpoint unseen_keys (seen ks : list string) : list string :=
  match ks with
  | [] => []
  | k :: rest =>
      if existsb (String.eqb k) seen then unseen_keys seen rest
      else k :: unseen_keys (k :: seen) rest
  end.

Definition first_occurrences (ks : list string) : list string := unseen_keys [] ks.

(** The value of the last entry with the key [k]. *)
Definition last_value (k : string) (entries : list (string * string)) : option string :=
  dict_lookup k (rev entries).

Definition colliding_tree : list (string * value) :=
  [("a/b", VInt 1); ("a", VDict [("b", VInt 2)])].

Fixpoint key_suffix (p : list string) : string :=
  match p with
  | [] => ""
  | k :: rest => "/" +:+ k +:+ key_suffix rest
  end.

Definition entries_at (oskar_key : string) (v : value) : list (string * string) :=
  map (fun pv => (oskar_key +:+ key_suffix (fst pv), serialize (snd pv))) (scalar_paths v).

(** ** The store: lookups, frames and invariants *)

(** Partial correctness: if [m] ends with a result, the result and the
    final state satisfy [Q]. *)
Definition wp {S A} (m : M S A) (Q : A -> S -> Prop) (s : S) : Prop :=
  match m s with
  | (Ret a, s') => Q a s'
  | (Raise _, _) => True
  end.

(** What a value holds under a key: [None] when the value is not a
    dictionary, [Some None] when the key is missing. *)
Definition hlookup (h : heap) (d : hval) (k : string) : option (option hval) :=
  option_map (fun li => dict_lookup k (snd li)) (as_dict h d).

(** Follow a path of keys from a value. *)
Fixpoint path_get (h : heap) (v : hval) (path : list string) : option hval :=
  match path with
  | [] => Some v
  | k :: rest =>
      match hlookup h v k with
      | Some (Some v') => path_get h v' rest
      | _ => None
      end
  end.

(** The dictionaries of [h] are still dictionaries in [h'] and hold the
    same under the keys [K]. *)
Definition same_on (K : list string) (h h' : heap) : Prop :=
  forall d k, In k K -> is_Some (hlookup h d k) -> hlookup h' d k = hlookup h d k.

(** A computation that leaves in place what dictionaries hold under [K]. *)
Definition Same (K : list string) {A} (m : M heap A) : Prop :=
  forall h, wp m (fun _ h' => same_on K h h') h.

(** A value that is a scalar or refers to an object at a location in
    [n, len). *)
Definition within (n len : nat) (v : hval) : Prop :=
  match v with
  | HAtom _ => True
  | HRef l => n <= l < len
  end.

(** Every slot of the object holds a value [within n len]. *)
Definition obj_within (n len : nat) (o : obj) : Prop :=
  match o with
  | ODict items => forall k v, In (k, v) items -> within n len v
  | OList xs => forall v, In v xs -> within n len v
  end.

(** The invariant of [deepcopy_rec] for a copy started when the store had
    [n] objects. *)
Definition copy_ok (n : nat) (st : copy_state) : Prop :=
  n <= length (snd st)
  /\ (forall a b, memo_lookup a (fst st) = Some b -> n <= b < length (snd st))
  /\ (forall l o, n <= l -> snd st !! l = Some o -> obj_within n (length (snd st)) o).

Definition copy_ext (n : nat) (st st' : copy_state) : Prop :=
  length (snd st) <= length (snd st')
  /\ (forall l, l < n -> snd st' !! l = snd st !! l).

Definition rec_ok (n : nat) (rec : hval -> copy_state -> option (hval * copy_state)) : Prop :=
  forall x st y st', rec x st = Some (y, st') -> copy_ok n st ->
    copy_ok n st' /\ copy_ext n st st' /\ within n (length (snd st')) y.

Definition is_atom (v : hval) : Prop :=
  match v with
  | HAtom _ => True
  | HRef _ => False
  end.

(** The keys under which the compilers look for, or create, a nested
    section. *)
Definition traversal_keys : list string :=
  ["General"; "simulator"; "observation"; "telescope"; "aperture_array"; "element_pattern";
   "array_pattern"; "element"; "beam_pattern"; "beam_image"; "station_outputs"; "fits_image";
   "interferometer"; "sky"; "oskar_sky_model"; "filter"].

(** The fields whose value the compilers read from their arguments and
    store in the tree as it is, without copying it. *)
Definition copied_fields : list string :=
  ["version"; "use_gpus"; "double_precision"; "ra_deg"; "dec_deg"; "start_time_utc";
   "start_frequency_hz"; "frequency_inc_hz"; "num_channels"; "length"; "num_time_steps";
   "enable_numerical"; "x_gain"; "y_gain"; "x_phase_error_fixed_deg";
   "y_phase_error_fixed_deg"; "gain_error_std"; "phase_error_std"; "fov_deg";
   "beam_root_path_base"; "amp"; "interf_ms_base_filename"; "channel_bandwidth_hz";
   "time_average_sec"; "radius_outer_deg"].

(** The slots the invariant speaks about: those under a traversal key,
    and every slot when [strict] holds. *)
Definition tracked_key (strict : Prop) (k : string) : Prop :=
  In k traversal_keys \/ strict.

Definition obj_closed (strict : Prop) (n len : nat) (o : obj) : Prop :=
  match o with
  | ODict items => forall k v, In (k, v) items -> tracked_key strict k -> within n len v
  | OList xs => forall v, In v xs -> within n len v
  end.

(** The invariant of a compilation started when the store was [h0], with
    [n] objects: those objects are as they were, and the tracked slots of
    the objects made since refer to objects made since. *)
Definition Inv (strict : Prop) (n : nat) (h0 h : heap) : Prop :=
  n <= length h
  /\ (forall l, l < n -> h !! l = h0 !! l)
  /\ (forall l o, n <= l -> h !! l = Some o -> obj_closed strict n (length h) o).

(** A value that, when it refers to one of the first [n] objects, is found
    in the arguments by following keys. *)
Definition from_args (strict : Prop) (n : nat) (h0 : heap) (args : list hval) (v : hval) : Prop :=
  strict -> forall l, v = HRef l -> l < n ->
  exists a p, In a args /\ path_get h0 a p = Some v.

(** In the arguments, at any depth, the fields that are stored without
    being copied hold scalars. *)
Definition scalar_leaves (h0 : heap) (args : list hval) : Prop :=
  forall a p k v, In a args -> In k copied_fields ->
    path_get h0 a (p ++ [k]) = Some v -> is_atom v.

(** ** Reachability, and the two compilers as one *)

(** The objects that can be reached from a value through the slots of
    dictionaries and the elements of lists. *)
Inductive reachable (h : list obj) : hval -> nat -> Prop :=
| reach_here l o : h !! l = Some o -> reachable h (HRef l) l
| reach_item l items k v l' :
    h !! l = Some (ODict items) -> In (k, v) items -> reachable h v l' ->
    reachable h (HRef l) l'
| reach_elem l xs v l' :
    h !! l = Some (OList xs) -> In v xs -> reachable h v l' ->
    reachable h (HRef l) l'.

(** A value that is a scalar or refers to an object of the store. *)
Definition valid (h : list obj) (v : hval) : Prop :=
  match v with
  | HAtom _ => True
  | HRef l => l < length h
  end.

(** No slot of the store refers to an object the store does not have. *)
Definition heap_wf (h : list obj) : Prop :=
  forall l o, h !! l = Some o ->
    match o with
    | ODict items => forall k v, In (k, v) items -> valid h v
    | OList xs => forall v, In v xs -> valid h v
    end.

(** The objects among the first [n] that a copy has not reached yet. *)
Definition uncopied (n : nat) (memo : list (nat * nat)) : nat :=
  length (List.filter (fun l => match memo_lookup l memo with None => true | Some _ => false end)
                      (seq 0 n)).

(** Every object entered in [memo] is entered in [memo']. *)
Definition memo_le (memo memo' : list (nat * nat)) : Prop :=
  forall l, is_Some (memo_lookup l memo) -> is_Some (memo_lookup l memo').

(** What a recursive call has to give for the copy of a container to
    go through. *)
Definition rec_total (h0 : list obj) (fuel : nat)
    (rec : hval -> copy_state -> option (hval * copy_state)) : Prop :=
  forall x st,
    valid h0 x ->
    (forall l, l < length h0 -> snd st !! l = h0 !! l) ->
    uncopied (length h0) (fst st) <= fuel ->
    exists y st',
      rec x st = Some (y, st')
      /\ memo_le (fst st) (fst st')
      /\ (forall l, l < length h0 -> snd st' !! l = h0 !! l).

(** One call of a compiler. *)
Inductive compilation : Type :=
| Beam (oskar_ini_defaults current_tel_config current_pc_config global_run_settings
        global_output_config : hval)
       (current_run_specific_output_dir project_root_path : Path)
| Interf (oskar_ini_defaults current_tel_config current_sky_config current_pc_config
          global_run_settings global_output_config sky_models_base_dir : hval)
         (current_run_specific_output_dir project_root_path : Path).

Definition compile (E : env) (c : compilation) : M (list obj) hval :=
  match c with
  | Beam d t p r o run_dir root => generate_beam_ini_data E d t p r o run_dir root
  | Interf d t s p r o b run_dir root => generate_interf_ini_data E d t s p r o b run_dir root
  end.

(** The arguments from which a compiler takes fields without copying
    them: the defaults, the phase-centre record and the output
    configuration. *)
Definition uncopied_sources (c : compilation) : list hval :=
  match c with
  | Beam d _ p _ o _ _ => [d; p; o]
  | Interf d _ _ p _ o _ _ _ => [d; p; o]
  end.

(** ** Sample documents, and checks that run *)

(** The defaults structure with a mapping where a scalar is expected. *)
Definition defaults_with_nested_flag : value :=
  VDict [("simulator", VDict [("use_gpus", VDict [("device", VInt 0)])])].

Definition sample_tel : value :=
  VDict [("name", VStr "MWA"); ("oskar_input_directory", VStr "telescopes/mwa.tm")].

Definition sample_pc : value :=
  VDict [("id", VStr "pc1"); ("ra_deg", VInt 0); ("dec_deg", VInt (-27));
         ("start_time_utc", VStr "2020-01-01 00:00:00"); ("gain_error_std", VStr "0.05")].

(** An environment without symbolic links, whose working directory is
    [/proj]. *)
Definition sample_env : env :=
  mkEnv ["proj"]
        (fun p => mkPath true (norm_parts true [] (if absolute p then parts p
                                                   else ["proj"] ++ parts p)))
        (fun _ => None)
        (fun _ _ => inl (Exn ValueError "Invalid format specifier")).

(** Executable checks that are enough for [heap_wf] and [scalar_leaves]. *)
Definition valid_b (len : nat) (v : hval) : bool :=
  match v with
  | HAtom _ => true
  | HRef l => Nat.ltb l len
  end.

Definition heap_wf_b (h : list obj) : bool :=
  forallb (fun o => match o with
                    | ODict items => forallb (fun kv => valid_b (length h) (snd kv)) items
                    | OList xs => forallb (valid_b (length h)) xs
                    end) h.

Definition scalar_leaves_b (h : list obj) : bool :=
  forallb (fun o => match o with
                    | ODict items =>
                        forallb (fun kv => negb (existsb (String.eqb (fst kv)) copied_fields)
                                           || match snd kv with HAtom _ => true | _ => false end)
                                items
                    | OList _ => true
                    end) h.

(** ** The fields the theorems read back *)

(** Dictionaries hold the same under every key but [kw]. *)
Definition same_except (kw : string) (h h' : list obj) : Prop :=
  forall d k, k <> kw -> is_Some (hlookup h d k) -> hlookup h' d k = hlookup h d k.

(** The keys on the way to the fields the theorems read back. *)
Definition read_back_keys : list string :=
  ["telescope"; "input_directory"; "aperture_array"; "array_pattern"; "element";
   "x_gain_error_time"; "y_gain_error_time"; "x_phase_error_time_deg"; "y_phase_error_time_deg";
   "interferometer"; "ms_filename"; "sky"; "oskar_sky_model"; "file"].

(** The keys under which the compilers read their arguments. *)
Definition argument_keys : list string :=
  ["oskar_input_directory"; "include_telescope_errors"; "gain_error_std"; "phase_error_std";
   "interf_ms_base_filename"; "filename"].

Definition telescope_keys : list string :=
  ["telescope"; "input_directory"; "aperture_array"; "array_pattern"; "element";
   "x_gain_error_time"; "y_gain_error_time"; "x_phase_error_time_deg"; "y_phase_error_time_deg"].

Definition element_path : list string :=
  ["telescope"; "aperture_array"; "array_pattern"; "element"].

(** What [fields] are found under the element of the array pattern. *)
Definition element_fields (h : list obj) (root : hval) (fields : list (string * hval)) : Prop :=
  Forall (fun kv => path_get h root (element_path ++ [fst kv]) = Some (snd kv)) fields.

(** The effective gain and phase errors for a flag and what the
    phase-centre record holds. *)
Definition effective_errors (flag : atom) (gain_error_std phase_error_std : option hval)
    : hval * hval :=
  if truthy_atom flag
  then (from_option id (HStr "0.0") gain_error_std, from_option id (HStr "0.0") phase_error_std)
  else (HStr "0.0", HStr "0.0").

Definition error_time_fields (eff : hval * hval) : list (string * hval) :=
  [("x_gain_error_time", fst eff); ("y_gain_error_time", fst eff);
   ("x_phase_error_time_deg", snd eff); ("y_phase_error_time_deg", snd eff)].

Definition error_keys : list string :=
  element_path ++ ["x_gain_error_time"; "y_gain_error_time"; "x_phase_error_time_deg";
                   "y_phase_error_time_deg"] ++ argument_keys.

Definition input_directory_path : list string := ["telescope"; "input_directory"].

Definition ms_filename_path : list string := ["interferometer"; "ms_filename"].

Definition sky_file_path : list string := ["sky"; "oskar_sky_model"; "file"].

(** ** Paths that round-trip *)

(** A path component as a file system has them: not empty, not a dot
    entry, without a separator. *)
Definition clean_part (p : string) : Prop :=
  p <> "" /\ p <> "." /\ p <> ".." /\ str_mem "/" p = false.

(** What [Path.resolve()] answers: an absolute path of clean components. *)
Definition clean_absolute (p : Path) : Prop :=
  absolute p = true /\ Forall clean_part (parts p).

(** A component that [normpath] keeps as it is. *)
Definition plain (p : string) : Prop := p <> "" /\ p <> "." /\ p <> "..".

Definition run_settings_of (c : compilation) : hval :=
  match c with
  | Beam _ _ _ r _ _ _ => r
  | Interf _ _ _ _ r _ _ _ _ => r
  end.

Definition phase_centre_of (c : compilation) : hval :=
  match c with
  | Beam _ _ p _ _ _ _ => p
  | Interf _ _ _ p _ _ _ _ _ => p
  end.

Definition telescope_of (c : compilation) : hval :=
  match c with
  | Beam _ t _ _ _ _ _ => t
  | Interf _ t _ _ _ _ _ _ _ => t
  end.

Definition run_dir_of (c : compilation) : Path :=
  match c with
  | Beam _ _ _ _ _ run_dir _ => run_dir
  | Interf _ _ _ _ _ _ _ run_dir _ => run_dir
  end.

Definition project_root_of (c : compilation) : Path :=
  match c with
  | Beam _ _ _ _ _ _ root => root
  | Interf _ _ _ _ _ _ _ _ root => root
  end.

(** The field at [field_path] is a relative path that leads from the run
    directory back to [target]. *)
Definition round_trips (E : env) (run_dir target : Path) (h : list obj) (root : hval)
    (field_path : list string) : Prop :=
  exists rel,
    path_get h root field_path = Some (HStr rel)
    /\ absolute (path_of_string rel) = false
    /\ abspath E (path_join run_dir rel) = parts target.

(** ** When a compiler returns *)

(** Total correctness: [m] ends with a result, and the result and the
    final state satisfy [Q]. *)
Definition twp {S A} (m : M S A) (Q : A -> S -> Prop) (s : S) : Prop :=
  match m s with
  | (Ret a, s') => Q a s'
  | (Raise _, _) => False
  end.

(** A value that refers to a dictionary of the store. *)
Definition is_dict (h : list obj) (v : hval) : Prop := is_Some (as_dict h v).

(** The dictionary [d] has the key [k]. *)
Definition has_key (h : list obj) (d : hval) (k : string) : Prop :=
  exists v, hlookup h d k = Some (Some v).

(** The keys under which the compilers expect a mapping: the traversal
    keys and the names of the two modules of the defaults. *)
Definition section_keys : list string :=
  traversal_keys ++ ["beam_pattern_module"; "interferometer_module"].

(** Every slot of the object refers to an object of the store, and what
    a dictionary holds under a section key is a dictionary. *)
Definition obj_sectioned (h : list obj) (o : obj) : Prop :=
  match o with
  | ODict items => forall k v, In (k, v) items -> valid h v /\ (In k section_keys -> is_dict h v)
  | OList xs => forall v, In v xs -> valid h v
  end.

Definition sectioned (h : list obj) : Prop := forall l o, h !! l = Some o -> obj_sectioned h o.

(** The store [h'] has the objects of [h] and possibly more; its
    dictionaries are still dictionaries and have kept their keys. *)
Definition extends (h h' : list obj) : Prop :=
  length h <= length h'
  /\ (forall v, is_dict h v -> is_dict h' v)
  /\ (forall d k, has_key h d k -> has_key h' d k).

(** The invariant of [deepcopy_rec] about kinds, for a copy started in
    the store [src]: the copy of a dictionary is a dictionary, and the
    copies made so far hold dictionaries under the section keys. *)
Definition memo_dicts (src : list obj) (st : copy_state) : Prop :=
  forall a b, memo_lookup a (fst st) = Some b -> is_dict src (HRef a) -> is_dict (snd st) (HRef b).

Definition copies_sectioned (n : nat) (st : copy_state) : Prop :=
  forall l items k v, n <= l -> snd st !! l = Some (ODict items) -> In (k, v) items ->
    In k section_keys -> is_dict (snd st) v.

Definition copy_kinds (src : list obj) (st : copy_state) : Prop :=
  length src <= length (snd st)
  /\ (forall l, l < length src -> snd st !! l = src !! l)
  /\ memo_dicts src st
  /\ copies_sectioned (length src) st.

Definition rec_kinds (src : list obj) (rec : hval -> copy_state -> option (hval * copy_state)) : Prop :=
  forall x st y st', valid src x -> rec x st = Some (y, st') -> copy_kinds src st ->
    copy_kinds src st' /\ extends (snd st) (snd st') /\ (is_dict src x -> is_dict (snd st') y).

(** A dictionary made since the store had [n] objects. *)
Definition fresh_dict (n : nat) (h : list obj) (v : hval) : Prop :=
  is_dict h v /\ exists l, v = HRef l /\ n <= l.

Definition obj_built (n : nat) (h : list obj) (o : obj) : Prop :=
  match o with
  | ODict items =>
      forall k v, In (k, v) items -> valid h v /\ (In k section_keys -> fresh_dict n h v)
  | OList xs => forall v, In v xs -> valid h v
  end.

(** The invariant of a compilation started in the store [h0], where
    sections are mappings: the objects of [h0] are as they were, and in
    the objects made since every section is a dictionary made since. *)
Definition building (h0 h : list obj) : Prop :=
  sectioned h0
  /\ length h0 <= length h
  /\ (forall l, l < length h0 -> h !! l = h0 !! l)
  /\ (forall l o, length h0 <= l -> h !! l = Some o -> obj_built (length h0) h o).

Definition defaults_of (c : compilation) : hval :=
  match c with
  | Beam d _ _ _ _ _ _ => d
  | Interf d _ _ _ _ _ _ _ _ => d
  end.



(** An executable check that is enough for [sectioned]. *)
Definition is_dict_b (h : list obj) (v : hval) : bool :=
  match as_dict h v with Some _ => true | None => false end.

Definition sectioned_b (h : list obj) : bool :=
  forallb (fun o => match o with
                    | ODict items =>
                        forallb (fun kv => valid_b (length h) (snd kv)
                                           && (negb (existsb (String.eqb (fst kv)) section_keys)
                                               || is_dict_b h (snd kv)))
                                items
                    | OList xs => forallb (valid_b (length h)) xs
                    end) h.

(** ** Runners and stages *)

(** Every final state of [m] is related to its initial state by [R]. *)
Definition preserves {A} (R : world -> world -> Prop) (m : M world A) : Prop :=
  forall w, R w (snd (m w)).

(** The file system between two states: no file but the log differs, the
    log only has text added at its end, and no directory is made. *)
Definition appended (log : string) (w w' : world) : Prop :=
  (forall p, p <> log -> dict_lookup p (files w') = dict_lookup p (files w))
  /\ (exists suffix, file_content log w' = file_content log w +:+ suffix)
  /\ mkdirs w' = mkdirs w.

(** The processes started between two states all satisfy [P], and no
    directory is made. *)
Definition launched (P : list string * string -> Prop) (w w' : world) : Prop :=
  (exists extra, launches w' = launches w ++ extra /\ Forall P extra)
  /\ mkdirs w' = mkdirs w.

(** The program of a launch: the first word of its command. *)
Definition program_of (l : list string * string) : string := hd "" (fst l).

(** Hoare triples with a postcondition for results and one for
    exceptions. *)
Definition triple {A} (P : world -> Prop) (m : M world A)
    (Q : A -> world -> Prop) (Qe : exn -> world -> Prop) : Prop :=
  forall w, P w -> match m w with
                   | (Ret a, w') => Q a w'
                   | (Raise e, w') => Qe e w'
                   end.

(** The time shown by a clock that has the readings [ts] to come. *)
Definition time_shown (ts : list string) : string := hd "1970-01-01 00:00:00" ts.

(** Neither a file nor a directory is at [p]. *)
Definition missing (p : Path) (w : world) : Prop :=
  dict_lookup (path_str p) (files w) = None /\ path_str p ∉ mkdirs w.

(** What a relation has to allow for the logging of a runner that writes
    to [log] to preserve it, and for a runner that starts [executable]. *)
Class logging_relation (R : world -> world -> Prop) (log : string) := {
  lr_preorder :: PreOrder R;
  lr_print s : preserves R (print s);
  lr_now : preserves R now;
  lr_open : preserves R (open_append log);
  lr_write s : preserves R (write log s);
  lr_exists p : preserves R (path_exists p);
  lr_resolve E p : preserves R (resolve E p)
}.

Class runner_relation (R : world -> world -> Prop) (log : string) (executable : value) := {
  rr_logging :: logging_relation R log;
  rr_run a d : preserves R (subprocess_run_command executable a d)
}.


(** Between two states the environment has answered system calls and
    shown the time: what is left of its script is the end of what it
    was. *)
Definition consumed (w w' : world) : Prop :=
  (exists used, faults w = used ++ faults w') /\ (exists read, clock w = read ++ clock w').


(** Between two states the log only grew and nothing was started. *)
Definition quiet (log : string) (w w' : world) : Prop :=
  appended log w w' /\ launched (fun _ => False) w w'.

(** No system call is going to fail, the clock has the readings [ts] to
    come, the log holds [c], and the INI file is missing. *)
Definition at_log (log : string) (ini : Path) (c : string) (ts : list string) (w : world)
    : Prop :=
  faults w = [] /\ clock w = ts /\ file_content log w = c /\ missing ini w.

(** The log entry of a run that is not started for want of its INI
    file. *)
Definition error_entry (message : string) : string :=
  "ERROR: " +:+ message +:+ nl +:+ "--- Simulation Not Started ---" +:+ nl +:+ nl.

(** Every process that [m] starts runs [program]. *)
Definition starts_only {A} (program : string) (m : M world A) : Prop :=
  forall w, exists extra,
    launches (snd (m w)) = launches w ++ extra
    /\ Forall (fun l => program_of l = program) extra.

(** ** The sweep *)

(** [d.get(k, default)] for the items of a mapping. *)
Definition lookup_or (items : list (string * value)) (k : string) (d : value) : value :=
  from_option id d (dict_lookup k items).

(** The combinations in the order of the three nested loops. *)
Definition combinations (tels skies pcs : list value) : list (value * value * value) :=
  flat_map (fun t => flat_map (fun s => map (fun p => (t, s, p)) pcs) skies) tels.


Definition empty_axes_warning : string :=
  "Warning: One or more iteration parameter lists (telescopes, skies, phase_centres) are empty. No INI files will be generated.".

(** The loops of [main] and what follows them, for a configuration that
    has been read. *)
Definition sweep_loops (E : env) (items out iter : list (string * value)) (base : string)
    (tels skies pcs : list value) : M world unit :=
  run_counter <- fold_each tels 0 (fun tel_cfg run_counter =>
    fold_each skies run_counter (fun sky_cfg run_counter =>
      fold_each pcs run_counter (fun pc_cfg run_counter =>
        process_combination E
          (lookup_or items "run_settings" (VDict [])) (VDict out)
          (lookup_or items "oskar_ini_defaults" (VDict []))
          (lookup_or items "executables" (VDict []))
          (lookup_or items "hyperdrive_settings" VNone)
          (lookup_or out "images_folder_pattern"
             (VStr "images_{sky_name_no_ext}_{tel_name}{error_suffix}_{pc_id}"))
          (lookup_or out "beam_ini_filename" (VStr "beam.ini"))
          (lookup_or iter "sky_models_base_dir" (VStr "sky_models"))
          (path_of_string base) tel_cfg sky_cfg pc_cfg run_counter))) ;;
  resolved <- resolve E (path_of_string base) ;;
  print (nl +:+ "Generated configuration for " +:+ pretty run_counter
         +:+ " runs in base directory: " +:+ path_str resolved).

(** [m] always ends with an exception, in a state related to the initial
    one by [R]. *)
Definition raises_with {A} (R : world -> world -> Prop) (m : M world A) : Prop :=
  forall w, exists e w', m w = (Raise e, w') /\ R w w'.

(** At most one directory is made between two states. *)
Definition one_more_dir (w w' : world) : Prop :=
  mkdirs w' = mkdirs w \/ exists d, mkdirs w' = mkdirs w ++ [d].

(** ** Sample runs *)

(** A world with nothing in it and an environment that never fails. *)
Definition empty_world : world := mkWorld [] [] [] [] [] [] [].


(** The sweep of the specification's scenario (one telescope, two sky
    models, one phase centre, a dry run of the interferometer stage) with
    the calibration stage switched on and no [hyperdrive_settings]. *)
Definition sweep_without_hyperdrive_settings : list (string * value) :=
  [("run_settings", VDict [("run_interf_sim", VBool true); ("dry_run", VBool true);
                           ("run_hyperdrive", VBool true)]);
   ("iteration_parameters",
    VDict [("telescope_configs", VList [sample_tel]);
           ("sky_model_configs", VList [VDict [("filename", VStr "model_a.osm")];
                                        VDict [("filename", VStr "model_b.osm")]]);
           ("phase_centre_configs", VList [sample_pc])])].

Definition no_get_on_none : exn :=
  Exn AttributeError "'NoneType' object has no attribute 'get'".

(** The environment and the world of that scenario: the configuration
    file is there and YAML reads it as the document above. *)
Definition scenario_env : env :=
  mkEnv (getcwd sample_env) (realpath sample_env)
        (fun _ => Some (VDict sweep_without_hyperdrive_settings))
        (format_field sample_env).

Definition scenario_world : world :=
  mkWorld [("config.yaml", "")] [] [] [] [] [] [].

(** A sweep of two telescopes, one sky model and two phase centres with
    every stage switched off. *)
Definition sample_sweep : list (string * value) :=
  [("run_settings", VDict [("dry_run", VBool true)]);
   ("iteration_parameters",
    VDict [("telescope_configs", VList [sample_tel; VDict [("name", VStr "SKA")]]);
           ("sky_model_configs", VList [VDict [("filename", VStr "model_a.osm")]]);
           ("phase_centre_configs", VList [sample_pc; VDict [("id", VStr "pc2")]])])].

Definition sample_defaults : value := VDict [("simulator", VDict [("use_gpus", VBool false)])].
Definition sample_run_settings : value := VDict [("include_telescope_errors", VBool true)].
Definition sample_sky : value := VDict [("filename", VStr "model_a.osm")].
Definition sample_settings : list (string * value) :=
  [("General", VDict [("app", VStr "oskar_sim_interferometer"); ("version", VNone)]);
   ("simulator", VDict [("use_gpus", VBool false); ("max_sources_per_chunk", VInt 16384)]);
   ("Telescope", VDict [("Aperture_Array", VDict [("Normalise", VBool true)])])].

(** The store after the documents of a combination are loaded, with the
    output configuration [output]. *)
Definition sample_loaded (output : value) : list hval * list obj :=
  load_all [sample_defaults; sample_tel; sample_sky; sample_pc; sample_run_settings; output] [].

Definition sample_run_dir : Path :=
  path_of_string "simulation_outputs_generated/images_model_a_MWA_errors_on_pc1".
Definition other_run_dir : Path :=
  path_of_string "simulation_outputs_generated/images_model_b_MWA_errors_on_pc1".
Definition sample_root : Path := mkPath true ["proj"].

Definition sample_beam (run_dir : Path) : compilation :=
  Beam (HRef 1) (HRef 2) (HRef 4) (HRef 5) (HRef 6) run_dir sample_root.
Definition sample_interf : compilation :=
  Interf (HRef 1) (HRef 2) (HRef 3) (HRef 4) (HRef 5) (HRef 6) (HStr "sky_models")
         sample_run_dir sample_root.

Definition sample_store : list obj := snd (sample_loaded (VDict [])).
Definition after_beam : list obj := snd (compile sample_env (sample_beam sample_run_dir) sample_store).
Definition after_two_beams : list obj := snd (compile sample_env (sample_beam other_run_dir) after_beam).
Definition after_interf : list obj := snd (compile sample_env sample_interf sample_store).

Definition named_store : list obj :=
  snd (sample_loaded (VDict [("interf_ms_base_filename", VStr "run1.ms")])).
Definition after_named_interf : list obj := snd (compile sample_env sample_interf named_store).

(** The store with the defaults that have a mapping where a scalar is
    expected, and two beam compilations in it. *)
Definition nested_store : list obj :=
  snd (load_all [defaults_with_nested_flag; sample_tel; sample_pc; VDict []; VDict []] []).
Definition nested_beam (run_dir : Path) : compilation :=
  Beam (HRef 2) (HRef 3) (HRef 4) (HRef 5) (HRef 6) run_dir sample_root.
Definition nested_after_beam : list obj :=
  snd (compile sample_env (nested_beam sample_run_dir) nested_store).
Definition nested_after_two_beams : list obj :=
  snd (compile sample_env (nested_beam other_run_dir) nested_after_beam).
Definition nested_after_mutation : list obj :=
  snd (dict_setitem (HRef 0) "device" (HAtom (AInt 1)) nested_after_two_beams).

(** ** Fields, sections, directories and runs *)

(** *** Fields of the compiled tree, and fields that are missing *)

Definition application_of (c : compilation) : string :=
  match c with
  | Beam _ _ _ _ _ _ _ => "oskar_sim_beam_pattern"
  | Interf _ _ _ _ _ _ _ _ _ => "oskar_sim_interferometer"
  end.

Definition observation_keys : list string :=
  ["observation"; "phase_centre_ra_deg"; "phase_centre_dec_deg"; "start_time_utc"].

Definition general_keys : list string := ["General"; "app"].

Definition root_path_keys : list string := ["beam_pattern"; "root_path"].

(** [m] ends with the exception [e]. *)
Definition raises {S A} (m : M S A) (e : exn) (s : S) : Prop :=
  exists s', m s = (Raise e, s').

(** The fields the compilers read with [d[k]], in the order they read
    them. *)
Definition required_fields (c : compilation) : list (hval * string) :=
  [(phase_centre_of c, "ra_deg"); (phase_centre_of c, "dec_deg");
   (phase_centre_of c, "start_time_utc"); (telescope_of c, "oskar_input_directory")].

(** *** Prefixed keys, and the sections of an INI file *)

(** An entry with [prefix] put before its key. *)
Definition prefixed (prefix : string) (kv : string * string) : string * string :=
  (prefix +:+ fst kv, snd kv).

Definition is_mapping (v : value) : bool :=
  match v with
  | VDict _ => true
  | _ => false
  end.

(** The line printed for a top-level entry that is not a mapping. *)
Definition skip_warning (section_name : string) : string :=
  "# WARNING: Skipping section '" +:+ section_name +:+ "' as its value is not a dictionary.".

(** Every value of the section passes the check of [configparser]. *)
Definition section_accepted (settings_dict : list (string * value)) : bool :=
  forallb (fun e => valid_interpolation (snd e))
          (_flatten_settings_for_configparser settings_dict "").

Definition interpolation_free (items : list (string * value)) : bool :=
  forallb (fun kv => match snd kv with
                     | VDict settings_dict => section_accepted settings_dict
                     | _ => true
                     end) items.

(** The loop of [write_ini_file_with_configparser] over the sections. *)
Definition collect_sections (sections : list (string * value))
    (config : list (string * list (string * string)))
    : M world (list (string * list (string * string))) :=
  fold_each sections config (fun kv config =>
    match snd kv with
    | VDict settings_dict =>
        let flat := _flatten_settings_for_configparser settings_dict "" in
        if forallb (fun e => valid_interpolation (snd e)) flat
        then ret (dict_store (fst kv) flat config)
        else raise (Exn ValueError "invalid interpolation syntax")
    | _ =>
        print ("# WARNING: Skipping section '" +:+ fst kv
               +:+ "' as its value is not a dictionary.") ;;
        ret config
    end).

(** *** The names of the run directories *)

(** The pattern of the directory names when the output configuration
    gives none (line 819). *)
Definition default_images_folder_pattern : value :=
  VStr "images_{sky_name_no_ext}_{tel_name}{error_suffix}_{pc_id}".

(** A file name without its last extension. *)
Definition stem_of (filename : string) : string :=
  from_option id filename (before_last_dot filename).

Definition error_suffix_of (run_settings : list (string * value)) : string :=
  if truthy_value (lookup_or run_settings "include_telescope_errors" (VBool false))
  then "_errors_on" else "_errors_off".





(** *** What a run starts and leaves behind *)

(** Between two states nothing was started. *)
Definition same_launches (w w' : world) : Prop := launches w' = launches w.

(** Between two states nothing was started and no file was written. *)
Definition untouched (w w' : world) : Prop :=
  files w' = files w /\ launches w' = launches w.

(** A file or a directory is at [p]: what [path.exists()] answers. *)
Definition present (p : Path) (w : world) : Prop :=
  is_Some (dict_lookup (path_str p) (files w)) \/ path_str p ∈ mkdirs w.

(** Files are only added or rewritten, directories stay. *)
Definition grown (w w' : world) : Prop :=
  mkdirs w' = mkdirs w
  /\ forall p, is_Some (dict_lookup p (files w)) -> is_Some (dict_lookup p (files w')).

(** In an environment where no system call fails, [m] ends with a
    result, starts nothing and uses up none of the processes to come. *)
Definition calm {A} (m : M world A) : Prop :=
  forall w, faults w = [] ->
    exists a w', m w = (Ret a, w') /\ faults w' = [] /\ launches w' = launches w
                 /\ procs w' = procs w /\ grown w w'.

(** No system call is going to fail, [L] has been started so far, the
    processes to come report [ps], and [K] holds. *)
Definition ready (K : world -> Prop) (L : list (list string * string)) (ps : list proc_result)
    (w : world) : Prop :=
  faults w = [] /\ launches w = L /\ procs w = ps /\ K w.

(** The program a stage is to start: what the executables mapping gives
    under [key] when that is a string, [fallback] when it gives nothing. *)
Definition stage_program (executables : list (string * value)) (key fallback : string)
    : option string :=
  match dict_lookup key executables with
  | None => Some fallback
  | Some (VAtom (AStr program)) => Some program
  | Some _ => None
  end.

(** [m] returns, and what it starts is the one process [command], in
    [dir]. *)
Definition runs_once (command : list string) (dir : Path) (m : M world unit) (w : world)
    : Prop :=
  exists w', m w = (Ret tt, w') /\ launches w' = launches w ++ [(command, path_str dir)].

(** The arguments of the calibration (lines 306-311). *)
Definition calibration_arguments (hyperdrive_settings output_config : list (string * value))
    : list string :=
  ["-d " +:+ py_str (lookup_or output_config "interf_ms_base_filename" (VStr "sim.ms"));
   "--source-list " +:+ py_str (lookup_or hyperdrive_settings "srclist" VNone);
   "-o " +:+ py_str (lookup_or hyperdrive_settings "sol_output"
                       (VStr "hyperdrive_solutions.fits"))].

(** *** Further sample inputs *)


(** The tree of the beam stage for the sample telescope and phase centre,
    with empty defaults, run settings and output configuration. *)
Definition sample_beam_tree : list (string * value) :=
  match compile_beam sample_env (VDict []) sample_tel sample_pc (VDict []) (VDict [])
          (path_of_string "out") (path_of_string "/proj") with
  | inr (VDict items) => items
  | _ => []
  end.

(** A world in which no system call fails and a process is going to end
    with exit code 0. *)
Definition world_with_a_process : world :=
  mkWorld [] [] [] [] [] [] [mkProc 0 "" ""].

(** The sample documents with a phase-centre record that has no
    [ra_deg]. *)
Definition store_without_ra_deg : list obj :=
  snd (load_all [sample_defaults; sample_tel; sample_sky; VDict [("id", VStr "pc1")];
                 sample_run_settings; VDict []] []).

(** A tree with an entry that is not a mapping. *)
Definition tree_with_a_note : list (string * value) :=
  [("General", VDict [("app", VStr "oskar_sim_beam_pattern")]); ("note", VStr "draft");
   ("simulator", VDict [("use_gpus", VBool false)])].

(** A tree with a value that [configparser] refuses. *)
Definition tree_with_percent : list (string * value) :=
  [("General", VDict [("app", VStr "oskar_sim_beam_pattern")]);
   ("beam_pattern", VDict [("root_path", VStr "beam_100%")])].

(** A run directory with its INI file, an environment in which no system
    call fails, and a process that reports exit code 2. *)
Definition sample_cwd : Path := path_of_string "out/run1".
Definition sample_ini : Path := path_of_string "out/run1/interf.ini".
Definition world_with_ini : world :=
  mkWorld [("out/run1/interf.ini", "[General]")] ["out/run1"] [] [] [] []
          [mkProc 2 "" "no such file"].

(** A world whose [config.yaml] is not a YAML document. *)
Definition world_with_bad_document : world :=
  mkWorld [("config.yaml", "run_settings: [")] [] [] [] [] [] [].

(** A dry run of the interferometer stage for one combination. *)
Definition dry_interf_sweep : list (string * value) :=
  [("run_settings", VDict [("run_interf_sim", VBool true); ("dry_run", VBool true)]);
   ("iteration_parameters",
    VDict [("telescope_configs", VList [sample_tel]);
           ("sky_model_configs", VList [VDict [("filename", VStr "model_a.osm")]]);
           ("phase_centre_configs", VList [sample_pc])])].

(** * Lemmas and theorems *)

(** ** The flattener *)

Lemma value_ind' (P : value -> Prop) :
  (forall a, P (VAtom a)) ->
  (forall xs, Forall P xs -> P (VList xs)) ->
  (forall items, Forall (fun kv => P (snd kv)) items -> P (VDict items)) ->
  forall v, P v.
Proof.
  intros Ha Hl Hd. fix IH 1. intros [a | xs | items].
  - apply Ha.
  - apply Hl. induction xs as [| x xs IHxs]; constructor; [apply IH | exact IHxs].
  - apply Hd. induction items as [| [k x] items IHitems]; constructor; [apply IH | exact IHitems].
Qed.

Lemma str_app_assoc (a b c : string) : (a +:+ b) +:+ c = a +:+ (b +:+ c).
Proof. induction a as [| x a IH]; [reflexivity |]. cbn. unfold String.app in *. cbn. f_equal. exact IH. Qed.

Lemma str_app_nil_r (a : string) : a +:+ "" = a.
Proof. induction a as [| x a IH]; [reflexivity |]. unfold String.app in *. cbn. f_equal. exact IH. Qed.

Section DictFacts.
Context {V : Type}.
Implicit Types (d : list (string * V)).

Lemma dict_store_fresh k (v : V) d :
  k ∉ map fst d -> dict_store k v d = d ++ [(k, v)].
Proof.
  induction d as [| [k' v'] d IH]; intros Hk; [reflexivity |].
  cbn in *. destruct (String.eqb_spec k k') as [-> | Hne].
  - exfalso. apply Hk. left.
  - f_equal. apply IH. intros Hin. apply Hk. right. exact Hin.
Qed.

Lemma dict_update_fresh d other :
  NoDup (map fst (d ++ other)) -> dict_update d other = d ++ other.
Proof.
  revert d. induction other as [| [k v] other IH]; intros d Hnd.
  - cbn. by rewrite app_nil_r.
  - unfold dict_update in *. cbn.
    rewrite dict_store_fresh.
    + rewrite IH; [by rewrite <- app_assoc |]. by rewrite <- app_assoc.
    + rewrite map_app in Hnd. apply NoDup_app in Hnd as (_ & Hdisj & _).
      intros Hin. apply (Hdisj k Hin). left.
Qed.
End DictFacts.

Lemma join_key_suffix k p : join "/" (k :: p) = k +:+ key_suffix p.
Proof.
  revert k. induction p as [| k' p IH]; intros k.
  - cbn. by rewrite str_app_nil_r.
  - change (join "/" (k :: k' :: p)) with (k +:+ "/" +:+ join "/" (k' :: p)).
    rewrite IH. reflexivity.
Qed.

Lemma entries_at_dict oskar_key sub :
  entries_at oskar_key (VDict sub)
  = flat_map (fun kv => entries_at ((oskar_key +:+ "/") +:+ fst kv) (snd kv)) sub.
Proof.
  unfold entries_at. cbn [scalar_paths].
  induction sub as [| [k v] sub IH]; [reflexivity |].
  cbn [flat_map]. rewrite map_app, IH. f_equal.
  rewrite map_map. apply map_ext. intros [p x]. cbn.
  by rewrite !str_app_assoc.
Qed.

Lemma flat_entries_unfold settings_dict prefix :
  flat_entries settings_dict prefix
  = flat_map (fun kv => entries_at (prefix +:+ fst kv) (snd kv)) settings_dict.
Proof.
  unfold flat_entries. cbn [scalar_paths].
  induction settings_dict as [| [k v] d IH]; [reflexivity |].
  cbn [flat_map]. rewrite map_app, IH. f_equal.
  unfold entries_at. rewrite map_map. apply map_ext. intros [p x]. cbn [fst snd].
  by rewrite join_key_suffix, str_app_assoc.
Qed.

Lemma dict_lookup_store {V} k k' (v : V) d :
  dict_lookup k' (dict_store k v d) = if String.eqb k' k then Some v else dict_lookup k' d.
Proof.
  induction d as [| [k0 v0] d IH]; cbn.
  - destruct (String.eqb_spec k' k); reflexivity.
  - destruct (String.eqb_spec k k0) as [-> | Hne]; cbn.
    + destruct (String.eqb_spec k' k0); reflexivity.
    + rewrite IH. destruct (String.eqb_spec k' k0) as [-> | Hne'].
      * destruct (String.eqb_spec k0 k); [congruence | reflexivity].
      * reflexivity.
Qed.

Section DictMerge.
Context {V : Type}.
Implicit Types (d acc : list (string * V)).

Lemma dict_store_keys k (v : V) d :
  map fst (dict_store k v d)
  = if existsb (String.eqb k) (map fst d) then map fst d else map fst d ++ [k].
Proof.
  induction d as [| [k' v'] d IH]; [reflexivity |].
  cbn [dict_store map fst existsb]. destruct (String.eqb k k'); [reflexivity |].
  cbn [orb map fst]. rewrite IH. by destruct (existsb _ _).
Qed.

Lemma dict_store_In k (v : V) d : In k (map fst (dict_store k v d)).
Proof.
  induction d as [| [k' v'] d IH]; [by left |].
  cbn [dict_store]. destruct (String.eqb_spec k k') as [-> | Hne]; [by left | by right].
Qed.

Lemma dict_store_In_other k k' (v : V) d :
  In k (map fst d) -> In k (map fst (dict_store k' v d)).
Proof.
  rewrite dict_store_keys. destruct (existsb _ _); [done |]. rewrite in_app_iff. by left.
Qed.

Lemma dict_store_twice k (v v0 : V) d :
  dict_store k v (dict_store k v0 d) = dict_store k v d.
Proof.
  induction d as [| [k' v'] d IH]; cbn [dict_store].
  - by rewrite String.eqb_refl.
  - destruct (String.eqb k k') eqn:E; cbn [dict_store]; rewrite E; [done | by rewrite IH].
Qed.

Lemma dict_store_swap k k' (v v' : V) d :
  In k (map fst d) -> k <> k' ->
  dict_store k v (dict_store k' v' d) = dict_store k' v' (dict_store k v d).
Proof.
  intros Hin Hne. induction d as [| [k0 v0] d IH]; [done |].
  cbn [dict_store].
  destruct (String.eqb k' k0) eqn:E1, (String.eqb k k0) eqn:E2; cbn [dict_store];
    rewrite ?E1, ?E2; try done.
  - apply String.eqb_eq in E1, E2. congruence.
  - f_equal. apply IH. destruct Hin as [Hin | Hin]; [| done].
    cbn in Hin. subst k0. by rewrite String.eqb_refl in E2.
Qed.

Lemma dict_update_cons acc (kv : string * V) other :
  dict_update acc (kv :: other) = dict_update (dict_store (fst kv) (snd kv) acc) other.
Proof. reflexivity. Qed.

Lemma dict_update_app acc (a b : list (string * V)) :
  dict_update acc (a ++ b) = dict_update (dict_update acc a) b.
Proof. unfold dict_update. apply fold_left_app. Qed.

Lemma dict_store_after_update k (v : V) acc other :
  In k (map fst acc) -> ~ In k (map fst other) ->
  dict_store k v (dict_update acc other) = dict_update (dict_store k v acc) other.
Proof.
  revert acc. induction other as [| [k' v'] other IH]; intros acc Hin Hout; [done |].
  rewrite !dict_update_cons. cbn [fst snd map] in *.
  apply Decidable.not_or in Hout as [Hne Hout].
  rewrite IH; [| by apply dict_store_In_other | done].
  f_equal. apply dict_store_swap; [done | congruence].
Qed.

Lemma dict_store_NoDup k (v : V) d : NoDup (map fst d) -> NoDup (map fst (dict_store k v d)).
Proof.
  intros Hnd. rewrite dict_store_keys. destruct (existsb (String.eqb k) (map fst d)) eqn:E; [done |].
  apply NoDup_app. split; [done |]. split; [| apply NoDup_singleton].
  intros x Hx Hk. apply list_elem_of_In in Hx, Hk. destruct Hk as [<- | []].
  assert (existsb (String.eqb k) (map fst d) = true); [| congruence].
  apply existsb_exists. exists k. split; [done | apply String.eqb_refl].
Qed.

Lemma dict_update_NoDup acc other :
  NoDup (map fst acc) -> NoDup (map fst (dict_update acc other)).
Proof.
  revert acc. induction other as [| kv other IH]; intros acc Hnd; [done |].
  rewrite dict_update_cons. by apply IH, dict_store_NoDup.
Qed.

Lemma dict_update_store acc k (v : V) d :
  NoDup (map fst d) ->
  dict_update acc (dict_store k v d) = dict_store k v (dict_update acc d).
Proof.
  revert acc. induction d as [| [k0 v0] d IH]; intros acc Hnd; [done |].
  cbn [map fst] in Hnd. apply NoDup_cons in Hnd as [Hk0 Hnd].
  cbn [dict_store]. destruct (String.eqb_spec k k0) as [-> | Hne].
  - rewrite !dict_update_cons. cbn [fst snd].
    rewrite dict_store_after_update;
      [by rewrite dict_store_twice | apply dict_store_In | by rewrite <- list_elem_of_In].
  - rewrite !dict_update_cons. cbn [fst snd]. by apply IH.
Qed.

(** Updating with a dictionary made of entries is storing the entries
    one after the other. *)
Lemma dict_update_merge acc d (entries : list (string * V)) :
  NoDup (map fst d) ->
  dict_update acc (dict_update d entries) = dict_update (dict_update acc d) entries.
Proof.
  revert d. induction entries as [| [k v] entries IH]; intros d Hnd; [done |].
  rewrite !dict_update_cons. cbn [fst snd].
  rewrite IH by (by apply dict_store_NoDup). by rewrite dict_update_store.
Qed.

Lemma unseen_keys_ext (s1 s2 ks : list string) :
  (forall k, existsb (String.eqb k) s1 = existsb (String.eqb k) s2) ->
  unseen_keys s1 ks = unseen_keys s2 ks.
Proof.
  revert s1 s2. induction ks as [| k ks IH]; intros s1 s2 H; [done |].
  cbn [unseen_keys]. rewrite (H k). destruct (existsb _ s2); [by apply IH |].
  f_equal. apply IH. intros k'. cbn [existsb]. by rewrite H.
Qed.

Lemma existsb_snoc (k k' : string) (s : list string) :
  existsb (String.eqb k) (s ++ [k']) = existsb (String.eqb k) (k' :: s).
Proof. rewrite existsb_app. cbn. rewrite orb_false_r. apply orb_comm. Qed.

Lemma dict_update_keys acc (entries : list (string * V)) :
  map fst (dict_update acc entries)
  = map fst acc ++ unseen_keys (map fst acc) (map fst entries).
Proof.
  revert acc. induction entries as [| [k v] entries IH]; intros acc.
  - cbn. by rewrite app_nil_r.
  - rewrite dict_update_cons, IH. cbn [fst snd map unseen_keys]. rewrite dict_store_keys.
    destruct (existsb (String.eqb k) (map fst acc)); [done |].
    rewrite <- app_assoc. cbn [app]. do 2 f_equal.
    apply unseen_keys_ext. intros k'. apply existsb_snoc.
Qed.

Lemma dict_lookup_app k (a b : list (string * V)) :
  dict_lookup k (a ++ b) = match dict_lookup k a with Some v => Some v | None => dict_lookup k b end.
Proof.
  induction a as [| [k' v'] a IH]; [done |]. cbn [app dict_lookup].
  by destruct (String.eqb k k').
Qed.

Lemma dict_update_lookup k acc (entries : list (string * V)) :
  dict_lookup k (dict_update acc entries)
  = match dict_lookup k (rev entries) with Some v => Some v | None => dict_lookup k acc end.
Proof.
  revert acc. induction entries as [| [k' v'] entries IH]; intros acc; [done |].
  rewrite dict_update_cons, IH. cbn [rev fst snd]. rewrite dict_lookup_app.
  destruct (dict_lookup k (rev entries)); [done |].
  cbn [dict_lookup]. rewrite dict_lookup_store. by destruct (String.eqb k k').
Qed.

End DictMerge.

Lemma fold_flatten_merge (prefix : string) (sub : list (string * value)) :
  Forall (fun kv => forall acc prefix key,
            NoDup (map fst acc) ->
            flatten_item acc prefix key (snd kv)
            = dict_update acc (entries_at (prefix +:+ key) (snd kv))) sub ->
  forall acc,
    NoDup (map fst acc) ->
    fold_left (fun a kv => flatten_item a prefix (fst kv) (snd kv)) sub acc
    = dict_update acc (flat_map (fun kv => entries_at (prefix +:+ fst kv) (snd kv)) sub).
Proof.
  induction 1 as [| [k v] sub Hhd _ IH]; intros acc Hnd; [done |].
  cbn [fold_left flat_map fst snd] in *.
  rewrite Hhd by done. rewrite IH by (by apply dict_update_NoDup).
  by rewrite dict_update_app.
Qed.

Lemma flatten_item_merge (v : value) :
  forall acc prefix key,
    NoDup (map fst acc) ->
    flatten_item acc prefix key v = dict_update acc (entries_at (prefix +:+ key) v).
Proof.
  induction v as [a | xs _ | sub IH] using value_ind'; intros acc prefix key Hnd.
  - destruct a as [| b | n | r | s]; cbn [flatten_item]; unfold entries_at; cbn;
      rewrite ?str_app_nil_r; try done. by destruct b.
  - cbn [flatten_item]. unfold entries_at. cbn. by rewrite str_app_nil_r.
  - cbn [flatten_item]. rewrite entries_at_dict, <- str_app_assoc.
    rewrite (fold_flatten_merge _ sub IH []) by constructor.
    rewrite dict_update_merge by constructor. done.
Qed.

Lemma flatten_is_merge settings_dict prefix :
  _flatten_settings_for_configparser settings_dict prefix
  = dict_update [] (flat_entries settings_dict prefix).
Proof.
  unfold _flatten_settings_for_configparser. rewrite flat_entries_unfold.
  apply fold_flatten_merge; [| constructor].
  apply Forall_forall. intros kv _. apply flatten_item_merge.
Qed.

(** C2, in general: the flattener returns what comes of storing, one
    after the other, one entry for each scalar that can be reached through
    nested mappings (the key is the prefix followed by the keys on the way
    joined with [/], with their casing as it is; [None] gives no entry at
    any depth; a boolean gives [true] or [false]; any other value gives its
    [str]): every joined key is there once, at the place of its first visit
    and with the value of its last visit.  When the joined keys are
    pairwise different, that is one entry for each reachable scalar, in
    the order of the visits. *)
Theorem flatten_one_entry_per_scalar (settings_dict : list (string * value)) (prefix : string) :
  let entries := flat_entries settings_dict prefix in
  let flat_dict := _flatten_settings_for_configparser settings_dict prefix in
  map fst flat_dict = first_occurrences (map fst entries)
  /\ (forall k, dict_lookup k flat_dict = last_value k entries)
  /\ (NoDup (map fst entries) -> flat_dict = entries).
Proof.
  cbv zeta. rewrite flatten_is_merge. split; [| split].
  - by rewrite dict_update_keys.
  - intros k. rewrite dict_update_lookup. unfold last_value. by destruct (dict_lookup _ _).
  - intros Hnd. by apply (dict_update_fresh []).
Qed.

(** C2 as the specification has it fails for a mapping with the keys
    [a/b] and [a], the second holding a mapping with the key [b]: two
    scalars can be reached and one entry is returned. *)
Lemma flatten_collision :
  length (scalar_paths (VDict colliding_tree)) = 2
  /\ _flatten_settings_for_configparser colliding_tree "" = [("a/b", "2")]
  /\ _flatten_settings_for_configparser colliding_tree "" <> flat_entries colliding_tree "".
Proof. repeat split. vm_compute. discriminate. Qed.

(** ** Partial correctness in the store *)

Lemma wp_ret {S A} (a : A) (Q : A -> S -> Prop) s : Q a s -> wp (ret a) Q s.
Proof. exact (fun H => H). Qed.

Lemma wp_bind {S A B} (m : M S A) (f : A -> M S B) (Q : B -> S -> Prop) s :
  wp m (fun a s' => wp (f a) Q s') s -> wp (bind m f) Q s.
Proof. unfold wp, bind. destruct (m s) as [[a | e] s']; auto. Qed.

Lemma wp_mono {S A} (m : M S A) (P Q : A -> S -> Prop) s :
  wp m P s -> (forall a s', P a s' -> Q a s') -> wp m Q s.
Proof. unfold wp. destruct (m s) as [[a | e] s']; auto. Qed.

Lemma wp_elim {S A} (m : M S A) (Q : A -> S -> Prop) s a s' :
  wp m Q s -> m s = (Ret a, s') -> Q a s'.
Proof. unfold wp. intros H E. by rewrite E in H. Qed.

Lemma wp_for_each {S A} (I : S -> Prop) (xs : list A) (body : A -> M S unit) s :
  I s ->
  (forall x s1, In x xs -> I s1 -> wp (body x) (fun _ s2 => I s2) s1) ->
  wp (for_each xs body) (fun _ s' => I s') s.
Proof.
  revert s. induction xs as [| x xs IH]; intros s Hs Hbody.
  - exact Hs.
  - cbn [for_each]. apply wp_bind. eapply wp_mono.
    + apply Hbody; [by left | exact Hs].
    + intros [] s1 Hs1. apply IH; [exact Hs1 |]. intros y s2 Hy. apply Hbody. by right.
Qed.

(** *** What stays under a set of keys *)

Lemma same_on_refl K h : same_on K h h.
Proof. by intros d k _ _. Qed.

Lemma same_on_trans K h1 h2 h3 : same_on K h1 h2 -> same_on K h2 h3 -> same_on K h1 h3.
Proof.
  intros H12 H23 d k Hk Hs. rewrite H23; [by apply H12 | exact Hk |].
  rewrite H12; [exact Hs | exact Hk | exact Hs].
Qed.

Lemma same_on_weaken K K' h h' : (forall k, In k K' -> In k K) -> same_on K h h' -> same_on K' h h'.
Proof. intros Hsub H d k Hk. apply H. by apply Hsub. Qed.

Lemma path_get_same K h h' v path x :
  same_on K h h' -> (forall k, In k path -> In k K) ->
  path_get h v path = Some x -> path_get h' v path = Some x.
Proof.
  intros Hsame. revert v. induction path as [| k rest IH]; intros v Hsub Hp; [exact Hp |].
  cbn [path_get] in *.
  destruct (hlookup h v k) as [[v' |] |] eqn:E; try discriminate.
  rewrite (Hsame v k); [| apply Hsub; by left | by rewrite E].
  rewrite E. apply IH; [| exact Hp]. intros k' Hk'. apply Hsub. by right.
Qed.

Lemma Same_ret K {A} (a : A) : Same K (ret a).
Proof. intros h. apply same_on_refl. Qed.

Lemma Same_bind K {A B} (m : M heap A) (f : A -> M heap B) :
  Same K m -> (forall a, Same K (f a)) -> Same K (bind m f).
Proof.
  intros Hm Hf h. apply wp_bind. eapply wp_mono; [apply Hm |].
  intros a h1 H1. eapply wp_mono; [apply Hf |].
  intros b h2 H2. cbn beta in *. by eapply same_on_trans.
Qed.

(** *** The store operations *)

Lemma hlookup_app h o d k :
  is_Some (hlookup h d k) -> hlookup (h ++ [o]) d k = hlookup h d k.
Proof.
  unfold hlookup, as_dict. destruct d as [a | l]; [by intros [? ?] |].
  destruct (h !! l) as [o' |] eqn:E; [| by intros [? ?]].
  rewrite (lookup_app_l_Some _ _ _ _ E). done.
Qed.

Lemma hlookup_store_other h l k v d k' :
  k' <> k -> hlookup (heap_store l k v h) d k' = hlookup h d k'.
Proof.
  intros Hne. unfold hlookup, as_dict, heap_store. destruct d as [a | l']; [reflexivity |].
  destruct (h !! l) as [[items | xs] |] eqn:E; try reflexivity.
  destruct (decide (l = l')) as [-> | Hl].
  - rewrite list_lookup_insert_eq by (by eapply lookup_lt_Some). rewrite E. cbn.
    rewrite dict_lookup_store. destruct (String.eqb_spec k' k); [contradiction | reflexivity].
  - by rewrite list_lookup_insert_ne.
Qed.

Lemma hlookup_store_same h l items k v :
  h !! l = Some (ODict items) -> hlookup (heap_store l k v h) (HRef l) k = Some (Some v).
Proof.
  intros E. unfold hlookup, as_dict, heap_store. rewrite E.
  rewrite list_lookup_insert_eq by (by eapply lookup_lt_Some). cbn.
  by rewrite dict_lookup_store, String.eqb_refl.
Qed.

Lemma same_on_store K h l k v : ~ In k K -> same_on K h (heap_store l k v h).
Proof.
  intros Hk d k' Hk' _. apply hlookup_store_other. intros ->. contradiction.
Qed.

Lemma same_on_app K h o : same_on K h (h ++ [o]).
Proof. intros d k _ Hs. by apply hlookup_app. Qed.

Lemma as_dict_Some h d l items :
  as_dict h d = Some (l, items) -> d = HRef l /\ h !! l = Some (ODict items).
Proof.
  unfold as_dict. destruct d as [a | l']; [discriminate |].
  destruct (h !! l') as [[its | xs] |] eqn:E; try discriminate.
  intros [= <- <-]. by split.
Qed.

Lemma Same_new_dict K : Same K new_dict.
Proof. intros h. apply same_on_app. Qed.

Lemma Same_dict_contains K d k : Same K (dict_contains d k).
Proof.
  intros h. unfold wp, dict_contains.
  destruct d as [[| | | |] | l]; try exact I; try apply same_on_refl.
  destruct (h !! l) as [[|] |]; try exact I; apply same_on_refl.
Qed.

Lemma Same_dict_getitem K d k : Same K (dict_getitem d k).
Proof.
  intros h. unfold wp, dict_getitem. destruct (as_dict h d) as [[l items] |]; [| exact I].
  destruct (dict_lookup k items); [apply same_on_refl | exact I].
Qed.

Lemma Same_dict_get K d k dflt : Same K (dict_get d k dflt).
Proof.
  intros h. unfold wp, dict_get. destruct (as_dict h d) as [[l items] |]; [| exact I].
  apply same_on_refl.
Qed.

Lemma Same_dict_items K d : Same K (dict_items d).
Proof.
  intros h. unfold wp, dict_items. destruct (as_dict h d) as [[l items] |]; [| exact I].
  apply same_on_refl.
Qed.

Lemma Same_dict_setitem K d k v : ~ In k K -> Same K (dict_setitem d k v).
Proof.
  intros Hk h. unfold wp, dict_setitem. destruct (as_dict h d) as [[l items] |]; [| exact I].
  by apply same_on_store.
Qed.

Lemma Same_dict_setdefault K d k dflt : ~ In k K -> Same K (dict_setdefault d k dflt).
Proof.
  intros Hk h. unfold wp, dict_setdefault. destruct (as_dict h d) as [[l items] |]; [| exact I].
  destruct (dict_lookup k items); [apply same_on_refl | by apply same_on_store].
Qed.

Lemma Same_path_operand K x : Same K (path_operand x).
Proof.
  intros h. unfold wp, path_operand. destruct x as [[| | | |] | l]; try exact I. apply same_on_refl.
Qed.

(** ** [copy.deepcopy] makes new objects only *)

Lemma within_mono n len len' v : len <= len' -> within n len v -> within n len' v.
Proof. destruct v; cbn; [auto | lia]. Qed.

Lemma obj_within_mono n len len' o : len <= len' -> obj_within n len o -> obj_within n len' o.
Proof.
  intros Hle. destruct o; cbn; intros H; intros; eapply within_mono; eauto.
Qed.

Lemma in_dict_store {V} k (v : V) d k' v' :
  In (k', v') (dict_store k v d) -> (k', v') = (k, v) \/ In (k', v') d.
Proof.
  induction d as [| [k0 v0] d IH]; cbn.
  - intros [H | []]. left. by symmetry.
  - destruct (String.eqb_spec k k0) as [-> | Hne]; cbn.
    + intros [H | H]; [left; by symmetry | right; by right].
    + intros [H | H]; [right; by left |]. destruct (IH H); [by left | right; by right].
Qed.

Lemma length_heap_store l k v h : length (heap_store l k v h) = length h.
Proof. unfold heap_store. destruct (h !! l) as [[|] |]; [apply length_insert | done | done]. Qed.

Lemma length_heap_append l v h : length (heap_append l v h) = length h.
Proof. unfold heap_append. destruct (h !! l) as [[|] |]; [done | apply length_insert | done]. Qed.

Lemma lookup_heap_store_ne l k v h l' : l <> l' -> heap_store l k v h !! l' = h !! l'.
Proof.
  intros Hne. unfold heap_store. destruct (h !! l) as [[|] |]; [| done | done].
  by apply list_lookup_insert_ne.
Qed.

Lemma lookup_heap_append_ne l v h l' : l <> l' -> heap_append l v h !! l' = h !! l'.
Proof.
  intros Hne. unfold heap_append. destruct (h !! l) as [[|] |]; [done | | done].
  by apply list_lookup_insert_ne.
Qed.

Lemma copy_ok_store n memo h y k v :
  n <= y -> within n (length h) v -> copy_ok n (memo, h) -> copy_ok n (memo, heap_store y k v h).
Proof.
  intros Hy Hv (Hlen & Hmemo & Hcl). unfold copy_ok. cbn [fst snd] in *.
  rewrite length_heap_store. split; [exact Hlen |]. split; [exact Hmemo |].
  intros l o Hl Ho. destruct (decide (y = l)) as [-> | Hne].
  - unfold heap_store in Ho. destruct (h !! l) as [[items | xs] |] eqn:E.
    + rewrite list_lookup_insert_eq in Ho by (by eapply lookup_lt_Some).
      injection Ho as <-. intros k' v' Hin.
      apply in_dict_store in Hin as [[= -> ->] | Hin]; [exact Hv |].
      by apply (Hcl l _ Hl E k').
    + apply (Hcl l o Hl). by rewrite <- Ho.
    + by rewrite E in Ho.
  - rewrite lookup_heap_store_ne in Ho by done. by apply (Hcl l).
Qed.

Lemma copy_ok_append n memo h y v :
  n <= y -> within n (length h) v -> copy_ok n (memo, h) -> copy_ok n (memo, heap_append y v h).
Proof.
  intros Hy Hv (Hlen & Hmemo & Hcl). unfold copy_ok. cbn [fst snd] in *.
  rewrite length_heap_append. split; [exact Hlen |]. split; [exact Hmemo |].
  intros l o Hl Ho. destruct (decide (y = l)) as [-> | Hne].
  - unfold heap_append in Ho. destruct (h !! l) as [[items | xs] |] eqn:E.
    + apply (Hcl l o Hl). by rewrite <- Ho.
    + rewrite list_lookup_insert_eq in Ho by (by eapply lookup_lt_Some).
      injection Ho as <-. intros v' Hin.
      apply in_app_or in Hin as [Hin | [<- | []]]; [| exact Hv].
      by apply (Hcl l _ Hl E).
    + by rewrite E in Ho.
  - rewrite lookup_heap_append_ne in Ho by done. by apply (Hcl l).
Qed.

Lemma copy_ext_refl n st : copy_ext n st st.
Proof. by split. Qed.

Lemma copy_ext_trans n st1 st2 st3 : copy_ext n st1 st2 -> copy_ext n st2 st3 -> copy_ext n st1 st3.
Proof.
  intros [L1 A1] [L2 A2]. split; [lia |]. intros l Hl. rewrite A2 by done. by apply A1.
Qed.

Lemma copy_ext_store n memo h y k v : n <= y -> copy_ext n (memo, h) (memo, heap_store y k v h).
Proof.
  intros Hy. split; cbn [snd]; [by rewrite length_heap_store |].
  intros l Hl. apply lookup_heap_store_ne. lia.
Qed.

Lemma copy_ext_append n memo h y v : n <= y -> copy_ext n (memo, h) (memo, heap_append y v h).
Proof.
  intros Hy. split; cbn [snd]; [by rewrite length_heap_append |].
  intros l Hl. apply lookup_heap_append_ne. lia.
Qed.

Lemma copy_items_ok n rec y items :
  rec_ok n rec -> n <= y ->
  forall st st', copy_items rec y items st = Some st' -> copy_ok n st ->
    copy_ok n st' /\ copy_ext n st st'.
Proof.
  intros Hrec Hy. induction items as [| [k v] items IH]; intros st st' Hc Hok; cbn in Hc.
  - injection Hc as <-. split; [done | apply copy_ext_refl].
  - destruct (rec v st) as [[v' [memo h]] |] eqn:E; [| discriminate].
    destruct (Hrec _ _ _ _ E Hok) as (Hok1 & Hext1 & Hv').
    apply IH in Hc as [Hok2 Hext2].
    + split; [exact Hok2 |]. eapply copy_ext_trans; [exact Hext1 |].
      eapply copy_ext_trans; [| exact Hext2]. by apply copy_ext_store.
    + by apply copy_ok_store.
Qed.

Lemma copy_elems_ok n rec y xs :
  rec_ok n rec -> n <= y ->
  forall st st', copy_elems rec y xs st = Some st' -> copy_ok n st ->
    copy_ok n st' /\ copy_ext n st st'.
Proof.
  intros Hrec Hy. induction xs as [| v xs IH]; intros st st' Hc Hok; cbn in Hc.
  - injection Hc as <-. split; [done | apply copy_ext_refl].
  - destruct (rec v st) as [[v' [memo h]] |] eqn:E; [| discriminate].
    destruct (Hrec _ _ _ _ E Hok) as (Hok1 & Hext1 & Hv').
    apply IH in Hc as [Hok2 Hext2].
    + split; [exact Hok2 |]. eapply copy_ext_trans; [exact Hext1 |].
      eapply copy_ext_trans; [| exact Hext2]. by apply copy_ext_append.
    + by apply copy_ok_append.
Qed.

Lemma copy_ok_alloc n l memo h o :
  obj_within n (S (length h)) o ->
  copy_ok n (memo, h) -> copy_ok n ((l, length h) :: memo, h ++ [o]).
Proof.
  intros Ho (Hlen & Hmemo & Hcl). unfold copy_ok. cbn [fst snd] in *.
  rewrite length_app. cbn. split; [lia |]. split.
  - intros a b. cbn. destruct (Nat.eqb a l).
    + intros [= <-]. lia.
    + intros Hab. apply Hmemo in Hab. lia.
  - intros l' o' Hl' Ho'. destruct (decide (l' < length h)) as [Hlt | Hge].
    + rewrite lookup_app_l in Ho' by done.
      eapply obj_within_mono; [| by eapply Hcl]. lia.
    + rewrite lookup_app_r in Ho' by lia.
      destruct (l' - length h) as [| m] eqn:Em; cbn in Ho'; [| by destruct m].
      injection Ho' as <-. replace (length h + 1) with (S (length h)) by lia. exact Ho.
Qed.

Lemma deepcopy_rec_ok n fuel : rec_ok n (deepcopy_rec fuel).
Proof.
  induction fuel as [| fuel IH]; intros x [memo h] y st' Hc Hok.
  - destruct x as [a | l]; cbn in Hc.
    + injection Hc as <- <-. split; [done |]. split; [apply copy_ext_refl | exact I].
    + destruct (memo_lookup l memo) as [b |] eqn:Eb; [| discriminate].
      injection Hc as <- <-. split; [done |]. split; [apply copy_ext_refl |].
      destruct Hok as (_ & Hmemo & _). by apply Hmemo in Eb.
  - destruct x as [a | l]; cbn [deepcopy_rec] in Hc.
    + injection Hc as <- <-. split; [done |]. split; [apply copy_ext_refl | exact I].
    + cbn [fst snd] in Hc. destruct (memo_lookup l memo) as [b |] eqn:Eb.
      { injection Hc as <- <-. split; [done |]. split; [apply copy_ext_refl |].
        destruct Hok as (_ & Hmemo & _). by apply Hmemo in Eb. }
      assert (Hn : n <= length h) by apply Hok.
      destruct (h !! l) as [[items | xs] |] eqn:El; [| | discriminate].
      * destruct (copy_items _ _ _ _) as [st1 |] eqn:Ec; [| discriminate].
        cbn in Hc. injection Hc as <- <-.
        apply (copy_items_ok n _ _ _ IH Hn) in Ec as [Hok1 [Hlen1 Hag1]].
        -- split; [exact Hok1 |]. cbn [snd] in *. rewrite length_app in Hlen1. cbn in Hlen1.
           split; [| cbn; lia]. split; [cbn; lia |].
           intros l' Hl'. cbn [snd]. rewrite Hag1 by done. apply lookup_app_l. lia.
        -- apply copy_ok_alloc; [| exact Hok]. by intros k v [].
      * destruct (copy_elems _ _ _ _) as [st1 |] eqn:Ec; [| discriminate].
        cbn in Hc. injection Hc as <- <-.
        apply (copy_elems_ok n _ _ _ IH Hn) in Ec as [Hok1 [Hlen1 Hag1]].
        -- split; [exact Hok1 |]. cbn [snd] in *. rewrite length_app in Hlen1. cbn in Hlen1.
           split; [| cbn; lia]. split; [cbn; lia |].
           intros l' Hl'. cbn [snd]. rewrite Hag1 by done. apply lookup_app_l. lia.
        -- apply copy_ok_alloc; [| exact Hok]. by intros v [].
Qed.

(** [deepcopy]: the objects the store had are untouched, the copy is new,
    and the new objects refer to new objects only. *)
Lemma deepcopy_spec x h :
  wp (deepcopy x)
     (fun y h' =>
        length h <= length h'
        /\ (forall l, l < length h -> h' !! l = h !! l)
        /\ within (length h) (length h') y
        /\ (forall l o, length h <= l -> h' !! l = Some o -> obj_within (length h) (length h') o))
     h.
Proof.
  unfold wp, deepcopy.
  destruct (deepcopy_rec _ x ([], h)) as [[y [memo h']] |] eqn:E; [| exact I].
  apply deepcopy_rec_ok with (n := length h) in E as ((_ & _ & Hcl) & (Hlen & Hag) & Hy).
  - split; [cbn; lia |]. split; [by intros a b |].
    intros l o Hl Ho. cbn [snd] in Ho. apply lookup_lt_Some in Ho. lia.
  - cbn [snd] in *. auto.
Qed.

(** *** [copy.deepcopy] has enough fuel *)

Lemma filter_length_le {A} (f g : A -> bool) (xs : list A) :
  (forall x, g x = true -> f x = true) ->
  length (List.filter g xs) <= length (List.filter f xs).
Proof.
  intros H. induction xs as [| x xs IH]; [done |]. cbn.
  destruct (g x) eqn:Eg.
  - rewrite (H x Eg). cbn. lia.
  - destruct (f x); cbn; lia.
Qed.

Lemma filter_length_lt {A} (f g : A -> bool) (xs : list A) x :
  (forall x, g x = true -> f x = true) -> In x xs -> f x = true -> g x = false ->
  length (List.filter g xs) < length (List.filter f xs).
Proof.
  intros H Hin Hf Hg. induction xs as [| x' xs IH]; [done |]. cbn.
  destruct Hin as [-> | Hin].
  - rewrite Hf, Hg. cbn. pose proof (filter_length_le f g xs H). lia.
  - specialize (IH Hin). destruct (g x') eqn:Eg.
    + rewrite (H x' Eg). cbn. lia.
    + destruct (f x'); cbn; lia.
Qed.

Lemma uncopied_mono n memo memo' : memo_le memo memo' -> uncopied n memo' <= uncopied n memo.
Proof.
  intros H. apply filter_length_le. intros l Hl.
  destruct (memo_lookup l memo) as [y |] eqn:E; [| done].
  destruct (H l) as [y' Hy']; [by eexists |]. by rewrite Hy' in Hl.
Qed.

Lemma uncopied_cons n memo l y :
  l < n -> memo_lookup l memo = None -> uncopied n ((l, y) :: memo) < uncopied n memo.
Proof.
  intros Hl Hm. apply (filter_length_lt _ _ _ l).
  - intros x. cbn. destruct (Nat.eqb x l); [done |]. by destruct (memo_lookup x memo).
  - apply in_seq. lia.
  - by rewrite Hm.
  - cbn. by rewrite Nat.eqb_refl.
Qed.

Lemma memo_le_refl memo : memo_le memo memo.
Proof. by intros l. Qed.

Lemma memo_le_trans m1 m2 m3 : memo_le m1 m2 -> memo_le m2 m3 -> memo_le m1 m3.
Proof. intros H1 H2 l Hl. auto. Qed.

Lemma memo_le_cons memo l y : memo_le memo ((l, y) :: memo).
Proof. intros x Hx. cbn. by destruct (Nat.eqb x l). Qed.

Lemma copy_items_total h0 fuel rec y items :
  rec_total h0 fuel rec -> length h0 <= y ->
  (forall k v, In (k, v) items -> valid h0 v) ->
  forall st,
    (forall l, l < length h0 -> snd st !! l = h0 !! l) ->
    uncopied (length h0) (fst st) <= fuel ->
    exists st',
      copy_items rec y items st = Some st'
      /\ memo_le (fst st) (fst st')
      /\ (forall l, l < length h0 -> snd st' !! l = h0 !! l).
Proof.
  intros Hrec Hy. induction items as [| [k v] items IH]; intros Hv st Hst Hfuel; cbn.
  - exists st. split; [done |]. split; [apply memo_le_refl | done].
  - destruct (Hrec v st) as (v' & [memo1 h1] & -> & Hle1 & Hst1); [by eapply Hv; left | done.. |].
    cbn [fst snd] in *.
    destruct (IH (fun k' v' H => Hv k' v' (or_intror H)) (memo1, heap_store y k v' h1))
      as (st' & -> & Hle2 & Hst2).
    + intros l Hl. cbn [snd]. rewrite lookup_heap_store_ne by lia. by apply Hst1.
    + cbn [fst]. pose proof (uncopied_mono (length h0) _ _ Hle1). lia.
    + exists st'. split; [done |]. split; [| done]. eapply memo_le_trans; eauto.
Qed.

Lemma copy_elems_total h0 fuel rec y xs :
  rec_total h0 fuel rec -> length h0 <= y ->
  (forall v, In v xs -> valid h0 v) ->
  forall st,
    (forall l, l < length h0 -> snd st !! l = h0 !! l) ->
    uncopied (length h0) (fst st) <= fuel ->
    exists st',
      copy_elems rec y xs st = Some st'
      /\ memo_le (fst st) (fst st')
      /\ (forall l, l < length h0 -> snd st' !! l = h0 !! l).
Proof.
  intros Hrec Hy. induction xs as [| v xs IH]; intros Hv st Hst Hfuel; cbn.
  - exists st. split; [done |]. split; [apply memo_le_refl | done].
  - destruct (Hrec v st) as (v' & [memo1 h1] & -> & Hle1 & Hst1); [by eapply Hv; left | done.. |].
    cbn [fst snd] in *.
    destruct (IH (fun v' H => Hv v' (or_intror H)) (memo1, heap_append y v' h1))
      as (st' & -> & Hle2 & Hst2).
    + intros l Hl. cbn [snd]. rewrite lookup_heap_append_ne by lia. by apply Hst1.
    + cbn [fst]. pose proof (uncopied_mono (length h0) _ _ Hle1). lia.
    + exists st'. split; [done |]. split; [| done]. eapply memo_le_trans; eauto.
Qed.

Lemma deepcopy_rec_total h0 fuel : heap_wf h0 -> rec_total h0 fuel (deepcopy_rec fuel).
Proof.
  intros Hwf. induction fuel as [| fuel IH]; intros x [memo h] Hx Hst Hfuel; cbn [fst snd] in *.
  - destruct x as [a | l]; cbn.
    + eexists _, _. split; [done |]. split; [apply memo_le_refl | done].
    + destruct (memo_lookup l memo) as [b |] eqn:Eb.
      * eexists _, _. split; [done |]. split; [apply memo_le_refl | done].
      * pose proof (uncopied_cons (length h0) memo l 0 Hx Eb). lia.
  - destruct x as [a | l]; cbn [deepcopy_rec].
    + eexists _, _. split; [done |]. split; [apply memo_le_refl | done].
    + cbn [fst snd]. destruct (memo_lookup l memo) as [b |] eqn:Eb.
      { eexists _, _. split; [done |]. split; [apply memo_le_refl | done]. }
      cbn in Hx.
      assert (Hlen : length h0 <= length h).
      { destruct (decide (length h0 <= length h)) as [|Hn]; [done |].
        assert (Hl' : length h < length h0) by lia.
        pose proof (Hst _ Hl') as Hq. rewrite lookup_ge_None_2 in Hq by lia.
        symmetry in Hq. apply lookup_ge_None_1 in Hq. lia. }
      rewrite (Hst l Hx).
      destruct (h0 !! l) as [[items | xs] |] eqn:El.
      * destruct (copy_items_total h0 fuel (deepcopy_rec fuel) (length h) items IH Hlen
                    (Hwf l _ El) ((l, length h) :: memo, h ++ [ODict []]))
          as (st' & -> & Hle & Hst').
        -- intros l' Hl'. cbn [snd]. rewrite lookup_app_l by lia. by apply Hst.
        -- cbn [fst]. pose proof (uncopied_cons (length h0) memo l (length h) Hx Eb). lia.
        -- cbn. eexists _, _. split; [done |]. split; [| done].
           eapply memo_le_trans; [apply memo_le_cons | exact Hle].
      * destruct (copy_elems_total h0 fuel (deepcopy_rec fuel) (length h) xs IH Hlen
                    (Hwf l _ El) ((l, length h) :: memo, h ++ [OList []]))
          as (st' & -> & Hle & Hst').
        -- intros l' Hl'. cbn [snd]. rewrite lookup_app_l by lia. by apply Hst.
        -- cbn [fst]. pose proof (uncopied_cons (length h0) memo l (length h) Hx Eb). lia.
        -- cbn. eexists _, _. split; [done |]. split; [| done].
           eapply memo_le_trans; [apply memo_le_cons | exact Hle].
      * apply lookup_ge_None_1 in El. lia.
Qed.

(** [deepcopy] always has enough fuel: in a store without dangling
    references it returns a copy. *)
Lemma deepcopy_returns h x :
  heap_wf h -> valid h x -> exists y h', deepcopy x h = (Ret y, h').
Proof.
  intros Hwf Hx. unfold deepcopy.
  destruct (deepcopy_rec_total h (S (length h)) Hwf x ([], h)) as (y & [memo h'] & -> & _); eauto.
  cbn [fst]. unfold uncopied.
  etransitivity; [apply List.filter_length_le |]. rewrite length_seq. lia.
Qed.

(** ** The frame and the closedness of a compilation *)

Lemma path_get_app h v p q :
  path_get h v (p ++ q) = path_get h v p ≫= fun x => path_get h x q.
Proof.
  revert v. induction p as [| k p IH]; intros v; [reflexivity |].
  cbn. destruct (hlookup h v k) as [[v' |] |]; [apply IH | reflexivity | reflexivity].
Qed.

Lemma hlookup_In h d k v :
  hlookup h d k = Some (Some v) ->
  exists l items, d = HRef l /\ h !! l = Some (ODict items) /\ In (k, v) items.
Proof.
  unfold hlookup. destruct (as_dict h d) as [[l items] |] eqn:E; [| discriminate].
  cbn. intros [= Hk]. apply as_dict_Some in E as [-> E]. exists l, items. split; [done |].
  split; [done |]. clear E. induction items as [| [k0 v0] items IH]; [discriminate |].
  cbn in Hk. destruct (String.eqb_spec k k0) as [-> | Hne].
  - injection Hk as ->. by left.
  - right. by apply IH.
Qed.

Lemma hlookup_agree h h' l k :
  h' !! l = h !! l -> hlookup h' (HRef l) k = hlookup h (HRef l) k.
Proof. unfold hlookup, as_dict. by intros ->. Qed.

Lemma In_existsb (k : string) (l : list string) :
  existsb (String.eqb k) l = true -> In k l.
Proof.
  intros H. apply existsb_exists in H as (x & Hx & He). apply String.eqb_eq in He. by subst.
Qed.

Lemma not_In_existsb (k : string) (l : list string) :
  existsb (String.eqb k) l = false -> ~ In k l.
Proof.
  intros H Hin. assert (existsb (String.eqb k) l = true) as Ht.
  { apply existsb_exists. exists k. split; [done | apply String.eqb_refl]. }
  congruence.
Qed.

Ltac in_list := apply In_existsb; reflexivity.
Ltac not_in_list := apply not_In_existsb; reflexivity.
Ltac wstep := apply wp_bind; eapply wp_mono; [| cbn beta].
Ltac solve_live :=
  first [ assumption | exact I
        | eapply within_mono; [| eassumption]; lia ].

Section Frame.
Variables (strict : Prop) (n : nat) (h0 : heap) (args : list hval).
Hypothesis HSL : strict -> scalar_leaves h0 args.

Implicit Types (h : list obj) (v d dflt x : hval) (k : string).

Local Abbreviation Inv' := (Inv strict n h0).
Local Abbreviation live h v := (within n (length h) v).
Local Abbreviation from_args' := (from_args strict n h0 args).

Lemma live_mono h h' v : length h <= length h' -> live h v -> live h' v.
Proof. apply within_mono. Qed.

Lemma live_from_args h v : live h v -> from_args' v.
Proof. intros Hv _ l -> Hl. cbn in Hv. lia. Qed.

Lemma arg_from_args a : In a args -> from_args' a.
Proof. intros Ha _ l -> Hl. exists (HRef l), []. by split. Qed.

Lemma slot_live h d k v :
  Inv' h -> live h d -> tracked_key strict k -> hlookup h d k = Some (Some v) -> live h v.
Proof.
  intros (_ & _ & Hcl) Hd Hk Hs. apply hlookup_In in Hs as (l & items & -> & Hl & Hin).
  cbn in Hd. by apply (Hcl l _ (proj1 Hd) Hl k v).
Qed.

Lemma slot_from_args h d k v :
  Inv' h -> from_args' d -> hlookup h d k = Some (Some v) -> from_args' v.
Proof.
  intros HI Hd Hs Hst l' -> Hl'.
  pose proof Hs as Hs'. apply hlookup_In in Hs' as (l & items & -> & Hl & Hin).
  destruct (decide (l < n)) as [Hlt | Hge].
  - destruct (Hd Hst l eq_refl Hlt) as (a & p & Ha & Hp).
    exists a, (p ++ [k]). split; [done |]. rewrite path_get_app, Hp. cbn.
    destruct HI as (_ & Hag & _).
    rewrite <- (hlookup_agree h0 h l k) by (by apply Hag). by rewrite Hs.
  - destruct HI as (_ & _ & Hcl).
    assert (within n (length h) (HRef l')) as Hw
      by (apply (Hcl l _ ltac:(lia) Hl k _ Hin); by right).
    cbn in Hw. lia.
Qed.

Lemma slot_copied h d k v :
  Inv' h -> from_args' d -> In k copied_fields -> hlookup h d k = Some (Some v) ->
  strict -> live h v.
Proof.
  intros HI Hd Hk Hs Hst.
  pose proof Hs as Hs'. apply hlookup_In in Hs' as (l & items & -> & Hl & Hin).
  destruct (decide (l < n)) as [Hlt | Hge].
  - destruct (Hd Hst l eq_refl Hlt) as (a & p & Ha & Hp).
    assert (is_atom v) as Hat.
    { apply (HSL Hst a p k v Ha Hk). rewrite path_get_app, Hp. cbn.
      destruct HI as (_ & Hag & _).
      rewrite <- (hlookup_agree h0 h l k) by (by apply Hag). by rewrite Hs. }
    by destruct v.
  - destruct HI as (_ & _ & Hcl). apply (Hcl l _ ltac:(lia) Hl k _ Hin). by right.
Qed.

(** *** The store operations *)

Lemma obj_closed_mono len len' o :
  len <= len' -> obj_closed strict n len o -> obj_closed strict n len' o.
Proof. intros Hle. destruct o; cbn; intros H; intros; eapply within_mono; eauto. Qed.

Lemma Inv_alloc h o :
  Inv' h -> obj_closed strict n (S (length h)) o -> Inv' (h ++ [o]).
Proof.
  intros (Hlen & Hag & Hcl) Ho. unfold Inv. rewrite length_app. cbn.
  split; [lia |]. split.
  - intros l Hl. rewrite lookup_app_l by lia. by apply Hag.
  - intros l o' Hl Ho'. destruct (decide (l < length h)) as [Hlt | Hge].
    + rewrite lookup_app_l in Ho' by done.
      eapply obj_closed_mono; [| by eapply Hcl]. lia.
    + rewrite lookup_app_r in Ho' by lia.
      destruct (l - length h) as [| m] eqn:Em; cbn in Ho'; [| by destruct m].
      injection Ho' as <-. replace (length h + 1) with (S (length h)) by lia. exact Ho.
Qed.

Lemma Inv_store h l k v :
  Inv' h -> n <= l -> (tracked_key strict k -> live h v) -> Inv' (heap_store l k v h).
Proof.
  intros (Hlen & Hag & Hcl) Hl Hv. unfold Inv. rewrite length_heap_store.
  split; [done |]. split.
  - intros l' Hl'. rewrite lookup_heap_store_ne by lia. by apply Hag.
  - intros l' o Hl' Ho. destruct (decide (l = l')) as [-> | Hne].
    + unfold heap_store in Ho. destruct (h !! l') as [[items | xs] |] eqn:E.
      * rewrite list_lookup_insert_eq in Ho by (by eapply lookup_lt_Some).
        injection Ho as <-. intros k' v' Hin Hk'.
        apply in_dict_store in Hin as [[= -> ->] | Hin]; [by apply Hv |].
        by apply (Hcl l' _ Hl' E k').
      * apply (Hcl l' o Hl'). by rewrite <- Ho.
      * by rewrite E in Ho.
    + rewrite lookup_heap_store_ne in Ho by done. by apply (Hcl l').
Qed.

Lemma wp_new_dict_inv h :
  Inv' h -> wp new_dict (fun v h' => Inv' h' /\ live h' v /\ length h <= length h') h.
Proof.
  intros HI. unfold wp, new_dict. split; [| split].
  - apply Inv_alloc; [done |]. by intros k v [].
  - cbn. rewrite length_app. cbn. destruct HI. lia.
  - rewrite length_app. lia.
Qed.

Lemma wp_deepcopy_inv h x :
  Inv' h -> wp (deepcopy x) (fun v h' => Inv' h' /\ live h' v /\ length h <= length h') h.
Proof.
  intros (Hlen & Hag & Hcl). eapply wp_mono; [apply deepcopy_spec |].
  cbn beta. intros y h' (Hle & Hold & Hy & Hnew). split; [| split; [| done]].
  - split; [lia |]. split.
    + intros l Hl. rewrite Hold by lia. by apply Hag.
    + intros l o Hl Ho. destruct (decide (l < length h)) as [Hlt | Hge].
      * rewrite Hold in Ho by done. eapply obj_closed_mono; [| by eapply Hcl]. done.
      * specialize (Hnew l o ltac:(lia) Ho). destruct o; cbn in *; intros.
        -- specialize (Hnew _ _ H). destruct v; cbn in *; [done | lia].
        -- specialize (Hnew _ H). destruct v; cbn in *; [done | lia].
  - destruct y; cbn in *; [done | lia].
Qed.

Lemma wp_setitem_inv h d k v :
  Inv' h -> live h d -> (tracked_key strict k -> live h v) ->
  wp (dict_setitem d k v) (fun _ h' => Inv' h' /\ length h <= length h') h.
Proof.
  intros HI Hd Hv. unfold wp, dict_setitem.
  destruct (as_dict h d) as [[l items] |] eqn:E; [| exact I].
  apply as_dict_Some in E as [-> E]. cbn in Hd. rewrite length_heap_store.
  split; [| done]. apply Inv_store; [done | lia | done].
Qed.

Lemma wp_setdefault_inv h d k dflt :
  Inv' h -> live h d -> (tracked_key strict k -> live h dflt) ->
  wp (dict_setdefault d k dflt)
     (fun v h' => Inv' h' /\ length h <= length h' /\ (tracked_key strict k -> live h' v)) h.
Proof.
  intros HI Hd Hv. unfold wp, dict_setdefault.
  destruct (as_dict h d) as [[l items] |] eqn:E; [| exact I].
  destruct (dict_lookup k items) as [v |] eqn:Ek.
  - split; [done |]. split; [done |]. intros Hk.
    apply (slot_live h d k v HI Hd Hk). unfold hlookup. by rewrite E; cbn; rewrite Ek.
  - apply as_dict_Some in E as [-> E]. cbn in Hd. rewrite length_heap_store.
    split; [| done]. apply Inv_store; [done | lia | done].
Qed.

Lemma wp_dict_get h d k dflt :
  wp (dict_get d k dflt)
     (fun v h' => h' = h /\ (v = dflt \/ hlookup h d k = Some (Some v))) h.
Proof.
  unfold wp, dict_get, hlookup. destruct (as_dict h d) as [[l items] |]; [| exact I].
  cbn. split; [done |]. destruct (dict_lookup k items); cbn; auto.
Qed.

Lemma wp_dict_getitem h d k :
  wp (dict_getitem d k) (fun v h' => h' = h /\ hlookup h d k = Some (Some v)) h.
Proof.
  unfold wp, dict_getitem, hlookup. destruct (as_dict h d) as [[l items] |]; [| exact I].
  cbn. destruct (dict_lookup k items); [done | exact I].
Qed.

Lemma wp_dict_contains h d k : wp (dict_contains d k) (fun _ h' => h' = h) h.
Proof.
  unfold wp, dict_contains. destruct d as [[| | | |] | l]; try done.
  destruct (h !! l) as [[|] |]; done.
Qed.

Lemma wp_dict_items h d :
  wp (dict_items d)
     (fun items h' => h' = h /\ exists l, d = HRef l /\ h !! l = Some (ODict items)) h.
Proof.
  unfold wp, dict_items. destruct (as_dict h d) as [[l items] |] eqn:E; [| exact I].
  apply as_dict_Some in E as [-> E]. split; [done |]. by exists l.
Qed.

Lemma wp_path_operand h x : wp (path_operand x) (fun _ h' => h' = h) h.
Proof. unfold wp, path_operand. by destruct x as [[| | | |] | l]. Qed.

(** *** The idioms of the compilers *)

Lemma wp_get_or_empty h d k :
  Inv' h -> from_args' d ->
  wp (get_or_empty d k)
     (fun v h' => Inv' h' /\ from_args' v /\ length h <= length h') h.
Proof.
  intros HI Hd. unfold get_or_empty. apply wp_bind.
  eapply wp_mono; [by apply wp_new_dict_inv |]. cbn beta.
  intros e h1 (HI1 & He & Hle). eapply wp_mono; [apply wp_dict_get |]. cbn beta.
  intros v h2 (-> & [-> | Hs]).
  - split; [done |]. split; [| done]. by eapply live_from_args.
  - split; [done |]. split; [| done]. by eapply slot_from_args.
Qed.

Lemma wp_setdefault_empty h d k :
  Inv' h -> live h d -> In k traversal_keys ->
  wp (setdefault_empty d k)
     (fun v h' => Inv' h' /\ live h' v /\ length h <= length h') h.
Proof.
  intros HI Hd Hk. unfold setdefault_empty. apply wp_bind.
  eapply wp_mono; [by apply wp_new_dict_inv |]. cbn beta.
  intros e h1 (HI1 & He & Hle). eapply wp_mono.
  - apply wp_setdefault_inv; [done | by eapply live_mono | done].
  - cbn beta. intros v h2 (HI2 & Hle2 & Hv). split; [done |]. split; [| lia].
    apply Hv. by left.
Qed.

Lemma wp_get_copied h d k dflt :
  Inv' h -> from_args' d -> In k copied_fields -> is_atom dflt ->
  wp (dict_get d k dflt) (fun v h' => h' = h /\ (strict -> live h v)) h.
Proof.
  intros HI Hd Hk Hdf. eapply wp_mono; [apply wp_dict_get |]. cbn beta.
  intros v h' (-> & [-> | Hs]); (split; [done |]).
  - intros _. by destruct dflt.
  - by eapply slot_copied.
Qed.

Lemma wp_getitem_copied h d k :
  Inv' h -> from_args' d -> In k copied_fields ->
  wp (dict_getitem d k) (fun v h' => h' = h /\ (strict -> live h v)) h.
Proof.
  intros HI Hd Hk. eapply wp_mono; [apply wp_dict_getitem |]. cbn beta.
  intros v h' (-> & Hs). split; [done |]. by eapply slot_copied.
Qed.

(** Storing a value read from a copied field under a key that is not a
    traversal key. *)
Lemma wp_setitem_copied h d k v :
  Inv' h -> live h d -> ~ In k traversal_keys -> (strict -> live h v) ->
  wp (dict_setitem d k v) (fun _ h' => Inv' h' /\ length h <= length h') h.
Proof.
  intros HI Hd Hk Hv. apply wp_setitem_inv; [done | done |].
  intros [Hin | Hst]; [contradiction | by apply Hv].
Qed.

Lemma wp_copy_field h defaults cfg k :
  Inv' h -> from_args' defaults -> live h cfg ->
  In k copied_fields -> ~ In k traversal_keys ->
  wp (copy_field defaults cfg k) (fun _ h' => Inv' h' /\ length h <= length h') h.
Proof.
  intros HI Hd Hc Hk Hnk. unfold copy_field. apply wp_bind.
  eapply wp_mono; [by apply (wp_get_copied h defaults k HNone) |]. cbn beta.
  intros v h' (-> & Hv). by apply wp_setitem_copied.
Qed.

Lemma wp_getitem_tracked h d k :
  Inv' h -> live h d -> In k traversal_keys ->
  wp (dict_getitem d k) (fun v h' => h' = h /\ live h v) h.
Proof.
  intros HI Hd Hk. eapply wp_mono; [apply wp_dict_getitem |]. cbn beta.
  intros v h' (-> & Hs). split; [done |]. eapply slot_live; eauto. by left.
Qed.

(** *** The blocks of the compilers *)

Local Abbreviation keeps h m :=
  (wp m (fun _ h' => Inv strict n h0 h' /\ (length h <= length h')%nat) h)
  (h in scope list_scope).

Lemma copy_common_sections_inv h defaults root :
  Inv' h -> live h root -> keeps h (copy_common_sections defaults root).
Proof.
  intros HI Hr. unfold copy_common_sections.
  apply (wp_for_each (fun h' => Inv' h' /\ length h <= length h')); [by split |].
  intros sec h1 Hsec (HI1 & L1).
  assert (In sec traversal_keys) as Htrav.
  { cbn in Hsec. destruct Hsec as [<- | [<- | [<- | [<- | []]]]]; in_list. }
  wstep; [apply wp_dict_contains |]. intros present ? ->.
  destruct present.
  - wstep; [apply wp_dict_getitem |]. intros section ? (-> & _).
    wstep; [by apply wp_deepcopy_inv |]. intros copied h2 (HI2 & Hc & L2).
    eapply wp_mono; [apply wp_setitem_inv; [done | solve_live | intros _; solve_live] |].
    cbn beta. intros [] h3 (HI3 & L3). split; [done | lia].
  - wstep; [by apply wp_new_dict_inv |]. intros empty h2 (HI2 & He & L2).
    eapply wp_mono; [apply wp_setitem_inv; [done | solve_live | intros _; solve_live] |].
    cbn beta. intros [] h3 (HI3 & L3). split; [done | lia].
Qed.

Lemma merge_module_sections_inv h defaults module_name root :
  Inv' h -> from_args' defaults -> live h root ->
  keeps h (merge_module_sections defaults module_name root).
Proof.
  intros HI Hd Hr. unfold merge_module_sections.
  wstep; [by apply wp_get_or_empty |]. intros module h1 (HI1 & Hm & L1).
  wstep; [by apply wp_deepcopy_inv |]. intros copy h2 (HI2 & Hc & L2).
  wstep; [apply wp_dict_items |]. intros sections ? (-> & l & -> & Hl).
  eapply wp_mono.
  - apply (wp_for_each (fun h' => Inv' h' /\ length h2 <= length h')); [by split |].
    intros [k v] h3 Hkv (HI3 & L3). cbn [fst snd].
    eapply wp_mono; [apply wp_setitem_inv; [done | solve_live |] |].
    + intros Hk. destruct HI2 as (_ & _ & Hcl). cbn in Hc.
      eapply within_mono; [| apply (Hcl l _ (proj1 Hc) Hl k v Hkv Hk)]. done.
    + cbn beta. intros [] h4 (HI4 & L4). split; [done | lia].
  - cbn beta. intros [] h3 (HI3 & L3). split; [done | lia].
Qed.

Lemma populate_general_inv h defaults root app :
  Inv' h -> from_args' defaults -> live h root ->
  keeps h (populate_general defaults root app).
Proof.
  intros HI Hd Hr. unfold populate_general.
  wstep; [apply wp_setdefault_empty; [done | solve_live | in_list] |].
  intros general h1 (HI1 & Hg & L1).
  wstep; [apply wp_setitem_inv; [done | solve_live | intros _; exact I] |].
  intros [] h2 (HI2 & L2).
  wstep; [by apply wp_get_or_empty |]. intros gd h3 (HI3 & Hgd & L3).
  wstep; [apply (wp_get_copied h3 gd "version"); [done | done | in_list | exact I] |].
  intros version ? (-> & Hv).
  wstep; [apply wp_getitem_tracked; [done | solve_live | in_list] |].
  intros general' ? (-> & Hg').
  eapply wp_mono; [apply wp_setitem_copied; [done | solve_live | not_in_list | done] |].
  cbn beta. intros [] h4 (HI4 & L4). split; [done | lia].
Qed.

Lemma populate_simulator_inv h defaults root :
  Inv' h -> from_args' defaults -> live h root ->
  keeps h (populate_simulator defaults root).
Proof.
  intros HI Hd Hr. unfold populate_simulator.
  wstep; [by apply wp_get_or_empty |]. intros sd h1 (HI1 & Hsd & L1).
  wstep; [apply wp_setdefault_empty; [done | solve_live | in_list] |].
  intros sc h2 (HI2 & Hsc & L2).
  wstep; [apply wp_copy_field; [done | done | solve_live | in_list | not_in_list] |].
  intros [] h3 (HI3 & L3).
  eapply wp_mono; [apply wp_copy_field; [done | done | solve_live | in_list | not_in_list] |].
  cbn beta. intros [] h4 (HI4 & L4). split; [done | lia].
Qed.

Lemma populate_observation_inv h defaults pc root :
  Inv' h -> from_args' defaults -> from_args' pc -> live h root ->
  keeps h (populate_observation defaults pc root).
Proof.
  intros HI Hd Hpc Hr. unfold populate_observation.
  wstep; [apply wp_setdefault_empty; [done | solve_live | in_list] |].
  intros obs h1 (HI1 & Hobs & L1).
  wstep; [by apply wp_get_or_empty |]. intros od h2 (HI2 & Hod & L2).
  wstep; [apply wp_getitem_copied; [done | done | in_list] |]. intros ra ? (-> & Hra).
  wstep; [apply wp_setitem_copied; [done | solve_live | not_in_list | done] |].
  intros [] h3 (HI3 & L3).
  wstep; [apply wp_getitem_copied; [done | done | in_list] |]. intros dec ? (-> & Hdec).
  wstep; [apply wp_setitem_copied; [done | solve_live | not_in_list | done] |].
  intros [] h4 (HI4 & L4).
  wstep; [apply wp_getitem_copied; [done | done | in_list] |]. intros st ? (-> & Hst).
  wstep; [apply wp_setitem_copied; [done | solve_live | not_in_list | done] |].
  intros [] h5 (HI5 & L5).
  wstep; [apply wp_copy_field; [done | done | solve_live | in_list | not_in_list] |].
  intros [] h6 (HI6 & L6).
  wstep; [apply wp_copy_field; [done | done | solve_live | in_list | not_in_list] |].
  intros [] h7 (HI7 & L7).
  wstep; [apply wp_copy_field; [done | done | solve_live | in_list | not_in_list] |].
  intros [] h8 (HI8 & L8).
  wstep; [apply wp_copy_field; [done | done | solve_live | in_list | not_in_list] |].
  intros [] h9 (HI9 & L9).
  eapply wp_mono; [apply wp_copy_field; [done | done | solve_live | in_list | not_in_list] |].
  cbn beta. intros [] h10 (HI10 & L10). split; [done | lia].
Qed.

Lemma populate_element_errors_inv h pc rs el :
  Inv' h -> from_args' pc -> live h el ->
  keeps h (populate_element_errors pc rs el).
Proof.
  intros HI Hpc Hel. unfold populate_element_errors.
  wstep; [apply wp_dict_get |]. intros flag ? (-> & _).
  apply wp_bind. unfold wp at 1. cbn beta iota.
  apply wp_bind.
  apply (wp_mono _ (fun eff h' => h' = h /\ (strict -> live h (fst eff))
                                 /\ (strict -> live h (snd eff)))).
  - destruct (truthy h flag).
    + wstep; [apply (wp_get_copied h pc "gain_error_std"); [done | done | in_list | exact I] |].
      intros g ? (-> & Hg).
      wstep; [apply (wp_get_copied h pc "phase_error_std"); [done | done | in_list | exact I] |].
      intros p ? (-> & Hp). apply wp_ret. by split.
    + apply wp_ret. split; [done |]. split; intros _; exact I.
  - intros [g p] ? (-> & Hg & Hp). cbn [fst snd] in *.
    wstep; [apply wp_setitem_copied; [done | solve_live | not_in_list | done] |].
    intros [] h1 (HI1 & L1).
    wstep; [apply wp_setitem_copied; [done | solve_live | not_in_list
                                      | intros Hs; specialize (Hg Hs); solve_live] |].
    intros [] h2 (HI2 & L2).
    wstep; [apply wp_setitem_copied; [done | solve_live | not_in_list
                                      | intros Hs; specialize (Hp Hs); solve_live] |].
    intros [] h3 (HI3 & L3).
    eapply wp_mono; [apply wp_setitem_copied; [done | solve_live | not_in_list
                                      | intros Hs; specialize (Hp Hs); solve_live] |].
    cbn beta. intros [] h4 (HI4 & L4). split; [done | lia].
Qed.

Lemma populate_telescope_inv E h defaults tel pc rs root run_dir project_root :
  Inv' h -> from_args' defaults -> from_args' pc -> live h root ->
  keeps h (populate_telescope E defaults tel pc rs root run_dir project_root).
Proof.
  intros HI Hd Hpc Hr. unfold populate_telescope.
  wstep; [apply wp_setdefault_empty; [done | solve_live | in_list] |].
  intros tel_cfg_sec h1 (HI1 & Ht & L1).
  wstep; [by apply wp_get_or_empty |]. intros tel_defaults h2 (HI2 & Htd & L2).
  wstep; [apply wp_dict_getitem |]. intros oid ? (-> & _).
  wstep; [apply wp_path_operand |]. intros input_dir ? ->.
  wstep; [apply wp_setitem_inv; [done | solve_live | intros _; exact I] |].
  intros [] h3 (HI3 & L3).
  wstep; [apply wp_setdefault_empty; [done | solve_live | in_list] |].
  intros ap h4 (HI4 & Hap & L4).
  wstep; [apply wp_setdefault_empty; [done | solve_live | in_list] |].
  intros elp h5 (HI5 & Help & L5).
  wstep; [apply wp_setdefault_empty; [done | solve_live | in_list] |].
  intros arr h6 (HI6 & Harr & L6).
  wstep; [apply wp_setdefault_empty; [done | solve_live | in_list] |].
  intros el h7 (HI7 & Hel & L7).
  wstep; [by apply wp_get_or_empty |]. intros apd h8 (HI8 & Hapd & L8).
  wstep; [by apply wp_get_or_empty |]. intros elpd h9 (HI9 & Helpd & L9).
  wstep; [by apply wp_get_or_empty |]. intros apd' h10 (HI10 & Hapd' & L10).
  wstep; [by apply wp_get_or_empty |]. intros arrd h11 (HI11 & Harrd & L11).
  wstep; [by apply wp_get_or_empty |]. intros eld h12 (HI12 & Held & L12).
  wstep; [apply (wp_get_copied h12 elpd "enable_numerical"); [done | done | in_list | exact I] |].
  intros en ? (-> & Hen).
  wstep; [apply wp_setitem_copied; [done | solve_live | not_in_list | done] |].
  intros [] h13 (HI13 & L13).
  wstep; [apply wp_copy_field; [done | done | solve_live | in_list | not_in_list] |].
  intros [] h14 (HI14 & L14).
  wstep; [apply wp_copy_field; [done | done | solve_live | in_list | not_in_list] |].
  intros [] h15 (HI15 & L15).
  wstep; [apply wp_copy_field; [done | done | solve_live | in_list | not_in_list] |].
  intros [] h16 (HI16 & L16).
  wstep; [apply wp_copy_field; [done | done | solve_live | in_list | not_in_list] |].
  intros [] h17 (HI17 & L17).
  eapply wp_mono; [apply populate_element_errors_inv; [done | done | solve_live] |].
  cbn beta. intros [] h18 (HI18 & L18). split; [done | lia].
Qed.

Lemma populate_beam_pattern_inv h defaults out root :
  Inv' h -> from_args' defaults -> from_args' out -> live h root ->
  keeps h (populate_beam_pattern defaults out root).
Proof.
  intros HI Hd Ho Hr. unfold populate_beam_pattern.
  wstep; [apply wp_setdefault_empty; [done | solve_live | in_list] |].
  intros bp h1 (HI1 & Hbp & L1).
  wstep; [by apply wp_get_or_empty |]. intros bm h2 (HI2 & Hbm & L2).
  wstep; [by apply wp_get_or_empty |]. intros bpd h3 (HI3 & Hbpd & L3).
  wstep; [apply wp_setdefault_empty; [done | solve_live | in_list] |].
  intros bi h4 (HI4 & Hbi & L4).
  wstep; [by apply wp_get_or_empty |]. intros bid h5 (HI5 & Hbid & L5).
  wstep; [apply wp_copy_field; [done | done | solve_live | in_list | not_in_list] |].
  intros [] h6 (HI6 & L6).
  wstep; [apply (wp_get_copied h6 out "beam_root_path_base"); [done | done | in_list | exact I] |].
  intros rp ? (-> & Hrp).
  wstep; [apply wp_setitem_copied; [done | solve_live | not_in_list | done] |].
  intros [] h7 (HI7 & L7).
  wstep; [apply wp_setdefault_empty; [done | solve_live | in_list] |].
  intros so h8 (HI8 & Hso & L8).
  wstep; [apply wp_setdefault_empty; [done | solve_live | in_list] |].
  intros soc h9 (HI9 & Hsoc & L9).
  wstep; [by apply wp_get_or_empty |]. intros som h10 (HI10 & Hsom & L10).
  wstep; [by apply wp_get_or_empty |]. intros sod h11 (HI11 & Hsod & L11).
  wstep; [apply (wp_get_copied h11 sod "amp"); [done | done | in_list | exact I] |].
  intros amp ? (-> & Hamp).
  eapply wp_mono; [apply wp_setitem_copied; [done | solve_live | not_in_list | done] |].
  cbn beta. intros [] h12 (HI12 & L12). split; [done | lia].
Qed.

Lemma populate_interferometer_inv h defaults out root :
  Inv' h -> from_args' defaults -> from_args' out -> live h root ->
  keeps h (populate_interferometer defaults out root).
Proof.
  intros HI Hd Ho Hr. unfold populate_interferometer.
  wstep; [apply wp_setdefault_empty; [done | solve_live | in_list] |].
  intros isc h1 (HI1 & Hisc & L1).
  wstep; [by apply wp_get_or_empty |]. intros im h2 (HI2 & Him & L2).
  wstep; [by apply wp_get_or_empty |]. intros imd h3 (HI3 & Himd & L3).
  wstep; [apply (wp_get_copied h3 out "interf_ms_base_filename");
          [done | done | in_list | exact I] |].
  intros ms ? (-> & Hms).
  wstep; [apply wp_setitem_copied; [done | solve_live | not_in_list | done] |].
  intros [] h4 (HI4 & L4).
  wstep; [apply wp_copy_field; [done | done | solve_live | in_list | not_in_list] |].
  intros [] h5 (HI5 & L5).
  eapply wp_mono; [apply wp_copy_field; [done | done | solve_live | in_list | not_in_list] |].
  cbn beta. intros [] h6 (HI6 & L6). split; [done | lia].
Qed.

Lemma populate_sky_inv E h defaults sky_cfg root base run_dir project_root :
  Inv' h -> from_args' defaults -> live h root ->
  keeps h (populate_sky E defaults sky_cfg root base run_dir project_root).
Proof.
  intros HI Hd Hr. unfold populate_sky.
  wstep; [apply wp_setdefault_empty; [done | solve_live | in_list] |].
  intros sky h1 (HI1 & Hsky & L1).
  wstep; [apply wp_setdefault_empty; [done | solve_live | in_list] |].
  intros ssc h2 (HI2 & Hssc & L2).
  wstep; [by apply wp_get_or_empty |]. intros im h3 (HI3 & Him & L3).
  wstep; [by apply wp_get_or_empty |]. intros sm h4 (HI4 & Hsm & L4).
  wstep; [by apply wp_get_or_empty |]. intros smd h5 (HI5 & Hsmd & L5).
  wstep; [apply wp_path_operand |]. intros base_dir ? ->.
  wstep; [apply wp_dict_getitem |]. intros fn ? (-> & _).
  wstep; [apply wp_path_operand |]. intros fn_str ? ->.
  wstep; [apply wp_setitem_inv; [done | solve_live | intros _; exact I] |].
  intros [] h6 (HI6 & L6).
  wstep; [by apply wp_get_or_empty |]. intros fd h7 (HI7 & Hfd & L7).
  wstep; [apply (wp_get_copied h7 fd "radius_outer_deg"); [done | done | in_list | exact I] |].
  intros rad ? (-> & Hrad).
  wstep; [apply wp_setdefault_empty; [done | solve_live | in_list] |].
  intros fc h8 (HI8 & Hfc & L8).
  eapply wp_mono; [apply wp_setitem_copied; [done | solve_live | not_in_list
                                     | intros Hs; specialize (Hrad Hs); solve_live] |].
  cbn beta. intros [] h9 (HI9 & L9). split; [done | lia].
Qed.

(** Both compilers keep the invariant and return a new object. *)
Lemma generate_beam_inv E h defaults tel pc rs out run_dir project_root :
  Inv' h -> from_args' defaults -> from_args' pc -> from_args' out ->
  wp (generate_beam_ini_data E defaults tel pc rs out run_dir project_root)
     (fun root h' => Inv' h' /\ live h' root /\ length h <= length h') h.
Proof.
  intros HI Hd Hpc Ho. unfold generate_beam_ini_data.
  wstep; [by apply wp_new_dict_inv |]. intros root h1 (HI1 & Hr & L1).
  wstep; [apply copy_common_sections_inv; [done | solve_live] |]. intros [] h2 (HI2 & L2).
  wstep; [apply merge_module_sections_inv; [done | done | solve_live] |].
  intros [] h3 (HI3 & L3).
  wstep; [apply populate_general_inv; [done | done | solve_live] |]. intros [] h4 (HI4 & L4).
  wstep; [apply populate_simulator_inv; [done | done | solve_live] |]. intros [] h5 (HI5 & L5).
  wstep; [apply populate_observation_inv; [done | done | done | solve_live] |].
  intros [] h6 (HI6 & L6).
  wstep; [apply populate_telescope_inv; [done | done | done | solve_live] |].
  intros [] h7 (HI7 & L7).
  wstep; [apply populate_beam_pattern_inv; [done | done | done | solve_live] |].
  intros [] h8 (HI8 & L8).
  apply wp_ret. split; [done |]. split; [solve_live | lia].
Qed.

Lemma generate_interf_inv E h defaults tel sky_cfg pc rs out base run_dir project_root :
  Inv' h -> from_args' defaults -> from_args' pc -> from_args' out ->
  wp (generate_interf_ini_data E defaults tel sky_cfg pc rs out base run_dir project_root)
     (fun root h' => Inv' h' /\ live h' root /\ length h <= length h') h.
Proof.
  intros HI Hd Hpc Ho. unfold generate_interf_ini_data.
  wstep; [by apply wp_new_dict_inv |]. intros root h1 (HI1 & Hr & L1).
  wstep; [apply copy_common_sections_inv; [done | solve_live] |]. intros [] h2 (HI2 & L2).
  wstep; [apply merge_module_sections_inv; [done | done | solve_live] |].
  intros [] h3 (HI3 & L3).
  wstep; [apply populate_general_inv; [done | done | solve_live] |]. intros [] h4 (HI4 & L4).
  wstep; [apply populate_simulator_inv; [done | done | solve_live] |]. intros [] h5 (HI5 & L5).
  wstep; [apply populate_observation_inv; [done | done | done | solve_live] |].
  intros [] h6 (HI6 & L6).
  wstep; [apply populate_telescope_inv; [done | done | done | solve_live] |].
  intros [] h7 (HI7 & L7).
  wstep; [apply populate_interferometer_inv; [done | done | done | solve_live] |].
  intros [] h8 (HI8 & L8).
  wstep; [apply populate_sky_inv; [done | done | solve_live] |].
  intros [] h9 (HI9 & L9).
  apply wp_ret. split; [done |]. split; [solve_live | lia].
Qed.
End Frame.

(** ** Two compilations do not share *)

Lemma Inv_init strict (h0 : list obj) : Inv strict (length h0) h0 h0.
Proof.
  split; [done |]. split; [done |]. intros l o Hl Ho. apply lookup_lt_Some in Ho. lia.
Qed.

Lemma from_args_lax n h0 args v : from_args False n h0 args v.
Proof. intros []. Qed.

Lemma no_scalar_leaves_needed h0 : False -> scalar_leaves h0 [].
Proof. intros []. Qed.

Lemma compile_inv strict E c (h0 : list obj) :
  (strict -> scalar_leaves h0 (uncopied_sources c)) ->
  wp (compile E c)
     (fun root h' => Inv strict (length h0) h0 h' /\ within (length h0) (length h') root) h0.
Proof.
  intros HSL.
  assert (forall a, In a (uncopied_sources c) ->
                    from_args strict (length h0) h0 (uncopied_sources c) a) as Harg
    by (intros a Ha; by apply arg_from_args).
  destruct c as [d t p r o run_dir root | d t s p r o b run_dir root]; cbn [compile].
  - eapply wp_mono.
    + apply (generate_beam_inv strict (length h0) h0 [d; p; o] HSL); [apply Inv_init | | |];
        apply Harg; cbn; auto.
    + cbn beta. intros root' h' (HI & Hr & _). by split.
  - eapply wp_mono.
    + apply (generate_interf_inv strict (length h0) h0 [d; p; o] HSL); [apply Inv_init | | |];
        apply Harg; cbn; auto.
    + cbn beta. intros root' h' (HI & Hr & _). by split.
Qed.

(** A compiler changes none of the objects the store had when it was
    called. *)
Lemma compile_frame E c (h0 h' : list obj) root :
  compile E c h0 = (Ret root, h') ->
  length h0 <= length h' /\ forall l, l < length h0 -> h' !! l = h0 !! l.
Proof.
  intros Hrun. pose proof (compile_inv False E c h0 ltac:(intros [])) as Hwp.
  apply (wp_elim _ _ _ _ _ Hwp) in Hrun as ((Hlen & Hag & _) & _). by split.
Qed.

Lemma reachable_within (n : nat) (h0 h : list obj) v l :
  Inv True n h0 h -> within n (length h) v -> reachable h v l -> n <= l < length h.
Proof.
  intros (_ & _ & Hcl) Hv Hr. induction Hr as [l o Ho | l items k v l' Ho Hin _ IH | l xs v l' Ho Hin _ IH].
  - exact Hv.
  - apply IH. cbn in Hv. apply (Hcl l _ (proj1 Hv) Ho k v Hin). by right.
  - apply IH. cbn in Hv. apply (Hcl l _ (proj1 Hv) Ho v Hin).
Qed.

(** When the fields it does not copy hold scalars, the tree a compiler
    returns is made of new objects only. *)
Lemma compile_fresh E c (h0 h' : list obj) root :
  scalar_leaves h0 (uncopied_sources c) ->
  compile E c h0 = (Ret root, h') ->
  (exists r, root = HRef r) /\ forall l, reachable h' root l -> length h0 <= l < length h'.
Proof.
  intros HSL Hrun. pose proof (compile_inv True E c h0 (fun _ => HSL)) as Hwp.
  pose proof Hrun as Hrun'.
  apply (wp_elim _ _ _ _ _ Hwp) in Hrun as (HI & Hroot). split.
  - destruct c; cbn [compile] in Hrun';
      unfold generate_beam_ini_data, generate_interf_ini_data, bind, new_dict in Hrun';
      repeat match type of Hrun' with
             | context [match ?m ?s with _ => _ end] => destruct (m s) as [[[] | ?] ?]
             end; try discriminate;
      unfold ret in Hrun'; injection Hrun' as <- _; eauto.
  - intros l Hl. by eapply reachable_within.
Qed.

Lemma path_get_frame (h0 h1 : list obj) a p v :
  heap_wf h0 -> (forall l, l < length h0 -> h1 !! l = h0 !! l) ->
  valid h0 a -> path_get h1 a p = Some v -> path_get h0 a p = Some v /\ valid h0 v.
Proof.
  intros Hwf Hag. revert a. induction p as [| k p IH]; intros a Ha Hp.
  - cbn in *. injection Hp as <-. by split.
  - cbn [path_get] in *.
    destruct (hlookup h1 a k) as [[v' |] |] eqn:E; try discriminate.
    pose proof E as E'. apply hlookup_In in E' as (l & items & -> & Hl & Hin).
    cbn in Ha. rewrite Hag in Hl by done.
    rewrite (hlookup_agree h0 h1 l k) in E by (by apply Hag).
    rewrite E. apply IH; [| exact Hp]. by apply (Hwf l _ Hl k v').
Qed.

Lemma scalar_leaves_frame (h0 h1 : list obj) args :
  heap_wf h0 -> (forall l, l < length h0 -> h1 !! l = h0 !! l) ->
  Forall (valid h0) args -> scalar_leaves h0 args -> scalar_leaves h1 args.
Proof.
  intros Hwf Hag Hargs HSL a p k v Ha Hk Hp.
  apply (HSL a p k v Ha Hk).
  eapply path_get_frame; eauto. rewrite Forall_forall in Hargs. apply Hargs.
  by apply list_elem_of_In.
Qed.

Lemma reachable_earlier (n : nat) (h0 h1 h2 : list obj) v l :
  Inv True n h0 h1 -> (forall l', l' < length h1 -> h2 !! l' = h1 !! l') ->
  within n (length h1) v -> reachable h2 v l -> reachable h1 v l.
Proof.
  intros (_ & _ & Hcl) Hag Hv Hr.
  induction Hr as [l o Ho | l items k v l' Ho Hin _ IH | l xs v l' Ho Hin _ IH];
    cbn in Hv; rewrite Hag in Ho by lia.
  - by eapply reach_here.
  - eapply reach_item; [done | done |]. apply IH.
    apply (Hcl l _ (proj1 Hv) Ho k v Hin). by right.
  - eapply reach_elem; [done | done |]. apply IH.
    apply (Hcl l _ (proj1 Hv) Ho v Hin).
Qed.

Lemma valid_b_spec (h : list obj) v : valid_b (length h) v = true -> valid h v.
Proof. destruct v; cbn; [done |]. intros H. by apply Nat.ltb_lt. Qed.

Lemma heap_wf_b_spec (h : list obj) : heap_wf_b h = true -> heap_wf h.
Proof.
  unfold heap_wf_b. rewrite forallb_forall. intros H l o Ho.
  assert (In o h) as Hin by (apply list_elem_of_In; by eapply list_elem_of_lookup_2).
  specialize (H o Hin). destruct o as [items | xs]; rewrite forallb_forall in H.
  - intros k v Hkv. apply valid_b_spec. apply (H (k, v) Hkv).
  - intros v Hv. apply valid_b_spec. by apply H.
Qed.

Lemma path_get_last h a p k v :
  path_get h a (p ++ [k]) = Some v ->
  exists d, hlookup h d k = Some (Some v).
Proof.
  rewrite path_get_app. destruct (path_get h a p) as [d |]; [| discriminate].
  cbn. destruct (hlookup h d k) as [[v' |] |] eqn:E; try discriminate.
  intros [= ->]. by exists d.
Qed.

Lemma scalar_leaves_b_spec (h : list obj) args : scalar_leaves_b h = true -> scalar_leaves h args.
Proof.
  unfold scalar_leaves_b. rewrite forallb_forall. intros H a p k v _ Hk Hp.
  apply path_get_last in Hp as (d & Hd).
  apply hlookup_In in Hd as (l & items & -> & Hl & Hin).
  assert (In (ODict items) h) as Ho by (apply list_elem_of_In; by eapply list_elem_of_lookup_2).
  specialize (H _ Ho). cbn beta iota in H. rewrite forallb_forall in H.
  specialize (H _ Hin). cbn [fst snd] in H.
  assert (existsb (String.eqb k) copied_fields = true) as Hex.
  { apply existsb_exists. exists k. split; [done | apply String.eqb_refl]. }
  rewrite Hex in H. cbn [negb orb] in H. by destruct v.
Qed.

(** X20, for two compilations one after the other in a store without
    dangling references, when every entry that can be reached from the
    defaults, the phase-centre record or the output configuration under
    one of the names in [copied_fields] (the names of the leaves that the
    compilers store without copying), at any depth, holds a scalar: the
    objects the
    store had, the defaults among them, are unchanged; each tree is made
    of objects created by its own compilation; and replacing an object of
    one tree changes neither the objects the store had nor the objects of
    the other tree. *)
Theorem compiled_trees_isolated E c1 c2 (h0 h1 h2 : list obj) t1 t2 :
  heap_wf h0 ->
  Forall (valid h0) (uncopied_sources c1 ++ uncopied_sources c2) ->
  scalar_leaves h0 (uncopied_sources c1 ++ uncopied_sources c2) ->
  compile E c1 h0 = (Ret t1, h1) ->
  compile E c2 h1 = (Ret t2, h2) ->
  (forall l, l < length h0 -> h1 !! l = h0 !! l /\ h2 !! l = h0 !! l)
  /\ (forall l, reachable h2 t1 l -> length h0 <= l < length h1)
  /\ (forall l, reachable h2 t2 l -> length h1 <= l < length h2)
  /\ (forall l o, reachable h2 t1 l \/ reachable h2 t2 l ->
        (forall l', l' < length h0 -> <[l := o]> h2 !! l' = h0 !! l')
        /\ (forall l', reachable h2 t1 l' -> reachable h2 t2 l -> <[l := o]> h2 !! l' = h2 !! l')
        /\ (forall l', reachable h2 t2 l' -> reachable h2 t1 l -> <[l := o]> h2 !! l' = h2 !! l')).
Proof.
  intros Hwf Hvalid HSL Hrun1 Hrun2.
  apply Forall_app in Hvalid as [Hv1 Hv2].
  assert (scalar_leaves h0 (uncopied_sources c1)) as HSL1
    by (intros a p k v Ha; apply HSL, in_or_app; by left).
  assert (scalar_leaves h0 (uncopied_sources c2)) as HSL2
    by (intros a p k v Ha; apply HSL, in_or_app; by right).
  destruct (compile_frame _ _ _ _ _ Hrun1) as [Hlen1 Hag1].
  destruct (compile_frame _ _ _ _ _ Hrun2) as [Hlen2 Hag2].
  pose proof (scalar_leaves_frame h0 h1 _ Hwf Hag1 Hv2 HSL2) as HSL2'.
  destruct (compile_fresh _ _ _ _ _ HSL1 Hrun1) as [_ Hfresh1].
  destruct (compile_fresh _ _ _ _ _ HSL2' Hrun2) as [_ Hfresh2].
  pose proof (compile_inv True E c1 h0 (fun _ => HSL1)) as Hwp.
  apply (wp_elim _ _ _ _ _ Hwp) in Hrun1 as (HI1 & Hroot1).
  assert (forall l, reachable h2 t1 l -> length h0 <= l < length h1) as Hreach1.
  { intros l Hl. apply Hfresh1. by eapply reachable_earlier. }
  split; [| split; [exact Hreach1 | split; [exact Hfresh2 |]]].
  - intros l Hl. split; [by apply Hag1 |]. rewrite Hag2 by lia. by apply Hag1.
  - intros l o Hl. split; [| split].
    + intros l' Hl'. rewrite list_lookup_insert_ne.
      * rewrite Hag2 by lia. by apply Hag1.
      * destruct Hl as [Hl | Hl]; [apply Hreach1 in Hl | apply Hfresh2 in Hl]; lia.
    + intros l' Hl1 Hl2. apply list_lookup_insert_ne.
      apply Hreach1 in Hl1. apply Hfresh2 in Hl2. lia.
    + intros l' Hl2 Hl1. apply list_lookup_insert_ne.
      apply Hreach1 in Hl1. apply Hfresh2 in Hl2. lia.
Qed.

(** ** The values of the fields *)

Lemma same_except_store h l k v : same_except k h (heap_store l k v h).
Proof. intros d k' Hne _. by apply hlookup_store_other. Qed.

Lemma same_except_trans_app (h : list obj) o h' k :
  same_except k (h ++ [o]) h' -> same_except k h h'.
Proof.
  intros H d k' Hne Hs. rewrite H; [by apply hlookup_app | done |].
  by rewrite hlookup_app.
Qed.

Lemma same_except_on kw K (h h' : list obj) :
  same_except kw h h' -> ~ In kw K -> same_on K h h'.
Proof. intros Hs Hk d k Hin Hsome. apply Hs; [intros ->; contradiction | done]. Qed.

Lemma transport_except kw (h h' : list obj) d k o :
  same_except kw h h' -> k <> kw -> hlookup h d k = Some o -> hlookup h' d k = Some o.
Proof. intros Hs Hne Hl. rewrite Hs; [done | done | by rewrite Hl]. Qed.

Lemma transport_on K (h h' : list obj) d k o :
  same_on K h h' -> In k K -> hlookup h d k = Some o -> hlookup h' d k = Some o.
Proof. intros Hs Hk Hl. rewrite Hs; [done | done | by rewrite Hl]. Qed.

Lemma setitem_exact (h : list obj) d k v :
  wp (dict_setitem d k v)
     (fun _ h' => hlookup h' d k = Some (Some v) /\ same_except k h h') h.
Proof.
  unfold wp, dict_setitem. destruct (as_dict h d) as [[l items] |] eqn:E; [| exact I].
  apply as_dict_Some in E as [-> E]. split; [by eapply hlookup_store_same |].
  apply same_except_store.
Qed.

Lemma setdefault_empty_exact (h : list obj) d k :
  wp (setdefault_empty d k)
     (fun v h' => hlookup h' d k = Some (Some v) /\ same_except k h h') h.
Proof.
  unfold setdefault_empty. apply wp_bind. unfold wp at 1, new_dict.
  unfold wp, dict_setdefault.
  destruct (as_dict (h ++ [ODict []]) d) as [[l items] |] eqn:E; [| exact I].
  destruct (dict_lookup k items) as [v |] eqn:Ek.
  - split; [unfold hlookup; by rewrite E; cbn; rewrite Ek |].
    intros d' k' _ Hs. by apply hlookup_app.
  - apply as_dict_Some in E as [-> E]. split; [by eapply hlookup_store_same |].
    eapply same_except_trans_app. apply same_except_store.
Qed.

Lemma dict_get_exact (h : list obj) d k dflt :
  wp (dict_get d k dflt)
     (fun v h' => h' = h /\ exists o, hlookup h d k = Some o /\ v = from_option id dflt o) h.
Proof.
  unfold wp, dict_get, hlookup. destruct (as_dict h d) as [[l items] |]; [| exact I].
  cbn. split; [done |]. by eexists.
Qed.

Lemma Same_weaken K K' {A} (m : M (list obj) A) :
  (forall k, In k K' -> In k K) -> Same K m -> Same K' m.
Proof.
  intros Hsub Hm h. eapply wp_mono; [apply Hm |]. cbn beta. intros a h' Hs.
  by eapply same_on_weaken.
Qed.

Lemma Same_get_or_empty K d k : Same K (get_or_empty d k).
Proof. apply Same_bind; [apply Same_new_dict | intros e; apply Same_dict_get]. Qed.

Lemma Same_setdefault_empty K d k : ~ In k K -> Same K (setdefault_empty d k).
Proof.
  intros Hk. apply Same_bind; [apply Same_new_dict | intros e; by apply Same_dict_setdefault].
Qed.

Lemma Same_copy_field K defaults cfg k : ~ In k K -> Same K (copy_field defaults cfg k).
Proof.
  intros Hk. apply Same_bind; [apply Same_dict_get | intros v; by apply Same_dict_setitem].
Qed.

Lemma Same_deepcopy K x : Same K (deepcopy x).
Proof.
  intros h. eapply wp_mono; [apply deepcopy_spec |]. cbn beta.
  intros y h' (_ & Hold & _) d k _ Hs. unfold hlookup, as_dict in *.
  destruct d as [a | l]; [done |].
  destruct (h !! l) as [o |] eqn:E; [| by destruct Hs].
  rewrite Hold by (by eapply lookup_lt_Some). by rewrite E.
Qed.

Lemma Same_if K {A} (b : bool) (m1 m2 : M (list obj) A) :
  Same K m1 -> Same K m2 -> Same K (if b then m1 else m2).
Proof. by destruct b. Qed.

Lemma Same_pure K {A} (f : list obj -> A) : Same K (fun h => (Ret (f h), h)).
Proof. intros h. apply same_on_refl. Qed.

(** Prove [Same K m] for a block built from the store operations. *)
Ltac solve_Same :=
  repeat first
    [ apply Same_ret
    | apply Same_new_dict
    | apply Same_dict_contains
    | apply Same_dict_getitem
    | apply Same_dict_get
    | apply Same_dict_items
    | apply Same_path_operand
    | apply Same_deepcopy
    | apply Same_get_or_empty
    | apply Same_pure
    | apply Same_setdefault_empty; not_in_list
    | apply Same_copy_field; not_in_list
    | apply Same_dict_setitem; not_in_list
    | apply Same_dict_setdefault; not_in_list
    | apply Same_if
    | apply Same_bind; [| intros ?] ].

Lemma Same_populate_simulator_args defaults root :
  Same argument_keys (populate_simulator defaults root).
Proof. unfold populate_simulator. solve_Same. Qed.

Lemma Same_populate_general_args defaults root app :
  Same argument_keys (populate_general defaults root app).
Proof. unfold populate_general. solve_Same. Qed.

Lemma Same_populate_observation_args defaults pc root :
  Same argument_keys (populate_observation defaults pc root).
Proof. unfold populate_observation. solve_Same. Qed.

Lemma Same_populate_telescope_args E defaults tel pc rs root run_dir project_root :
  Same argument_keys (populate_telescope E defaults tel pc rs root run_dir project_root).
Proof.
  unfold populate_telescope. solve_Same.
Qed.

Lemma Same_populate_interferometer_args defaults out root :
  Same argument_keys (populate_interferometer defaults out root).
Proof. unfold populate_interferometer. solve_Same. Qed.

Lemma Same_populate_beam_pattern_back defaults out root :
  Same read_back_keys (populate_beam_pattern defaults out root).
Proof. unfold populate_beam_pattern. solve_Same. Qed.

Lemma Same_populate_interferometer_back defaults out root :
  Same telescope_keys (populate_interferometer defaults out root).
Proof. unfold populate_interferometer. solve_Same. Qed.

Lemma Same_populate_sky_back E defaults sky_cfg root base run_dir project_root :
  Same (telescope_keys ++ ["interferometer"; "ms_filename"])
       (populate_sky E defaults sky_cfg root base run_dir project_root).
Proof. unfold populate_sky. solve_Same. Qed.

Lemma wp_Same K {A} (m : M (list obj) A) (Q : A -> list obj -> Prop) h :
  Same K m -> (forall a h', same_on K h h' -> Q a h') -> wp m Q h.
Proof. intros Hm HQ. eapply wp_mono; [apply Hm | exact HQ]. Qed.

Ltac move_except Hs :=
  match type of Hs with
  | same_except _ ?h ?h' =>
      repeat match goal with
             | F : hlookup h ?d ?k = Some ?o |- _ =>
                 apply (transport_except _ h h' d k o Hs ltac:(discriminate)) in F
             end
  end.

Ltac move_on Hs :=
  match type of Hs with
  | same_on _ ?h ?h' =>
      repeat match goal with
             | F : hlookup h ?d ?k = Some ?o |- _ =>
                 apply (transport_on _ h h' d k o Hs ltac:(in_list)) in F
             end
  end.

(** Establish a slot with an operation, or pass over an operation that
    leaves [K] alone. *)
Ltac establish lemma v h' F :=
  apply wp_bind; eapply wp_mono; [apply lemma | cbn beta];
  let Hs := fresh "Hs" in intros v h' [F Hs]; move_except Hs; clear Hs.

Ltac pass_over K v h' :=
  apply wp_bind; apply (wp_Same K); [solve_Same |];
  let Hs := fresh "Hs" in intros v h' Hs; move_on Hs; clear Hs.

Lemma populate_element_errors_exact (h : list obj) pc rs el o_flag flag o_gain o_phase :
  hlookup h rs "include_telescope_errors" = Some o_flag ->
  from_option id (HBool false) o_flag = HAtom flag ->
  hlookup h pc "gain_error_std" = Some o_gain ->
  hlookup h pc "phase_error_std" = Some o_phase ->
  wp (populate_element_errors pc rs el)
     (fun _ h' =>
        Forall (fun kv => hlookup h' el (fst kv) = Some (Some (snd kv)))
               (error_time_fields (effective_errors flag o_gain o_phase))
        /\ same_on element_path h h') h.
Proof.
  intros Hrs Hflag Hg Hp. unfold populate_element_errors.
  wstep; [apply dict_get_exact |]. intros v ? (-> & o & Ho & ->).
  rewrite Hrs in Ho. injection Ho as <-. rewrite Hflag.
  apply wp_bind. unfold wp at 1. cbn [truthy].
  apply wp_bind.
  apply (wp_mono _ (fun eff h' => h' = h /\ eff = effective_errors flag o_gain o_phase)).
  - unfold effective_errors. destruct (truthy_atom flag).
    + wstep; [apply dict_get_exact |]. intros g ? (-> & og & Hog & ->).
      wstep; [apply dict_get_exact |]. intros p ? (-> & op & Hop & ->).
      apply wp_ret. split; [done |]. congruence.
    + by apply wp_ret.
  - intros eff ? (-> & ->). set (eff := effective_errors flag o_gain o_phase).
    wstep; [apply setitem_exact |]. intros [] h1 [F1 Hs1].
    pose proof (same_except_on _ element_path _ _ Hs1 ltac:(not_in_list)) as S1.
    wstep; [apply setitem_exact |]. intros [] h2 [F2 Hs2]. move_except Hs2.
    pose proof (same_except_on _ element_path _ _ Hs2 ltac:(not_in_list)) as S2.
    wstep; [apply setitem_exact |]. intros [] h3 [F3 Hs3]. move_except Hs3.
    pose proof (same_except_on _ element_path _ _ Hs3 ltac:(not_in_list)) as S3.
    eapply wp_mono; [apply setitem_exact |]. cbn beta. intros [] h4 [F4 Hs4]. move_except Hs4.
    pose proof (same_except_on _ element_path _ _ Hs4 ltac:(not_in_list)) as S4.
    split.
    + repeat constructor; assumption.
    + eauto using same_on_trans.
Qed.

Lemma path_get_cons (h : list obj) v k p x :
  hlookup h v k = Some (Some x) -> path_get h v (k :: p) = path_get h x p.
Proof. intros H. cbn. by rewrite H. Qed.

Lemma populate_telescope_errors_exact E (h : list obj) defaults tel pc rs root run_dir
    project_root o_flag flag o_gain o_phase :
  hlookup h rs "include_telescope_errors" = Some o_flag ->
  from_option id (HBool false) o_flag = HAtom flag ->
  hlookup h pc "gain_error_std" = Some o_gain ->
  hlookup h pc "phase_error_std" = Some o_phase ->
  wp (populate_telescope E defaults tel pc rs root run_dir project_root)
     (fun _ h' => element_fields h' root
                    (error_time_fields (effective_errors flag o_gain o_phase))) h.
Proof.
  intros Hrs Hflag Hg Hp. unfold populate_telescope.
  establish setdefault_empty_exact T h1 F0.
  pass_over error_keys td h2.
  pass_over error_keys oid h3.
  pass_over error_keys input_dir h4.
  pass_over error_keys u h5.
  establish setdefault_empty_exact A h6 F1.
  pass_over error_keys elp h7.
  establish setdefault_empty_exact P h8 F2.
  establish setdefault_empty_exact L h9 F3.
  pass_over error_keys apd h10.
  pass_over error_keys elpd h11.
  pass_over error_keys apd' h12.
  pass_over error_keys arrd h13.
  pass_over error_keys eld h14.
  pass_over error_keys en h15.
  pass_over error_keys u1 h16.
  pass_over error_keys u2 h17.
  pass_over error_keys u3 h18.
  pass_over error_keys u4 h19.
  pass_over error_keys u5 h20.
  eapply wp_mono; [by apply (populate_element_errors_exact h20 pc rs L o_flag flag o_gain o_phase) |].
  cbn beta. intros [] h21 [Hfields Hsame].
  move_on Hsame.
  unfold element_fields. eapply Forall_impl; [exact Hfields |].
  intros [k v] Hkv. cbn [fst snd] in *. unfold element_path. cbn [app].
  rewrite (path_get_cons _ _ _ _ _ F0), (path_get_cons _ _ _ _ _ F1),
    (path_get_cons _ _ _ _ _ F2), (path_get_cons _ _ _ _ _ F3), (path_get_cons _ _ _ _ _ Hkv).
  reflexivity.
Qed.

Lemma populate_telescope_input_exact E (h : list obj) defaults tel pc rs root run_dir
    project_root s :
  hlookup h tel "oskar_input_directory" = Some (Some (HStr s)) ->
  wp (populate_telescope E defaults tel pc rs root run_dir project_root)
     (fun _ h' =>
        path_get h' root input_directory_path
        = Some (HStr (relpath E (realpath E (path_join project_root s)) run_dir))) h.
Proof.
  intros Ht. unfold populate_telescope.
  establish setdefault_empty_exact T h1 F0.
  pass_over (input_directory_path ++ argument_keys) td h2.
  wstep; [apply wp_dict_getitem |]. intros oid ? (-> & Hoid).
  rewrite Ht in Hoid. injection Hoid as <-.
  apply wp_bind. unfold wp at 1. cbn [path_operand HStr].
  establish setitem_exact u h3 F1.
  apply (wp_Same input_directory_path); [solve_Same |].
  intros [] h4 Hsame. move_on Hsame.
  unfold input_directory_path.
  by rewrite (path_get_cons _ _ _ _ _ F0), (path_get_cons _ _ _ _ _ F1).
Qed.

Lemma populate_interferometer_exact (h : list obj) defaults out root o_ms :
  hlookup h out "interf_ms_base_filename" = Some o_ms ->
  wp (populate_interferometer defaults out root)
     (fun _ h' => path_get h' root ms_filename_path
                  = Some (from_option id (HStr "vis_default.ms") o_ms)) h.
Proof.
  intros Hout. unfold populate_interferometer.
  establish setdefault_empty_exact isc h1 F0.
  pass_over (ms_filename_path ++ argument_keys) im h2.
  pass_over (ms_filename_path ++ argument_keys) imd h3.
  wstep; [apply dict_get_exact |]. intros ms ? (-> & o & Ho & ->).
  rewrite Hout in Ho. injection Ho as <-.
  establish setitem_exact u h4 F1.
  apply (wp_Same ms_filename_path); [solve_Same |].
  intros [] h5 Hsame. move_on Hsame.
  unfold ms_filename_path.
  by rewrite (path_get_cons _ _ _ _ _ F0), (path_get_cons _ _ _ _ _ F1).
Qed.

Lemma populate_sky_exact E (h : list obj) defaults sky_cfg root base run_dir project_root
    base_dir filename :
  base = HStr base_dir ->
  hlookup h sky_cfg "filename" = Some (Some (HStr filename)) ->
  wp (populate_sky E defaults sky_cfg root base run_dir project_root)
     (fun _ h' =>
        path_get h' root sky_file_path
        = Some (HStr (relpath E (realpath E (path_join (path_join project_root base_dir) filename))
                              run_dir))) h.
Proof.
  intros -> Hsky. unfold populate_sky.
  establish setdefault_empty_exact sky h1 F0.
  establish setdefault_empty_exact ssc h2 F1.
  pass_over (sky_file_path ++ argument_keys) im h3.
  pass_over (sky_file_path ++ argument_keys) sm h4.
  pass_over (sky_file_path ++ argument_keys) smd h5.
  apply wp_bind. unfold wp at 1. cbn [path_operand HStr].
  wstep; [apply wp_dict_getitem |]. intros fn ? (-> & Hfn).
  rewrite Hsky in Hfn. injection Hfn as <-.
  apply wp_bind. unfold wp at 1. cbn [path_operand HStr].
  establish setitem_exact u h6 F2.
  apply (wp_Same sky_file_path); [solve_Same |].
  intros [] h7 Hsame. move_on Hsame.
  unfold sky_file_path.
  by rewrite (path_get_cons _ _ _ _ _ F0), (path_get_cons _ _ _ _ _ F1),
    (path_get_cons _ _ _ _ _ F2).
Qed.

(** ** [relpath] and back *)

Lemma is_dot_or_empty_false p : p <> "" -> p <> "." -> is_dot_or_empty p = false.
Proof.
  intros H1 H2. unfold is_dot_or_empty.
  destruct (String.eqb_spec p ""); [done |]. by destruct (String.eqb_spec p ".").
Qed.

Lemma eqb_dotdot_false p : p <> ".." -> String.eqb p ".." = false.
Proof. intros H. by destruct (String.eqb_spec p ".."). Qed.

Lemma norm_parts_app a kept xs ys :
  norm_parts a kept (xs ++ ys) = norm_parts a (rev (norm_parts a kept xs)) ys.
Proof.
  revert kept. induction xs as [| x xs IH]; intros kept.
  - cbn. by rewrite rev_involutive.
  - cbn [app norm_parts]. destruct (is_dot_or_empty x); [apply IH |].
    destruct (String.eqb x "..").
    + destruct kept as [| top kept']; [destruct a; apply IH |].
      destruct (String.eqb top ".."); apply IH.
    + apply IH.
Qed.

Lemma norm_parts_plain a kept xs :
  Forall plain xs -> norm_parts a kept xs = rev kept ++ xs.
Proof.
  intros H. revert kept. induction H as [| x xs (H1 & H2 & H3) _ IH]; intros kept.
  - cbn. by rewrite app_nil_r.
  - cbn [norm_parts]. rewrite is_dot_or_empty_false, eqb_dotdot_false by done.
    rewrite IH. cbn. by rewrite <- app_assoc.
Qed.

Lemma norm_parts_abs_plain kept xs :
  Forall plain kept -> Forall plain (norm_parts true kept xs).
Proof.
  revert kept. induction xs as [| x xs IH]; intros kept Hk.
  - cbn. by apply Forall_rev.
  - cbn [norm_parts]. destruct (is_dot_or_empty x) eqn:Ed; [by apply IH |].
    destruct (String.eqb_spec x "..") as [-> | Hne].
    + destruct kept as [| top kept']; [by apply IH |].
      inversion Hk as [| ? ? (_ & _ & Htop) Hk']; subst.
      rewrite eqb_dotdot_false by done. by apply IH.
    + apply IH. constructor; [| done]. unfold is_dot_or_empty in Ed.
      destruct (String.eqb_spec x ""); [done |]. destruct (String.eqb_spec x "."); done.
Qed.

Lemma norm_parts_pop kept k ys :
  Forall plain kept -> k <= length kept ->
  norm_parts true kept (repeat ".." k ++ ys) = norm_parts true (drop k kept) ys.
Proof.
  revert kept. induction k as [| k IH]; intros kept Hk Hlen; [by rewrite drop_0 |].
  destruct kept as [| top kept']; [cbn in Hlen; lia |].
  inversion Hk as [| ? ? (_ & _ & Htop) Hk']; subst.
  cbn [repeat app norm_parts]. change (is_dot_or_empty "..") with false. cbn [String.eqb].
  change (String.eqb ".." "..") with true. cbn iota.
  rewrite eqb_dotdot_false by done. cbn [drop]. apply IH; [done |]. cbn in Hlen. lia.
Qed.

Lemma common_prefix_take xs ys :
  take (common_prefix_len xs ys) xs = take (common_prefix_len xs ys) ys.
Proof.
  revert ys. induction xs as [| x xs IH]; intros [| y ys]; try reflexivity.
  cbn [common_prefix_len]. destruct (String.eqb_spec x y) as [-> | Hne]; [| reflexivity].
  cbn. f_equal. apply IH.
Qed.

Lemma common_prefix_le xs ys : common_prefix_len xs ys <= length xs.
Proof.
  revert ys. induction xs as [| x xs IH]; intros [| y ys]; cbn; try lia.
  destruct (String.eqb x y); [| lia]. specialize (IH ys). lia.
Qed.

(** *** Splitting a joined path *)

Lemma split_on_no_sep c : str_mem "/" c = false -> split_on "/" c = [c].
Proof.
  induction c as [| x c IH]; [reflexivity |]. cbn [str_mem split_on].
  rewrite Ascii.eqb_sym. destruct (Ascii.eqb x "/"); [discriminate |].
  intros H. by rewrite IH.
Qed.

Lemma split_on_app_sep c rest :
  str_mem "/" c = false -> split_on "/" (c +:+ "/" +:+ rest) = c :: split_on "/" rest.
Proof.
  induction c as [| x c IH]; [reflexivity |]. cbn [str_mem].
  rewrite Ascii.eqb_sym. intros H.
  change (String x c +:+ "/" +:+ rest) with (String x (c +:+ "/" +:+ rest)).
  cbn [split_on]. destruct (Ascii.eqb x "/"); [discriminate |]. by rewrite IH.
Qed.

Lemma split_on_join comps :
  comps <> [] -> Forall (fun c => str_mem "/" c = false) comps ->
  split_on "/" (join "/" comps) = comps.
Proof.
  intros Hne H. induction H as [| c comps Hc H IH]; [done |].
  destruct comps as [| c' comps'].
  - cbn. by apply split_on_no_sep.
  - change (join "/" (c :: c' :: comps')) with (c +:+ "/" +:+ join "/" (c' :: comps')).
    rewrite split_on_app_sep by done. f_equal. by apply IH.
Qed.

Lemma prefix_slash_cons x c : Ascii.eqb x "/" = false -> String.prefix "/" (String x c) = false.
Proof.
  intros H.
  change (String.prefix "/" (String x c))
    with (if Ascii.ascii_dec "/" x then String.prefix "" c else false).
  destruct (Ascii.ascii_dec "/" x) as [<- | ?]; [| done]. by rewrite Ascii.eqb_refl in H.
Qed.

Lemma prefix_slash_join c comps :
  c <> "" -> str_mem "/" c = false -> String.prefix "/" (join "/" (c :: comps)) = false.
Proof.
  intros Hne Hc. destruct c as [| x c]; [done |].
  cbn [str_mem] in Hc. rewrite Ascii.eqb_sym in Hc.
  destruct (Ascii.eqb x "/") eqn:Ex; [discriminate |].
  destruct comps as [| c' comps'].
  - by apply prefix_slash_cons.
  - change (join "/" (String x c :: c' :: comps'))
      with (String x (c +:+ "/" +:+ join "/" (c' :: comps'))).
    by apply prefix_slash_cons.
Qed.

(** A relative path written with [join] reads back as its components. *)
Lemma path_of_string_join comps :
  comps <> [] ->
  Forall (fun c => c <> "" /\ c <> "." /\ str_mem "/" c = false) comps ->
  path_of_string (join "/" comps) = {| absolute := false; parts := comps |}.
Proof.
  intros Hne H. unfold path_of_string. f_equal.
  - destruct comps as [| c comps]; [done |]. inversion H as [| ? ? (H1 & _ & H3) _]; subst.
    by apply prefix_slash_join.
  - rewrite split_on_join; [| done | eapply Forall_impl; [exact H | by intros c (_ & _ & ?)]].
    clear Hne. induction H as [| c comps (H1 & H2 & _) _ IH]; [done |].
    cbn [List.filter]. rewrite is_dot_or_empty_false by done. cbn. by f_equal.
Qed.

Lemma clean_part_plain p : clean_part p -> plain p.
Proof. by intros (? & ? & ? & _). Qed.

Lemma rev_drop_rev {A} (l : list A) i :
  i <= length l -> rev (drop (length l - i) (rev l)) = take i l.
Proof.
  intros Hi. rewrite <- (take_drop i l) at 2. rewrite rev_app_distr.
  rewrite drop_app_length'; [apply rev_involutive |].
  rewrite length_rev, length_drop. lia.
Qed.

(** Path portability: the relative path computed for an absolute target
    is relative and, joined to the start directory and normalized, gives
    the target back. *)
Lemma relpath_round_trip E (target start : Path) :
  clean_absolute target ->
  absolute (path_of_string (relpath E target start)) = false
  /\ abspath E (path_join start (relpath E target start)) = parts target.
Proof.
  intros [Habs Hclean].
  assert (Forall plain (parts target)) as Hplain
    by (eapply Forall_impl; [exact Hclean | apply clean_part_plain]).
  assert (abspath E target = parts target) as Hpl.
  { unfold abspath. rewrite Habs. by rewrite norm_parts_plain. }
  unfold relpath. rewrite Hpl.
  set (sl := abspath E start). set (i := common_prefix_len sl (parts target)).
  set (rel_list := repeat ".." (length sl - i) ++ drop i (parts target)).
  assert (Forall plain sl) as Hsl by (apply norm_parts_abs_plain; constructor).
  assert (i <= length sl) as Hi by apply common_prefix_le.
  assert (path_of_string (match rel_list with [] => "." | _ => join "/" rel_list end)
          = {| absolute := false; parts := rel_list |}) as Hrel.
  { destruct rel_list as [| c rest] eqn:Er; [reflexivity |]. rewrite <- Er.
    apply path_of_string_join; [by rewrite Er |]. subst rel_list. apply Forall_app. split.
    - apply Forall_forall. intros c0 Hc0. apply list_elem_of_In, repeat_spec in Hc0 as ->. done.
    - apply Forall_drop. eapply Forall_impl; [exact Hclean |]. by intros c0 (? & ? & _ & ?). }
  split; [by rewrite Hrel |].
  unfold path_join. rewrite Hrel. cbn [absolute parts]. unfold abspath. cbn [absolute parts].
  replace (if absolute start then parts start ++ rel_list
           else getcwd E ++ parts start ++ rel_list)
    with ((if absolute start then parts start else getcwd E ++ parts start) ++ rel_list)
    by (destruct (absolute start); [done | by rewrite app_assoc]).
  rewrite norm_parts_app. fold (abspath E start). fold sl. subst rel_list.
  rewrite norm_parts_pop; [| by apply Forall_rev | rewrite length_rev; lia].
  rewrite norm_parts_plain by (apply Forall_drop; exact Hplain).
  rewrite rev_drop_rev by done.
  unfold i at 1. rewrite common_prefix_take. fold i. apply take_drop.
Qed.

(** ** The compiled trees *)

(** The theorems of this part speak of the tree a compiler returns; the
    next part says for which arguments it returns one. *)

Lemma hlookup_lt (h : list obj) l k o : hlookup h (HRef l) k = Some o -> l < length h.
Proof.
  unfold hlookup, as_dict. destruct (h !! l) as [x |] eqn:E; [| discriminate].
  intros _. by eapply lookup_lt_Some.
Qed.

(** The common beginning of both compilers: what the arguments hold under
    the keys the rest reads is what they held at the call. *)
Lemma compile_prefix {A} (h0 : list obj) defaults pc module app
    (rest : hval -> M (list obj) A) (Q : A -> list obj -> Prop) :
  (forall root h,
      (forall d k o, In k argument_keys -> hlookup h0 d k = Some o -> hlookup h d k = Some o) ->
      wp (rest root) Q h) ->
  wp (root <- new_dict ;;
      copy_common_sections defaults root ;;
      merge_module_sections defaults module root ;;
      populate_general defaults root app ;;
      populate_simulator defaults root ;;
      populate_observation defaults pc root ;;
      rest root) Q h0.
Proof.
  intros Hrest.
  pose proof (Inv_init False h0) as HI0.
  pose proof (from_args_lax (length h0) h0 []) as Hlax.
  pose proof (no_scalar_leaves_needed h0) as HSL.
  wstep; [by apply (wp_new_dict_inv False (length h0) h0) |].
  intros root h1 (HI1 & Hr & L1).
  wstep; [apply (copy_common_sections_inv False (length h0) h0); [done | solve_live] |].
  intros [] h2 (HI2 & L2).
  wstep; [apply (merge_module_sections_inv False (length h0) h0 []);
          [done | apply Hlax | solve_live] |].
  intros [] h3 (HI3 & L3).
  apply wp_bind. apply (wp_Same argument_keys); [apply Same_populate_general_args |].
  intros [] h4 S4.
  apply wp_bind. apply (wp_Same argument_keys); [apply Same_populate_simulator_args |].
  intros [] h5 S5.
  apply wp_bind. apply (wp_Same argument_keys); [apply Same_populate_observation_args |].
  intros [] h6 S6.
  apply Hrest. intros d k o Hk Hd.
  assert (hlookup h3 d k = Some o) as H3.
  { destruct d as [a | l]; [done |]. pose proof (hlookup_lt _ _ _ _ Hd) as Hl.
    destruct HI3 as (_ & Hag & _). by rewrite (hlookup_agree h0 h3 l k) by (by apply Hag). }
  eapply transport_on; [exact S6 | done |].
  eapply transport_on; [exact S5 | done |].
  eapply transport_on; [exact S4 | done |]. exact H3.
Qed.

Lemma element_fields_same (h h' : list obj) root fields :
  same_on telescope_keys h h' ->
  Forall (fun kv => In (fst kv) telescope_keys) fields ->
  element_fields h root fields -> element_fields h' root fields.
Proof.
  intros Hsame Hkeys Hf. unfold element_fields in *.
  rewrite Forall_forall in Hkeys. rewrite Forall_forall in Hf. apply Forall_forall.
  intros kv Hkv. eapply path_get_same; [exact Hsame | | by apply Hf].
  intros k Hk. apply in_app_or in Hk as [Hk | [<- | []]].
  - unfold element_path, telescope_keys in *. cbn in *. tauto.
  - by apply Hkeys.
Qed.

Lemma error_time_fields_keys eff :
  Forall (fun kv => In (fst kv) telescope_keys) (error_time_fields eff).
Proof. repeat constructor; in_list. Qed.

Lemma compile_error_fields E c (h0 : list obj) o_flag flag o_gain o_phase :
  hlookup h0 (run_settings_of c) "include_telescope_errors" = Some o_flag ->
  from_option id (HBool false) o_flag = HAtom flag ->
  hlookup h0 (phase_centre_of c) "gain_error_std" = Some o_gain ->
  hlookup h0 (phase_centre_of c) "phase_error_std" = Some o_phase ->
  wp (compile E c)
     (fun root h' => element_fields h' root
                       (error_time_fields (effective_errors flag o_gain o_phase))) h0.
Proof.
  intros Hrs Hflag Hg Hp.
  destruct c as [d t p r o run_dir pr | d t s p r o b run_dir pr];
    cbn [compile run_settings_of phase_centre_of] in *.
  - unfold generate_beam_ini_data. apply compile_prefix. intros root h Hreads.
    wstep; [apply (populate_telescope_errors_exact E h d t p r root run_dir pr
                     o_flag flag o_gain o_phase); [| done | |]; apply Hreads; (done || in_list) |].
    intros [] h1 Hf.
    apply wp_bind. apply (wp_Same telescope_keys).
    { eapply (Same_weaken read_back_keys); [| apply Same_populate_beam_pattern_back].
      intros k Hk. cbn in *. tauto. }
    intros [] h2 S2. apply wp_ret.
    eapply element_fields_same; [exact S2 | apply error_time_fields_keys | exact Hf].
  - unfold generate_interf_ini_data. apply compile_prefix. intros root h Hreads.
    wstep; [apply (populate_telescope_errors_exact E h d t p r root run_dir pr
                     o_flag flag o_gain o_phase); [| done | |]; apply Hreads; (done || in_list) |].
    intros [] h1 Hf.
    apply wp_bind. apply (wp_Same telescope_keys); [apply Same_populate_interferometer_back |].
    intros [] h2 S2.
    apply wp_bind. apply (wp_Same telescope_keys).
    { eapply (Same_weaken (telescope_keys ++ ["interferometer"; "ms_filename"]));
        [| apply Same_populate_sky_back].
      intros k Hk. apply in_or_app. by left. }
    intros [] h3 S3. apply wp_ret.
    eapply element_fields_same; [exact S3 | apply error_time_fields_keys |].
    eapply element_fields_same; [exact S2 | apply error_time_fields_keys | exact Hf].
Qed.

(** C1: in the tree that either compiler returns, when the run settings
    are a mapping whose [include_telescope_errors], read with the default
    [False], is a scalar: if that scalar is false the four fields
    [x_gain_error_time], [y_gain_error_time], [x_phase_error_time_deg]
    and [y_phase_error_time_deg] under
    [telescope/aperture_array/array_pattern/element] are the string
    [0.0], whatever the phase-centre record holds; if it is true, the two
    gain fields are the record's [gain_error_std] and the two phase fields
    its [phase_error_std], each replaced by [0.0] when the record does not
    have it. *)
Theorem error_injection_toggle E c (h0 h' : list obj) root o_flag flag o_gain o_phase :
  hlookup h0 (run_settings_of c) "include_telescope_errors" = Some o_flag ->
  from_option id (HBool false) o_flag = HAtom flag ->
  hlookup h0 (phase_centre_of c) "gain_error_std" = Some o_gain ->
  hlookup h0 (phase_centre_of c) "phase_error_std" = Some o_phase ->
  compile E c h0 = (Ret root, h') ->
  (truthy_atom flag = false ->
   element_fields h' root
     [("x_gain_error_time", HStr "0.0"); ("y_gain_error_time", HStr "0.0");
      ("x_phase_error_time_deg", HStr "0.0"); ("y_phase_error_time_deg", HStr "0.0")])
  /\ (truthy_atom flag = true ->
      element_fields h' root
        [("x_gain_error_time", from_option id (HStr "0.0") o_gain);
         ("y_gain_error_time", from_option id (HStr "0.0") o_gain);
         ("x_phase_error_time_deg", from_option id (HStr "0.0") o_phase);
         ("y_phase_error_time_deg", from_option id (HStr "0.0") o_phase)]).
Proof.
  intros Hrs Hflag Hg Hp Hrun.
  pose proof (compile_error_fields E c h0 o_flag flag o_gain o_phase Hrs Hflag Hg Hp) as Hwp.
  apply (wp_elim _ _ _ _ _ Hwp) in Hrun.
  unfold effective_errors, error_time_fields in Hrun.
  split; intros Hon; rewrite Hon in Hrun; exact Hrun.
Qed.

Lemma compile_ms_filename E d t s p r o b run_dir pr (h0 : list obj) o_ms :
  hlookup h0 o "interf_ms_base_filename" = Some o_ms ->
  wp (generate_interf_ini_data E d t s p r o b run_dir pr)
     (fun root h' => path_get h' root ms_filename_path
                     = Some (from_option id (HStr "vis_default.ms") o_ms)) h0.
Proof.
  intros Hout. unfold generate_interf_ini_data. apply compile_prefix. intros root h Hreads.
  apply wp_bind. apply (wp_Same argument_keys); [apply Same_populate_telescope_args |].
  intros [] h1 S1.
  wstep; [apply (populate_interferometer_exact h1 d o root o_ms) |].
  { eapply transport_on; [exact S1 | in_list |]. apply Hreads; [in_list | done]. }
  intros [] h2 Hms.
  apply wp_bind. apply (wp_Same ms_filename_path).
  { eapply (Same_weaken (telescope_keys ++ ["interferometer"; "ms_filename"]));
      [| apply Same_populate_sky_back].
    intros k Hk. apply in_or_app. by right. }
  intros [] h3 S3. apply wp_ret.
  eapply path_get_same; [exact S3 | | exact Hms]. auto.
Qed.

(** C6, with the default the code has: in the tree the interferometer
    compiler returns, [interferometer/ms_filename] is the
    [interf_ms_base_filename] of the output configuration, and
    [vis_default.ms] when the output configuration does not have it. *)
Theorem ms_filename_from_output_config E d t s p r o b run_dir pr (h0 h' : list obj) root o_ms :
  hlookup h0 o "interf_ms_base_filename" = Some o_ms ->
  generate_interf_ini_data E d t s p r o b run_dir pr h0 = (Ret root, h') ->
  path_get h' root ["interferometer"; "ms_filename"]
  = Some (from_option id (HStr "vis_default.ms") o_ms).
Proof.
  intros Hout Hrun.
  pose proof (compile_ms_filename E d t s p r o b run_dir pr h0 o_ms Hout) as Hwp.
  by apply (wp_elim _ _ _ _ _ Hwp) in Hrun.
Qed.

Lemma compile_input_directory E c (h0 : list obj) s :
  hlookup h0 (telescope_of c) "oskar_input_directory" = Some (Some (HStr s)) ->
  wp (compile E c)
     (fun root h' =>
        path_get h' root input_directory_path
        = Some (HStr (relpath E (realpath E (path_join (project_root_of c) s)) (run_dir_of c))))
     h0.
Proof.
  intros Ht.
  destruct c as [d t p r o run_dir pr | d t sk p r o b run_dir pr];
    cbn [compile telescope_of project_root_of run_dir_of] in *.
  - unfold generate_beam_ini_data. apply compile_prefix. intros root h Hreads.
    wstep; [apply (populate_telescope_input_exact E h d t p r root run_dir pr s);
            apply Hreads; [in_list | done] |].
    intros [] h1 Hf.
    apply wp_bind. apply (wp_Same input_directory_path).
    { eapply (Same_weaken read_back_keys); [| apply Same_populate_beam_pattern_back].
      intros k Hk. cbn in *. tauto. }
    intros [] h2 S2. apply wp_ret.
    eapply path_get_same; [exact S2 | auto | exact Hf].
  - unfold generate_interf_ini_data. apply compile_prefix. intros root h Hreads.
    wstep; [apply (populate_telescope_input_exact E h d t p r root run_dir pr s);
            apply Hreads; [in_list | done] |].
    intros [] h1 Hf.
    apply wp_bind. apply (wp_Same input_directory_path).
    { eapply (Same_weaken telescope_keys); [| apply Same_populate_interferometer_back].
      intros k Hk. cbn in *. tauto. }
    intros [] h2 S2.
    apply wp_bind. apply (wp_Same input_directory_path).
    { eapply (Same_weaken (telescope_keys ++ ["interferometer"; "ms_filename"]));
        [| apply Same_populate_sky_back].
      intros k Hk. cbn in *. tauto. }
    intros [] h3 S3. apply wp_ret.
    eapply path_get_same; [exact S3 | auto |].
    eapply path_get_same; [exact S2 | auto | exact Hf].
Qed.

Lemma compile_sky_file E d t sk p r o b run_dir pr (h0 : list obj) base_dir filename :
  b = HStr base_dir ->
  hlookup h0 sk "filename" = Some (Some (HStr filename)) ->
  wp (generate_interf_ini_data E d t sk p r o b run_dir pr)
     (fun root h' =>
        path_get h' root sky_file_path
        = Some (HStr (relpath E (realpath E (path_join (path_join pr base_dir) filename))
                              run_dir))) h0.
Proof.
  intros Hb Hsky. unfold generate_interf_ini_data. apply compile_prefix. intros root h Hreads.
  apply wp_bind. apply (wp_Same argument_keys); [apply Same_populate_telescope_args |].
  intros [] h1 S1.
  apply wp_bind. apply (wp_Same argument_keys); [apply Same_populate_interferometer_args |].
  intros [] h2 S2.
  wstep; [apply (populate_sky_exact E h2 d sk root b run_dir pr base_dir filename Hb) |].
  { eapply transport_on; [exact S2 | in_list |].
    eapply transport_on; [exact S1 | in_list |]. apply Hreads; [in_list | done]. }
  intros [] h3 Hf. by apply wp_ret.
Qed.

(** C9: in the tree a compiler returns, [telescope/input_directory] is a
    relative path, and joining it to the run directory and normalising the
    result gives back the resolved input directory of the telescope (its
    [oskar_input_directory] taken from the project root), provided
    resolving gives an absolute path of clean components; the same holds
    for [sky/oskar_sky_model/file] in the tree of the interferometer
    compiler and the resolved sky model file (the file name taken from the
    sky models directory under the project root). *)
Theorem relative_paths_round_trip E c (h0 h' : list obj) root :
  compile E c h0 = (Ret root, h') ->
  (forall s,
      hlookup h0 (telescope_of c) "oskar_input_directory" = Some (Some (HStr s)) ->
      clean_absolute (realpath E (path_join (project_root_of c) s)) ->
      round_trips E (run_dir_of c) (realpath E (path_join (project_root_of c) s))
                  h' root ["telescope"; "input_directory"])
  /\ (forall d t sk p r o run_dir pr base_dir filename,
        c = Interf d t sk p r o (HStr base_dir) run_dir pr ->
        hlookup h0 sk "filename" = Some (Some (HStr filename)) ->
        clean_absolute (realpath E (path_join (path_join pr base_dir) filename)) ->
        round_trips E run_dir (realpath E (path_join (path_join pr base_dir) filename))
                    h' root ["sky"; "oskar_sky_model"; "file"]).
Proof.
  intros Hrun. split.
  - intros s Ht Hclean.
    pose proof (compile_input_directory E c h0 s Ht) as Hwp.
    apply (wp_elim _ _ _ _ _ Hwp) in Hrun.
    eexists. split; [exact Hrun |]. by apply relpath_round_trip.
  - intros d t sk p r o run_dir pr base_dir filename -> Hsky Hclean.
    pose proof (compile_sky_file E d t sk p r o _ run_dir pr h0 base_dir filename eq_refl Hsky)
      as Hwp.
    apply (wp_elim _ _ _ _ _ Hwp) in Hrun.
    eexists. split; [exact Hrun |]. by apply relpath_round_trip.
Qed.

(** ** The compilers return *)

(** *** Dictionaries stay dictionaries *)

Lemma is_dict_inv h v : is_dict h v -> exists l items, v = HRef l /\ h !! l = Some (ODict items).
Proof. intros [[l items] E]. apply as_dict_Some in E as [-> E]. eauto. Qed.

Lemma is_dict_intro (h : list obj) l items : h !! l = Some (ODict items) -> is_dict h (HRef l).
Proof. intros E. unfold is_dict, as_dict. rewrite E. eauto. Qed.

Lemma is_dict_valid h v : is_dict h v -> valid h v.
Proof. intros (l & items & -> & E)%is_dict_inv. cbn. by eapply lookup_lt_Some. Qed.

Lemma is_dict_app h o v : is_dict h v -> is_dict (h ++ [o]) v.
Proof.
  intros (l & items & -> & E)%is_dict_inv. apply (is_dict_intro _ _ items).
  by apply lookup_app_l_Some.
Qed.

Lemma is_dict_store h l k x v : is_dict h v -> is_dict (heap_store l k x h) v.
Proof.
  intros (l' & items & -> & E)%is_dict_inv. unfold heap_store.
  destruct (h !! l) as [[its | xs] |] eqn:El; try by eapply is_dict_intro.
  destruct (decide (l = l')) as [-> | Hne].
  - eapply is_dict_intro. apply list_lookup_insert_eq. by eapply lookup_lt_Some.
  - eapply is_dict_intro. rewrite list_lookup_insert_ne by done. exact E.
Qed.

Lemma is_dict_append h l x v : is_dict h v -> is_dict (heap_append l x h) v.
Proof.
  intros (l' & items & -> & E)%is_dict_inv. unfold heap_append.
  destruct (h !! l) as [[its | xs] |] eqn:El; try by eapply is_dict_intro.
  destruct (decide (l = l')) as [-> | Hne]; [congruence |].
  eapply is_dict_intro. rewrite list_lookup_insert_ne by done. exact E.
Qed.

Lemma extends_refl h : extends h h.
Proof. by split. Qed.

Lemma extends_trans h1 h2 h3 : extends h1 h2 -> extends h2 h3 -> extends h1 h3.
Proof. intros (L1 & D1 & K1) (L2 & D2 & K2). split; [lia | split; auto]. Qed.

Lemma extends_dict h h' v : extends h h' -> is_dict h v -> is_dict h' v.
Proof. intros (_ & D & _). apply D. Qed.

Lemma has_key_store h l k x d k' : has_key h d k' -> has_key (heap_store l k x h) d k'.
Proof.
  intros [v Hv]. destruct (String.eqb_spec k' k) as [-> | Hne].
  - apply hlookup_In in Hv as Hv'. destruct Hv' as (l' & items & -> & E & _).
    destruct (decide (l = l')) as [-> | Hl].
    + exists x. by eapply hlookup_store_same.
    + exists v. rewrite <- Hv. apply hlookup_agree. by apply lookup_heap_store_ne.
  - exists v. by rewrite hlookup_store_other.
Qed.

Lemma extends_app h o : extends h (h ++ [o]).
Proof.
  split; [rewrite length_app; lia |]. split; [intros v; apply is_dict_app |].
  intros d k [v Hv]. exists v. rewrite hlookup_app; [done | by rewrite Hv].
Qed.

Lemma extends_store h l k x : extends h (heap_store l k x h).
Proof.
  split; [by rewrite length_heap_store |]. split; [intros v; apply is_dict_store |].
  intros d k'. apply has_key_store.
Qed.

Lemma extends_append h l x : extends h (heap_append l x h).
Proof.
  split; [by rewrite length_heap_append |]. split; [intros v; apply is_dict_append |].
  intros d k [v Hv]. exists v. apply hlookup_In in Hv as Hv'. destruct Hv' as (l' & items & -> & E & _).
  rewrite <- Hv. apply hlookup_agree. unfold heap_append.
  destruct (h !! l) as [[its | xs] |] eqn:El; try done.
  destruct (decide (l = l')) as [-> | Hne]; [congruence |].
  by rewrite list_lookup_insert_ne.
Qed.

Lemma lookup_heap_store_dict h y k x l items :
  heap_store y k x h !! l = Some (ODict items) ->
  h !! l = Some (ODict items)
  \/ exists its, l = y /\ h !! y = Some (ODict its) /\ items = dict_store k x its.
Proof.
  unfold heap_store. destruct (h !! y) as [[its | xs] |] eqn:Ey; auto.
  destruct (decide (y = l)) as [-> | Hne].
  - rewrite list_lookup_insert_eq by (by eapply lookup_lt_Some). intros [= <-]. right. eauto.
  - rewrite list_lookup_insert_ne by done. auto.
Qed.

Lemma lookup_heap_append_dict h y x l items :
  heap_append y x h !! l = Some (ODict items) -> h !! l = Some (ODict items).
Proof.
  unfold heap_append. destruct (h !! y) as [[its | xs] |] eqn:Ey; auto.
  destruct (decide (y = l)) as [-> | Hne].
  - rewrite list_lookup_insert_eq by (by eapply lookup_lt_Some). discriminate.
  - by rewrite list_lookup_insert_ne by done.
Qed.

Lemma copy_kinds_store (src : list obj) memo (h : list obj) y k v :
  length src <= y -> copy_kinds src (memo, h) ->
  (In k section_keys -> is_dict h v) ->
  copy_kinds src (memo, heap_store y k v h).
Proof.
  intros Hy (Hlen & Hag & Hmemo & Hsec) Hv. unfold copy_kinds. cbn [fst snd] in *.
  rewrite length_heap_store. split; [done |]. split; [| split].
  - intros l Hl. rewrite lookup_heap_store_ne by lia. by apply Hag.
  - intros a b Hab Ha. apply is_dict_store. by eapply Hmemo.
  - intros l items k0 v0 Hl Hlook Hin Hk0. cbn [snd] in *. apply is_dict_store.
    apply lookup_heap_store_dict in Hlook as [Hlook | (its & -> & Hlook & ->)].
    + by eapply Hsec.
    + apply in_dict_store in Hin as [[= -> ->] | Hin]; [by apply Hv |]. by eapply Hsec.
Qed.

Lemma copy_kinds_append (src : list obj) memo (h : list obj) y v :
  length src <= y -> copy_kinds src (memo, h) -> copy_kinds src (memo, heap_append y v h).
Proof.
  intros Hy (Hlen & Hag & Hmemo & Hsec). unfold copy_kinds. cbn [fst snd] in *.
  rewrite length_heap_append. split; [done |]. split; [| split].
  - intros l Hl. rewrite lookup_heap_append_ne by lia. by apply Hag.
  - intros a b Hab Ha. apply is_dict_append. by eapply Hmemo.
  - intros l items k0 v0 Hl Hlook Hin Hk0. cbn [snd] in *. apply is_dict_append.
    apply lookup_heap_append_dict in Hlook. by eapply Hsec.
Qed.

Lemma copy_items_kinds (src : list obj) rec y items :
  rec_kinds src rec -> length src <= y ->
  (forall k v, In (k, v) items -> valid src v /\ (In k section_keys -> is_dict src v)) ->
  forall st st', copy_items rec y items st = Some st' -> copy_kinds src st ->
    copy_kinds src st' /\ extends (snd st) (snd st').
Proof.
  intros Hrec Hy. induction items as [| [k v] items IH]; intros Hitems st st' Hc Hok.
  - injection Hc as <-. split; [done | apply extends_refl].
  - cbn in Hc. destruct (rec v st) as [[v' [memo h]] |] eqn:Ev; [| discriminate].
    destruct (Hitems k v (or_introl eq_refl)) as [Hv Hvd].
    destruct (Hrec _ _ _ _ Hv Ev Hok) as (Hok1 & Hext1 & Hd).
    apply IH in Hc as [Hok2 Hext2].
    + split; [done |]. eapply extends_trans; [exact Hext1 |].
      eapply extends_trans; [| exact Hext2]. apply extends_store.
    + intros k0 v0 Hin. apply Hitems. by right.
    + apply copy_kinds_store; [done | done |]. intros Hk. apply Hd. by apply Hvd.
Qed.

Lemma copy_elems_kinds (src : list obj) rec y xs :
  rec_kinds src rec -> length src <= y ->
  (forall v, In v xs -> valid src v) ->
  forall st st', copy_elems rec y xs st = Some st' -> copy_kinds src st ->
    copy_kinds src st' /\ extends (snd st) (snd st').
Proof.
  intros Hrec Hy. induction xs as [| v xs IH]; intros Hxs st st' Hc Hok.
  - injection Hc as <-. split; [done | apply extends_refl].
  - cbn in Hc. destruct (rec v st) as [[v' [memo h]] |] eqn:Ev; [| discriminate].
    destruct (Hrec _ _ _ _ (Hxs v (or_introl eq_refl)) Ev Hok) as (Hok1 & Hext1 & Hd).
    apply IH in Hc as [Hok2 Hext2].
    + split; [done |]. eapply extends_trans; [exact Hext1 |].
      eapply extends_trans; [| exact Hext2]. apply extends_append.
    + intros v0 Hin. apply Hxs. by right.
    + by apply copy_kinds_append.
Qed.

Lemma copy_kinds_alloc (src : list obj) l memo (h : list obj) o :
  copy_kinds src (memo, h) ->
  (is_dict src (HRef l) -> o = ODict []) ->
  (forall items, o = ODict items -> items = []) ->
  copy_kinds src ((l, length h) :: memo, h ++ [o]).
Proof.
  intros (Hlen & Hag & Hmemo & Hsec) Hl Ho. unfold copy_kinds. cbn [fst snd] in *.
  rewrite length_app. split; [lia |]. split; [| split].
  - intros l' Hl'. rewrite lookup_app_l by lia. by apply Hag.
  - intros a b Hab Ha. cbn [fst snd] in *. cbn in Hab.
    destruct (Nat.eqb_spec a l) as [-> | Hne].
    + injection Hab as <-. rewrite (Hl Ha). apply (is_dict_intro _ _ []).
      by rewrite lookup_app_r, Nat.sub_diag.
    + apply is_dict_app. by eapply Hmemo.
  - intros l' items k v Hl' Hlook Hin Hk. cbn [snd] in *. apply is_dict_app.
    destruct (decide (l' < length h)) as [Hlt | Hge].
    + rewrite lookup_app_l in Hlook by done. by eapply Hsec.
    + rewrite lookup_app_r in Hlook by lia.
      destruct (l' - length h) as [| m]; cbn in Hlook; [| by destruct m].
      injection Hlook as ->. by rewrite (Ho items eq_refl) in Hin.
Qed.

(** The copy of a dictionary is a dictionary, and the copies hold
    dictionaries where the originals do. *)
Lemma deepcopy_rec_kinds (src : list obj) fuel : sectioned src -> rec_kinds src (deepcopy_rec fuel).
Proof.
  intros Hsrc. induction fuel as [| fuel IH]; intros x [memo h] y st' Hx Hc Hok.
  - destruct x as [a | l]; cbn in Hc.
    + injection Hc as <- <-. split; [done |]. split; [apply extends_refl |].
      by intros (? & ? & ? & _)%is_dict_inv.
    + destruct (memo_lookup l memo) as [b |] eqn:Eb; [| discriminate].
      injection Hc as <- <-. split; [done |]. split; [apply extends_refl |].
      destruct Hok as (_ & _ & Hmemo & _). by apply Hmemo.
  - destruct x as [a | l]; cbn [deepcopy_rec] in Hc.
    + injection Hc as <- <-. split; [done |]. split; [apply extends_refl |].
      by intros (? & ? & ? & _)%is_dict_inv.
    + cbn [fst snd] in Hc. destruct (memo_lookup l memo) as [b |] eqn:Eb.
      { injection Hc as <- <-. split; [done |]. split; [apply extends_refl |].
        destruct Hok as (_ & _ & Hmemo & _). by apply Hmemo. }
      pose proof Hok as (Hlen & Hag & _). cbn [snd] in Hlen, Hag. cbn in Hx.
      destruct (h !! l) as [[items | xs] |] eqn:El; [| | discriminate].
      * destruct (copy_items _ _ _ _) as [st1 |] eqn:Ec; [| discriminate].
        cbn in Hc. injection Hc as <- <-.
        apply (copy_items_kinds src _ _ _ IH Hlen) in Ec as [Hok1 Hext1].
        -- split; [exact Hok1 |]. cbn [snd] in *. split.
           ++ eapply extends_trans; [apply extends_app | exact Hext1].
           ++ intros _. apply (extends_dict _ _ _ Hext1). apply (is_dict_intro _ _ []).
              by rewrite lookup_app_r, Nat.sub_diag.
        -- rewrite Hag in El by done. apply (Hsrc _ _ El).
        -- apply copy_kinds_alloc; [done | done |]. by intros ? [= <-].
      * destruct (copy_elems _ _ _ _) as [st1 |] eqn:Ec; [| discriminate].
        cbn in Hc. injection Hc as <- <-.
        apply (copy_elems_kinds src _ _ _ IH Hlen) in Ec as [Hok1 Hext1].
        -- split; [exact Hok1 |]. cbn [snd] in *. split.
           ++ eapply extends_trans; [apply extends_app | exact Hext1].
           ++ intros (l' & its & [= <-] & Hl')%is_dict_inv. rewrite Hag in El by done. congruence.
        -- rewrite Hag in El by done. apply (Hsrc _ _ El).
        -- apply copy_kinds_alloc; [done | | discriminate].
           intros (l' & its & [= <-] & Hl')%is_dict_inv. rewrite Hag in El by done. congruence.
Qed.

(** *** Total correctness in the store *)


Lemma twp_bind {S A B} (m : M S A) (f : A -> M S B) (Q : B -> S -> Prop) s :
  twp m (fun a s' => twp (f a) Q s') s -> twp (bind m f) Q s.
Proof. unfold twp, bind. by destruct (m s) as [[a | e] s']. Qed.

Lemma twp_mono {S A} (m : M S A) (P Q : A -> S -> Prop) s :
  twp m P s -> (forall a s', P a s' -> Q a s') -> twp m Q s.
Proof. unfold twp. destruct (m s) as [[a | e] s']; auto. Qed.


Lemma twp_for_each {S A} (I : S -> Prop) (xs : list A) (body : A -> M S unit) s :
  I s ->
  (forall x s1, In x xs -> I s1 -> twp (body x) (fun _ s2 => I s2) s1) ->
  twp (for_each xs body) (fun _ s' => I s') s.
Proof.
  revert s. induction xs as [| x xs IH]; intros s Hs Hbody; [done |].
  cbn [for_each]. apply twp_bind. eapply twp_mono; [apply Hbody; [by left | done] |].
  cbn beta. intros _ s1 H1. apply IH; [done |]. intros y s2 Hy. apply Hbody. by right.
Qed.

(** *** The invariant of a compilation whose sections are mappings *)

Lemma valid_extends (h h' : list obj) v : extends h h' -> valid h v -> valid h' v.
Proof. intros (L & _) Hv. destruct v; cbn in *; [done | lia]. Qed.

Lemma fresh_dict_extends n (h h' : list obj) v : extends h h' -> fresh_dict n h v -> fresh_dict n h' v.
Proof. intros X [Hd Hl]. split; [by eapply extends_dict | done]. Qed.

Lemma fresh_is_dict n (h : list obj) v : fresh_dict n h v -> is_dict h v.
Proof. by intros [? _]. Qed.

Lemma obj_built_extends n (h h' : list obj) o : extends h h' -> obj_built n h o -> obj_built n h' o.
Proof.
  intros X. destruct o as [items | xs]; cbn; intros H.
  - intros k v Hin. destruct (H k v Hin) as [Hv Hs]. split; [by eapply valid_extends |].
    intros Hk. eapply fresh_dict_extends; eauto.
  - intros v Hin. eapply valid_extends; eauto.
Qed.

Lemma building_init (h0 : list obj) : sectioned h0 -> building h0 h0.
Proof.
  intros Hs. split; [done |]. split; [done |]. split; [done |].
  intros l o Hl Ho. apply lookup_lt_Some in Ho. lia.
Qed.

Lemma old_dict (h0 h : list obj) v : building h0 h -> is_dict h0 v -> is_dict h v.
Proof.
  intros (_ & _ & Hag & _) (l & items & -> & E)%is_dict_inv.
  apply (is_dict_intro _ _ items). rewrite Hag; [done | by eapply lookup_lt_Some].
Qed.

Lemma old_lookup (h0 h : list obj) d k o :
  building h0 h -> hlookup h0 d k = Some o -> hlookup h d k = Some o.
Proof.
  intros (_ & _ & Hag & _) Hd. destruct d as [a | l]; [done |].
  pose proof (hlookup_lt _ _ _ _ Hd) as Hl. by rewrite (hlookup_agree h0 h l k) by (by apply Hag).
Qed.

Lemma building_sectioned (h0 h : list obj) : building h0 h -> sectioned h.
Proof.
  intros HB. pose proof HB as (Hs & Hlen & Hag & Hnew). intros l o Ho.
  destruct (decide (l < length h0)) as [Hlt | Hge].
  - rewrite Hag in Ho by done. specialize (Hs l o Ho).
    assert (forall v, valid h0 v -> valid h v) as Hval.
    { intros [a | l'] Hv; cbn in *; [done | lia]. }
    destruct o as [items | xs]; cbn in *.
    + intros k v Hin. destruct (Hs k v Hin) as [Hv Hd]. split; [by apply Hval |].
      intros Hk. eapply old_dict; eauto.
    + intros v Hin. apply Hval. by apply Hs.
  - specialize (Hnew l o ltac:(lia) Ho). destruct o as [items | xs]; cbn in *; [| done].
    intros k v Hin. destruct (Hnew k v Hin) as [Hv Hd]. split; [done |].
    intros Hk. by eapply fresh_is_dict, Hd.
Qed.

Lemma sectioned_wf (h : list obj) : sectioned h -> heap_wf h.
Proof.
  intros Hs l o Ho. specialize (Hs l o Ho). destruct o as [items | xs]; cbn in *; [| done].
  intros k v Hin. by apply (Hs k v).
Qed.

Lemma slot_valid (h0 h : list obj) d k v :
  building h0 h -> hlookup h d k = Some (Some v) -> valid h v.
Proof.
  intros HB (l & items & -> & E & Hin)%hlookup_In.
  by apply (building_sectioned _ _ HB l _ E k v).
Qed.

Lemma slot_dict (h0 h : list obj) d k v :
  building h0 h -> In k section_keys -> hlookup h d k = Some (Some v) -> is_dict h v.
Proof.
  intros HB Hk (l & items & -> & E & Hin)%hlookup_In.
  by apply (building_sectioned _ _ HB l _ E k v).
Qed.

Lemma slot_fresh (h0 h : list obj) d k v :
  building h0 h -> fresh_dict (length h0) h d -> In k section_keys ->
  hlookup h d k = Some (Some v) -> fresh_dict (length h0) h v.
Proof.
  intros (_ & _ & _ & Hnew) [_ (l' & -> & Hl')] Hk (l & items & [= <-] & E & Hin)%hlookup_In.
  by apply (Hnew l' _ Hl' E k v).
Qed.

Lemma building_alloc (h0 h : list obj) : building h0 h -> building h0 (h ++ [ODict []]).
Proof.
  intros (Hs & Hlen & Hag & Hnew). split; [done |]. rewrite length_app. split; [lia |]. split.
  - intros l Hl. rewrite lookup_app_l by lia. by apply Hag.
  - intros l o Hl Ho. destruct (decide (l < length h)) as [Hlt | Hge].
    + rewrite lookup_app_l in Ho by done.
      eapply obj_built_extends; [apply extends_app | by eapply Hnew].
    + rewrite lookup_app_r in Ho by lia.
      destruct (l - length h) as [| m]; cbn in Ho; [| by destruct m].
      injection Ho as <-. by intros k v [].
Qed.

Lemma building_store (h0 h : list obj) l k v :
  building h0 h -> length h0 <= l -> valid h v ->
  (In k section_keys -> fresh_dict (length h0) h v) ->
  building h0 (heap_store l k v h).
Proof.
  intros (Hs & Hlen & Hag & Hnew) Hl Hv Hk. split; [done |]. rewrite length_heap_store.
  split; [done |]. split.
  - intros l' Hl'. rewrite lookup_heap_store_ne by lia. by apply Hag.
  - intros l' o Hl' Ho. eapply obj_built_extends; [apply (extends_store h l k v) |].
    destruct (decide (l = l')) as [-> | Hne].
    + unfold heap_store in Ho. destruct (h !! l') as [[items | xs] |] eqn:E.
      * rewrite list_lookup_insert_eq in Ho by (by eapply lookup_lt_Some).
        injection Ho as <-. intros k' v' Hin.
        apply in_dict_store in Hin as [[= -> ->] | Hin]; [by split |].
        by apply (Hnew l' _ Hl' E k').
      * apply (Hnew l' o Hl'). by rewrite <- Ho.
      * by rewrite E in Ho.
    + rewrite lookup_heap_store_ne in Ho by done. by apply (Hnew l').
Qed.

Lemma extends_key (h h' : list obj) d k : extends h h' -> has_key h d k -> has_key h' d k.
Proof. intros (_ & _ & K). apply K. Qed.

(** *** The store operations *)

Section Building.
Variable h0 : list obj.

Implicit Types (h : list obj) (v d dflt x : hval) (k : string).

Local Abbreviation building' := (building h0).
Local Abbreviation made h v := (fresh_dict (length h0) h v).

Lemma twp_new_dict h :
  building' h -> twp new_dict (fun v h' => building' h' /\ extends h h' /\ made h' v) h.
Proof.
  intros HB. unfold twp, new_dict. split; [by apply building_alloc |].
  split; [apply extends_app |]. split.
  - apply (is_dict_intro _ _ []). by rewrite lookup_app_r, Nat.sub_diag.
  - exists (length h). split; [done |]. apply HB.
Qed.

Lemma twp_deepcopy h x :
  building' h -> valid h x ->
  twp (deepcopy x)
      (fun y h' => building' h' /\ extends h h' /\ valid h' y /\ (is_dict h x -> made h' y)) h.
Proof.
  intros HB Hx. pose proof (building_sectioned _ _ HB) as Hsec.
  destruct (deepcopy_returns h x (sectioned_wf _ Hsec) Hx) as (y & h' & Hrun).
  pose proof (wp_elim _ _ _ _ _ (deepcopy_spec x h) Hrun) as (Hle & Hold & Hy & Hnew).
  unfold twp. rewrite Hrun. unfold deepcopy in Hrun.
  destruct (deepcopy_rec _ x ([], h)) as [[y' [memo h'']] |] eqn:E; [| discriminate].
  injection Hrun as -> ->.
  destruct (deepcopy_rec_kinds h _ Hsec _ _ _ _ Hx E) as ((_ & _ & _ & Hcs) & Hext & Hd).
  { split; [done |]. split; [done |]. split; [by intros a b |].
    intros l items k v Hl Hl'. apply lookup_lt_Some in Hl'. cbn [snd] in Hl'. lia. }
  cbn [snd] in *. destruct HB as (Hs & Hlen & Hag & Hbuilt).
  assert (forall v, within (length h) (length h') v -> valid h' v) as Hwv.
  { intros [a | l]; cbn; [done | lia]. }
  split; [| split; [done | split]].
  - split; [done |]. split; [lia |]. split.
    + intros l Hl. rewrite Hold by lia. by apply Hag.
    + intros l o Hl Ho. destruct (decide (l < length h)) as [Hlt | Hge].
      * rewrite Hold in Ho by done. eapply obj_built_extends; [exact Hext | by eapply Hbuilt].
      * specialize (Hnew l o ltac:(lia) Ho). destruct o as [items | xs]; cbn in *.
        -- intros k v Hin. specialize (Hnew _ _ Hin). split; [by apply Hwv |].
           intros Hk. split; [by eapply (Hcs l items k v); [lia | ..] |].
           destruct v as [a | lv]; cbn in Hnew.
           ++ by destruct (is_dict_inv _ _ (Hcs l items k _ ltac:(lia) Ho Hin Hk)) as (? & ? & ? & _).
           ++ exists lv. split; [done | lia].
        -- intros v Hin. by apply Hwv, Hnew.
  - by apply Hwv.
  - intros Hdx. split; [by apply Hd |].
    destruct (is_dict_inv _ _ (Hd Hdx)) as (ly & its & -> & _). exists ly. split; [done |].
    cbn in Hy. lia.
Qed.

Lemma twp_dict_contains h d k :
  is_dict h d ->
  twp (dict_contains d k) (fun b h' => h' = h /\ (b = true -> has_key h d k)) h.
Proof.
  intros (l & items & -> & E)%is_dict_inv. unfold twp, dict_contains. rewrite E.
  split; [done |]. intros [v Hb]%bool_decide_eq_true. exists v.
  unfold hlookup, as_dict. rewrite E. cbn. by rewrite Hb.
Qed.

Lemma twp_dict_getitem h d k :
  has_key h d k ->
  twp (dict_getitem d k) (fun v h' => h' = h /\ hlookup h d k = Some (Some v)) h.
Proof.
  intros [v Hv]. unfold twp, dict_getitem. unfold hlookup in Hv.
  destruct (as_dict h d) as [[l items] |] eqn:E; [| discriminate]. cbn in Hv.
  injection Hv as Hv. rewrite Hv. split; [done |]. unfold hlookup. rewrite E. cbn. by rewrite Hv.
Qed.

Lemma twp_dict_get h d k dflt :
  building' h -> is_dict h d -> valid h dflt ->
  twp (dict_get d k dflt) (fun v h' => h' = h /\ valid h v) h.
Proof.
  intros HB [[l items] E] Hdf. unfold twp, dict_get. rewrite E. split; [done |].
  destruct (dict_lookup k items) as [v |] eqn:Ek; cbn; [| done].
  apply (slot_valid h0 h d k); [done |]. unfold hlookup. rewrite E. cbn. by rewrite Ek.
Qed.

Lemma twp_dict_items h d :
  is_dict h d ->
  twp (dict_items d)
      (fun items h' => h' = h /\ exists l, d = HRef l /\ h !! l = Some (ODict items)) h.
Proof.
  intros [[l items] E]. unfold twp, dict_items. rewrite E.
  apply as_dict_Some in E as [-> E]. split; [done |]. eauto.
Qed.

Lemma twp_setitem h d k v :
  building' h -> made h d -> valid h v -> (In k section_keys -> made h v) ->
  twp (dict_setitem d k v) (fun _ h' => building' h' /\ extends h h') h.
Proof.
  intros HB [[[l items] E] (l' & -> & Hl')] Hv Hk. unfold twp, dict_setitem. rewrite E.
  apply as_dict_Some in E as [[= <-] E].
  split; [by apply building_store | apply extends_store].
Qed.

Lemma twp_setitem_leaf h d k v :
  building' h -> made h d -> valid h v -> ~ In k section_keys ->
  twp (dict_setitem d k v) (fun _ h' => building' h' /\ extends h h') h.
Proof. intros HB Hd Hv Hk. apply twp_setitem; [done | done | done |]. by intros ?. Qed.

Lemma twp_path_operand h s :
  twp (path_operand (HStr s)) (fun r h' => h' = h /\ r = s) h.
Proof. done. Qed.

Lemma twp_get_or_empty h d k :
  building' h -> is_dict h d -> In k section_keys ->
  twp (get_or_empty d k) (fun v h' => building' h' /\ extends h h' /\ is_dict h' v) h.
Proof.
  intros HB Hd Hk. unfold get_or_empty. apply twp_bind.
  eapply twp_mono; [by apply twp_new_dict |]. cbn beta.
  intros e h1 (HB1 & X1 & He). pose proof (extends_dict _ _ _ X1 Hd) as [[l items] E].
  unfold twp, dict_get. rewrite E. split; [done |]. split; [done |].
  destruct (dict_lookup k items) as [v |] eqn:Ek; cbn; [| by eapply fresh_is_dict].
  apply (slot_dict h0 h1 d k); [done | done |]. unfold hlookup. rewrite E. cbn. by rewrite Ek.
Qed.

Lemma twp_setdefault_empty h d k :
  building' h -> made h d -> In k section_keys ->
  twp (setdefault_empty d k)
      (fun v h' => building' h' /\ extends h h' /\ made h' v /\ hlookup h' d k = Some (Some v)) h.
Proof.
  intros HB Hd Hk. unfold setdefault_empty. apply twp_bind.
  eapply twp_mono; [by apply twp_new_dict |]. cbn beta.
  intros e h1 (HB1 & X1 & He). pose proof (fresh_dict_extends _ _ _ _ X1 Hd) as Hd1.
  destruct Hd1 as [[[l items] E] (l' & -> & Hl')].
  unfold twp, dict_setdefault. rewrite E.
  pose proof E as E'. apply as_dict_Some in E' as [[= <-] E'].
  destruct (dict_lookup k items) as [v |] eqn:Ek.
  - assert (hlookup h1 (HRef l') k = Some (Some v)) as Hv.
    { unfold hlookup. rewrite E. cbn. by rewrite Ek. }
    split; [done |]. split; [done |]. split; [| done].
    apply (slot_fresh h0 h1 (HRef l') k); [done | | done | done].
    split; [by eexists | eauto].
  - split; [apply building_store; [done | done | by eapply is_dict_valid, fresh_is_dict | done] |].
    split; [eapply extends_trans; [exact X1 | apply extends_store] |].
    split; [eapply fresh_dict_extends; [apply extends_store | done] |].
    by eapply hlookup_store_same.
Qed.

Lemma twp_copy_field h defaults cfg k :
  building' h -> is_dict h defaults -> made h cfg -> ~ In k section_keys ->
  twp (copy_field defaults cfg k) (fun _ h' => building' h' /\ extends h h') h.
Proof.
  intros HB Hd Hc Hk. unfold copy_field. apply twp_bind.
  eapply twp_mono; [by apply (twp_dict_get h defaults k HNone) |]. cbn beta.
  intros v ? (-> & Hv). by apply twp_setitem_leaf.
Qed.

Lemma twp_truthy h v : twp (fun h1 => (Ret (truthy h1 v), h1)) (fun _ h' => h' = h) h.
Proof. done. Qed.

End Building.

(** *** The blocks of the compilers *)

(** One step of a sequence: the store operation at its head, then what is
    known is moved to the store it leaves. *)
Ltac tstep :=
  lazymatch goal with
  | |- twp (bind _ _) _ _ => apply twp_bind; eapply twp_mono; [| cbn beta]
  end.

(** Move what is known of the store [h] to the store [h'] that extends it. *)
Ltac carry X :=
  match type of X with
  | extends ?h ?h' =>
      repeat match goal with
        | H : is_dict h _ |- _ => apply (extends_dict _ _ _ X) in H
        | H : fresh_dict _ h _ |- _ => apply (fresh_dict_extends _ _ _ _ X) in H
        | H : valid h _ |- _ => apply (valid_extends _ _ _ X) in H
        | H : has_key h _ _ |- _ => apply (extends_key _ _ _ _ X) in H
        | H : extends _ h |- _ => apply (fun H0 => extends_trans _ _ _ H0 X) in H
        end
  end.

Ltac solve_side :=
  first [ eassumption | exact I | in_list | not_in_list
        | by eapply fresh_is_dict
        | by eapply is_dict_valid
        | by eapply is_dict_valid, fresh_is_dict
        | intros _; eassumption ].

Ltac after_step :=
  let v := fresh "v" in let h' := fresh "h" in let P := fresh "P" in
  intros v h' P; cbn beta in P;
  let HB := fresh "HB" in let X := fresh "X" in
  lazymatch type of P with
  | _ = _ /\ _ => destruct P as (-> & P)
  | _ = _ => idtac
  | building _ _ /\ extends _ _ /\ _ => destruct P as (HB & X & P); carry X; clear X
  | building _ _ /\ extends _ _ => destruct P as (HB & X); carry X; clear X
  end;
  destruct_and?; subst.

Section Blocks.
Variable h0 : list obj.

Implicit Types (h : list obj) (v d dflt x : hval) (k : string).

Local Abbreviation building' := (building h0).
Local Abbreviation made h v := (fresh_dict (length h0) h v).
Local Abbreviation keeps h m :=
  (twp m (fun _ h' => building h0 h' /\ extends h h') h) (h in scope list_scope).

Lemma twp_getitem_read h d k :
  building' h -> has_key h d k ->
  twp (dict_getitem d k)
      (fun v h' => h' = h /\ valid h v /\ (In k section_keys -> is_dict h v)) h.
Proof.
  intros HB Hk. eapply twp_mono; [by apply twp_dict_getitem |]. cbn beta.
  intros v ? (-> & Hv). split; [done |]. split; [by eapply slot_valid |].
  intros Hin. by eapply slot_dict.
Qed.

Lemma twp_getitem_section h d k :
  building' h -> made h d -> In k section_keys -> has_key h d k ->
  twp (dict_getitem d k) (fun v h' => h' = h /\ made h v) h.
Proof.
  intros HB Hd Hin Hk. eapply twp_mono; [by apply twp_dict_getitem |]. cbn beta.
  intros v ? (-> & Hv). split; [done |]. by eapply slot_fresh.
Qed.

Lemma twp_getitem_arg h d k :
  building' h -> has_key h d k ->
  twp (dict_getitem d k) (fun v h' => h' = h /\ valid h v) h.
Proof.
  intros HB Hk. eapply twp_mono; [by apply twp_getitem_read |]. cbn beta.
  by intros v ? (-> & Hv & _).
Qed.

Lemma twp_getitem_str h d k s :
  building' h -> hlookup h0 d k = Some (Some (HStr s)) ->
  twp (dict_getitem d k) (fun v h' => h' = h /\ v = HStr s) h.
Proof.
  intros HB Hv. apply (old_lookup h0 h) in Hv; [| done].
  eapply twp_mono; [apply twp_dict_getitem; by eexists |]. cbn beta.
  intros v' ? (-> & Hv'). split; [done |]. congruence.
Qed.

Lemma twp_deepcopy_dict h x :
  building' h -> is_dict h x ->
  twp (deepcopy x) (fun y h' => building' h' /\ extends h h' /\ made h' y) h.
Proof.
  intros HB Hx. eapply twp_mono; [apply twp_deepcopy; [done | by apply is_dict_valid] |].
  cbn beta. intros y h' (HB' & X & _ & Hy). auto.
Qed.

Lemma twp_setdefault_section h d k :
  building' h -> made h d -> In k section_keys ->
  twp (setdefault_empty d k)
      (fun v h' => building' h' /\ extends h h' /\ made h' v /\ has_key h' d k) h.
Proof.
  intros HB Hd Hk. eapply twp_mono; [by apply twp_setdefault_empty |]. cbn beta.
  intros v h' (HB' & X & Hv & Hl). split; [done |]. split; [done |]. split; [done |]. by exists v.
Qed.

Ltac total_prim :=
  first
    [ apply (twp_get_or_empty h0); [eassumption | solve_side | in_list]
    | apply (twp_setdefault_section); [eassumption | solve_side | in_list]
    | apply (twp_copy_field h0); [eassumption | solve_side | solve_side | not_in_list]
    | apply (twp_setitem_leaf h0); [eassumption | solve_side | solve_side | not_in_list]
    | apply (twp_getitem_str); [eassumption | eassumption]
    | apply (twp_getitem_arg); [eassumption | eassumption]
    | apply (twp_dict_get h0); [eassumption | solve_side | solve_side]
    | apply (twp_new_dict h0); eassumption
    | apply twp_path_operand
    | apply twp_truthy ].

Ltac total_step := tstep; [total_prim | after_step].
Ltac total_last := eapply twp_mono; [total_prim | cbn beta; after_step; by split].
Ltac from_store h := pose proof (extends_refl h).

Lemma populate_simulator_returns h defaults root :
  building' h -> is_dict h defaults -> made h root ->
  keeps h (populate_simulator defaults root).
Proof.
  intros HB Hd Hr. from_store h. unfold populate_simulator.
  repeat total_step. total_last.
Qed.

Lemma populate_general_returns h defaults root app :
  building' h -> is_dict h defaults -> made h root ->
  keeps h (populate_general defaults root app).
Proof.
  intros HB Hd Hr. from_store h. unfold populate_general.
  do 4 total_step.
  tstep; [apply twp_getitem_section; [eassumption | solve_side | in_list | eassumption] | after_step].
  total_last.
Qed.

Lemma populate_observation_returns h defaults pc root :
  building' h -> is_dict h defaults -> made h root ->
  has_key h pc "ra_deg" -> has_key h pc "dec_deg" -> has_key h pc "start_time_utc" ->
  keeps h (populate_observation defaults pc root).
Proof.
  intros HB Hd Hr H1 H2 H3. from_store h. unfold populate_observation.
  repeat total_step. total_last.
Qed.






Lemma copy_common_sections_returns h defaults root :
  building' h -> is_dict h defaults -> made h root ->
  keeps h (copy_common_sections defaults root).
Proof.
  intros HB Hd Hr. unfold copy_common_sections.
  apply (twp_for_each (fun h' => building' h' /\ extends h h')); [split; [done | apply extends_refl] |].
  intros sec h1 Hsec (HB1 & X1). carry X1.
  assert (In sec section_keys) as Hin.
  { cbn in Hsec. destruct Hsec as [<- | [<- | [<- | [<- | []]]]]; in_list. }
  tstep; [by apply twp_dict_contains | after_step].
  match goal with |- context [if ?b then _ else _] => destruct b end.
  - tstep; [apply twp_getitem_read; [eassumption | auto] | after_step].
    tstep; [apply twp_deepcopy_dict; [eassumption | auto] | after_step].
    eapply twp_mono; [apply (twp_setitem h0); [eassumption | solve_side | solve_side | solve_side] |].
    cbn beta. after_step. by split.
  - total_step.
    eapply twp_mono; [apply (twp_setitem h0); [eassumption | solve_side | solve_side | solve_side] |].
    cbn beta. after_step. by split.
Qed.

Lemma merge_module_sections_returns h defaults module_name root :
  building' h -> is_dict h defaults -> made h root -> In module_name section_keys ->
  keeps h (merge_module_sections defaults module_name root).
Proof.
  intros HB Hd Hr Hm. from_store h. unfold merge_module_sections.
  tstep; [by apply twp_get_or_empty | after_step].
  tstep; [apply twp_deepcopy_dict; [eassumption | solve_side] | after_step].
  tstep; [apply twp_dict_items; solve_side | after_step].
  match goal with Hex : exists l, _ = HRef l /\ _ |- _ => destruct Hex as (l & -> & Hl) end.
  match goal with HBc : building' ?hc, Hc : made ?hc (HRef l) |- _ =>
    pose proof HBc as (_ & _ & _ & Hnew); destruct Hc as [_ (l' & [= <-] & Hge)];
    specialize (Hnew l _ Hge Hl); cbn in Hnew;
    eapply twp_mono; [apply (twp_for_each (fun h' => building' h' /\ extends hc h')) |]
  end.
  - split; [done | apply extends_refl].
  - intros [k x] h3 Hkx (HB3 & X3). cbn [fst snd]. destruct (Hnew k x Hkx) as [Hx Hk].
    carry X3.
    eapply twp_mono; [apply (twp_setitem h0); [eassumption | solve_side | solve_side |] |].
    + intros Hin. eapply fresh_dict_extends; [exact X3 | by apply Hk].
    + cbn beta. intros [] h4 (HB4 & X4). split; [done |]. by eapply extends_trans.
  - cbn beta. intros [] h3 (HB3 & X3). split; [done |]. by eapply extends_trans.
Qed.



End Blocks.


Lemma sectioned_b_spec (h : list obj) : sectioned_b h = true -> sectioned h.
Proof.
  intros Hb l o Ho. unfold sectioned_b in Hb. rewrite forallb_forall in Hb.
  assert (In o h) as Hin by (apply list_elem_of_In; by eapply list_elem_of_lookup_2).
  specialize (Hb o Hin). clear Hin.
  destruct o as [items | xs]; cbn; rewrite forallb_forall in Hb.
  - intros k v Hin. specialize (Hb _ Hin). cbn [fst snd] in Hb.
    apply andb_true_iff in Hb as [Hv Hd]. split; [by apply valid_b_spec |].
    intros Hk. apply orb_true_iff in Hd as [Hd | Hd].
    + apply negb_true_iff in Hd. by destruct (not_In_existsb _ _ Hd).
    + unfold is_dict_b in Hd. unfold is_dict. by destruct (as_dict h v).
  - intros v Hin. by apply valid_b_spec, Hb.
Qed.

(** ** The runners: what every step preserves *)

Section Preserves.
Context (R : world -> world -> Prop) `{!PreOrder R}.

Lemma preserves_ret {A} (a : A) : preserves R (ret a).
Proof. intros w. cbn. reflexivity. Qed.

Lemma preserves_raise {A} e : preserves R (@raise world A e).
Proof. intros w. cbn. reflexivity. Qed.

Lemma preserves_bind {A B} (m : M world A) (f : A -> M world B) :
  preserves R m -> (forall a, preserves R (f a)) -> preserves R (bind m f).
Proof.
  intros Hm Hf w. unfold bind. specialize (Hm w).
  destruct (m w) as [[a | e] w1]; cbn in *; [| exact Hm].
  etransitivity; [exact Hm | apply Hf].
Qed.

Lemma preserves_try_except {A} (m : M world A) h :
  preserves R m -> (forall e, preserves R (h e)) -> preserves R (try_except m h).
Proof.
  intros Hm Hh w. unfold try_except. specialize (Hm w).
  destruct (m w) as [[a | e] w1]; cbn in *; [exact Hm |].
  etransitivity; [exact Hm | apply Hh].
Qed.

Lemma preserves_try_finally {A} (m : M world A) fin :
  preserves R m -> preserves R fin -> preserves R (try_finally m fin).
Proof.
  intros Hm Hf w. unfold try_finally. specialize (Hm w).
  destruct (m w) as [r w1]; cbn in *. specialize (Hf w1).
  destruct (fin w1) as [[[] | e] w2]; cbn in *; etransitivity; eauto.
Qed.

Lemma preserves_fold_each {A B} (xs : list A) (body : A -> B -> M world B) acc :
  (forall x b, preserves R (body x b)) -> preserves R (fold_each xs acc body).
Proof.
  intros Hb. revert acc. induction xs as [| x xs IH]; intros acc; cbn [fold_each].
  - apply preserves_ret.
  - apply preserves_bind; [apply Hb | intros b; apply IH].
Qed.

Lemma preserves_pure {A} (m : M world A) :
  (forall w, snd (m w) = w) -> preserves R m.
Proof. intros H w. rewrite H. reflexivity. Qed.

Lemma preserves_vget d k v : preserves R (vget d k v).
Proof. apply preserves_pure. intros w. by destruct d. Qed.

Lemma preserves_require_str v : preserves R (require_str v).
Proof. apply preserves_pure. intros w. by destruct v as [[]| |]. Qed.

Lemma preserves_compiled r : preserves R (compiled r).
Proof. apply preserves_pure. intros w. by destruct r. Qed.

Lemma preserves_shlex_quote_value x : preserves R (shlex_quote_value x).
Proof.
  apply preserves_pure. intros w. unfold shlex_quote_value.
  destruct (negb (truthy_value x)); [done |]. by destruct x as [[]| |].
Qed.

Lemma preserves_calibrate_arguments h o : preserves R (calibrate_arguments h o).
Proof.
  unfold calibrate_arguments.
  repeat (apply preserves_bind; [apply preserves_vget | intros ?]).
  apply preserves_ret.
Qed.

End Preserves.

Lemma triple_ret {A} (P : world -> Prop) (a : A) Q Qe :
  (forall w, P w -> Q a w) -> triple P (ret a) Q Qe.
Proof. intros H w Hw. cbn. auto. Qed.

Lemma triple_bind {A B} P (m : M world A) (f : A -> M world B) Q1 Q Qe :
  triple P m Q1 Qe -> (forall a, triple (Q1 a) (f a) Q Qe) -> triple P (bind m f) Q Qe.
Proof.
  intros Hm Hf w Hw. unfold bind. specialize (Hm w Hw).
  destruct (m w) as [[a | e] w1]; [| exact Hm]. apply Hf, Hm.
Qed.

Lemma triple_try_except {A} P (m : M world A) h Q Qe1 Qe :
  triple P m Q Qe1 -> (forall e, triple (Qe1 e) (h e) Q Qe) -> triple P (try_except m h) Q Qe.
Proof.
  intros Hm Hh w Hw. unfold try_except. specialize (Hm w Hw).
  destruct (m w) as [[a | e] w1]; [exact Hm |]. apply Hh, Hm.
Qed.

(** A property that steps related by [R] keep is an invariant of every
    computation that preserves [R]. *)
Lemma triple_preserves {A} R (I : world -> Prop) (m : M world A) :
  preserves R m -> (forall w w', R w w' -> I w -> I w') ->
  triple I m (fun _ => I) (fun _ => I).
Proof.
  intros Hm HI w Hw. specialize (Hm w). destruct (m w) as [[a | e] w1]; cbn in Hm; eauto.
Qed.

Lemma appended_same log w w' :
  files w' = files w -> mkdirs w' = mkdirs w -> appended log w w'.
Proof.
  intros F D. split; [| split]; [by rewrite F | | done].
  exists "". unfold file_content. by rewrite F, str_app_nil_r.
Qed.

#[global] Instance appended_preorder log : PreOrder (appended log).
Proof.
  split.
  - intros w. by apply appended_same.
  - intros w1 w2 w3 (F1 & [s1 C1] & D1) (F2 & [s2 C2] & D2). split; [| split].
    + intros p Hp. by rewrite F2, F1.
    + exists (s1 +:+ s2). by rewrite C2, C1, str_app_assoc.
    + congruence.
Qed.

#[global] Instance launched_preorder P : PreOrder (launched P).
Proof.
  split.
  - intros w. split; [exists []; by rewrite app_nil_r |]; done.
  - intros w1 w2 w3 [(e1 & L1 & P1) D1] [(e2 & L2 & P2) D2]. split; [| congruence].
    exists (e1 ++ e2). rewrite L2, L1, <- app_assoc. split; [done |]. by apply Forall_app.
Qed.

Lemma file_content_store_same p s w :
  file_content p (set_files (dict_store p s (files w)) w) = s.
Proof. unfold file_content. cbn. by rewrite dict_lookup_store, String.eqb_refl. Qed.

Lemma appended_faults log w f : appended log w (set_faults f w).
Proof. by apply appended_same. Qed.

Lemma appended_store log s w :
  appended log w (set_files (dict_store log (file_content log w +:+ s) (files w)) w).
Proof.
  split; [| split]; [| | done].
  - intros p Hp. cbn. rewrite dict_lookup_store. by destruct (String.eqb_spec p log).
  - exists s. apply file_content_store_same.
Qed.

Lemma appended_syscall log : preserves (appended log) syscall.
Proof. intros w. unfold syscall. destruct (faults w) as [| [e |] rest]; cbn; try reflexivity; apply appended_faults. Qed.

Lemma appended_print log s : preserves (appended log) (print s).
Proof. intros w. by apply appended_same. Qed.

Lemma appended_now log : preserves (appended log) now.
Proof.
  intros w. unfold now. destruct (clock w); cbn; [reflexivity |].
  by apply appended_same.
Qed.

Lemma appended_open_append log : preserves (appended log) (open_append log).
Proof.
  unfold open_append. apply preserves_bind; [tc_solve | apply appended_syscall |].
  intros _ w. cbn [snd]. rewrite <- (str_app_nil_r (file_content log w)) at 1.
  apply appended_store.
Qed.

Lemma appended_write log s : preserves (appended log) (write log s).
Proof.
  unfold write. apply preserves_bind; [tc_solve | apply appended_syscall |].
  intros _ w. apply appended_store.
Qed.

Lemma appended_path_exists log p : preserves (appended log) (path_exists p).
Proof. intros w. cbn. reflexivity. Qed.

Lemma appended_resolve log E p : preserves (appended log) (resolve E p).
Proof.
  unfold resolve. apply preserves_bind; [tc_solve | apply appended_syscall |].
  intros _. apply preserves_ret. tc_solve.
Qed.

Lemma appended_subprocess_run log c d : preserves (appended log) (subprocess_run c d).
Proof.
  unfold subprocess_run. apply preserves_bind; [tc_solve | |].
  { intros w. by apply appended_same. }
  intros _. apply preserves_bind; [tc_solve | apply appended_syscall |].
  intros _ w. destruct (procs w); cbn; [reflexivity |].
  by apply appended_same.
Qed.

Lemma appended_subprocess_run_command log x a d :
  preserves (appended log) (subprocess_run_command x a d).
Proof.
  unfold subprocess_run_command.
  destruct x as [[]| |]; try (apply preserves_raise; tc_solve). apply appended_subprocess_run.
Qed.

Lemma launched_fields P w w' :
  launches w' = launches w -> mkdirs w' = mkdirs w -> launched P w w'.
Proof. intros L D. split; [| done]. exists []. by rewrite app_nil_r. Qed.

Lemma launched_syscall P : preserves (launched P) syscall.
Proof.
  intros w. unfold syscall. destruct (faults w) as [| [e |] rest]; by apply launched_fields.
Qed.

Lemma launched_print P s : preserves (launched P) (print s).
Proof. intros w. by apply launched_fields. Qed.

Lemma launched_now P : preserves (launched P) now.
Proof. intros w. unfold now. destruct (clock w); by apply launched_fields. Qed.

Lemma launched_open_append P p : preserves (launched P) (open_append p).
Proof.
  unfold open_append. apply preserves_bind; [tc_solve | apply launched_syscall |].
  intros _ w. by apply launched_fields.
Qed.

Lemma launched_write P p s : preserves (launched P) (write p s).
Proof.
  unfold write. apply preserves_bind; [tc_solve | apply launched_syscall |].
  intros _ w. by apply launched_fields.
Qed.

Lemma launched_write_file P p s : preserves (launched P) (write_file p s).
Proof.
  unfold write_file. apply preserves_bind; [tc_solve | apply launched_syscall |].
  intros _ w. by apply launched_fields.
Qed.

Lemma launched_path_exists P p : preserves (launched P) (path_exists p).
Proof. intros w. by apply launched_fields. Qed.

Lemma launched_resolve P E p : preserves (launched P) (resolve E p).
Proof.
  unfold resolve. apply preserves_bind; [tc_solve | apply launched_syscall |].
  intros _. apply preserves_ret. tc_solve.
Qed.

Lemma launched_subprocess_run (P : list string * string -> Prop) c d :
  P (c, d) -> preserves (launched P) (subprocess_run c d).
Proof.
  intros HP. unfold subprocess_run. apply preserves_bind; [tc_solve | |].
  { intros w. split; [| done]. exists [(c, d)]. split; [done |]. by constructor. }
  intros _. apply preserves_bind; [tc_solve | apply launched_syscall |].
  intros _ w. destruct (procs w); by apply launched_fields.
Qed.

Lemma launched_subprocess_run_command (P : list string * string -> Prop) x a d :
  (forall exe, x = VStr exe -> P (exe :: a, d)) ->
  preserves (launched P) (subprocess_run_command x a d).
Proof.
  intros HP. unfold subprocess_run_command.
  destruct x as [[]| |]; try (apply preserves_raise; tc_solve).
  apply launched_subprocess_run. by apply HP.
Qed.

Lemma preserves_bind_ret {A B} R (a : A) (f : A -> M world B) :
  preserves R (f a) -> preserves R (bind (ret a) f).
Proof. intros H w. exact (H w). Qed.

Lemma preserves_and {A} (R1 R2 : world -> world -> Prop) (m : M world A) :
  preserves R1 m -> preserves R2 m -> preserves (fun w w' => R1 w w' /\ R2 w w') m.
Proof. intros H1 H2 w. split; [apply H1 | apply H2]. Qed.

Lemma open_append_result p w :
  (exists e, fst (open_append p w) = Raise e) \/ fst (open_append p w) = Ret p.
Proof.
  unfold open_append, bind, syscall. destruct (faults w) as [| [e |] rest]; cbn; eauto.
Qed.

Lemma preserves_bind_open {B} R `{!PreOrder R} p (f : string -> M world B) :
  preserves R (open_append p) -> preserves R (f p) -> preserves R (bind (open_append p) f).
Proof.
  intros Hm Hf w. unfold bind. specialize (Hm w).
  destruct (open_append_result p w) as [[e He] | He];
    destruct (open_append p w) as [[a | e'] w1]; cbn in *; try discriminate; try exact Hm.
  injection He as ->. etransitivity; [exact Hm | apply Hf].
Qed.

#[global] Instance appended_logging log : logging_relation (appended log) log.
Proof.
  split; [tc_solve | ..]; intros.
  - apply appended_print.
  - apply appended_now.
  - apply appended_open_append.
  - apply appended_write.
  - apply appended_path_exists.
  - apply appended_resolve.
Qed.

#[global] Instance appended_runner log x : runner_relation (appended log) log x.
Proof. split; [tc_solve |]. intros. apply appended_subprocess_run_command. Qed.

#[global] Instance launched_logging P log : logging_relation (launched P) log.
Proof.
  split; [tc_solve | ..]; intros.
  - apply launched_print.
  - apply launched_now.
  - apply launched_open_append.
  - apply launched_write.
  - apply launched_path_exists.
  - apply launched_resolve.
Qed.

#[global] Instance launched_runner log x :
  runner_relation (launched (fun l => VStr (program_of l) = x)) log x.
Proof.
  split; [tc_solve |]. intros. apply launched_subprocess_run_command. by intros exe ->.
Qed.

Ltac pres_step :=
  lazymatch goal with
  | |- preserves _ (bind (ret _) _) => apply preserves_bind_ret
  | |- preserves _ (bind (open_append _) _) => apply preserves_bind_open; [tc_solve | |]
  | |- preserves _ (bind _ _) => apply preserves_bind; [tc_solve | | intros ?]
  | |- preserves _ (try_except _ _) => apply preserves_try_except; [tc_solve | | intros ?]
  | |- preserves _ (try_finally _ _) => apply preserves_try_finally; [tc_solve | |]
  | |- preserves _ (ret _) => apply preserves_ret; tc_solve
  | |- preserves _ (raise _) => apply preserves_raise; tc_solve
  | |- preserves _ (vget _ _ _) => apply preserves_vget; tc_solve
  | |- preserves _ (require_str _) => apply preserves_require_str; tc_solve
  | |- preserves _ (compiled _) => apply preserves_compiled; tc_solve
  | |- preserves _ (shlex_quote_value _) => apply preserves_shlex_quote_value; tc_solve
  | |- preserves _ (calibrate_arguments _ _) => apply preserves_calibrate_arguments; tc_solve
  | |- preserves _ (print _) => first [apply appended_print | apply launched_print | apply lr_print]
  | |- preserves _ now => first [apply appended_now | apply launched_now | apply lr_now]
  | |- preserves _ (open_append _) =>
      first [apply appended_open_append | apply launched_open_append | apply lr_open]
  | |- preserves _ (write _ _) => first [apply appended_write | apply launched_write | apply lr_write]
  | |- preserves _ (write_file _ _) => apply launched_write_file
  | |- preserves _ (path_exists _) =>
      first [apply appended_path_exists | apply launched_path_exists | apply lr_exists]
  | |- preserves _ (resolve _ _) =>
      first [apply appended_resolve | apply launched_resolve | apply lr_resolve]
  | |- preserves _ (subprocess_run_command _ _ _) =>
      first [apply appended_subprocess_run_command | apply rr_run]
  | |- preserves _ (if ?b then _ else _) => destruct b
  | |- preserves _ (match ?x with _ => _ end) => destruct x
  | |- preserves _ _ => progress cbv zeta
  end.

Section Logging.
Context (R : world -> world -> Prop) (log : string) `{!logging_relation R log}.

Lemma preserves_log_process_output p : preserves R (log_process_output log p).
Proof. unfold log_process_output. repeat pres_step. Qed.

Lemma preserves_print_logged_notice p : preserves R (print_logged_notice log p).
Proof. unfold print_logged_notice. repeat pres_step. Qed.

Lemma preserves_print_process_output p : preserves R (print_process_output p).
Proof. unfold print_process_output. repeat pres_step. Qed.

Lemma preserves_handler exe prefix e :
  preserves R (handle_runner_exception log exe prefix e).
Proof. unfold handle_runner_exception. repeat pres_step. Qed.

Lemma preserves_log_conclusion what : preserves R (log_conclusion log what).
Proof. unfold log_conclusion. repeat pres_step. Qed.

End Logging.

Ltac runner_step :=
  first [ apply preserves_log_process_output; tc_solve
        | eapply preserves_print_logged_notice; tc_solve
        | eapply preserves_print_process_output; tc_solve
        | apply preserves_handler; tc_solve
        | apply preserves_log_conclusion; tc_solve
        | pres_step ].

Section Runners.
Context (R : world -> world -> Prop) (E : env) (log : string) (executable_path : value).
Context `{!runner_relation R log executable_path}.

Lemma preserves_run_oskar_sim_interf ini cwd_path dry :
  log = path_str (path_join cwd_path "run.log") ->
  preserves R (run_oskar_sim_interf E executable_path ini cwd_path dry).
Proof. intros Hlog. unfold run_oskar_sim_interf. rewrite <- Hlog. cbv zeta. repeat runner_step. Qed.

Lemma preserves_run_oskar_sim_beam ini cwd_path dry :
  log = path_str (path_join cwd_path "run.log") ->
  preserves R (run_oskar_sim_beam E executable_path ini cwd_path dry).
Proof. intros Hlog. unfold run_oskar_sim_beam. rewrite <- Hlog. cbv zeta. repeat runner_step. Qed.

Lemma preserves_run_calibrate hyp out cwd_path dry :
  log = path_str (path_join cwd_path "run.log") ->
  preserves R (run_calibrate E executable_path hyp out cwd_path dry).
Proof. intros Hlog. unfold run_calibrate. rewrite <- Hlog. cbv zeta. repeat runner_step. Qed.

End Runners.

Lemma try_except_swallow (m : M world unit) w :
  fst (try_except m (fun _ => ret tt) w) = Ret tt.
Proof. unfold try_except. by destruct (m w) as [[[] | e] w1]. Qed.

Lemma fst_bind_ret {A B} (m : M world A) (f : A -> M world B) b w :
  (exists a, fst (m w) = Ret a) -> (forall a w', fst (f a w') = Ret b) ->
  fst (bind m f w) = Ret b.
Proof.
  intros [a Ha] Hf. unfold bind. destruct (m w) as [[a' | e] w1]; cbn in *; [| discriminate].
  apply Hf.
Qed.

Lemma handler_returns log exe prefix e w :
  fst (handle_runner_exception log exe prefix e w) = Ret false.
Proof.
  unfold handle_runner_exception. destruct e as [k msg].
  destruct k; cbv zeta;
    (apply fst_bind_ret; [by eexists |]; intros _ w1;
     apply fst_bind_ret; [eexists; apply try_except_swallow |]; by intros _ w2).
Qed.

Lemma conclusion_returns log what w : fst (log_conclusion log what w) = Ret tt.
Proof. apply try_except_swallow. Qed.

Lemma shlex_quote_value_str {S} exe (s : S) :
  exists q, shlex_quote_value (VStr exe) s = (Ret q, s).
Proof.
  unfold shlex_quote_value. destruct (negb (truthy_value (VStr exe))); by eexists.
Qed.

#[global] Instance consumed_preorder : PreOrder consumed.
Proof.
  split.
  - intros w. split; by exists [].
  - intros w1 w2 w3 [[u1 F1] [r1 C1]] [[u2 F2] [r2 C2]]. split.
    + exists (u1 ++ u2). by rewrite F1, F2, app_assoc.
    + exists (r1 ++ r2). by rewrite C1, C2, app_assoc.
Qed.

Lemma consumed_same w w' : faults w' = faults w -> clock w' = clock w -> consumed w w'.
Proof. intros F C. split; exists []; by rewrite ?F, ?C. Qed.

Lemma consumed_syscall : preserves consumed syscall.
Proof.
  intros w. unfold syscall. destruct (faults w) as [| [e |] rest] eqn:Hf; cbn.
  - reflexivity.
  - split; [exists [Some e] | exists []]; cbn; by rewrite ?Hf.
  - split; [exists [None] | exists []]; cbn; by rewrite ?Hf.
Qed.

Lemma consumed_after_syscall {A} (m : M world A) :
  preserves consumed m -> preserves consumed (syscall ;; m).
Proof. intros H. apply preserves_bind; [tc_solve | apply consumed_syscall | by intros _]. Qed.

Lemma consumed_print s : preserves consumed (print s).
Proof. intros w. by apply consumed_same. Qed.

Lemma consumed_now : preserves consumed now.
Proof.
  intros w. unfold now. destruct (clock w) as [| t rest] eqn:Hc; cbn; [reflexivity |].
  split; [exists [] | exists [t]]; cbn; by rewrite ?Hc.
Qed.

Lemma consumed_open_append p : preserves consumed (open_append p).
Proof. apply consumed_after_syscall. intros w. by apply consumed_same. Qed.

Lemma consumed_write p s : preserves consumed (write p s).
Proof. apply consumed_after_syscall. intros w. by apply consumed_same. Qed.

Lemma consumed_path_exists p : preserves consumed (path_exists p).
Proof. intros w. by apply consumed_same. Qed.

Lemma consumed_resolve E p : preserves consumed (resolve E p).
Proof. apply consumed_after_syscall. intros w. by apply consumed_same. Qed.

Lemma consumed_subprocess_run_command x a d :
  preserves consumed (subprocess_run_command x a d).
Proof.
  unfold subprocess_run_command. destruct x as [[]| |]; try (apply preserves_raise; tc_solve).
  unfold subprocess_run. apply preserves_bind; [tc_solve | |].
  { intros w. by apply consumed_same. }
  intros _. apply consumed_after_syscall. intros w. destruct (procs w); by apply consumed_same.
Qed.

#[global] Instance consumed_logging log : logging_relation consumed log.
Proof.
  split; [tc_solve | ..]; intros.
  - apply consumed_print.
  - apply consumed_now.
  - apply consumed_open_append.
  - apply consumed_write.
  - apply consumed_path_exists.
  - apply consumed_resolve.
Qed.

#[global] Instance consumed_runner log x : runner_relation consumed log x.
Proof. split; [tc_solve |]. intros. apply consumed_subprocess_run_command. Qed.






(** ** A missing INI file *)

#[global] Instance quiet_preorder log : PreOrder (quiet log).
Proof.
  split.
  - intros w. split; reflexivity.
  - intros w1 w2 w3 [A1 L1] [A2 L2]. split; etransitivity; eauto.
Qed.

#[global] Instance quiet_logging log : logging_relation (quiet log) log.
Proof.
  split; [tc_solve | ..]; intros; apply preserves_and; pres_step.
Qed.

Lemma launched_nothing w w' : launched (fun _ => False) w w' -> launches w' = launches w.
Proof.
  intros [(extra & L & F) _]. destruct extra as [| x extra]; [by rewrite L, app_nil_r |].
  by inversion F.
Qed.

Lemma quiet_keeps log ini L0 w w' :
  path_str ini <> log -> quiet log w w' ->
  missing ini w /\ launches w = L0 -> missing ini w' /\ launches w' = L0.
Proof.
  intros Hne [(F & _ & D) L] [[Hf Hd] HL]. repeat split.
  - by rewrite F.
  - by rewrite D.
  - apply launched_nothing in L. congruence.
Qed.

Lemma triple_pure_pre {A} (phi : Prop) (P : world -> Prop) (m : M world A) Q Qe :
  (phi -> triple P m Q Qe) -> triple (fun w => phi /\ P w) m Q Qe.
Proof. intros H w [Hphi Hw]. by apply H. Qed.

Lemma triple_open R (I : world -> Prop) p :
  preserves R (open_append p) -> (forall w w', R w w' -> I w -> I w') ->
  triple I (open_append p) (fun a w => a = p /\ I w) (fun _ => I).
Proof.
  intros Hm HI w Hw. specialize (Hm w).
  destruct (open_append_result p w) as [[e He] | He];
    destruct (open_append p w) as [[a | e'] w1]; cbn in *; try discriminate; eauto.
  injection He as ->. eauto.
Qed.

Lemma triple_path_exists_missing ini (I : world -> Prop) :
  (forall w, I w -> missing ini w) ->
  triple I (path_exists ini) (fun b w => b = false /\ I w) (fun _ => I).
Proof.
  intros HI w Hw. cbn. split; [| done]. destruct (HI w Hw) as [Hf Hd].
  rewrite Hf. rewrite bool_decide_eq_false_2 by (by intros [? ?]).
  by rewrite bool_decide_eq_false_2.
Qed.

Lemma triple_returns {A} R (I : world -> Prop) (m : M world A) a0 :
  (forall w, fst (m w) = Ret a0) -> preserves R m -> (forall w w', R w w' -> I w -> I w') ->
  triple I m (fun a w => a = a0 /\ I w) (fun _ _ => False).
Proof.
  intros Hr Hm HI w Hw. specialize (Hm w). specialize (Hr w).
  destruct (m w) as [[a | e] w1]; cbn in *; [| discriminate].
  injection Hr as ->. eauto.
Qed.

Ltac quiet_step log Hne :=
  lazymatch goal with
  | |- triple _ (bind (open_append _) _) _ _ =>
      eapply triple_bind;
      [ apply (triple_open (quiet log));
        [apply lr_open | intros ? ?; apply quiet_keeps, Hne]
      | intros ?; apply triple_pure_pre; intros -> ]
  | |- triple _ (bind (path_exists _) _) _ _ =>
      eapply triple_bind;
      [ apply triple_path_exists_missing; by intros ? []
      | intros ?; apply triple_pure_pre; intros ->; cbn [negb] ]
  | |- triple _ (bind _ _) _ _ =>
      eapply triple_bind;
      [ apply (triple_preserves (quiet log));
        [repeat pres_step | intros ? ?; apply quiet_keeps, Hne]
      | intros ? ]
  | |- triple _ (ret _) _ _ => apply triple_ret; by intros
  end.

Section MissingIni.
Context (E : env) (ini cwd_path : Path) (L0 : list (list string * string)).
Let log := path_str (path_join cwd_path "run.log").
Hypothesis Hne : path_str ini <> log.
Let I : world -> Prop := fun w => missing ini w /\ launches w = L0.

Lemma handler_keeps exe prefix e :
  triple I (handle_runner_exception log exe prefix e) (fun b w => b = false /\ I w)
         (fun _ _ => False).
Proof.
  apply (triple_returns (quiet log)).
  - apply handler_returns.
  - apply preserves_handler. tc_solve.
  - intros ? ?. apply quiet_keeps, Hne.
Qed.

Lemma attempt_without_ini (X : M world bool) exe prefix what w :
  triple I X (fun b w => b = false /\ I w) (fun _ => I) ->
  I w ->
  exists w', try_finally (try_except X (handle_runner_exception log exe prefix))
                         (log_conclusion log what) w = (Ret false, w')
             /\ launches w' = L0.
Proof.
  intros HX Hw.
  assert (HT : triple I (try_except X (handle_runner_exception log exe prefix))
                 (fun b w => b = false /\ I w) (fun _ _ => False)).
  { eapply triple_try_except; [exact HX |]. intros e. apply handler_keeps. }
  specialize (HT w Hw). unfold try_finally.
  destruct (try_except X (handle_runner_exception log exe prefix) w) as [[b | e] w1];
    [| done].
  destruct HT as [-> Hw1].
  pose proof (conclusion_returns log what w1) as Hc.
  pose proof (preserves_log_conclusion (quiet log) log what w1) as Hq.
  destruct (log_conclusion log what w1) as [[[] | e] w2]; cbn in *; [| discriminate].
  exists w2. split; [done |]. by eapply (quiet_keeps log ini L0 w1 w2).
Qed.

Lemma interf_without_ini exe is_dry_run w :
  I w ->
  exists w', run_oskar_sim_interf E (VStr exe) ini cwd_path is_dry_run w = (Ret false, w')
             /\ launches w' = L0.
Proof.
  intros Hw. unfold run_oskar_sim_interf. fold log. unfold bind at 1.
  destruct (shlex_quote_value_str exe w) as [q ->]. cbv zeta.
  apply attempt_without_ini; [| done]. repeat quiet_step log Hne.
Qed.

Lemma beam_without_ini exe is_dry_run w :
  I w ->
  exists w', run_oskar_sim_beam E (VStr exe) ini cwd_path is_dry_run w = (Ret false, w')
             /\ launches w' = L0.
Proof.
  intros Hw. unfold run_oskar_sim_beam. fold log. unfold bind at 1.
  destruct (shlex_quote_value_str exe w) as [q ->]. cbv zeta.
  apply attempt_without_ini; [| done]. repeat quiet_step log Hne.
Qed.

End MissingIni.

Ltac exact_prim Hne :=
  let w := fresh "w" in
  let Hm1 := fresh "Hm1" in
  let Hm2 := fresh "Hm2" in
  intros w (? & ? & ? & Hm1 & Hm2);
  destruct w as [? ? ? ? ? cl ?]; unfold at_log, missing, file_content in *; cbn in *; subst;
  cbn; rewrite ?dict_lookup_store, ?String.eqb_refl;
  try match goal with
      | |- context [String.eqb ?a ?b] =>
          destruct (String.eqb_spec a b) as [? | _]; [congruence |]
      end;
  repeat split; try done.

Section Exact.
Context (E : env) (ini : Path) (log : string) (Hne : path_str ini <> log).

Lemma exact_open c ts :
  triple (at_log log ini c ts) (open_append log)
         (fun a w => a = log /\ at_log log ini c ts w) (fun _ _ => False).
Proof. exact_prim Hne. Qed.

Lemma exact_now c ts :
  triple (at_log log ini c ts) now
         (fun t w => t = time_shown ts /\ at_log log ini c (tl ts) w) (fun _ _ => False).
Proof. destruct ts; exact_prim Hne. Qed.

Lemma exact_write c ts s :
  triple (at_log log ini c ts) (write log s)
         (fun _ w => at_log log ini (c +:+ s) ts w) (fun _ _ => False).
Proof. exact_prim Hne. Qed.

Lemma exact_resolve c ts p :
  triple (at_log log ini c ts) (resolve E p)
         (fun _ w => at_log log ini c ts w) (fun _ _ => False).
Proof. exact_prim Hne. Qed.

Lemma exact_print c ts s :
  triple (at_log log ini c ts) (print s)
         (fun _ w => at_log log ini c ts w) (fun _ _ => False).
Proof. exact_prim Hne. Qed.

Lemma exact_path_exists c ts :
  triple (at_log log ini c ts) (path_exists ini)
         (fun b w => b = false /\ at_log log ini c ts w) (fun _ _ => False).
Proof.
  exact_prim Hne. rewrite Hm1.
  rewrite bool_decide_eq_false_2 by (by intros [? ?]).
  by rewrite bool_decide_eq_false_2.
Qed.

Lemma exact_log_conclusion c ts what :
  triple (at_log log ini c ts) (log_conclusion log what)
         (fun _ w => at_log log ini (c +:+ conclusion_entry what (time_shown ts)) (tl ts) w)
         (fun _ _ => False).
Proof.
  unfold log_conclusion. eapply triple_try_except with (Qe1 := fun _ _ => False); [| by intros e w []].
  eapply triple_bind; [apply exact_open | intros a; apply triple_pure_pre; intros ->].
  eapply triple_bind; [apply exact_now | intros a; apply triple_pure_pre; intros ->].
  apply exact_write.
Qed.

End Exact.

Lemma triple_bind_ret {A B} P (a : A) (f : A -> M world B) Q Qe :
  triple P (f a) Q Qe -> triple P (bind (ret a) f) Q Qe.
Proof. intros H w Hw. exact (H w Hw). Qed.

Lemma log_shape c0 s1 s2 s3 s4 msg :
  (((((c0 +:+ s1) +:+ s2) +:+ s3) +:+ s4) +:+ ("ERROR: " +:+ msg +:+ nl))
    +:+ ("--- Simulation Not Started ---" +:+ nl +:+ nl)
  = c0 +:+ (s1 +:+ s2 +:+ s3 +:+ s4) +:+ error_entry msg.
Proof. unfold error_entry. by rewrite !str_app_assoc. Qed.

Ltac exact_step Hne :=
  lazymatch goal with
  | |- triple _ (bind (open_append _) _) _ _ =>
      eapply triple_bind;
      [apply exact_open; exact Hne | intros ?; apply triple_pure_pre; intros ->]
  | |- triple _ (bind now _) _ _ =>
      eapply triple_bind;
      [apply exact_now; exact Hne | intros ?; apply triple_pure_pre; intros ->]
  | |- triple _ (bind (write _ _) _) _ _ =>
      eapply triple_bind; [apply exact_write; exact Hne | intros []]
  | |- triple _ (bind (resolve _ _) _) _ _ =>
      eapply triple_bind; [apply exact_resolve; exact Hne | intros ?]
  | |- triple _ (bind (print _) _) _ _ =>
      eapply triple_bind; [apply exact_print; exact Hne | intros []]
  | |- triple _ (bind (path_exists _) _) _ _ =>
      eapply triple_bind;
      [apply exact_path_exists; exact Hne
      | intros ?; apply triple_pure_pre; intros ->; cbn [negb]]
  | |- triple _ (bind (ret _) _) _ _ => apply triple_bind_ret
  | |- triple _ (bind (if ?b then _ else _) _) _ _ => destruct b
  end.

Section MissingIniLog.
Context (E : env) (ini cwd_path : Path).
Let log := path_str (path_join cwd_path "run.log").
Hypothesis Hne : path_str ini <> log.

Lemma attempt_log_without_ini (X : M world bool) exe prefix what msg c0 ts0 w :
  triple (at_log log ini c0 ts0) X
         (fun b w => b = false /\ exists h, at_log log ini (c0 +:+ h +:+ error_entry msg) (tl ts0) w)
         (fun _ _ => False) ->
  at_log log ini c0 ts0 w ->
  exists h w', try_finally (try_except X (handle_runner_exception log exe prefix))
                           (log_conclusion log what) w = (Ret false, w')
    /\ file_content log w'
       = c0 +:+ h +:+ error_entry msg +:+ conclusion_entry what (time_shown (tl ts0)).
Proof.
  intros HX Hw. unfold try_finally, try_except. specialize (HX w Hw).
  destruct (X w) as [[b | e] w1]; [| done]. destruct HX as (-> & h & Hw1).
  pose proof (exact_log_conclusion ini log Hne _ _ what w1 Hw1) as Hc.
  destruct (log_conclusion log what w1) as [[[] | e] w2]; [| done].
  exists h, w2. split; [done |]. destruct Hc as (_ & _ & -> & _).
  by rewrite !str_app_assoc.
Qed.

Lemma interf_log_without_ini exe is_dry_run c0 ts0 w :
  at_log log ini c0 ts0 w ->
  exists h w', run_oskar_sim_interf E (VStr exe) ini cwd_path is_dry_run w = (Ret false, w')
    /\ file_content log w'
       = c0 +:+ h
         +:+ error_entry ("    ERROR: Interferometer INI file not found at " +:+ path_str ini)
         +:+ conclusion_entry "attempt" (time_shown (tl ts0)).
Proof.
  intros Hw. unfold run_oskar_sim_interf. fold log. unfold bind at 1.
  destruct (shlex_quote_value_str exe w) as [q ->]. cbv zeta.
  apply attempt_log_without_ini; [| done].
  repeat exact_step Hne;
    (apply triple_ret; intros w' (Hf & Hcl & Hc & Hm); split; [done |];
     rewrite log_shape in Hc; eexists; exact (conj Hf (conj Hcl (conj Hc Hm)))).
Qed.

Lemma beam_log_without_ini exe is_dry_run c0 ts0 w :
  at_log log ini c0 ts0 w ->
  exists h w', run_oskar_sim_beam E (VStr exe) ini cwd_path is_dry_run w = (Ret false, w')
    /\ file_content log w'
       = c0 +:+ h
         +:+ error_entry ("    ERROR: Beam Pattern INI file not found at " +:+ path_str ini)
         +:+ conclusion_entry "OSKAR Beam attempt" (time_shown (tl ts0)).
Proof.
  intros Hw. unfold run_oskar_sim_beam. fold log. unfold bind at 1.
  destruct (shlex_quote_value_str exe w) as [q ->]. cbv zeta.
  apply attempt_log_without_ini; [| done].
  repeat exact_step Hne;
    (apply triple_ret; intros w' (Hf & Hcl & Hc & Hm); split; [done |];
     rewrite log_shape in Hc; eexists; exact (conj Hf (conj Hcl (conj Hc Hm)))).
Qed.

End MissingIniLog.

Lemma open_append_cases log w :
  (exists e w1, open_append log w = (Raise e, w1) /\ faults w <> [])
  \/ (exists w1, open_append log w = (Ret log, w1)
                 /\ is_Some (dict_lookup log (files w1))
                 /\ (forall p, p <> log -> dict_lookup p (files w1) = dict_lookup p (files w))
                 /\ mkdirs w1 = mkdirs w).
Proof.
  unfold open_append, bind, syscall.
  destruct (faults w) as [| [e |] rest]; [right | left; by eauto | right];
    (eexists; split; [reflexivity |]; cbn; split; [| split; [| done]];
     [ rewrite dict_lookup_store, String.eqb_refl; by eexists
     | intros p Hp; rewrite dict_lookup_store; by destruct (String.eqb_spec p log) ]).
Qed.

Lemma attempt_open_fails log (f : string -> M world bool) exe prefix what e w w1 :
  open_append log w = (Raise e, w1) ->
  exists w', try_finally (try_except (bind (open_append log) f)
                                     (handle_runner_exception log exe prefix))
                         (log_conclusion log what) w = (Ret false, w')
             /\ launches w' = launches w.
Proof.
  intros Hopen. unfold try_finally, try_except, bind. rewrite Hopen.
  pose proof (launched_open_append (fun _ => False) log w) as L0. rewrite Hopen in L0.
  pose proof (handler_returns log exe prefix e w1) as Hr.
  pose proof (preserves_handler (launched (fun _ => False)) log exe prefix e w1) as L1.
  destruct (handle_runner_exception log exe prefix e w1) as [[b | e'] w2]; [| discriminate].
  cbn in Hr, L0, L1. injection Hr as ->.
  pose proof (conclusion_returns log what w2) as Hc.
  pose proof (preserves_log_conclusion (launched (fun _ => False)) log what w2) as L2.
  destruct (log_conclusion log what w2) as [[[] | e'] w3]; [| discriminate].
  exists w3. split; [done |]. cbn in L2.
  apply launched_nothing in L0, L1, L2. congruence.
Qed.

(** C5: when the INI file is not on disk as a runner of OSKAR, having
    opened its log, looks for it, the runner returns [False] and starts no
    process, whatever the dry-run flag and whichever system calls fail; and
    when no system call fails, what it adds to the log is a header, the
    entry marked [ERROR:], and the closing entry. *)
Theorem missing_ini_fails E exe ini cwd_path is_dry_run w :
  let log := path_str (path_join cwd_path "run.log") in
  missing ini (snd (open_append log w)) ->
  (exists w',
      run_oskar_sim_interf E (VStr exe) ini cwd_path is_dry_run w = (Ret false, w')
      /\ launches w' = launches w
      /\ (faults w = [] ->
          exists header,
            file_content log w'
            = file_content log w +:+ header
              +:+ error_entry ("    ERROR: Interferometer INI file not found at " +:+ path_str ini)
              +:+ conclusion_entry "attempt" (time_shown (tl (clock w)))))
  /\ (exists w',
      run_oskar_sim_beam E (VStr exe) ini cwd_path is_dry_run w = (Ret false, w')
      /\ launches w' = launches w
      /\ (faults w = [] ->
          exists header,
            file_content log w'
            = file_content log w +:+ header
              +:+ error_entry ("    ERROR: Beam Pattern INI file not found at " +:+ path_str ini)
              +:+ conclusion_entry "OSKAR Beam attempt" (time_shown (tl (clock w))))).
Proof.
  intros log Hm.
  destruct (open_append_cases log w) as [(e & w1 & Hopen & Hf) | (w1 & Hopen & Hlog & Hfiles & Hdirs)].
  - split.
    + unfold run_oskar_sim_interf. fold log. unfold bind at 1.
      destruct (shlex_quote_value_str exe w) as [q ->]. cbv zeta.
      edestruct (attempt_open_fails log) as (w' & -> & HL); [exact Hopen |].
      exists w'. by repeat split.
    + unfold run_oskar_sim_beam. fold log. unfold bind at 1.
      destruct (shlex_quote_value_str exe w) as [q ->]. cbv zeta.
      edestruct (attempt_open_fails log) as (w' & -> & HL); [exact Hopen |].
      exists w'. by repeat split.
  - rewrite Hopen in Hm. cbn [snd] in Hm. destruct Hm as [Hm1 Hm2].
    assert (Hne : path_str ini <> log).
    { intros Heq. rewrite Heq in Hm1. rewrite Hm1 in Hlog. by destruct Hlog. }
    assert (Hm : missing ini w).
    { split; [by rewrite <- Hfiles | by rewrite <- Hdirs]. }
    split.
    + destruct (interf_without_ini E ini cwd_path (launches w) Hne exe is_dry_run w)
        as (w' & Hrun & HL); [done |].
      exists w'. repeat split; [done.. |]. intros Hf.
      destruct (interf_log_without_ini E ini cwd_path Hne exe is_dry_run
                  (file_content log w) (clock w) w) as (h & w'' & Hrun' & Hc); [done |].
      exists h. rewrite Hrun in Hrun'. by injection Hrun' as <-.
    + destruct (beam_without_ini E ini cwd_path (launches w) Hne exe is_dry_run w)
        as (w' & Hrun & HL); [done |].
      exists w'. repeat split; [done.. |]. intros Hf.
      destruct (beam_log_without_ini E ini cwd_path Hne exe is_dry_run
                  (file_content log w) (clock w) w) as (h & w'' & Hrun' & Hc); [done |].
      exists h. rewrite Hrun in Hrun'. by injection Hrun' as <-.
Qed.

(** ** The executables of the stages *)

Lemma preserves_bind_vget_dict {B} R items k d (f : value -> M world B) :
  preserves R (f (from_option id d (dict_lookup k items))) ->
  preserves R (bind (vget (VDict items) k d) f).
Proof. intros H w. exact (H w). Qed.

Ltac stage_step :=
  lazymatch goal with
  | |- preserves _ (bind (vget (VDict _) _ _) _) => apply preserves_bind_vget_dict
  | |- preserves _ (fold_each _ _ _) => apply preserves_fold_each; [tc_solve | intros ? ?]
  | |- preserves _ (run_oskar_sim_beam _ _ _ _ _) =>
      eapply preserves_run_oskar_sim_beam; [tc_solve | reflexivity]
  | |- preserves _ (run_oskar_sim_interf _ _ _ _ _) =>
      eapply preserves_run_oskar_sim_interf; [tc_solve | reflexivity]
  | |- preserves _ (run_calibrate _ _ _ _ _ _) =>
      eapply preserves_run_calibrate; [tc_solve | reflexivity]
  | |- _ => pres_step
  end.

Lemma launched_write_ini P ini_data_dict output_path :
  preserves (launched P) (write_ini_file_with_configparser ini_data_dict output_path).
Proof. unfold write_ini_file_with_configparser. repeat stage_step. Qed.

Lemma beam_stage_launches E rs out defaults ex tel pc tmpl dir root :
  preserves
    (launched (fun l => VStr (program_of l)
                        = from_option id (VStr "oskar_sim_beam_pattern")
                            (dict_lookup "oskar_sim_beam_patter" ex)))
    (beam_stage E rs out defaults (VDict ex) tel pc tmpl dir root).
Proof.
  unfold beam_stage.
  repeat first [apply launched_write_ini | stage_step].
Qed.

Lemma interf_stage_launches E rs out defaults ex tel sky pc base dir root :
  preserves
    (launched (fun l => VStr (program_of l)
                        = from_option id (VStr "oskar_sim_interferometer")
                            (dict_lookup "oskar_sim_interferometer" ex)))
    (interf_stage E rs out defaults (VDict ex) tel sky pc base dir root).
Proof.
  unfold interf_stage.
  repeat first [apply launched_write_ini | stage_step].
Qed.

Lemma calibration_stage_launches E rs out ex hyp dir :
  preserves
    (launched (fun l => VStr (program_of l)
                        = from_option id (VStr "hyperdrive") (dict_lookup "hyperdrive" ex)))
    (calibration_stage E rs out (VDict ex) hyp dir).
Proof. unfold calibration_stage. repeat stage_step. Qed.

Lemma starts_only_launched {A} (m : M world A) program v :
  v = VStr program ->
  preserves (launched (fun l => VStr (program_of l) = v)) m -> starts_only program m.
Proof.
  intros -> H w. destruct (H w) as [(extra & L & F) _]. exists extra. split; [done |].
  eapply Forall_impl; [exact F |]. cbn. by intros l [= ->].
Qed.

(** ** The sweep *)



Lemma run_directory_stateless {S} E rs pattern base tel_name sky_filename pc_id (s : S) :
  run_directory E rs pattern base tel_name sky_filename pc_id s
  = (fst (run_directory E rs pattern base tel_name sky_filename pc_id tt), s).
Proof.
  unfold run_directory, get_sky_model_name_no_ext, vget, str_format, bind, ret, raise.
  repeat case_match; simplify_eq; cbn; congruence.
Qed.

#[global] Instance launched_any_runner log x :
  runner_relation (launched (fun _ => True)) log x.
Proof. split; [tc_solve |]. intros. by apply launched_subprocess_run_command. Qed.

Lemma beam_stage_no_dirs E rs out defaults ex tel pc tmpl dir root :
  preserves (launched (fun _ => True)) (beam_stage E rs out defaults ex tel pc tmpl dir root).
Proof. unfold beam_stage. repeat first [apply launched_write_ini | stage_step]. Qed.

Lemma interf_stage_no_dirs E rs out defaults ex tel sky pc base dir root :
  preserves (launched (fun _ => True))
            (interf_stage E rs out defaults ex tel sky pc base dir root).
Proof. unfold interf_stage. repeat first [apply launched_write_ini | stage_step]. Qed.



Lemma bind_print {B} s (f : unit -> M world B) w :
  bind (print s) f w = f tt (set_console (console w ++ [s]) w).
Proof. reflexivity. Qed.

Lemma mkdir_Ret p w a w' :
  mkdir p w = (Ret a, w') -> mkdirs w' = mkdirs w ++ [path_str p].
Proof.
  unfold mkdir, bind, syscall. destruct (faults w) as [| [e |] rest]; intros [= <- <-]; done.
Qed.





Lemma bind_vget_dict {S B} items k d (f : value -> M S B) s :
  bind (vget (VDict items) k d) f s = f (lookup_or items k d) s.
Proof. reflexivity. Qed.

Lemma bind_require_str {S B} b (f : string -> M S B) s :
  bind (require_str (VStr b)) f s = f b s.
Proof. reflexivity. Qed.

Lemma axes_truthy tels skies pcs :
  forallb truthy_value [VList tels; VList skies; VList pcs]
  = negb (bool_decide (tels = [])) && negb (bool_decide (skies = []))
    && negb (bool_decide (pcs = [])).
Proof. cbn. by rewrite andb_true_r, andb_assoc. Qed.

Lemma sweep_unfold E items out iter base tels skies pcs w :
  lookup_or items "output_config" (VDict []) = VDict out ->
  lookup_or items "iteration_parameters" (VDict []) = VDict iter ->
  lookup_or out "base_output_directory" (VStr "simulation_outputs_generated") = VStr base ->
  lookup_or iter "telescope_configs" (VList []) = VList tels ->
  lookup_or iter "sky_model_configs" (VList []) = VList skies ->
  lookup_or iter "phase_centre_configs" (VList []) = VList pcs ->
  sweep E (VDict items) w
  = (if negb (forallb truthy_value [VList tels; VList skies; VList pcs])
     then print empty_axes_warning
     else sweep_loops E items out iter base tels skies pcs) w.
Proof.
  intros Hout Hiter Hbase Ht Hs Hp. unfold sweep, sweep_loops.
  repeat (rewrite bind_vget_dict; cbn beta). rewrite Hout.
  repeat (rewrite bind_vget_dict; cbn beta). rewrite Hbase, bind_require_str. cbn beta zeta.
  repeat (rewrite bind_vget_dict; cbn beta). rewrite Hiter.
  repeat (rewrite bind_vget_dict; cbn beta). rewrite Ht, Hs, Hp.
  reflexivity.
Qed.


(** *** A sweep without [hyperdrive_settings] *)

Lemma raises_with_first {A B} R (m : M world A) (f : A -> M world B) :
  raises_with R m -> raises_with R (bind m f).
Proof. intros H w. destruct (H w) as (e & w' & Hm & HR). unfold bind. rewrite Hm. eauto. Qed.

Lemma raises_with_after {A B} (R : world -> world -> Prop) `{!PreOrder R}
    (m : M world A) (f : A -> M world B) :
  preserves R m -> (forall a, raises_with R (f a)) -> raises_with R (bind m f).
Proof.
  intros Hm Hf w. unfold bind. specialize (Hm w). destruct (m w) as [[a | e] w1]; cbn in Hm.
  - destruct (Hf a w1) as (e & w' & -> & HR). exists e, w'. split; [done |]. by etransitivity.
  - eauto.
Qed.

Lemma raises_one_more_after {A B} (m : M world A) (f : A -> M world B) :
  preserves (launched (fun _ => True)) m -> (forall a, raises_with one_more_dir (f a)) ->
  raises_with one_more_dir (bind m f).
Proof.
  intros Hm Hf w. unfold bind. specialize (Hm w). destruct (m w) as [[a | e] w1]; cbn in Hm.
  - destruct (Hf a w1) as (e & w' & -> & HR). exists e, w'. split; [done |].
    destruct Hm as [_ Hd]. unfold one_more_dir in *. by rewrite <- Hd.
  - exists e, w1. split; [done |]. left. apply Hm.
Qed.

Lemma raises_one_more_mkdir {B} d (f : unit -> M world B) :
  (forall a, raises_with (launched (fun _ => True)) (f a)) ->
  raises_with one_more_dir (bind (mkdir d) f).
Proof.
  intros Hf w. unfold bind.
  destruct (mkdir d w) as [[[] | e] w1] eqn:Hmk.
  - apply mkdir_Ret in Hmk. destruct (Hf tt w1) as (e & w' & Hfw & [_ Hd]).
    exists e, w'. split; [exact Hfw |]. right. exists (path_str d). congruence.
  - exists e, w1. split; [done |]. left.
    unfold mkdir, bind, syscall in Hmk.
    destruct (faults w) as [| [e' |] rest]; by simplify_eq.
Qed.

Lemma raises_with_fold_each {A B} R (x : A) (xs : list A) (body : A -> B -> M world B) acc :
  (forall b, raises_with R (body x b)) -> raises_with R (fold_each (x :: xs) acc body).
Proof. intros H. cbn [fold_each]. apply raises_with_first, H. Qed.

Lemma preserves_run_directory R `{!PreOrder R} E rs pattern base tel_name sky_filename pc_id :
  preserves R (run_directory E rs pattern base tel_name sky_filename pc_id).
Proof. apply preserves_pure; [tc_solve |]. intros w. by rewrite run_directory_stateless. Qed.

Lemma run_calibrate_without_settings E exe out cwd is_dry_run :
  raises_with (fun w w' => w' = w) (run_calibrate E exe VNone out cwd is_dry_run).
Proof.
  intros w. unfold run_calibrate, calibrate_arguments, bind, vget.
  destruct out as [a | xs | items]; cbn; eauto.
Qed.

Lemma calibration_stage_without_settings E rs out ex dir :
  raises_with (launched (fun _ => True)) (calibration_stage E rs out ex VNone dir).
Proof.
  unfold calibration_stage.
  apply raises_with_after; [tc_solve | apply preserves_vget; tc_solve | intros exe].
  apply raises_with_after; [tc_solve | apply preserves_vget; tc_solve | intros dry].
  apply raises_with_first. intros w.
  destruct (run_calibrate_without_settings E exe out dir dry w) as (e & w' & -> & ->).
  exists e, w. split; [done | reflexivity].
Qed.

Lemma process_combination_aborts E rs out defaults ex pattern tmpl skybase base tel sky pc n :
  truthy_value (lookup_or rs "run_hyperdrive" VNone) = true ->
  raises_with one_more_dir
    (process_combination E (VDict rs) out defaults ex VNone pattern tmpl skybase base
       tel sky pc n).
Proof.
  intros Hrun. unfold process_combination. cbv zeta.
  do 3 (apply raises_one_more_after; [apply preserves_vget; tc_solve | intros ?]).
  do 2 (apply raises_one_more_after; [apply launched_print | intros ?]).
  apply raises_one_more_after; [apply preserves_run_directory; tc_solve | intros dir].
  apply raises_one_more_mkdir. intros _.
  apply raises_with_after; [tc_solve | apply launched_resolve | intros ?].
  apply raises_with_after; [tc_solve | apply launched_print | intros ?].
  apply raises_with_after; [tc_solve | apply launched_resolve | intros root].
  apply raises_with_after; [tc_solve | apply preserves_vget; tc_solve | intros ?].
  apply raises_with_after; [tc_solve | | intros ?].
  { pres_step; [apply beam_stage_no_dirs | apply preserves_ret; tc_solve]. }
  apply raises_with_after; [tc_solve | apply preserves_vget; tc_solve | intros ?].
  apply raises_with_after; [tc_solve | | intros ?].
  { pres_step; [apply interf_stage_no_dirs | apply preserves_ret; tc_solve]. }
  intros w. rewrite bind_vget_dict. fold (lookup_or rs "run_hyperdrive" VNone). revert w.
  change (raises_with (launched (fun _ => True))
            ((if truthy_value (lookup_or rs "run_hyperdrive" VNone)
              then calibration_stage E (VDict rs) out ex VNone dir
              else ret tt) ;; ret (S n))).
  rewrite Hrun. apply raises_with_first, calibration_stage_without_settings.
Qed.

Lemma sweep_aborts E items rs out iter base tels skies pcs :
  lookup_or items "output_config" (VDict []) = VDict out ->
  lookup_or items "iteration_parameters" (VDict []) = VDict iter ->
  lookup_or out "base_output_directory" (VStr "simulation_outputs_generated") = VStr base ->
  lookup_or iter "telescope_configs" (VList []) = VList tels ->
  lookup_or iter "sky_model_configs" (VList []) = VList skies ->
  lookup_or iter "phase_centre_configs" (VList []) = VList pcs ->
  lookup_or items "run_settings" (VDict []) = VDict rs ->
  truthy_value (lookup_or rs "run_hyperdrive" VNone) = true ->
  dict_lookup "hyperdrive_settings" items = None ->
  tels <> [] -> skies <> [] -> pcs <> [] ->
  raises_with one_more_dir (sweep E (VDict items)).
Proof.
  intros Hout Hiter Hbase Ht Hs Hp Hrs Hrun Hhyp Hnt Hns Hnp w.
  rewrite (sweep_unfold E items out iter base tels skies pcs w) by done.
  rewrite axes_truthy, !bool_decide_eq_false_2 by done. cbn [negb andb].
  revert w. unfold sweep_loops. apply raises_with_first.
  destruct tels as [| t tels]; [done |]. apply raises_with_fold_each. intros n1.
  destruct skies as [| s skies]; [done |]. apply raises_with_fold_each. intros n2.
  destruct pcs as [| p pcs]; [done |]. apply raises_with_fold_each. intros n3.
  rewrite Hrs. unfold lookup_or at 3. rewrite Hhyp. cbn [from_option].
  by apply process_combination_aborts.
Qed.

(** C4: [run_calibrate] reads its settings before its [try] statement, so
    with the [None] that [main] passes when the configuration has no
    [hyperdrive_settings] it raises [AttributeError] instead of returning a
    result, and writes nothing to the log; nothing in [main] catches the
    exception, so that every sweep with the calibration stage switched on,
    no [hyperdrive_settings] and something in each axis ends with an
    exception after making at most one directory; and [main] on the
    scenario ends with the [AttributeError] during the first of its two
    combinations: one directory is made, and the files are the
    configuration and the INI file and the log of that combination. *)
Theorem absent_hyperdrive_settings_abort_sweep :
  (forall E exe out cwd is_dry_run w,
      run_calibrate E exe VNone (VDict out) cwd is_dry_run w = (Raise no_get_on_none, w))
  /\ (forall E items rs out iter base tels skies pcs,
        lookup_or items "output_config" (VDict []) = VDict out ->
        lookup_or items "iteration_parameters" (VDict []) = VDict iter ->
        lookup_or out "base_output_directory" (VStr "simulation_outputs_generated")
        = VStr base ->
        lookup_or iter "telescope_configs" (VList []) = VList tels ->
        lookup_or iter "sky_model_configs" (VList []) = VList skies ->
        lookup_or iter "phase_centre_configs" (VList []) = VList pcs ->
        lookup_or items "run_settings" (VDict []) = VDict rs ->
        truthy_value (lookup_or rs "run_hyperdrive" VNone) = true ->
        dict_lookup "hyperdrive_settings" items = None ->
        tels <> [] -> skies <> [] -> pcs <> [] ->
        raises_with one_more_dir (sweep E (VDict items)))
  /\ fst (main scenario_env "config.yaml" scenario_world) = Raise no_get_on_none
  /\ mkdirs (snd (main scenario_env "config.yaml" scenario_world))
     = ["simulation_outputs_generated/images_model_a_MWA_errors_off_pc1"]
  /\ map fst (files (snd (main scenario_env "config.yaml" scenario_world)))
     = ["config.yaml";
        "simulation_outputs_generated/images_model_a_MWA_errors_off_pc1/interf.ini";
        "simulation_outputs_generated/images_model_a_MWA_errors_off_pc1/run.log"]
  /\ length (combinations [sample_tel]
               [VDict [("filename", VStr "model_a.osm")]; VDict [("filename", VStr "model_b.osm")]]
               [sample_pc]) = 2.
Proof.
  split; [| split; [| split; [| split; [| split]]]].
  - reflexivity.
  - intros. by eapply sweep_aborts.
  - vm_compute. reflexivity.
  - vm_compute. reflexivity.
  - vm_compute. reflexivity.
  - reflexivity.
Qed.

Lemma missing_ini_fails_witness :
  (exists w',
      run_oskar_sim_interf sample_env (VStr "oskar_sim_interferometer")
        (path_of_string "out/interf.ini") (path_of_string "out") (VBool false) empty_world
      = (Ret false, w')
      /\ launches w' = []
      /\ (faults empty_world = [] ->
          exists header,
            file_content "out/run.log" w'
            = "" +:+ header
              +:+ error_entry ("    ERROR: Interferometer INI file not found at "
                               +:+ "out/interf.ini")
              +:+ conclusion_entry "attempt" "1970-01-01 00:00:00"))
  /\ (exists w',
      run_oskar_sim_beam sample_env (VStr "oskar_sim_interferometer")
        (path_of_string "out/interf.ini") (path_of_string "out") (VBool false) empty_world
      = (Ret false, w')
      /\ launches w' = []
      /\ (faults empty_world = [] ->
          exists header,
            file_content "out/run.log" w'
            = "" +:+ header
              +:+ error_entry ("    ERROR: Beam Pattern INI file not found at "
                               +:+ "out/interf.ini")
              +:+ conclusion_entry "OSKAR Beam attempt" "1970-01-01 00:00:00")).
Proof.
  apply (missing_ini_fails sample_env "oskar_sim_interferometer"
           (path_of_string "out/interf.ini") (path_of_string "out") (VBool false) empty_world).
  split; [reflexivity | apply not_elem_of_nil].
Defined.

(** ** The fields a compiler sets from its arguments *)

Lemma Inv_lookup strict (h0 h : list obj) d k o :
  Inv strict (length h0) h0 h -> hlookup h0 d k = Some o -> hlookup h d k = Some o.
Proof.
  intros (_ & Hag & _) Hd. destruct d as [a | l]; [done |].
  pose proof (hlookup_lt _ _ _ _ Hd) as Hl. by rewrite (hlookup_agree h0 h l k) by (by apply Hag).
Qed.

Lemma populate_observation_exact (h : list obj) defaults pc root ra dec t :
  hlookup h pc "ra_deg" = Some (Some ra) ->
  hlookup h pc "dec_deg" = Some (Some dec) ->
  hlookup h pc "start_time_utc" = Some (Some t) ->
  wp (populate_observation defaults pc root)
     (fun _ h' =>
        path_get h' root ["observation"; "phase_centre_ra_deg"] = Some ra
        /\ path_get h' root ["observation"; "phase_centre_dec_deg"] = Some dec
        /\ path_get h' root ["observation"; "start_time_utc"] = Some t) h.
Proof.
  intros Hra Hdec Ht. unfold populate_observation.
  establish setdefault_empty_exact obs h1 F0.
  pass_over (observation_keys ++ ["ra_deg"; "dec_deg"]) od h2.
  wstep; [apply wp_dict_getitem |]. intros ra' ? (-> & Hra').
  rewrite Hra in Hra'. injection Hra' as <-.
  establish setitem_exact u1 h3 F1.
  wstep; [apply wp_dict_getitem |]. intros dec' ? (-> & Hdec').
  rewrite Hdec in Hdec'. injection Hdec' as <-.
  establish setitem_exact u2 h4 F2.
  wstep; [apply wp_dict_getitem |]. intros t' ? (-> & Ht').
  rewrite Ht in Ht'. injection Ht' as <-.
  establish setitem_exact u3 h5 F3.
  apply (wp_Same observation_keys); [solve_Same |].
  intros [] h6 Hsame. move_on Hsame.
  rewrite !(path_get_cons _ _ _ _ _ F0). cbn [path_get].
  by rewrite F1, F2, F3.
Qed.

Ltac frame_step lemma h' HI :=
  apply wp_bind; eapply wp_mono;
  [ apply lemma; first [ done | solve_live | apply from_args_lax ] | cbn beta ];
  let L := fresh "L" in intros [] h' (HI & L).

Ltac keep_step K h' S :=
  apply wp_bind; apply (wp_Same K); [solve_Same |]; intros [] h' S.

Lemma compile_observation E c (h0 : list obj) ra dec t :
  hlookup h0 (phase_centre_of c) "ra_deg" = Some (Some ra) ->
  hlookup h0 (phase_centre_of c) "dec_deg" = Some (Some dec) ->
  hlookup h0 (phase_centre_of c) "start_time_utc" = Some (Some t) ->
  wp (compile E c)
     (fun root h' =>
        path_get h' root ["observation"; "phase_centre_ra_deg"] = Some ra
        /\ path_get h' root ["observation"; "phase_centre_dec_deg"] = Some dec
        /\ path_get h' root ["observation"; "start_time_utc"] = Some t) h0.
Proof.
  intros Hra Hdec Ht.
  pose proof (Inv_init False h0) as HI0.
  pose proof (no_scalar_leaves_needed h0) as HSL.
  assert (forall (h h' : list obj) root x p,
             same_on observation_keys h h' -> (forall k, In k p -> In k observation_keys) ->
             path_get h root p = Some x -> path_get h' root p = Some x) as Hkeep.
  { intros h h' root x p S Hp Hx. by eapply path_get_same. }
  destruct c as [d tl p r o run_dir pr | d tl s p r o b run_dir pr];
    cbn [compile phase_centre_of] in *.
  - unfold generate_beam_ini_data.
    wstep; [by apply (wp_new_dict_inv False (length h0) h0) |]. intros root h1 (HI1 & Hr & L1).
    frame_step (copy_common_sections_inv False (length h0) h0) h2 HI2.
    frame_step (merge_module_sections_inv False (length h0) h0 []) h3 HI3.
    frame_step (populate_general_inv False (length h0) h0 [] HSL) h4 HI4.
    frame_step (populate_simulator_inv False (length h0) h0 [] HSL) h5 HI5.
    wstep; [apply (populate_observation_exact h5 d p root ra dec t); by eapply Inv_lookup |].
    intros [] h6 (A & B & C).
    keep_step observation_keys h7 S7.
    keep_step observation_keys h8 S8.
    apply wp_ret.
    repeat split; (eapply Hkeep; [exact S8 | |]; [| eapply Hkeep; [exact S7 | | eassumption]]);
      intros k Hk; cbn in Hk |- *; tauto.
  - unfold generate_interf_ini_data.
    wstep; [by apply (wp_new_dict_inv False (length h0) h0) |]. intros root h1 (HI1 & Hr & L1).
    frame_step (copy_common_sections_inv False (length h0) h0) h2 HI2.
    frame_step (merge_module_sections_inv False (length h0) h0 []) h3 HI3.
    frame_step (populate_general_inv False (length h0) h0 [] HSL) h4 HI4.
    frame_step (populate_simulator_inv False (length h0) h0 [] HSL) h5 HI5.
    wstep; [apply (populate_observation_exact h5 d p root ra dec t); by eapply Inv_lookup |].
    intros [] h6 (A & B & C).
    keep_step observation_keys h7 S7.
    keep_step observation_keys h8 S8.
    keep_step observation_keys h9 S9.
    apply wp_ret.
    repeat split;
      (eapply Hkeep; [exact S9 | |];
       [| eapply Hkeep; [exact S8 | |]; [| eapply Hkeep; [exact S7 | | eassumption]]]);
      intros k Hk; cbn in Hk |- *; tauto.
Qed.

Lemma populate_general_exact (h : list obj) defaults root app :
  wp (populate_general defaults root app)
     (fun _ h' => path_get h' root ["General"; "app"] = Some (HStr app)) h.
Proof.
  unfold populate_general.
  establish setdefault_empty_exact g h1 F0.
  establish setitem_exact u h2 F1.
  apply (wp_Same general_keys); [solve_Same |].
  intros [] h3 Hsame. move_on Hsame.
  by rewrite (path_get_cons _ _ _ _ _ F0), (path_get_cons _ _ _ _ _ F1).
Qed.

Lemma populate_beam_pattern_exact (h : list obj) defaults out root o_rp :
  hlookup h out "beam_root_path_base" = Some o_rp ->
  wp (populate_beam_pattern defaults out root)
     (fun _ h' => path_get h' root ["beam_pattern"; "root_path"]
                  = Some (from_option id (HStr "beam_output_default") o_rp)) h.
Proof.
  intros Hout. unfold populate_beam_pattern.
  establish setdefault_empty_exact bp h1 F0.
  pass_over (root_path_keys ++ ["beam_root_path_base"]) bm h2.
  pass_over (root_path_keys ++ ["beam_root_path_base"]) bpd h3.
  pass_over (root_path_keys ++ ["beam_root_path_base"]) bi h4.
  pass_over (root_path_keys ++ ["beam_root_path_base"]) bid h5.
  pass_over (root_path_keys ++ ["beam_root_path_base"]) u0 h6.
  wstep; [apply dict_get_exact |]. intros rp ? (-> & o & Ho & ->).
  rewrite Hout in Ho. injection Ho as <-.
  establish setitem_exact u h7 F1.
  apply (wp_Same root_path_keys); [solve_Same |].
  intros [] h8 Hsame. move_on Hsame.
  by rewrite (path_get_cons _ _ _ _ _ F0), (path_get_cons _ _ _ _ _ F1).
Qed.

Lemma compile_application E c (h0 : list obj) :
  wp (compile E c)
     (fun root h' => path_get h' root ["General"; "app"] = Some (HStr (application_of c))) h0.
Proof.
  pose proof (Inv_init False h0) as HI0.
  assert (forall (h h' : list obj) root x,
             same_on general_keys h h' ->
             path_get h root general_keys = Some x -> path_get h' root general_keys = Some x)
    as Hkeep.
  { intros h h' root x S Hx. by eapply path_get_same. }
  destruct c as [d tl p r o run_dir pr | d tl s p r o b run_dir pr];
    cbn [compile application_of] in *.
  - unfold generate_beam_ini_data.
    wstep; [by apply (wp_new_dict_inv False (length h0) h0) |]. intros root h1 (HI1 & Hr & L1).
    frame_step (copy_common_sections_inv False (length h0) h0) h2 HI2.
    frame_step (merge_module_sections_inv False (length h0) h0 []) h3 HI3.
    wstep; [apply populate_general_exact |]. intros [] h4 A.
    keep_step general_keys h5 S5.
    keep_step general_keys h6 S6.
    keep_step general_keys h7 S7.
    keep_step general_keys h8 S8.
    apply wp_ret. eauto.
  - unfold generate_interf_ini_data.
    wstep; [by apply (wp_new_dict_inv False (length h0) h0) |]. intros root h1 (HI1 & Hr & L1).
    frame_step (copy_common_sections_inv False (length h0) h0) h2 HI2.
    frame_step (merge_module_sections_inv False (length h0) h0 []) h3 HI3.
    wstep; [apply populate_general_exact |]. intros [] h4 A.
    keep_step general_keys h5 S5.
    keep_step general_keys h6 S6.
    keep_step general_keys h7 S7.
    keep_step general_keys h8 S8.
    keep_step general_keys h9 S9.
    apply wp_ret. eauto 10.
Qed.

Lemma compile_beam_root_path E d tl p r o run_dir pr (h0 : list obj) o_rp :
  hlookup h0 o "beam_root_path_base" = Some o_rp ->
  wp (generate_beam_ini_data E d tl p r o run_dir pr)
     (fun root h' => path_get h' root ["beam_pattern"; "root_path"]
                     = Some (from_option id (HStr "beam_output_default") o_rp)) h0.
Proof.
  intros Hout.
  pose proof (Inv_init False h0) as HI0.
  pose proof (no_scalar_leaves_needed h0) as HSL.
  unfold generate_beam_ini_data.
  wstep; [by apply (wp_new_dict_inv False (length h0) h0) |]. intros root h1 (HI1 & Hr & L1).
  frame_step (copy_common_sections_inv False (length h0) h0) h2 HI2.
  frame_step (merge_module_sections_inv False (length h0) h0 []) h3 HI3.
  frame_step (populate_general_inv False (length h0) h0 [] HSL) h4 HI4.
  frame_step (populate_simulator_inv False (length h0) h0 [] HSL) h5 HI5.
  frame_step (populate_observation_inv False (length h0) h0 [] HSL) h6 HI6.
  frame_step (populate_telescope_inv False (length h0) h0 [] HSL) h7 HI7.
  wstep; [apply (populate_beam_pattern_exact h7 d o root o_rp); by eapply Inv_lookup |].
  intros [] h8 A. by apply wp_ret.
Qed.

(** X3: in the tree a compiler returns, [observation/phase_centre_ra_deg],
    [observation/phase_centre_dec_deg] and [observation/start_time_utc] are
    the [ra_deg], [dec_deg] and [start_time_utc] of the phase-centre
    record, whatever [default_oskar_settings] has under [observation]
    ([main.py], lines 519-525 and 682-686). *)
Theorem observation_from_phase_centre E c (h0 h' : list obj) root ra dec t :
  hlookup h0 (phase_centre_of c) "ra_deg" = Some (Some ra) ->
  hlookup h0 (phase_centre_of c) "dec_deg" = Some (Some dec) ->
  hlookup h0 (phase_centre_of c) "start_time_utc" = Some (Some t) ->
  compile E c h0 = (Ret root, h') ->
  path_get h' root ["observation"; "phase_centre_ra_deg"] = Some ra
  /\ path_get h' root ["observation"; "phase_centre_dec_deg"] = Some dec
  /\ path_get h' root ["observation"; "start_time_utc"] = Some t.
Proof.
  intros Hra Hdec Ht Hrun.
  pose proof (compile_observation E c h0 ra dec t Hra Hdec Ht) as Hwp.
  by apply (wp_elim _ _ _ _ _ Hwp) in Hrun.
Qed.

(** X4: in the tree a compiler returns, [General/app] is the name of the
    application of that compiler, [oskar_sim_beam_pattern] or
    [oskar_sim_interferometer], whatever [default_oskar_settings] has under
    [General] ([main.py], lines 506 and 670). *)
Theorem application_named E c (h0 h' : list obj) root :
  compile E c h0 = (Ret root, h') ->
  path_get h' root ["General"; "app"] = Some (HStr (application_of c)).
Proof.
  intros Hrun. pose proof (compile_application E c h0) as Hwp.
  by apply (wp_elim _ _ _ _ _ Hwp) in Hrun.
Qed.

(** X5: in the tree the beam compiler returns, [beam_pattern/root_path] is
    the [beam_root_path_base] of the output configuration it is called
    with, and [beam_output_default] when the output configuration does
    not have it ([main.py], lines 602-604). *)
Theorem beam_root_path_from_output_config E d tl p r o run_dir pr (h0 h' : list obj) root o_rp :
  hlookup h0 o "beam_root_path_base" = Some o_rp ->
  generate_beam_ini_data E d tl p r o run_dir pr h0 = (Ret root, h') ->
  path_get h' root ["beam_pattern"; "root_path"]
  = Some (from_option id (HStr "beam_output_default") o_rp).
Proof.
  intros Hout Hrun.
  pose proof (compile_beam_root_path E d tl p r o run_dir pr h0 o_rp Hout) as Hwp.
  by apply (wp_elim _ _ _ _ _ Hwp) in Hrun.
Qed.

(** ** A field without a default *)

Lemma raises_first {S A B} (m : M S A) (f : A -> M S B) e s :
  raises m e s -> raises (bind m f) e s.
Proof. intros [s' H]. exists s'. unfold bind. by rewrite H. Qed.

Lemma raises_after {S A B} (m : M S A) (f : A -> M S B) e s :
  twp m (fun a s' => raises (f a) e s') s -> raises (bind m f) e s.
Proof. unfold twp, raises, bind. by destruct (m s) as [[a | e'] s']. Qed.

Lemma getitem_missing (h : list obj) d k :
  hlookup h d k = Some None -> raises (dict_getitem d k) (Exn KeyError (repr_str k)) h.
Proof.
  unfold hlookup, raises, dict_getitem. destruct (as_dict h d) as [[l items] |]; [| discriminate].
  cbn. intros [= ->]. eauto.
Qed.

Section Missing.
Variable h0 : list obj.

Local Abbreviation building' := (building h0).
Local Abbreviation made h v := (fresh_dict (length h0) h v).

Ltac missing_prim :=
  first
    [ apply (twp_get_or_empty h0); [eassumption | solve_side | in_list]
    | apply (twp_setdefault_section h0); [eassumption | solve_side | in_list]
    | apply (twp_setitem_leaf h0); [eassumption | solve_side | solve_side | not_in_list]
    | apply (twp_getitem_arg h0); [eassumption | eassumption] ].

Ltac missing_step := apply raises_after; eapply twp_mono; [missing_prim | cbn beta; after_step].

Lemma populate_observation_missing (h : list obj) defaults pc root found k rest :
  building' h -> is_dict h defaults -> made h root ->
  ["ra_deg"; "dec_deg"; "start_time_utc"] = found ++ k :: rest ->
  Forall (has_key h pc) found ->
  hlookup h0 pc k = Some None ->
  raises (populate_observation defaults pc root) (Exn KeyError (repr_str k)) h.
Proof.
  intros HB Hd Hr Hsplit Hpresent Hk. unfold populate_observation.
  destruct found as [| k1 [| k2 [| k3 found]]]; cbn [app] in Hsplit; simplify_eq; repeat
    match goal with H : Forall _ (_ :: _) |- _ => apply Forall_cons in H as [? H] end.
  - do 2 missing_step. apply raises_first, getitem_missing. by eapply old_lookup.
  - do 4 missing_step. apply raises_first, getitem_missing. by eapply old_lookup.
  - do 6 missing_step. apply raises_first, getitem_missing. by eapply old_lookup.
  - destruct found; discriminate.
Qed.

Lemma populate_telescope_missing E (h : list obj) defaults tel pc rs root run_dir project_root :
  building' h -> is_dict h defaults -> made h root ->
  hlookup h0 tel "oskar_input_directory" = Some None ->
  raises (populate_telescope E defaults tel pc rs root run_dir project_root)
         (Exn KeyError (repr_str "oskar_input_directory")) h.
Proof.
  intros HB Hd Hr Hk. unfold populate_telescope.
  do 2 missing_step. apply raises_first, getitem_missing. by eapply old_lookup.
Qed.

End Missing.

Ltac block_returns lemma :=
  apply raises_after; eapply twp_mono;
  [ eapply lemma; first [eassumption | solve_side | in_list] | cbn beta; after_step ].

Ltac observation_side :=
  first [ eassumption | solve_side | reflexivity | repeat constructor; eassumption ].

Ltac common_blocks :=
  block_returns twp_new_dict;
  block_returns copy_common_sections_returns;
  block_returns merge_module_sections_returns;
  block_returns populate_general_returns;
  block_returns populate_simulator_returns.

(** X2: a compiler that does not find a field it reads with [d[k]]
    ([ra_deg], [dec_deg] and [start_time_utc] of the phase-centre record,
    [oskar_input_directory] of the telescope record, in this order) raises
    [KeyError] with the name of the first one that is missing: the
    compilers give these four fields no default
    ([main.py], lines 523-525 and 541, 684-686 and 698). *)
Theorem missing_field_raises_key_error E c (h0 : list obj) found d k rest :
  sectioned h0 -> is_dict h0 (defaults_of c) ->
  required_fields c = found ++ (d, k) :: rest ->
  Forall (fun dk => has_key h0 (fst dk) (snd dk)) found ->
  hlookup h0 d k = Some None ->
  raises (compile E c) (Exn KeyError (repr_str k)) h0.
Proof.
  intros Hs Hd Hsplit Hpresent Hk. pose proof (building_init h0 Hs) as HB.
  unfold required_fields in Hsplit.
  destruct found as [| [d1 k1] [| [d2 k2] [| [d3 k3] [| [d4 k4] found]]]];
    cbn [app] in Hsplit; [.. | destruct found; discriminate];
    destruct c as [df tl p r o run_dir pr | df tl s p r o b run_dir pr];
    cbn [compile defaults_of phase_centre_of telescope_of] in *;
    simplify_eq; cbn [fst snd] in *;
    repeat match goal with H : Forall _ (_ :: _) |- _ => apply Forall_cons in H as [? H] end;
    cbn [fst snd] in *;
    unfold generate_beam_ini_data, generate_interf_ini_data; common_blocks.
  1, 2: apply raises_first;
    eapply (populate_observation_missing h0 _ _ _ _ []); try observation_side.
  1, 2: apply raises_first;
    eapply (populate_observation_missing h0 _ _ _ _ ["ra_deg"]); try observation_side.
  1, 2: apply raises_first;
    eapply (populate_observation_missing h0 _ _ _ _ ["ra_deg"; "dec_deg"]);
    try observation_side.
  1, 2: block_returns populate_observation_returns;
    apply raises_first; eapply populate_telescope_missing; try observation_side.
Qed.

(** ** The flattener under a prefix, sky-model names, and [main] without a configuration *)

Lemma str_app_cons c (s t : string) : String c s +:+ t = String c (s +:+ t).
Proof. reflexivity. Qed.

Lemma eqb_app_l (p a b : string) : String.eqb (p +:+ a) (p +:+ b) = String.eqb a b.
Proof.
  induction p as [| c p IH]; [reflexivity |].
  rewrite !str_app_cons. cbn [String.eqb]. by rewrite Ascii.eqb_refl.
Qed.

Lemma dict_store_prefixed p k v (acc : list (string * string)) :
  dict_store (p +:+ k) v (map (prefixed p) acc) = map (prefixed p) (dict_store k v acc).
Proof.
  induction acc as [| [k0 v0] acc IH]; [reflexivity |].
  cbn [map dict_store prefixed fst snd]. rewrite eqb_app_l.
  destruct (String.eqb k k0); cbn [map prefixed fst snd]; [done | by rewrite IH].
Qed.

Lemma dict_update_prefixed p (other acc : list (string * string)) :
  dict_update (map (prefixed p) acc) (map (prefixed p) other)
  = map (prefixed p) (dict_update acc other).
Proof.
  unfold dict_update. revert acc. induction other as [| [k v] other IH]; intros acc; [reflexivity |].
  cbn [map fold_left prefixed fst snd]. rewrite dict_store_prefixed. apply IH.
Qed.

Lemma fold_flatten_prefixed p q (sub : list (string * value)) :
  Forall (fun kv => forall acc p q key,
            flatten_item (map (prefixed p) acc) (p +:+ q) key (snd kv)
            = map (prefixed p) (flatten_item acc q key (snd kv))) sub ->
  forall acc,
    fold_left (fun a kv => flatten_item a (p +:+ q) (fst kv) (snd kv)) sub (map (prefixed p) acc)
    = map (prefixed p) (fold_left (fun a kv => flatten_item a q (fst kv) (snd kv)) sub acc).
Proof.
  induction 1 as [| [k v] sub Hhd _ IH]; intros acc; [reflexivity |].
  cbn [fold_left fst snd] in *. rewrite Hhd. apply IH.
Qed.

Lemma flatten_item_prefixed (v : value) :
  forall acc p q key,
    flatten_item (map (prefixed p) acc) (p +:+ q) key v
    = map (prefixed p) (flatten_item acc q key v).
Proof.
  induction v as [a | xs _ | sub IH] using value_ind'; intros acc p q key.
  - destruct a as [| b | n | r | s]; cbn [flatten_item]; [done | ..];
      by rewrite str_app_assoc, dict_store_prefixed.
  - cbn [flatten_item]. by rewrite str_app_assoc, dict_store_prefixed.
  - cbn [flatten_item]. rewrite str_app_assoc.
    pose proof (fold_flatten_prefixed p (q +:+ key +:+ "/") sub IH []) as Hsub.
    cbn [map] in Hsub. rewrite Hsub. apply dict_update_prefixed.
Qed.

(** X6: flattening under a prefix is flattening without one and putting
    the prefix before every key: the recursive call of the flattener on a
    nested mapping gives what a call from outside gives, under the longer
    key ([main.py], lines 404-425). *)
Theorem flatten_prefix_law (settings_dict : list (string * value)) (prefix : string) :
  _flatten_settings_for_configparser settings_dict prefix
  = map (prefixed prefix) (_flatten_settings_for_configparser settings_dict "").
Proof.
  unfold _flatten_settings_for_configparser.
  assert (Forall (fun kv : string * value => forall acc p q key,
            flatten_item (map (prefixed p) acc) (p +:+ q) key (snd kv)
            = map (prefixed p) (flatten_item acc q key (snd kv))) settings_dict) as Hall
    by (apply Forall_forall; intros kv _; apply flatten_item_prefixed).
  pose proof (fold_flatten_prefixed prefix "" settings_dict Hall []) as H.
  cbn [map] in H. by rewrite str_app_nil_r in H.
Qed.

(** *** [get_sky_model_name_no_ext] *)

Lemma before_last_dot_none s : str_mem "." s = false -> before_last_dot s = None.
Proof.
  induction s as [| c s IH]; [done |]. cbn [str_mem before_last_dot].
  rewrite Ascii.eqb_sym. destruct (Ascii.eqb c "."); [done |]. intros H. by rewrite IH.
Qed.

Lemma before_last_dot_app stem ext :
  str_mem "." ext = false -> before_last_dot (stem +:+ "." +:+ ext) = Some stem.
Proof.
  intros Hext. induction stem as [| c stem IH].
  - change ("" +:+ "." +:+ ext) with (String "." ext). cbn [before_last_dot].
    by rewrite before_last_dot_none.
  - rewrite str_app_cons. cbn [before_last_dot]. by rewrite IH.
Qed.

(** X7: [get_sky_model_name_no_ext] drops what follows the last dot of a
    file name, and the dot; a name without a dot is returned as it is
    ([main.py], lines 781-787). *)
Theorem sky_model_name_drops_last_extension {S} (stem ext : string) (s : S) :
  str_mem "." ext = false ->
  get_sky_model_name_no_ext (VStr (stem +:+ "." +:+ ext)) s = (Ret (VStr stem), s)
  /\ get_sky_model_name_no_ext (VStr ext) s = (Ret (VStr ext), s).
Proof.
  intros Hext. unfold get_sky_model_name_no_ext, VStr.
  by rewrite before_last_dot_app, before_last_dot_none.
Qed.

(** *** [main] without a configuration *)

(** X8: when the configuration file is not there (and opening it does
    not fail otherwise), [main] prints one line that names the path and
    returns: nothing else is printed, no directory is made, no file is
    written, no process is started ([main.py], lines 795-800). *)
Theorem main_without_configuration_file E config_file_path w :
  hd None (faults w) = None ->
  dict_lookup config_file_path (files w) = None ->
  main E config_file_path w
  = (Ret tt, set_console (console w ++ ["ERROR: Configuration file not found at "
                                        +:+ config_file_path])
               (set_faults (tl (faults w)) w)).
Proof.
  intros Hf Hmiss. destruct w as [f m c l fa cl pr]. cbn in Hf, Hmiss.
  unfold main, try_except, bind, read_file, syscall. cbn.
  destruct fa as [| [e |] rest]; cbn in *; try discriminate; by rewrite Hmiss.
Qed.

(** X9: when the configuration file is not a YAML document, [main]
    prints one line with the message of the parser and returns, and does
    nothing else ([main.py], lines 795-803). *)
Theorem main_with_unreadable_document E config_file_path text w :
  hd None (faults w) = None ->
  dict_lookup config_file_path (files w) = Some text ->
  yaml_safe_load E text = None ->
  exists message,
    main E config_file_path w
    = (Ret tt, set_console (console w ++ ["ERROR: Could not parse YAML configuration file: "
                                          +:+ message])
                 (set_faults (tl (faults w)) w)).
Proof.
  intros Hf Htext Hyaml. destruct w as [f m c l fa cl pr]. cbn in Hf, Htext.
  eexists. unfold main, try_except, bind, read_file, syscall. cbn.
  destruct fa as [| [e |] rest]; cbn in *; try discriminate; by rewrite Htext, Hyaml.
Qed.

(** ** The sections of the INI file *)

Lemma write_ini_unfold items output_path w :
  write_ini_file_with_configparser (VDict items) output_path w
  = (config <- collect_sections items [] ;;
     write_file (path_str output_path) (render_config config)) w.
Proof. reflexivity. Qed.

Lemma collect_non_mapping k v rest config w :
  is_mapping v = false ->
  collect_sections ((k, v) :: rest) config w
  = collect_sections rest config (set_console (console w ++ [skip_warning k]) w).
Proof. by destruct v. Qed.

Lemma collect_mapping k d rest config w :
  collect_sections ((k, VDict d) :: rest) config w
  = if forallb (fun e => valid_interpolation (snd e)) (_flatten_settings_for_configparser d "")
    then collect_sections rest (dict_store k (_flatten_settings_for_configparser d "") config) w
    else (Raise (Exn ValueError "invalid interpolation syntax"), w).
Proof.
  unfold collect_sections. cbn [fold_each fst snd]. cbv zeta. unfold bind at 1.
  by destruct (forallb _ _).
Qed.

Lemma collect_sections_skips items :
  interpolation_free items = true ->
  forall config w,
    collect_sections items config w
    = collect_sections (List.filter (fun kv => is_mapping (snd kv)) items) config
        (set_console (console w ++ map (fun kv => skip_warning (fst kv))
                                       (List.filter (fun kv => negb (is_mapping (snd kv))) items)) w).
Proof.
  induction items as [| [k v] items IH]; intros Hok config w.
  - cbn [List.filter map]. rewrite app_nil_r. by destruct w.
  - cbn [interpolation_free forallb snd] in Hok. apply andb_true_iff in Hok as [Hv' Hok'].
    cbn [List.filter snd fst]. destruct (is_mapping v) eqn:Hv; cbn [negb map fst].
    + destruct v as [a | xs | d]; try discriminate. unfold section_accepted in Hv'.
      rewrite !collect_mapping, Hv'. apply (IH Hok').
    + rewrite collect_non_mapping by done. rewrite (IH Hok'). cbn [console set_console].
      by rewrite <- app_assoc.
Qed.

(** X10: the top-level entries of the tree that are not mappings do not
    reach the INI file: when [configparser] accepts the values of the
    sections, writing the tree is printing one warning for each such entry,
    in their order, and writing the tree without them
    ([main.py], lines 437-453). *)
Theorem write_ini_skips_non_mappings items output_path w :
  interpolation_free items = true ->
  write_ini_file_with_configparser (VDict items) output_path w
  = write_ini_file_with_configparser
      (VDict (List.filter (fun kv => is_mapping (snd kv)) items)) output_path
      (set_console (console w ++ map (fun kv => skip_warning (fst kv))
                                     (List.filter (fun kv => negb (is_mapping (snd kv))) items)) w).
Proof.
  intros Hok. rewrite !write_ini_unfold. unfold bind at 1 2.
  by rewrite (collect_sections_skips items Hok).
Qed.

Lemma collect_sections_rejects items :
  interpolation_free items = false ->
  forall config w, exists message w',
    collect_sections items config w = (Raise (Exn ValueError message), w')
    /\ files w' = files w /\ launches w' = launches w /\ mkdirs w' = mkdirs w.
Proof.
  induction items as [| [k0 v0] items IH]; intros Hbad config w; [discriminate |].
  cbn [interpolation_free forallb snd] in Hbad.
  destruct (is_mapping v0) eqn:Hv.
  - destruct v0 as [a | xs | d0]; try discriminate. rewrite collect_mapping.
    unfold section_accepted in Hbad.
    destruct (forallb _ (_flatten_settings_for_configparser d0 "")) eqn:Hd0.
    + apply (IH Hbad).
    + by eexists _, w.
  - rewrite collect_non_mapping by done.
    assert (interpolation_free items = false) as Hbad' by (by destruct v0).
    destruct (IH Hbad' config (set_console (console w ++ [skip_warning k0]) w))
      as (msg & w' & -> & ? & ? & ?). by exists msg, w'.
Qed.

(** X11: when a section holds a value that [configparser] refuses (a [%]
    that is neither doubled nor the start of [%(name)s]),
    [write_ini_file_with_configparser] raises [ValueError] on assigning the
    section, and has written no file by then ([main.py], line 450). *)
Theorem write_ini_rejects_percent items output_path w :
  interpolation_free items = false ->
  exists message w',
    write_ini_file_with_configparser (VDict items) output_path w
    = (Raise (Exn ValueError message), w')
    /\ files w' = files w /\ launches w' = launches w /\ mkdirs w' = mkdirs w.
Proof.
  intros Hbad. rewrite write_ini_unfold. unfold bind at 1.
  destruct (collect_sections_rejects items Hbad [] w) as (msg & w' & -> & H).
  by exists msg, w'.
Qed.

(** ** The names of the run directories *)

Lemma default_pattern_filled E (a b c d : value) :
  format_go E [("sky_name_no_ext", a); ("tel_name", b); ("error_suffix", c); ("pc_id", d)] None
    "images_{sky_name_no_ext}_{tel_name}{error_suffix}_{pc_id}"
  = inr ("images_" +:+ py_str a +:+ "_" +:+ py_str b +:+ py_str c +:+ "_" +:+ py_str d).
Proof.
  transitivity (@inr exn string ("images_" +:+ py_str a +:+ "_" +:+ py_str b +:+ py_str c
                                 +:+ "_" +:+ py_str d +:+ "")); [reflexivity |].
  by rewrite str_app_nil_r.
Qed.

(** X18: with the pattern [main] uses when the output configuration gives
    none, the directory of a combination is
    [images_<sky>_<telescope><suffix>_<phase centre>] under the base output
    directory, where [<sky>] is the file name of the sky model without its
    last extension and [<suffix>] is [_errors_on] or [_errors_off] after
    [include_telescope_errors] of the run settings
    ([main.py], lines 817-820 and 855-869). *)
Theorem default_directory_name {S} E run_settings base_output_dir tel_name sky_filename pc_id
    (s : S) :
  run_directory E (VDict run_settings) default_images_folder_pattern base_output_dir
    tel_name (VStr sky_filename) pc_id s
  = (Ret (path_join base_output_dir
            ("images_" +:+ stem_of sky_filename +:+ "_" +:+ py_str tel_name
             +:+ error_suffix_of run_settings +:+ "_" +:+ py_str pc_id)), s).
Proof.
  unfold run_directory, get_sky_model_name_no_ext, stem_of, error_suffix_of, lookup_or,
    default_images_folder_pattern, str_format, vget, VStr.
  destruct (before_last_dot sky_filename) as [stem |]; cbn [from_option id];
    unfold bind, ret; by rewrite default_pattern_filled.
Qed.

Lemma format_go_plain E kwargs (s : string) :
  str_mem "{" s = false -> str_mem "}" s = false -> format_go E kwargs None s = inr s.
Proof.
  induction s as [| c s IH]; [done |]. cbn [str_mem]. intros Ho Hc.
  destruct (Ascii.eqb_spec "{" c) as [<- | Hno]; [discriminate |].
  destruct (Ascii.eqb_spec "}" c) as [<- | Hnc]; [discriminate |].
  specialize (IH Ho Hc).
  destruct c as [[] [] [] [] [] [] [] []]; try done;
    cbn [format_go]; rewrite IH; try done; destruct s; done.
Qed.

(** X19: a pattern without braces names the same directory, the pattern
    itself under the base output directory, for every combination of the
    sweep ([main.py], lines 862-869). *)
Theorem pattern_without_fields {S} E run_settings pattern base_output_dir tel_name
    sky_filename pc_id (s : S) :
  str_mem "{" pattern = false -> str_mem "}" pattern = false ->
  run_directory E (VDict run_settings) (VStr pattern) base_output_dir
    tel_name (VStr sky_filename) pc_id s
  = (Ret (path_join base_output_dir pattern), s).
Proof.
  intros Ho Hc.
  unfold run_directory, get_sky_model_name_no_ext, str_format, vget, VStr.
  destruct (before_last_dot sky_filename) as [stem |];
    unfold bind, ret; by rewrite format_go_plain.
Qed.

(** ** Dry runs and disabled stages *)

#[global] Instance same_launches_preorder : PreOrder same_launches.
Proof. split; [by intros w | intros w1 w2 w3 H1 H2; unfold same_launches in *; congruence]. Qed.

#[global] Instance untouched_preorder : PreOrder untouched.
Proof.
  split; [by intros w |]. intros w1 w2 w3 [F1 L1] [F2 L2]. split; congruence.
Qed.

Lemma same_launches_syscall : preserves same_launches syscall.
Proof. intros w. unfold syscall. by destruct (faults w) as [| [e |] rest]. Qed.

Lemma same_launches_after_syscall {A} (m : M world A) :
  preserves same_launches m -> preserves same_launches (syscall ;; m).
Proof. intros H. apply preserves_bind; [tc_solve | apply same_launches_syscall | by intros _]. Qed.

Lemma same_launches_print s : preserves same_launches (print s).
Proof. by intros w. Qed.

Lemma same_launches_now : preserves same_launches now.
Proof. intros w. unfold now. by destruct (clock w). Qed.

Lemma same_launches_open_append p : preserves same_launches (open_append p).
Proof. apply same_launches_after_syscall. by intros w. Qed.

Lemma same_launches_write p s : preserves same_launches (write p s).
Proof. apply same_launches_after_syscall. by intros w. Qed.

Lemma same_launches_write_file p s : preserves same_launches (write_file p s).
Proof. apply same_launches_after_syscall. by intros w. Qed.

Lemma same_launches_path_exists p : preserves same_launches (path_exists p).
Proof. by intros w. Qed.

Lemma same_launches_resolve E p : preserves same_launches (resolve E p).
Proof. apply same_launches_after_syscall. by intros w. Qed.

Lemma same_launches_mkdir p : preserves same_launches (mkdir p).
Proof. apply same_launches_after_syscall. by intros w. Qed.

#[global] Instance same_launches_logging log : logging_relation same_launches log.
Proof.
  split; [tc_solve | ..]; intros.
  - apply same_launches_print.
  - apply same_launches_now.
  - apply same_launches_open_append.
  - apply same_launches_write.
  - apply same_launches_path_exists.
  - apply same_launches_resolve.
Qed.

Lemma preserves_iterate R `{!PreOrder R} v : preserves R (iterate v).
Proof. apply preserves_pure; [tc_solve |]. intros w. by destruct v as [[] | |]. Qed.

Ltac launch_step :=
  first [ apply same_launches_print | apply same_launches_now | apply same_launches_open_append
        | apply same_launches_write | apply same_launches_write_file
        | apply same_launches_path_exists | apply same_launches_resolve
        | apply same_launches_mkdir
        | runner_step ].

Section DryRun.
Context (E : env) (is_dry_run : value) (Hdry : truthy_value is_dry_run = true).

Lemma dry_run_interf exe ini cwd_path :
  preserves same_launches (run_oskar_sim_interf E exe ini cwd_path is_dry_run).
Proof.
  unfold run_oskar_sim_interf. rewrite Hdry. cbv zeta iota. repeat launch_step.
Qed.

Lemma dry_run_beam exe ini cwd_path :
  preserves same_launches (run_oskar_sim_beam E exe ini cwd_path is_dry_run).
Proof.
  unfold run_oskar_sim_beam. rewrite Hdry. cbv zeta iota. repeat launch_step.
Qed.

Lemma dry_run_calibrate exe hyp out cwd_path :
  preserves same_launches (run_calibrate E exe hyp out cwd_path is_dry_run).
Proof.
  unfold run_calibrate. rewrite Hdry. cbv zeta iota. repeat launch_step.
Qed.

End DryRun.

(** X12: on a dry run none of the three runners starts a process,
    whatever the environment does (a log that cannot be opened, a missing
    INI file, ...) ([main.py], lines 71-76, 213-218 and 323-328). *)
Theorem dry_run_starts_nothing E exe ini cwd_path hyperdrive_cfg output_cfg is_dry_run w :
  truthy_value is_dry_run = true ->
  launches (snd (run_oskar_sim_interf E exe ini cwd_path is_dry_run w)) = launches w
  /\ launches (snd (run_oskar_sim_beam E exe ini cwd_path is_dry_run w)) = launches w
  /\ launches (snd (run_calibrate E exe hyperdrive_cfg output_cfg cwd_path is_dry_run w))
     = launches w.
Proof.
  intros Hdry. split; [| split].
  - apply (dry_run_interf E is_dry_run Hdry).
  - apply (dry_run_beam E is_dry_run Hdry).
  - apply (dry_run_calibrate E is_dry_run Hdry).
Qed.

Lemma same_launches_write_ini ini_data_dict output_path :
  preserves same_launches (write_ini_file_with_configparser ini_data_dict output_path).
Proof.
  unfold write_ini_file_with_configparser.
  repeat first [apply same_launches_write_file | apply same_launches_print | stage_step].
Qed.

Section DrySweep.
Context (E : env) (rs : list (string * value)).
Hypothesis Hdry : truthy_value (lookup_or rs "dry_run" (VBool false)) = true.

Ltac dry_step :=
  first [ apply same_launches_write_ini
        | apply dry_run_beam; exact Hdry
        | apply dry_run_interf; exact Hdry
        | apply dry_run_calibrate; exact Hdry
        | apply preserves_run_directory; tc_solve
        | apply preserves_iterate; tc_solve
        | apply same_launches_print | apply same_launches_resolve | apply same_launches_mkdir
        | stage_step ].

Lemma beam_stage_dry out defaults ex tel pc tmpl dir root :
  preserves same_launches (beam_stage E (VDict rs) out defaults ex tel pc tmpl dir root).
Proof. unfold beam_stage. unfold lookup_or in Hdry. repeat dry_step. Qed.

Lemma interf_stage_dry out defaults ex tel sky pc base dir root :
  preserves same_launches (interf_stage E (VDict rs) out defaults ex tel sky pc base dir root).
Proof. unfold interf_stage. unfold lookup_or in Hdry. repeat dry_step. Qed.

Lemma calibration_stage_dry out ex hyp dir :
  preserves same_launches (calibration_stage E (VDict rs) out ex hyp dir).
Proof. unfold calibration_stage. unfold lookup_or in Hdry. repeat dry_step. Qed.

Lemma process_combination_dry out defaults ex hyp pattern tmpl skybase base tel sky pc n :
  preserves same_launches
    (process_combination E (VDict rs) out defaults ex hyp pattern tmpl skybase base tel sky pc n).
Proof.
  unfold process_combination. cbv zeta.
  repeat first [ apply beam_stage_dry | apply interf_stage_dry | apply calibration_stage_dry
               | dry_step ].
Qed.

End DrySweep.

(** X13: with [dry_run] set in the run settings, the sweep starts no
    process, however many combinations and stages it goes through and
    whatever fails on the way: the flag reaches every runner
    ([main.py], lines 899, 937 and 949). *)
Theorem dry_run_sweep_starts_nothing E items rs w :
  lookup_or items "run_settings" (VDict []) = VDict rs ->
  truthy_value (lookup_or rs "dry_run" (VBool false)) = true ->
  launches (snd (sweep E (VDict items) w)) = launches w.
Proof.
  intros Hrs Hdry. revert w.
  change (preserves same_launches (sweep E (VDict items))).
  unfold sweep. unfold lookup_or in Hrs.
  apply preserves_bind_vget_dict. rewrite Hrs.
  repeat first [ apply (process_combination_dry E rs Hdry)
               | apply preserves_iterate; tc_solve
               | apply same_launches_print | apply same_launches_resolve
               | stage_step ].
Qed.

Lemma untouched_syscall : preserves untouched syscall.
Proof. intros w. unfold syscall. by destruct (faults w) as [| [e |] rest]. Qed.

Lemma untouched_print s : preserves untouched (print s).
Proof. by intros w. Qed.

Lemma untouched_resolve E p : preserves untouched (resolve E p).
Proof.
  apply preserves_bind; [tc_solve | apply untouched_syscall | intros _; apply preserves_ret; tc_solve].
Qed.

Lemma untouched_mkdir p : preserves untouched (mkdir p).
Proof. apply preserves_bind; [tc_solve | apply untouched_syscall | by intros _ w]. Qed.

Section StagesOff.
Context (E : env) (rs : list (string * value)).
Hypothesis Hbeam : truthy_value (lookup_or rs "run_beam_sim" VNone) = false.
Hypothesis Hinterf : truthy_value (lookup_or rs "run_interf_sim" VNone) = false.
Hypothesis Hcal : truthy_value (lookup_or rs "run_hyperdrive" VNone) = false.

Lemma process_combination_off out defaults ex hyp pattern tmpl skybase base tel sky pc n :
  preserves untouched
    (process_combination E (VDict rs) out defaults ex hyp pattern tmpl skybase base tel sky pc n).
Proof.
  unfold lookup_or in *. unfold process_combination. cbv zeta.
  repeat (first [ apply preserves_run_directory; tc_solve
                | apply untouched_print | apply untouched_resolve | apply untouched_mkdir
                | stage_step ];
          cbn beta; rewrite ?Hbeam, ?Hinterf, ?Hcal; cbv iota).
Qed.

End StagesOff.

(** X14: with the three stages switched off (or not switched on: the
    flags are read without a default), the sweep writes no file and starts
    no process ([main.py], lines 876, 906 and 943). *)
Theorem disabled_stages_leave_no_trace E items rs w :
  lookup_or items "run_settings" (VDict []) = VDict rs ->
  truthy_value (lookup_or rs "run_beam_sim" VNone) = false ->
  truthy_value (lookup_or rs "run_interf_sim" VNone) = false ->
  truthy_value (lookup_or rs "run_hyperdrive" VNone) = false ->
  files (snd (sweep E (VDict items) w)) = files w
  /\ launches (snd (sweep E (VDict items) w)) = launches w.
Proof.
  intros Hrs Hb Hi Hc. revert w.
  change (preserves untouched (sweep E (VDict items))).
  unfold sweep. unfold lookup_or in Hrs.
  apply preserves_bind_vget_dict. rewrite Hrs.
  repeat first [ apply (process_combination_off E rs Hb Hi Hc)
               | apply preserves_iterate; tc_solve
               | apply untouched_print | apply untouched_resolve
               | stage_step ].
Qed.

(** ** A run that goes well *)

Lemma grown_refl w : grown w w.
Proof. by split. Qed.

Lemma grown_trans w1 w2 w3 : grown w1 w2 -> grown w2 w3 -> grown w1 w3.
Proof. intros [D1 F1] [D2 F2]. split; [congruence | auto]. Qed.

Lemma grown_store p s w : grown w (set_files (dict_store p s (files w)) w).
Proof.
  split; [done |]. intros q Hq. cbn. rewrite dict_lookup_store.
  by destruct (String.eqb q p).
Qed.

Lemma present_grown ini w w' : grown w w' -> present ini w -> present ini w'.
Proof. intros [D F] [H | H]; [left; by apply F | right; by rewrite D]. Qed.

Lemma calm_ret {A} (a : A) : calm (ret a).
Proof. intros w Hw. exists a, w. repeat split; try done. Qed.

Lemma calm_bind {A B} (m : M world A) (f : A -> M world B) :
  calm m -> (forall a, calm (f a)) -> calm (bind m f).
Proof.
  intros Hm Hf w Hw. destruct (Hm w Hw) as (a & w1 & E1 & F1 & L1 & P1 & G1).
  destruct (Hf a w1 F1) as (b & w2 & E2 & F2 & L2 & P2 & G2).
  exists b, w2. unfold bind. rewrite E1, E2.
  repeat split; try congruence; by eapply grown_trans.
Qed.

Lemma calm_try_except {A} (m : M world A) h : calm m -> calm (try_except m h).
Proof.
  intros Hm w Hw. destruct (Hm w Hw) as (a & w1 & E1 & H). exists a, w1.
  unfold try_except. by rewrite E1.
Qed.

Lemma calm_syscall : calm syscall.
Proof. intros w Hw. exists tt, w. unfold syscall. rewrite Hw. repeat split; try done. Qed.

Lemma calm_print s : calm (print s).
Proof. intros w Hw. eexists tt, _. repeat split; try done. Qed.

Lemma calm_now : calm now.
Proof.
  intros w Hw. unfold now. destruct (clock w) as [| t ts]; eexists _, _; repeat split; try done.
Qed.

Lemma calm_open_append p : calm (open_append p).
Proof.
  apply calm_bind; [apply calm_syscall | intros _]. intros w Hw. eexists _, _.
  split; [reflexivity |]. repeat split; try done. apply grown_store.
Qed.

Lemma calm_write p s : calm (write p s).
Proof.
  apply calm_bind; [apply calm_syscall | intros _]. intros w Hw. eexists _, _.
  split; [reflexivity |]. repeat split; try done. apply grown_store.
Qed.

Lemma calm_resolve E p : calm (resolve E p).
Proof. apply calm_bind; [apply calm_syscall | intros _; apply calm_ret]. Qed.

Lemma calm_path_exists p : calm (path_exists p).
Proof. intros w Hw. eexists _, _. split; [reflexivity |]. repeat split; try done. Qed.

Ltac calm_solve :=
  repeat first
    [ apply calm_ret | apply calm_print | apply calm_now | apply calm_open_append
    | apply calm_write | apply calm_resolve | apply calm_path_exists
    | apply calm_try_except
    | apply calm_bind; [| intros ?]
    | match goal with |- calm (if ?b then _ else _) => destruct b end ].

Lemma calm_log_process_output log p : calm (log_process_output log p).
Proof. unfold log_process_output. calm_solve. Qed.

Lemma calm_print_logged_notice log p : calm (print_logged_notice log p).
Proof. unfold print_logged_notice. calm_solve. Qed.

Lemma calm_print_process_output p : calm (print_process_output p).
Proof. unfold print_process_output. calm_solve. Qed.

Lemma calm_log_conclusion log what : calm (log_conclusion log what).
Proof. unfold log_conclusion. calm_solve. Qed.

Section Ready.
Context (K : world -> Prop).
Hypothesis HK : forall w w', grown w w' -> K w -> K w'.

Lemma triple_calm {A} (m : M world A) L ps :
  calm m -> triple (ready K L ps) m (fun _ => ready K L ps) (fun _ _ => False).
Proof.
  intros Hm w (Hf & HL & Hp & Hk). destruct (Hm w Hf) as (a & w' & -> & F & L' & P & G).
  repeat split; try congruence. by eapply HK.
Qed.

Lemma triple_subprocess exe arguments cwd L p rest :
  triple (ready K L (p :: rest))
         (subprocess_run_command (VStr exe) arguments cwd)
         (fun r w => r = p /\ ready K (L ++ [(exe :: arguments, cwd)]) rest w)
         (fun _ _ => False).
Proof.
  intros w (Hf & HL & Hp & Hk). destruct w as [f m c l fa cl pr]. cbn in *. subst.
  cbn. repeat split; try done. eapply HK; [| exact Hk]. by split.
Qed.

Lemma attempt_runs (X : M world bool) log exe prefix what L ps L' ps' b0 w :
  triple (ready K L ps) X (fun b w => b = b0 /\ ready K L' ps' w) (fun _ _ => False) ->
  ready K L ps w ->
  exists w', try_finally (try_except X (handle_runner_exception log exe prefix))
                         (log_conclusion log what) w = (Ret b0, w')
             /\ ready K L' ps' w'.
Proof.
  intros HX Hw. specialize (HX w Hw). unfold try_finally, try_except.
  destruct (X w) as [[b | e] w1]; [| done]. destruct HX as [-> H1].
  pose proof (triple_calm (log_conclusion log what) L' ps' (calm_log_conclusion log what) w1 H1)
    as H2.
  destruct (log_conclusion log what w1) as [[[] | e] w2]; [| done]. by exists w2.
Qed.

End Ready.

Lemma triple_path_exists_present ini L ps :
  triple (ready (present ini) L ps) (path_exists ini)
         (fun b w => b = true /\ ready (present ini) L ps w) (fun _ _ => False).
Proof.
  intros w Hw. cbn. split; [| done]. destruct Hw as (_ & _ & _ & [H | H]).
  - by rewrite bool_decide_eq_true_2.
  - rewrite (bool_decide_eq_true_2 (path_str ini ∈ mkdirs w)) by done. apply orb_true_r.
Qed.

Ltac ready_step HK :=
  lazymatch goal with
  | |- triple _ (bind (path_exists _) _) _ _ =>
      eapply triple_bind;
      [ apply triple_path_exists_present
      | intros ?; apply triple_pure_pre; intros ->; cbn [negb] ]
  | |- triple _ (bind (subprocess_run_command _ _ _) _) _ _ =>
      eapply triple_bind;
      [ apply (triple_subprocess _ HK)
      | intros ?; apply triple_pure_pre; intros -> ]
  | |- triple _ (bind (log_process_output _ _) _) _ _ =>
      eapply triple_bind; [apply (triple_calm _ HK), calm_log_process_output | intros ?]
  | |- triple _ (bind (print_logged_notice _ _) _) _ _ =>
      eapply triple_bind; [apply (triple_calm _ HK), calm_print_logged_notice | intros ?]
  | |- triple _ (bind (print_process_output _) _) _ _ =>
      eapply triple_bind; [apply (triple_calm _ HK), calm_print_process_output | intros ?]
  | |- triple _ (bind _ _) _ _ =>
      eapply triple_bind; [apply (triple_calm _ HK); calm_solve | intros ?]
  | |- triple _ (ret _) _ _ => apply triple_ret; by intros
  | |- triple _ (if (?x =? 0)%Z then _ else _) _ _ => destruct (x =? 0)%Z
  end.

Section ExitCode.
Context (E : env) (exe : string) (ini cwd_path : Path) (is_dry_run : value).
Context (L : list (list string * string)) (p : proc_result) (rest : list proc_result).
Hypothesis Hdry : truthy_value is_dry_run = false.

Let HK : forall w w', grown w w' -> present ini w -> present ini w' := present_grown ini.

Lemma interf_runs w :
  ready (present ini) L (p :: rest) w ->
  exists w', run_oskar_sim_interf E (VStr exe) ini cwd_path is_dry_run w
             = (Ret (returncode p =? 0)%Z, w')
             /\ ready (present ini) (L ++ [([exe; path_str ini], path_str cwd_path)]) rest w'.
Proof.
  intros Hw. unfold run_oskar_sim_interf. unfold bind at 1.
  destruct (shlex_quote_value_str exe w) as [q ->]. cbv zeta. rewrite Hdry.
  eapply (attempt_runs _ HK); [| exact Hw]. repeat ready_step HK.
Qed.

Lemma beam_runs w :
  ready (present ini) L (p :: rest) w ->
  exists w', run_oskar_sim_beam E (VStr exe) ini cwd_path is_dry_run w
             = (Ret (returncode p =? 0)%Z, w')
             /\ ready (present ini) (L ++ [([exe; path_str ini], path_str cwd_path)]) rest w'.
Proof.
  intros Hw. unfold run_oskar_sim_beam. unfold bind at 1.
  destruct (shlex_quote_value_str exe w) as [q ->]. cbv zeta. rewrite Hdry.
  eapply (attempt_runs _ HK); [| exact Hw]. repeat ready_step HK.
Qed.

End ExitCode.

Lemma calibrate_runs E exe hyp out cwd_path is_dry_run L p rest w :
  truthy_value is_dry_run = false ->
  ready (fun _ => True) L (p :: rest) w ->
  exists w', run_calibrate E (VStr exe) (VDict hyp) (VDict out) cwd_path is_dry_run w
             = (Ret (returncode p =? 0)%Z, w')
             /\ ready (fun _ => True)
                  (L ++ [([exe;
                           "-d " +:+ py_str (lookup_or out "interf_ms_base_filename" (VStr "sim.ms"));
                           "--source-list " +:+ py_str (lookup_or hyp "srclist" VNone);
                           "-o " +:+ py_str (lookup_or hyp "sol_output"
                                               (VStr "hyperdrive_solutions.fits"))],
                          path_str cwd_path)]) rest w'.
Proof.
  intros Hdry Hw. unfold run_calibrate. unfold bind at 1.
  cbn [calibrate_arguments vget bind ret]. unfold bind at 1.
  destruct (shlex_quote_value_str exe w) as [q ->]. cbv zeta. rewrite Hdry.
  assert (forall w w' : world, grown w w' -> True -> True) as HK by done.
  eapply (attempt_runs _ HK); [| exact Hw]. repeat ready_step HK.
Qed.

(** X15: in an environment where no system call fails, a runner of OSKAR
    that finds its INI file and is not on a dry run starts the executable once, on
    the INI file and in the run directory, and answers whether the
    process ended with exit code 0 ([main.py], lines 35-120 and 180-257). *)
Theorem exit_code_decides E exe ini cwd_path is_dry_run p rest w :
  faults w = [] -> procs w = p :: rest -> present ini w ->
  truthy_value is_dry_run = false ->
  (exists w', run_oskar_sim_interf E (VStr exe) ini cwd_path is_dry_run w
              = (Ret (returncode p =? 0)%Z, w')
              /\ launches w' = launches w ++ [([exe; path_str ini], path_str cwd_path)])
  /\ (exists w', run_oskar_sim_beam E (VStr exe) ini cwd_path is_dry_run w
                 = (Ret (returncode p =? 0)%Z, w')
                 /\ launches w' = launches w ++ [([exe; path_str ini], path_str cwd_path)]).
Proof.
  intros Hf Hp Hini Hdry.
  assert (ready (present ini) (launches w) (p :: rest) w) as Hw by done.
  split.
  - destruct (interf_runs E exe ini cwd_path is_dry_run _ p rest Hdry w Hw) as (w' & -> & H).
    exists w'. split; [done | apply H].
  - destruct (beam_runs E exe ini cwd_path is_dry_run _ p rest Hdry w Hw) as (w' & -> & H).
    exists w'. split; [done | apply H].
Qed.

(** X16: the command of the calibration, when no system call fails and
    the run is not a dry run: the executable followed by three arguments,
    each an option and its value in one string; the measurement set
    defaults to [sim.ms], the solutions to [hyperdrive_solutions.fits], and
    a source list that the settings do not give is passed as the text
    [None]. The runner answers whether the process ended with exit code 0
    ([main.py], lines 306-311 and 331-369). *)
Theorem calibration_command E exe hyp out cwd_path is_dry_run p rest w :
  faults w = [] -> procs w = p :: rest ->
  truthy_value is_dry_run = false ->
  exists w', run_calibrate E (VStr exe) (VDict hyp) (VDict out) cwd_path is_dry_run w
             = (Ret (returncode p =? 0)%Z, w')
             /\ launches w'
                = launches w
                  ++ [([exe;
                        "-d " +:+ py_str (lookup_or out "interf_ms_base_filename" (VStr "sim.ms"));
                        "--source-list " +:+ py_str (lookup_or hyp "srclist" VNone);
                        "-o " +:+ py_str (lookup_or hyp "sol_output"
                                            (VStr "hyperdrive_solutions.fits"))],
                       path_str cwd_path)].
Proof.
  intros Hf Hp Hdry.
  assert (ready (fun _ => True) (launches w) (p :: rest) w) as Hw by done.
  destruct (calibrate_runs E exe hyp out cwd_path is_dry_run _ p rest w Hdry Hw) as (w' & -> & H).
  exists w'. split; [done | apply H].
Qed.

Section DryRunSucceeds.
Context (E : env) (exe : string) (ini cwd_path : Path) (is_dry_run : value).
Context (L : list (list string * string)) (ps : list proc_result).
Hypothesis Hdry : truthy_value is_dry_run = true.

Let HK : forall w w', grown w w' -> present ini w -> present ini w' := present_grown ini.

Lemma interf_dry_run w :
  ready (present ini) L ps w ->
  exists w', run_oskar_sim_interf E (VStr exe) ini cwd_path is_dry_run w = (Ret true, w')
             /\ ready (present ini) L ps w'.
Proof.
  intros Hw. unfold run_oskar_sim_interf. unfold bind at 1.
  destruct (shlex_quote_value_str exe w) as [q ->]. cbv zeta. rewrite Hdry.
  eapply (attempt_runs _ HK); [| exact Hw]. repeat ready_step HK.
Qed.

Lemma beam_dry_run w :
  ready (present ini) L ps w ->
  exists w', run_oskar_sim_beam E (VStr exe) ini cwd_path is_dry_run w = (Ret true, w')
             /\ ready (present ini) L ps w'.
Proof.
  intros Hw. unfold run_oskar_sim_beam. unfold bind at 1.
  destruct (shlex_quote_value_str exe w) as [q ->]. cbv zeta. rewrite Hdry.
  eapply (attempt_runs _ HK); [| exact Hw]. repeat ready_step HK.
Qed.

End DryRunSucceeds.

(** X17: in an environment where no system call fails, a dry run of a
    runner of OSKAR that finds its INI file reports success, and uses up
    none of the processes to come ([main.py], lines 61-76 and 204-218). *)
Theorem dry_run_reports_success E exe ini cwd_path is_dry_run w :
  faults w = [] -> present ini w -> truthy_value is_dry_run = true ->
  (exists w', run_oskar_sim_interf E (VStr exe) ini cwd_path is_dry_run w = (Ret true, w')
              /\ procs w' = procs w)
  /\ (exists w', run_oskar_sim_beam E (VStr exe) ini cwd_path is_dry_run w = (Ret true, w')
                 /\ procs w' = procs w).
Proof.
  intros Hf Hini Hdry.
  assert (ready (present ini) (launches w) (procs w) w) as Hw by done.
  split.
  - destruct (interf_dry_run E exe ini cwd_path is_dry_run _ _ Hdry w Hw) as (w' & -> & H).
    exists w'. split; [done | apply H].
  - destruct (beam_dry_run E exe ini cwd_path is_dry_run _ _ Hdry w Hw) as (w' & -> & H).
    exists w'. split; [done | apply H].
Qed.

(** ** The stages start their programs *)

Lemma bind_step {S A B} (m : M S A) (f : A -> M S B) s a s1 :
  m s = (Ret a, s1) -> bind m f s = f a s1.
Proof. intros H. unfold bind. by rewrite H. Qed.

Lemma bind_ret_l {S A B} (a : A) (f : A -> M S B) s : bind (ret a) f s = f a s.
Proof. reflexivity. Qed.

Lemma collect_sections_accepts items :
  interpolation_free items = true ->
  forall config w, exists config' lines,
    collect_sections items config w = (Ret config', set_console (console w ++ lines) w).
Proof.
  induction items as [| [k v] items IH]; intros Hok config w.
  - exists config, []. cbn. rewrite app_nil_r. by destruct w.
  - cbn [interpolation_free forallb snd] in Hok. apply andb_true_iff in Hok as [Hv Hok].
    destruct (is_mapping v) eqn:Hm.
    + destruct v as [a | xs | d]; try discriminate. unfold section_accepted in Hv.
      rewrite collect_mapping, Hv. apply (IH Hok).
    + rewrite collect_non_mapping by done.
      destruct (IH Hok config (set_console (console w ++ [skip_warning k]) w))
        as (config' & lines & ->).
      exists config', (skip_warning k :: lines). cbn. by rewrite <- app_assoc.
Qed.

(** A tree that [configparser] accepts is written when no system call
    fails, and its file is there afterwards. *)
Lemma write_ini_succeeds items output_path L ps w :
  interpolation_free items = true ->
  ready (fun _ => True) L ps w ->
  exists w', write_ini_file_with_configparser (VDict items) output_path w = (Ret tt, w')
             /\ ready (present output_path) L ps w'.
Proof.
  intros Hok (Hf & HL & Hp & _). rewrite write_ini_unfold.
  destruct (collect_sections_accepts items Hok [] w) as (config & lines & Hc).
  rewrite (bind_step _ _ _ _ _ Hc).
  unfold write_file, bind, syscall. cbn. rewrite Hf. eexists. split; [reflexivity |].
  split_and!; try done. left. cbn. rewrite dict_lookup_store, String.eqb_refl. by eexists.
Qed.

Lemma calm_runs {A} (m : M world A) K L ps w :
  (forall w w', grown w w' -> K w -> K w') ->
  calm m -> ready K L ps w -> exists a w', m w = (Ret a, w') /\ ready K L ps w'.
Proof.
  intros HK Hm Hw. pose proof (triple_calm K HK m L ps Hm w Hw) as H.
  destruct (m w) as [[a | e] w']; [by exists a, w' | done].
Qed.

Section Stages.
Context (E : env) (settings out ex : list (string * value)) (dir : Path).
Context (p : proc_result) (rest : list proc_result).
Hypothesis Hdry : truthy_value (lookup_or settings "dry_run" (VBool false)) = false.

(** What follows the writing of the INI file in the stages of OSKAR. *)
Lemma oskar_stage_tail (run : value -> Path -> Path -> value -> M world bool)
    (ini : Path) (program : string) (generated finished : string) key fallback w :
  (forall w, ready (present ini) (launches w) (p :: rest) w ->
     exists w', run (VStr program) ini dir (lookup_or settings "dry_run" (VBool false)) w
                = (Ret (returncode p =? 0)%Z, w')
                /\ ready (present ini) (launches w ++ [([program; path_str ini], path_str dir)])
                     rest w') ->
  stage_program ex key fallback = Some program ->
  ready (present ini) (launches w) (p :: rest) w ->
  exists w',
    (resolved <- resolve E ini ;;
     print (generated +:+ path_str resolved) ;;
     print "    Now running simulation" ;;
     executable <- vget (VDict ex) key (VStr fallback) ;;
     dry_run <- vget (VDict settings) "dry_run" (VBool false) ;;
     success <- run executable ini dir dry_run ;;
     if (success : bool) then
       dry_run' <- vget (VDict settings) "dry_run" (VBool false) ;;
       if truthy_value dry_run' then ret tt else print finished
     else ret tt) w = (Ret tt, w')
    /\ launches w' = launches w ++ [([program; path_str ini], path_str dir)].
Proof.
  intros Hrun Hprog Hw.
  pose proof (present_grown ini) as HK.
  destruct (calm_runs (resolve E ini) _ _ _ w HK ltac:(calm_solve) Hw) as (r & w1 & H1 & Hw1).
  rewrite (bind_step _ _ _ _ _ H1).
  destruct (calm_runs (print (generated +:+ path_str r)) _ _ _ w1 HK ltac:(calm_solve) Hw1)
    as ([] & w2 & H2 & Hw2).
  rewrite (bind_step _ _ _ _ _ H2).
  destruct (calm_runs (print "    Now running simulation") _ _ _ w2 HK ltac:(calm_solve) Hw2)
    as ([] & w3 & H3 & Hw3).
  rewrite (bind_step _ _ _ _ _ H3).
  rewrite !bind_vget_dict.
  assert (lookup_or ex key (VStr fallback) = VStr program) as ->.
  { unfold stage_program in Hprog. unfold lookup_or.
    destruct (dict_lookup key ex) as [[[| ? | ? | ? | x] | ? | ?] |];
      unfold VStr; cbn; congruence. }
  assert (launches w3 = launches w) as HL by (destruct Hw3 as (_ & HL & _); exact HL).
  rewrite <- HL in Hw3. destruct (Hrun w3 Hw3) as (w4 & H4 & Hw4).
  rewrite (bind_step _ _ _ _ _ H4). rewrite HL in Hw4.
  destruct (returncode p =? 0)%Z.
  - rewrite bind_vget_dict, Hdry.
    destruct (calm_runs (print finished) _ _ _ w4 HK ltac:(calm_solve) Hw4)
      as ([] & w5 & H5 & Hw5).
    exists w5. split; [exact H5 | apply Hw5].
  - exists w4. split; [done | apply Hw4].
Qed.

Lemma beam_stage_runs defaults tel pc name root items program w :
  compile_beam E defaults tel pc (VDict settings) (VDict out) dir root = inr (VDict items) ->
  interpolation_free items = true ->
  stage_program ex "oskar_sim_beam_patter" "oskar_sim_beam_pattern" = Some program ->
  faults w = [] -> procs w = p :: rest ->
  runs_once [program; path_str (path_join dir name)] dir
    (beam_stage E (VDict settings) (VDict out) defaults (VDict ex) tel pc (VStr name) dir root) w.
Proof.
  intros Hc Hok Hprog Hf Hp. unfold runs_once, beam_stage.
  rewrite bind_print, bind_require_str, Hc. cbn [compiled]. rewrite bind_ret_l.
  set (w0 := set_console _ w).
  assert (ready (fun _ => True) (launches w) (p :: rest) w0) as Hw0 by done.
  destruct (write_ini_succeeds items (path_join dir name) _ _ w0 Hok Hw0) as (w1 & H1 & Hw1).
  rewrite (bind_step _ _ _ _ _ H1).
  assert (launches w1 = launches w) as HL by (destruct Hw1 as (_ & HL & _); exact HL).
  rewrite <- HL in Hw1 |- *.
  eapply (oskar_stage_tail (run_oskar_sim_beam E)); [| exact Hprog | exact Hw1].
  intros w' Hw'. by apply beam_runs.
Qed.

Lemma interf_stage_runs defaults tel sky pc skybase name root items program w :
  compile_interf E defaults tel sky pc (VDict settings) (VDict out) skybase dir root
  = inr (VDict items) ->
  interpolation_free items = true ->
  lookup_or out "interf_ini_filename" (VStr "interf.ini") = VStr name ->
  stage_program ex "oskar_sim_interferometer" "oskar_sim_interferometer" = Some program ->
  faults w = [] -> procs w = p :: rest ->
  runs_once [program; path_str (path_join dir name)] dir
    (interf_stage E (VDict settings) (VDict out) defaults (VDict ex) tel sky pc skybase dir root)
    w.
Proof.
  intros Hc Hok Hname Hprog Hf Hp. unfold runs_once, interf_stage.
  rewrite bind_print, Hc. cbn [compiled]. rewrite bind_ret_l.
  rewrite bind_vget_dict, Hname, bind_require_str.
  set (w0 := set_console _ w).
  assert (ready (fun _ => True) (launches w) (p :: rest) w0) as Hw0 by done.
  destruct (write_ini_succeeds items (path_join dir name) _ _ w0 Hok Hw0) as (w1 & H1 & Hw1).
  rewrite (bind_step _ _ _ _ _ H1).
  assert (launches w1 = launches w) as HL by (destruct Hw1 as (_ & HL & _); exact HL).
  rewrite <- HL in Hw1 |- *.
  eapply (oskar_stage_tail (run_oskar_sim_interf E)); [| exact Hprog | exact Hw1].
  intros w' Hw'. by apply interf_runs.
Qed.

Lemma calibration_stage_runs hyp program w :
  stage_program ex "hyperdrive" "hyperdrive" = Some program ->
  faults w = [] -> procs w = p :: rest ->
  runs_once (program :: calibration_arguments hyp out) dir
    (calibration_stage E (VDict settings) (VDict out) (VDict ex) (VDict hyp) dir) w.
Proof.
  intros Hprog Hf Hp. unfold runs_once, calibration_stage.
  rewrite !bind_vget_dict.
  assert (lookup_or ex "hyperdrive" (VStr "hyperdrive") = VStr program) as ->.
  { unfold stage_program in Hprog. unfold lookup_or.
    destruct (dict_lookup "hyperdrive" ex) as [[[| ? | ? | ? | x] | ? | ?] |];
      unfold VStr; cbn; congruence. }
  assert (ready (fun _ => True) (launches w) (p :: rest) w) as Hw by done.
  destruct (calibrate_runs E program hyp out dir _ _ p rest w Hdry Hw) as (w1 & H1 & Hw1).
  rewrite (bind_step _ _ _ _ _ H1). exists w1. split; [done | apply Hw1].
Qed.

End Stages.

(** C10: the beam stage reads its executable under the key
    [oskar_sim_beam_patter].  Whatever the environment does: when the
    executables mapping has no entry under that key, whatever it has under
    [oskar_sim_beam_pattern], every process the stage starts is the default
    command [oskar_sim_beam_pattern]; an entry under the shorter key is
    what gets started; and the interferometer and calibration stages start
    nothing but what the mapping gives under [oskar_sim_interferometer] and
    [hyperdrive].  And the stages do start these: when no system call
    fails, the run is not a dry run, the compiler returns a tree and
    [configparser] accepts it, each stage returns having started exactly
    one process, in the run directory: its program ([stage_program], which
    for the beam stage does not look at [oskar_sim_beam_pattern]) on the
    INI file it has written, and for the calibration the program with the
    three arguments of [run_calibrate]. *)
Theorem beam_override_key E settings out defaults ex hyp tel sky pc skybase dir root :
  (forall rs oc tmpl hv,
     (dict_lookup "oskar_sim_beam_patter" ex = None ->
      starts_only "oskar_sim_beam_pattern"
        (beam_stage E rs oc defaults (VDict ex) tel pc tmpl dir root))
     /\ (forall x, dict_lookup "oskar_sim_beam_patter" ex = Some (VStr x) ->
         starts_only x (beam_stage E rs oc defaults (VDict ex) tel pc tmpl dir root))
     /\ (forall x, dict_lookup "oskar_sim_interferometer" ex = Some (VStr x) ->
         starts_only x (interf_stage E rs oc defaults (VDict ex) tel sky pc skybase dir root))
     /\ (forall x, dict_lookup "hyperdrive" ex = Some (VStr x) ->
         starts_only x (calibration_stage E rs oc (VDict ex) hv dir)))
  /\ (truthy_value (lookup_or settings "dry_run" (VBool false)) = false ->
      forall p rest w, faults w = [] -> procs w = p :: rest ->
        (forall name items program,
           compile_beam E defaults tel pc (VDict settings) (VDict out) dir root
           = inr (VDict items) ->
           interpolation_free items = true ->
           stage_program ex "oskar_sim_beam_patter" "oskar_sim_beam_pattern" = Some program ->
           runs_once [program; path_str (path_join dir name)] dir
             (beam_stage E (VDict settings) (VDict out) defaults (VDict ex) tel pc (VStr name)
                dir root) w)
        /\ (forall name items program,
            compile_interf E defaults tel sky pc (VDict settings) (VDict out) skybase dir root
            = inr (VDict items) ->
            interpolation_free items = true ->
            lookup_or out "interf_ini_filename" (VStr "interf.ini") = VStr name ->
            stage_program ex "oskar_sim_interferometer" "oskar_sim_interferometer"
            = Some program ->
            runs_once [program; path_str (path_join dir name)] dir
              (interf_stage E (VDict settings) (VDict out) defaults (VDict ex) tel sky pc
                 skybase dir root) w)
        /\ (forall program,
            stage_program ex "hyperdrive" "hyperdrive" = Some program ->
            runs_once (program :: calibration_arguments hyp out) dir
              (calibration_stage E (VDict settings) (VDict out) (VDict ex) (VDict hyp) dir) w)).
Proof.
  split.
  - intros rs oc tmpl hv. repeat split.
    + intros H. eapply starts_only_launched; [| apply beam_stage_launches]. by rewrite H.
    + intros x H. eapply starts_only_launched; [| apply beam_stage_launches]. by rewrite H.
    + intros x H. eapply starts_only_launched; [| apply interf_stage_launches]. by rewrite H.
    + intros x H. eapply starts_only_launched; [| apply calibration_stage_launches].
      by rewrite H.
  - intros Hdry p rest w Hf Hp. split_and!.
    + intros name items program Hc Hok Hprog. by eapply beam_stage_runs.
    + intros name items program Hc Hok Hname Hprog. by eapply interf_stage_runs.
    + intros program Hprog. by eapply calibration_stage_runs.
Qed.

(** ** The directories of a sweep *)















(** *** The names the default pattern gives *)









(** ** The theorems on sample inputs *)


Lemma error_injection_toggle_witness :
  element_fields after_beam (HRef 7)
    [("x_gain_error_time", HStr "0.05"); ("y_gain_error_time", HStr "0.05");
     ("x_phase_error_time_deg", HStr "0.0"); ("y_phase_error_time_deg", HStr "0.0")].
Proof.
  refine (proj2 (error_injection_toggle sample_env (sample_beam sample_run_dir) sample_store
                   after_beam (HRef 7) (Some (HBool true)) (ABool true)
                   (Some (HStr "0.05")) None _ _ _ _ _) _).
  all: vm_compute; reflexivity.
Defined.

Lemma flatten_one_entry_per_scalar_witness :
  _flatten_settings_for_configparser sample_settings "" = flat_entries sample_settings ""
  /\ flat_entries sample_settings ""
     = [("General/app", "oskar_sim_interferometer"); ("simulator/use_gpus", "false");
        ("simulator/max_sources_per_chunk", "16384");
        ("Telescope/Aperture_Array/Normalise", "true")]
  /\ map fst (_flatten_settings_for_configparser colliding_tree "")
     = first_occurrences (map fst (flat_entries colliding_tree ""))
  /\ dict_lookup "a/b" (_flatten_settings_for_configparser colliding_tree "")
     = last_value "a/b" (flat_entries colliding_tree "").
Proof.
  split; [| split; [vm_compute; reflexivity |]].
  - apply (proj2 (proj2 (flatten_one_entry_per_scalar sample_settings ""))).
    apply (bool_decide_unpack _). vm_compute. exact I.
  - split.
    + apply (proj1 (flatten_one_entry_per_scalar colliding_tree "")).
    + apply (proj1 (proj2 (flatten_one_entry_per_scalar colliding_tree ""))).
Defined.

Lemma ms_filename_from_output_config_witness :
  path_get after_named_interf (HRef 7) ["interferometer"; "ms_filename"]
  = Some (HStr "run1.ms").
Proof.
  refine (ms_filename_from_output_config sample_env (HRef 1) (HRef 2) (HRef 3) (HRef 4)
            (HRef 5) (HRef 6) (HStr "sky_models") sample_run_dir sample_root
            named_store after_named_interf (HRef 7) (Some (HStr "run1.ms")) _ _).
  all: vm_compute; reflexivity.
Defined.

(** C6 as the specification has it fails for the empty output
    configuration: the field is [vis_default.ms]. *)
Lemma ms_filename_default_is_not_vis_ms :
  hlookup sample_store (HRef 6) "interf_ms_base_filename" = Some None
  /\ compile sample_env sample_interf sample_store = (Ret (HRef 7), after_interf)
  /\ path_get after_interf (HRef 7) ["interferometer"; "ms_filename"]
     = Some (HStr "vis_default.ms")
  /\ path_get after_interf (HRef 7) ["interferometer"; "ms_filename"] <> Some (HStr "vis.ms").
Proof.
  repeat split; try (vm_compute; reflexivity). vm_compute. discriminate.
Qed.

Lemma compiled_trees_isolated_witness :
  (forall l, l < length sample_store ->
      after_beam !! l = sample_store !! l /\ after_two_beams !! l = sample_store !! l)
  /\ (forall l, reachable after_two_beams (HRef 7) l ->
        length sample_store <= l < length after_beam)
  /\ (forall l, reachable after_two_beams (HRef 40) l ->
        length after_beam <= l < length after_two_beams)
  /\ (forall l o, reachable after_two_beams (HRef 7) l \/ reachable after_two_beams (HRef 40) l ->
        (forall l', l' < length sample_store ->
            <[l := o]> after_two_beams !! l' = sample_store !! l')
        /\ (forall l', reachable after_two_beams (HRef 7) l' ->
              reachable after_two_beams (HRef 40) l ->
              <[l := o]> after_two_beams !! l' = after_two_beams !! l')
        /\ (forall l', reachable after_two_beams (HRef 40) l' ->
              reachable after_two_beams (HRef 7) l ->
              <[l := o]> after_two_beams !! l' = after_two_beams !! l')).
Proof.
  apply (compiled_trees_isolated sample_env (sample_beam sample_run_dir)
           (sample_beam other_run_dir) sample_store after_beam after_two_beams
           (HRef 7) (HRef 40)).
  - apply heap_wf_b_spec. vm_compute. reflexivity.
  - repeat (constructor; [vm_compute; lia |]). constructor.
  - apply scalar_leaves_b_spec. vm_compute. reflexivity.
  - vm_compute. reflexivity.
  - vm_compute. reflexivity.
Defined.

(** C7 does not hold of the code: the compilers copy the sections of the
    defaults and then read the leaves again from the defaults themselves.
    For defaults whose [simulator/use_gpus] is a mapping, both compiled
    trees hold the mapping of the defaults itself, and a change made
    through the first tree shows in the defaults and in the second
    tree. *)
Lemma nested_default_is_shared :
  compile sample_env (nested_beam sample_run_dir) nested_store = (Ret (HRef 7), nested_after_beam)
  /\ compile sample_env (nested_beam other_run_dir) nested_after_beam
     = (Ret (HRef 41), nested_after_two_beams)
  /\ path_get nested_store (HRef 2) ["simulator"; "use_gpus"] = Some (HRef 0)
  /\ path_get nested_after_two_beams (HRef 7) ["simulator"; "use_gpus"] = Some (HRef 0)
  /\ path_get nested_after_two_beams (HRef 41) ["simulator"; "use_gpus"] = Some (HRef 0)
  /\ path_get nested_after_two_beams (HRef 2) ["simulator"; "use_gpus"; "device"]
     = Some (HAtom (AInt 0))
  /\ dict_setitem (HRef 0) "device" (HAtom (AInt 1)) nested_after_two_beams
     = (Ret tt, nested_after_mutation)
  /\ path_get nested_after_mutation (HRef 7) ["simulator"; "use_gpus"; "device"]
     = Some (HAtom (AInt 1))
  /\ path_get nested_after_mutation (HRef 2) ["simulator"; "use_gpus"; "device"]
     = Some (HAtom (AInt 1))
  /\ path_get nested_after_mutation (HRef 41) ["simulator"; "use_gpus"; "device"]
     = Some (HAtom (AInt 1)).
Proof. repeat split; vm_compute; reflexivity. Qed.

Lemma relative_paths_round_trip_witness :
  round_trips sample_env sample_run_dir (mkPath true ["proj"; "telescopes"; "mwa.tm"])
              after_interf (HRef 7) ["telescope"; "input_directory"]
  /\ round_trips sample_env sample_run_dir (mkPath true ["proj"; "sky_models"; "model_a.osm"])
                 after_interf (HRef 7) ["sky"; "oskar_sky_model"; "file"].
Proof.
  assert (Hclean : forall ps, forallb (fun p => negb (String.eqb p "") && negb (String.eqb p ".")
                                 && negb (String.eqb p "..") && negb (str_mem "/" p)) ps = true ->
                              clean_absolute (mkPath true ps)).
  { intros ps H. split; [reflexivity |]. apply Forall_forall. intros p Hp.
    rewrite forallb_forall in H. apply list_elem_of_In in Hp. specialize (H p Hp).
    repeat (apply andb_prop in H as [H ?]).
    repeat split; try (intros ->; discriminate). by destruct (str_mem "/" p). }
  destruct (relative_paths_round_trip sample_env sample_interf sample_store after_interf (HRef 7))
    as [H1 H2]; [vm_compute; reflexivity |].
  split.
  - apply (H1 "telescopes/mwa.tm"); [vm_compute; reflexivity |].
    apply (Hclean ["proj"; "telescopes"; "mwa.tm"]). vm_compute. reflexivity.
  - apply (H2 (HRef 1) (HRef 2) (HRef 3) (HRef 4) (HRef 5) (HRef 6) sample_run_dir sample_root
              "sky_models" "model_a.osm"); [reflexivity | vm_compute; reflexivity |].
    apply (Hclean ["proj"; "sky_models"; "model_a.osm"]). vm_compute. reflexivity.
Defined.



Lemma missing_field_raises_key_error_witness :
  raises (compile sample_env (sample_beam sample_run_dir)) (Exn KeyError "'ra_deg'")
         store_without_ra_deg.
Proof.
  apply (missing_field_raises_key_error sample_env (sample_beam sample_run_dir)
           store_without_ra_deg [] (HRef 4) "ra_deg"
           [(HRef 4, "dec_deg"); (HRef 4, "start_time_utc"); (HRef 2, "oskar_input_directory")]).
  - apply sectioned_b_spec. vm_compute. reflexivity.
  - eexists. vm_compute. reflexivity.
  - reflexivity.
  - constructor.
  - vm_compute. reflexivity.
Defined.

Lemma observation_from_phase_centre_witness :
  path_get after_beam (HRef 7) ["observation"; "phase_centre_ra_deg"] = Some (HAtom (AInt 0))
  /\ path_get after_beam (HRef 7) ["observation"; "phase_centre_dec_deg"]
     = Some (HAtom (AInt (-27)))
  /\ path_get after_beam (HRef 7) ["observation"; "start_time_utc"]
     = Some (HStr "2020-01-01 00:00:00").
Proof.
  apply (observation_from_phase_centre sample_env (sample_beam sample_run_dir) sample_store);
    vm_compute; reflexivity.
Defined.

Lemma application_named_witness :
  path_get after_interf (HRef 7) ["General"; "app"] = Some (HStr "oskar_sim_interferometer").
Proof.
  apply (application_named sample_env sample_interf sample_store). vm_compute. reflexivity.
Defined.

Lemma beam_root_path_from_output_config_witness :
  path_get after_beam (HRef 7) ["beam_pattern"; "root_path"] = Some (HStr "beam_output_default").
Proof.
  apply (beam_root_path_from_output_config sample_env (HRef 1) (HRef 2) (HRef 4) (HRef 5) (HRef 6)
           sample_run_dir sample_root sample_store after_beam (HRef 7) None);
    vm_compute; reflexivity.
Defined.

Lemma sky_model_name_drops_last_extension_witness :
  get_sky_model_name_no_ext (VStr ("model_a.v2" +:+ "." +:+ "osm")) tt = (Ret (VStr "model_a.v2"), tt)
  /\ get_sky_model_name_no_ext (VStr "osm") tt = (Ret (VStr "osm"), tt).
Proof. apply (sky_model_name_drops_last_extension "model_a.v2" "osm" tt). reflexivity. Defined.

Lemma main_without_configuration_file_witness :
  main sample_env "config.yaml" empty_world
  = (Ret tt, set_console (console empty_world
                          ++ ["ERROR: Configuration file not found at " +:+ "config.yaml"])
               (set_faults (tl (faults empty_world)) empty_world)).
Proof. apply main_without_configuration_file; reflexivity. Defined.

Lemma main_with_unreadable_document_witness :
  exists message,
    main sample_env "config.yaml" world_with_bad_document
    = (Ret tt, set_console (console world_with_bad_document
                            ++ ["ERROR: Could not parse YAML configuration file: " +:+ message])
                 (set_faults (tl (faults world_with_bad_document)) world_with_bad_document)).
Proof.
  apply (main_with_unreadable_document sample_env "config.yaml" "run_settings: ["); reflexivity.
Defined.

Lemma write_ini_skips_non_mappings_witness :
  write_ini_file_with_configparser (VDict tree_with_a_note) sample_ini empty_world
  = write_ini_file_with_configparser
      (VDict (List.filter (fun kv => is_mapping (snd kv)) tree_with_a_note)) sample_ini
      (set_console (console empty_world
                    ++ map (fun kv => skip_warning (fst kv))
                           (List.filter (fun kv => negb (is_mapping (snd kv)))
                                        tree_with_a_note))
                   empty_world).
Proof. apply write_ini_skips_non_mappings. vm_compute. reflexivity. Defined.

Lemma write_ini_rejects_percent_witness :
  exists message w',
    write_ini_file_with_configparser (VDict tree_with_percent) sample_ini world_with_ini
    = (Raise (Exn ValueError message), w')
    /\ files w' = files world_with_ini /\ launches w' = launches world_with_ini
    /\ mkdirs w' = mkdirs world_with_ini.
Proof. apply write_ini_rejects_percent. vm_compute. reflexivity. Defined.

Lemma dry_run_starts_nothing_witness :
  launches (snd (run_oskar_sim_interf sample_env (VStr "oskar") sample_ini
                   sample_cwd (VBool true) world_with_ini)) = launches world_with_ini
  /\ launches (snd (run_oskar_sim_beam sample_env (VStr "oskar") sample_ini
                      sample_cwd (VBool true) world_with_ini)) = launches world_with_ini
  /\ launches (snd (run_calibrate sample_env (VStr "oskar") (VDict []) (VDict [])
                      sample_cwd (VBool true) world_with_ini)) = launches world_with_ini.
Proof.
  apply (dry_run_starts_nothing sample_env (VStr "oskar") sample_ini sample_cwd (VDict [])
           (VDict []) (VBool true) world_with_ini).
  reflexivity.
Defined.

Lemma dry_run_sweep_starts_nothing_witness :
  launches (snd (sweep sample_env (VDict dry_interf_sweep) empty_world)) = launches empty_world.
Proof.
  apply (dry_run_sweep_starts_nothing sample_env dry_interf_sweep
           [("run_interf_sim", VBool true); ("dry_run", VBool true)]); reflexivity.
Defined.

Lemma disabled_stages_leave_no_trace_witness :
  files (snd (sweep sample_env (VDict sample_sweep) empty_world)) = files empty_world
  /\ launches (snd (sweep sample_env (VDict sample_sweep) empty_world)) = launches empty_world.
Proof.
  apply (disabled_stages_leave_no_trace sample_env sample_sweep [("dry_run", VBool true)]);
    reflexivity.
Defined.

Lemma exit_code_decides_witness :
  (exists w', run_oskar_sim_interf sample_env (VStr "oskar_sim_interferometer") sample_ini
                sample_cwd (VBool false) world_with_ini = (Ret false, w')
              /\ launches w'
                 = launches world_with_ini
                   ++ [(["oskar_sim_interferometer"; path_str sample_ini], path_str sample_cwd)])
  /\ (exists w', run_oskar_sim_beam sample_env (VStr "oskar_sim_interferometer") sample_ini
                   sample_cwd (VBool false) world_with_ini = (Ret false, w')
                 /\ launches w'
                    = launches world_with_ini
                      ++ [(["oskar_sim_interferometer"; path_str sample_ini],
                           path_str sample_cwd)]).
Proof.
  apply (exit_code_decides sample_env "oskar_sim_interferometer" sample_ini sample_cwd
           (VBool false) (mkProc 2 "" "no such file") [] world_with_ini);
    try reflexivity.
  left. vm_compute. eauto.
Defined.

Lemma calibration_command_witness :
  exists w', run_calibrate sample_env (VStr "hyperdrive") (VDict []) (VDict []) sample_cwd
               (VBool false) world_with_ini = (Ret false, w')
             /\ launches w'
                = launches world_with_ini
                  ++ [(["hyperdrive"; "-d sim.ms"; "--source-list None";
                        "-o hyperdrive_solutions.fits"], path_str sample_cwd)].
Proof.
  apply (calibration_command sample_env "hyperdrive" [] [] sample_cwd (VBool false)
           (mkProc 2 "" "no such file") [] world_with_ini); reflexivity.
Defined.

Lemma dry_run_reports_success_witness :
  (exists w', run_oskar_sim_interf sample_env (VStr "oskar_sim_interferometer") sample_ini
                sample_cwd (VBool true) world_with_ini = (Ret true, w')
              /\ procs w' = procs world_with_ini)
  /\ (exists w', run_oskar_sim_beam sample_env (VStr "oskar_sim_interferometer") sample_ini
                   sample_cwd (VBool true) world_with_ini = (Ret true, w')
                 /\ procs w' = procs world_with_ini).
Proof.
  apply dry_run_reports_success; try reflexivity. left. vm_compute. eauto.
Defined.

Lemma pattern_without_fields_witness :
  run_directory sample_env (VDict []) (VStr "images") (path_of_string "out") (VStr "MWA")
    (VStr "model_a.osm") (VStr "pc1") tt
  = (Ret (path_join (path_of_string "out") "images"), tt).
Proof. apply pattern_without_fields; reflexivity. Defined.


Lemma beam_override_key_witness :
  runs_once ["oskar_sim_beam_pattern"; "out/beam.ini"] (path_of_string "out")
    (beam_stage sample_env (VDict []) (VDict []) (VDict [])
       (VDict [("oskar_sim_beam_pattern", VStr "/opt/oskar/bin/oskar_sim_beam_pattern")])
       sample_tel sample_pc (VStr "beam.ini") (path_of_string "out") (path_of_string "/proj"))
    world_with_a_process.
Proof.
  destruct (beam_override_key sample_env [] [] (VDict [])
              [("oskar_sim_beam_pattern", VStr "/opt/oskar/bin/oskar_sim_beam_pattern")]
              [] sample_tel VNone sample_pc VNone
              (path_of_string "out") (path_of_string "/proj")) as [_ H].
  destruct (H eq_refl (mkProc 0 "" "") [] world_with_a_process eq_refl eq_refl) as (Hbeam & _).
  apply (Hbeam "beam.ini" sample_beam_tree "oskar_sim_beam_pattern").
  - vm_compute. reflexivity.
  - vm_compute. reflexivity.
  - reflexivity.
Defined.
